(** * Tiled non-maximum suppression (keras_hub/src/layers/modeling/non_max_supression.py)

    A shallow embedding of [non_max_suppression] and of the helpers it is
    built from, of [mask_invalid_detections] and of the layer
    [NonMaxSuppression] that calls both, followed by the properties of the
    selection and of the dictionary the layer returns.

    Conventions of the embedding.
    - Tensor elements are exact rationals ([Q]); rounding of the float32
      arithmetic is not modelled.  [EPSILON] is the rational 1/10^8.
    - A tensor of shape [batch, n, 4] is a [list (list Box)], one inner list
      per image; a tensor of shape [batch, n, m] is a list of matrices, each
      a list of rows.  Operations that are vectorised over the batch in the
      source are [map]s over the outer list; the two places where the source
      reduces over the batch ([ops.min] in [_loop_cond], [ops.any] in
      [_self_suppression]) reduce over the outer list here as well.
    - [ops.cast(mask, dtype) * x] with a boolean mask selects [x] or zero;
      it is written [mask_mul].
    - Sizes, positions and the int32 counters are natural numbers (they are
      bounded by the number of boxes); [tile_size] is an integer at the
      entry point, where the source divides by it.
    - Failures of the array library that the claims depend on are results:
      the reshape that cannot infer a dimension, a negative pad width, the
      reduction of an empty array, [top_k] past the axis.
    - [ops.while_loop] without a known trip count takes fuel and reports
      [OutOfFuel] when it is exhausted.
    - A bounding-box dictionary is an association list in insertion order;
      its values are Python values ([value]).  [mask_invalid_detections]
      and [call] end in an [outcome]: a result or the exception raised.
      Tensors under a key are covered for the kinds and shapes of the
      bounding-box format; for others the outcome is [OutsideFormat],
      which stands for no behaviour of the source.
    - [keras.utils.bounding_boxes.convert_format] and [ops.sigmoid] are not
      part of the file embedded here; [call] takes them as a record of
      functions ([keras]). *)

From Stdlib Require Import List Bool Arith ZArith QArith Qminmax Lia Lqa.
From Stdlib Require Import Permutation Sorted.
From Stdlib Require String.
Import String.StringSyntax.
Import ListNotations.

Delimit Scope string_scope with string.
Bind Scope string_scope with String.string.

Set Implicit Arguments.

(** ** Errors and results *)

Inductive error : Type :=
| ReshapeError        (* ops.reshape cannot infer the -1 dimension *)
| ZeroDivisionError   (* max(num_boxes, max_output_size) / tile_size *)
| PadError            (* ops.pad with a negative width *)
| EmptyReduction      (* ops.min over a zero-size array *)
| TopKError           (* ops.top_k with k larger than the axis *)
| OutOfFuel.          (* a while loop that did not stop within the fuel *)

Inductive result (A : Type) : Type :=
| Ok (a : A)
| Err (e : error).
Arguments Ok {A} a.
Arguments Err {A} e.

Definition bind {A B : Type} (r : result A) (k : A -> result B) : result B :=
  match r with
  | Ok a => k a
  | Err e => Err e
  end.

Notation "x <- c ;; k" := (bind c (fun x => k))
  (at level 61, c at next level, right associativity).

(** ** Numbers *)

Open Scope Q_scope.

Definition EPSILON : Q := 1 # 100000000.

Definition Qlt_bool (x y : Q) : bool := negb (Qle_bool y x).

(** [ops.cast(b, dtype) * x] *)
Definition mask_mul (b : bool) (x : Q) : Q := if b then x else 0.

(** [score_threshold] is a Python float; the source tests it against
    [float("-inf")]. *)
Inductive threshold : Type :=
| NegInf
| Finite (q : Q).

(** [scores > score_threshold] *)
Definition above (thr : threshold) (s : Q) : bool :=
  match thr with
  | NegInf => true
  | Finite q => Qlt_bool q s
  end.

(** ** Lists as tensors *)

Definition zip_with {A B C : Type} (f : A -> B -> C) (l1 : list A) (l2 : list B)
  : list C :=
  map (fun p => f (fst p) (snd p)) (combine l1 l2).

Definition qsum (l : list Q) : Q := fold_right Qplus 0 l.

(** Maximum of a non-empty list (reductions in the source run over an axis
    of size [tile_size >= 1]). *)
Fixpoint qmax_list (l : list Q) : Q :=
  match l with
  | [] => 0
  | [x] => x
  | x :: l' => Qmax x (qmax_list l')
  end.

Definition Matrix : Type := list (list Q).

Definition ncols (M : Matrix) : nat :=
  match M with
  | [] => 0%nat
  | r :: _ => length r
  end.

Definition column (c : nat) (M : Matrix) : list Q :=
  map (fun row => nth c row 0) M.

(** [ops.max(iou, 1)]: for every column, the maximum over the rows. *)
Definition col_max (M : Matrix) : list Q :=
  map (fun c => qmax_list (column c M)) (seq 0 (ncols M)).

(** [ops.sum(iou, 1)] *)
Definition col_sum (M : Matrix) : list Q :=
  map (fun c => qsum (column c M)) (seq 0 (ncols M)).

(** [ops.sum(iou, [1, 2])] *)
Definition matrix_sum (M : Matrix) : Q := qsum (map qsum M).

(** [ops.reshape(flags, [batch, -1, 1]) * iou]: row [r] is multiplied by
    [flags[r]]. *)
Definition scale_rows (flags : list bool) (M : Matrix) : Matrix :=
  zip_with (fun f row => map (mask_mul f) row) flags M.

(** ** Boxes *)

Record Box : Type := mkBox { ymin : Q; xmin : Q; ymax : Q; xmax : Q }.

Definition zero_box : Box := mkBox 0 0 0 0.

(** [mask * box], the mask broadcast over the four coordinates. *)
Definition box_scale (b : bool) (x : Box) : Box :=
  mkBox (mask_mul b (ymin x)) (mask_mul b (xmin x))
        (mask_mul b (ymax x)) (mask_mul b (xmax x)).

(** [ops.any(box > 0, [2])] *)
Definition box_positive (x : Box) : bool :=
  Qlt_bool 0 (ymin x) || Qlt_bool 0 (xmin x)
  || Qlt_bool 0 (ymax x) || Qlt_bool 0 (xmax x).

Definition count_positive (l : list Box) : nat :=
  length (filter box_positive l).

(** ** [_bbox_overlap] *)

Definition box_area (a : Box) : Q := (ymax a - ymin a) * (xmax a - xmin a).

(** One entry of the matrix [_bbox_overlap] returns. *)
Definition iou_box (a b : Box) : Q :=
  let i_xmin := Qmax (xmin a) (xmin b) in
  let i_xmax := Qmin (xmax a) (xmax b) in
  let i_ymin := Qmax (ymin a) (ymin b) in
  let i_ymax := Qmin (ymax a) (ymax b) in
  let i_area := Qmax (i_xmax - i_xmin) 0 * Qmax (i_ymax - i_ymin) 0 in
  let u_area := box_area a + box_area b - i_area + EPSILON in
  i_area / u_area.

Definition bbox_overlap_image (boxes_a boxes_b : list Box) : Matrix :=
  map (fun a => map (fun b => iou_box a b) boxes_b) boxes_a.

Definition _bbox_overlap (boxes_a boxes_b : list (list Box)) : list Matrix :=
  zip_with bbox_overlap_image boxes_a boxes_b.

(** ** [_self_suppression] *)

(** The per-image part of one step: [can_suppress_others], then the rows of
    boxes that a confirmed suppressor covers are cleared. *)
Definition self_suppression_image (iou_threshold : Q) (iou : Matrix) : Matrix :=
  let can_suppress_others :=
    map (fun x => Qlt_bool x iou_threshold) (col_max iou) in
  let keep :=
    map (fun x => Qlt_bool x iou_threshold)
        (col_max (scale_rows can_suppress_others iou)) in
  scale_rows keep iou.

(** Loop state of the inner [ops.while_loop]:
    [(iou, loop_condition, iou_sum)]; [iou_threshold] is passed through
    unchanged and is a parameter here. *)
Definition self_state : Type := (list Matrix * bool * list Q)%type.

Definition _self_suppression (iou_threshold : Q) (st : self_state) : self_state :=
  let '(iou, _, iou_sum) := st in
  let iou_after_suppression := map (self_suppression_image iou_threshold) iou in
  let iou_sum_new := map matrix_sum iou_after_suppression in
  (iou_after_suppression,
   existsb (fun d => Qlt_bool iou_threshold d)
           (zip_with Qminus iou_sum iou_sum_new),
   iou_sum_new).

(** [ops.while_loop(cond, body, s)] with fuel; the second component counts
    the executions of [body]. *)
Fixpoint while_loop {S : Type} (fuel : nat) (cond : S -> bool) (body : S -> S)
  (s : S) : option (S * nat) :=
  if cond s then
    match fuel with
    | O => None
    | Datatypes.S f =>
        match while_loop f cond body (body s) with
        | Some (s', k) => Some (s', Datatypes.S k)
        | None => None
        end
    end
  else Some (s, O).

Definition self_cond (st : self_state) : bool := snd (fst st).

(** ** Tiles *)

(** [ops.take_along_axis(boxes, slice_index, axis=1)] for the indices
    [idx * tile_size .. (idx + 1) * tile_size - 1]. *)
Definition tile (idx tile_size : nat) (boxes : list Box) : list Box :=
  firstn tile_size (skipn (idx * tile_size) boxes).

(** [tile(box_slice) * mask + reshape(boxes) * (1 - mask)]: tile [idx] is
    replaced by [box_slice], the others are kept. *)
Definition update_tile (idx tile_size : nat) (boxes box_slice : list Box)
  : list Box :=
  firstn (idx * tile_size) boxes ++ box_slice
  ++ skipn (S idx * tile_size) boxes.

(** ** [_cross_suppression] *)

Definition cross_suppression_image (iou_threshold : Q) (inner_idx tile_size : nat)
  (boxes box_slice : list Box) : list Box :=
  let new_slice := tile inner_idx tile_size boxes in
  let iou := bbox_overlap_image new_slice box_slice in
  zip_with (fun c b =>
              box_scale (forallb (fun x => Qlt_bool x iou_threshold) (column c iou)) b)
           (seq 0 (length box_slice)) box_slice.

Definition _cross_suppression (boxes box_slice : list (list Box))
  (iou_threshold : Q) (inner_idx tile_size : nat) : list (list Box) :=
  zip_with (cross_suppression_image iou_threshold inner_idx tile_size)
           boxes box_slice.

(** ** [_suppression_loop_body] *)

(** [iou *= cast(logical_and(mask, iou >= iou_threshold))] with
    [mask[r][c] = (c > r)]. *)
Definition mask_upper (iou_threshold : Q) (iou : Matrix) : Matrix :=
  zip_with (fun r row =>
              zip_with (fun c x =>
                          mask_mul ((r <? c)%nat && Qle_bool iou_threshold x) x)
                       (seq 0 (length row)) row)
           (seq 0 (length iou)) iou.

(** [iou = _bbox_overlap(box_slice, box_slice)] after the masking, for the
    whole batch: the matrices the inner loop starts from. *)
Definition initial_iou (iou_threshold : Q) (box_slice : list (list Box))
  : list Matrix :=
  map (mask_upper iou_threshold) (_bbox_overlap box_slice box_slice).

(** [box_slice *= 1 - cast(sum(suppressed_iou, 1) > 0)] *)
Definition drop_suppressed (suppressed_iou : Matrix) (box_slice : list Box)
  : list Box :=
  zip_with (fun s b => box_scale (negb (Qlt_bool 0 s)) b)
           (col_sum suppressed_iou) box_slice.

Definition loop_state : Type := (list (list Box) * list nat * nat)%type.

Definition _suppression_loop_body (fuel : nat) (iou_threshold : Q)
  (tile_size : nat) (st : loop_state) : result loop_state :=
  let '(boxes, output_size, idx) := st in
  let box_slice := map (tile idx tile_size) boxes in
  let box_slice :=
    fold_left (fun sl inner_idx =>
                 _cross_suppression boxes sl iou_threshold inner_idx tile_size)
              (seq 0 idx) box_slice in
  let iou := initial_iou iou_threshold box_slice in
  match while_loop fuel self_cond (_self_suppression iou_threshold)
                   (iou, true, map matrix_sum iou) with
  | None => Err OutOfFuel
  | Some ((suppressed_iou, _, _), _) =>
      let box_slice := zip_with drop_suppressed suppressed_iou box_slice in
      let boxes := zip_with (update_tile idx tile_size) boxes box_slice in
      let output_size :=
        zip_with (fun o sl => (o + count_positive sl)%nat) output_size box_slice in
      Ok (boxes, output_size, Datatypes.S idx)
  end.

(** ** The outer loop *)

(** [ops.min(output_size)] *)
Definition min_list (l : list nat) : result nat :=
  match l with
  | [] => Err EmptyReduction
  | x :: l' => Ok (fold_left Nat.min l' x)
  end.

(** [_loop_cond]; [num_iterations - idx] is [remaining]. *)
Definition _loop_cond (max_output_size remaining : nat) (st : loop_state)
  : result bool :=
  mn <- min_list (snd (fst st)) ;;
  Ok ((mn <? max_output_size)%nat && (0 <? remaining)%nat).

(** The outer [ops.while_loop].  [idx] grows by one per step and the loop
    stops at [num_iterations], so the recursion is on the tiles left. *)
Fixpoint suppression_loop (fuel : nat) (iou_threshold : Q) (tile_size : nat)
  (max_output_size remaining : nat) (st : loop_state) : result loop_state :=
  c <- _loop_cond max_output_size remaining st ;;
  if c then
    match remaining with
    | O => Ok st
    | Datatypes.S r =>
        st' <- _suppression_loop_body fuel iou_threshold tile_size st ;;
        suppression_loop fuel iou_threshold tile_size max_output_size r st'
    end
  else Ok st.

(** ** Sorting primitives *)

Fixpoint insert_by_score (p : Q * nat) (l : list (Q * nat)) : list (Q * nat) :=
  match l with
  | [] => [p]
  | q :: l' =>
      if Qle_bool (fst p) (fst q) then p :: q :: l'
      else q :: insert_by_score p l'
  end.

(** Modelled from the spec: [ops.argsort] is the array library's primitive;
    section 4.4 fixes it as the ascending stable order, which is the
    insertion sort below (an element goes in front of the first one that is
    not smaller, so equal scores keep their original order). *)
Definition argsort (scores : list Q) : list nat :=
  map snd (fold_right insert_by_score []
                      (combine scores (seq 0 (length scores)))).

Fixpoint insert_desc (x : nat) (l : list nat) : list nat :=
  match l with
  | [] => [x]
  | y :: l' => if (y <=? x)%nat then x :: y :: l' else y :: insert_desc x l'
  end.

(** [ops.top_k(x, k)[0]]: the [k] largest values, largest first. *)
Definition top_k (l : list nat) (k : nat) : list nat :=
  firstn k (fold_right insert_desc [] l).

(** ** [_sort_scores_and_boxes] *)

Definition _sort_scores_and_boxes (scores : list (list Q))
  (boxes : list (list Box))
  : list (list Q) * list (list Box) * list (list nat) :=
  let sorted_scores_indices := map (fun s => rev (argsort s)) scores in
  let sorted_scores :=
    zip_with (fun s ix => map (fun i => nth i s 0) ix)
             scores sorted_scores_indices in
  let sorted_boxes :=
    zip_with (fun b ix => map (fun i => nth i b zero_box) ix)
             boxes sorted_scores_indices in
  (sorted_scores, sorted_boxes, sorted_scores_indices).

(** ** [non_max_suppression] *)

(** The score pre-filter, skipped when [score_threshold] is [-inf]. *)
Definition score_filter (score_threshold : threshold) (scores : list (list Q))
  (boxes : list (list Box)) : list (list Q) * list (list Box) :=
  match score_threshold with
  | NegInf => (scores, boxes)
  | Finite _ =>
      let score_mask := map (map (above score_threshold)) scores in
      (zip_with (zip_with (fun s m => mask_mul m s)) scores score_mask,
       zip_with (zip_with (fun b m => box_scale m b)) boxes score_mask)
  end.

(** [math.ceil(a / b)] for integers [a] and [b <> 0]. *)
Definition ceil_div (a b : Z) : Z := (- ((- a) / b))%Z.

(** [num_boxes_after_padding - top_k(kept * arange(n, 0, -1), k)[0]],
    clipped to [num_boxes - 1]. *)
Definition recover_positions (num_boxes num_boxes_after_padding
  max_output_size : nat) (selected_boxes : list Box) : list nat :=
  let weights :=
    zip_with (fun b w => ((if box_positive b then 1 else 0) * w)%nat)
             selected_boxes (rev (seq 1 num_boxes_after_padding)) in
  map (fun v => Nat.min (num_boxes_after_padding - v) (num_boxes - 1))
      (top_k weights max_output_size).

(** The code after the outer loop: [num_valid], the recovered positions,
    their translation through [sorted_indices], and the masking of the
    slots past [num_valid]. *)
Definition recover_indices (num_boxes num_boxes_after_padding max_output_size
  batch_size : nat) (sorted_indices : list (list nat)) (st : loop_state)
  : result (list (list nat) * list nat) :=
  let '(selected_boxes, output_size, _) := st in
  let num_valid := map (fun o => Nat.min o max_output_size) output_size in
  if (num_boxes_after_padding <? max_output_size)%nat then Err TopKError else
  let idx :=
    map (recover_positions num_boxes num_boxes_after_padding max_output_size)
        selected_boxes in
  let flat := concat sorted_indices in
  let idx :=
    zip_with (fun i row => map (fun p => nth (p + i * num_boxes) flat 0%nat) row)
             (seq 0 batch_size) idx in
  let idx :=
    zip_with (fun nv row =>
                zip_with (fun j x => if (j <? nv)%nat then x else 0%nat)
                         (seq 0 max_output_size) row)
             num_valid idx in
  Ok (idx, num_valid).

(** [pad] of the source, once it is known not to be negative. *)
Definition pad_width (num_boxes max_output_size : nat) (tile_size : Z) : Z :=
  (ceil_div (Z.max (Z.of_nat num_boxes) (Z.of_nat max_output_size)) tile_size
   * tile_size - Z.of_nat num_boxes)%Z.

(** [boxes] has shape [batch, num_boxes, 4] and [scores] has shape
    [batch, num_boxes]; [num_boxes] is [boxes.shape[-2]].  The result is
    [(idx, num_valid)]. *)
Definition non_max_suppression (fuel : nat) (num_boxes : nat)
  (boxes : list (list Box)) (scores : list (list Q)) (max_output_size : nat)
  (iou_threshold : Q) (score_threshold : threshold) (tile_size : Z)
  : result (list (list nat) * list nat) :=
  (* ops.reshape(boxes, [-1, num_boxes, 4]) *)
  if (num_boxes =? 0)%nat then Err ReshapeError else
  let batch_size := length boxes in
  let '(scores, boxes) := score_filter score_threshold scores boxes in
  let '(_, boxes, sorted_indices) := _sort_scores_and_boxes scores boxes in
  if (tile_size =? 0)%Z then Err ZeroDivisionError else
  let pad := pad_width num_boxes max_output_size tile_size in
  if (pad <? 0)%Z then Err PadError else
  let boxes := map (fun b => b ++ repeat zero_box (Z.to_nat pad)) boxes in
  let num_boxes_after_padding := (num_boxes + Z.to_nat pad)%nat in
  let num_iterations :=
    Z.to_nat (Z.of_nat num_boxes_after_padding / tile_size) in
  st <- suppression_loop fuel iou_threshold (Z.to_nat tile_size)
          max_output_size num_iterations
          (boxes, repeat 0%nat batch_size, 0%nat) ;;
  recover_indices num_boxes num_boxes_after_padding max_output_size batch_size
                  sorted_indices st.

(* ================================================================== *)
(** * [mask_invalid_detections] and the layer *)

(** ** Python values and exceptions *)

(** The values a bounding-box dictionary holds.  Tensors are typed by the
    shapes of the Keras bounding-box format: boxes are a float tensor of
    shape [batch, n, 4], confidences a float tensor of shape [batch, n],
    labels an integer tensor of shape [batch, n], [num_detections] an
    integer tensor of shape [batch].  [PyList] and [PyNone] are the two
    other kinds the source tests for. *)
#[warnings="-register-all"]
Inductive value : Type :=
| PyNone
| PyList (items : list value)
| PyDict (items : list (String.string * value))
| FloatBoxes (x : list (list Box))
| FloatTensor (x : list (list Q))
| IntTensor (x : list (list Z))
| IntVector (x : list Z).

(** A Python [dict], in insertion order. *)
Definition dict : Type := list (String.string * value).

(** The [ValueError]s the source raises, by the check that raises them. *)
Inductive value_error : Type :=
| ExpectedBoxesAndLabels   (* not a dict, or no 'boxes' or no 'labels' key *)
| ExpectedNumDetections    (* no 'num_detections' key *)
| LabelsMustBeList         (* 'boxes' is a list and 'labels' is not *)
| ListsMustHaveSameLength  (* both are lists of different lengths *)
| ImagesRequired           (* relative format and images is None *)
| ShapeUnpack.             (* height, width, _ = ops.shape(images) *)

Inductive exception : Type :=
| ValueError (cause : value_error)
| AttributeError           (* .shape or .dtype of a list, a dict or None *)
| LibraryError (e : error) (* raised by non_max_suppression or an op *)
| OutsideFormat.           (* not an exception of the source: a tensor of a
                              kind or of a shape that the bounding-box
                              format does not put under this key; what
                              broadcasting then does is not part of the
                              embedding *)

Inductive outcome (A : Type) : Type :=
| Return (a : A)
| Raise (e : exception).
Arguments Return {A} a.
Arguments Raise {A} e.

Definition and_then {A B : Type} (r : outcome A) (k : A -> outcome B)
  : outcome B :=
  match r with
  | Return a => k a
  | Raise e => Raise e
  end.

Notation "x <~ c ;; k" := (and_then c (fun x => k))
  (at level 61, c at next level, right associativity).

(** A result of the core function, as an outcome of the layer. *)
Definition lift {A : Type} (r : result A) : outcome A :=
  match r with
  | Ok a => Return a
  | Err e => Raise (LibraryError e)
  end.

(** ** Dictionaries *)

(** [d.get(k)] *)
Fixpoint dict_get (k : String.string) (d : dict) : option value :=
  match d with
  | [] => None
  | (k', v) :: d' => if String.eqb k k' then Some v else dict_get k d'
  end.

(** [k in d] *)
Definition dict_has (k : String.string) (d : dict) : bool :=
  match dict_get k d with
  | Some _ => true
  | None => false
  end.

(** [d[k] = v]: the entry is replaced where it stands, or appended. *)
Fixpoint dict_set (k : String.string) (v : value) (d : dict) : dict :=
  match d with
  | [] => [(k, v)]
  | (k', v') :: d' =>
      if String.eqb k k' then (k, v) :: d' else (k', v') :: dict_set k v d'
  end.

(** ** [mask_invalid_detections] *)

(** [boxes.shape[1]] *)
Definition width {A : Type} (x : list (list A)) : nat :=
  match x with
  | [] => 0%nat
  | row :: _ => length row
  end.

(** Whether a nested list is a tensor of shape [batch, n].  The
    operations below work row by row and slot by slot; they stand for the
    source's only on tensors of the shapes of the format, so that nothing
    is broadcast. *)
Definition has_shape {A : Type} (batch n : nat) (x : list (list A)) : bool :=
  (length x =? batch)%nat && forallb (fun row => (length row =? n)%nat) x.

(** [arange(boxes.shape[1]) < num_detections[:, None]] *)
Definition detection_mask (n : nat) (num_detections : list Z)
  : list (list bool) :=
  map (fun count => map (fun j => (Z.of_nat j <? count)%Z) (seq 0 n))
      num_detections.

(** [ops.where(mask, x, -ops.ones_like(x))] *)
Definition where_mask {A : Type} (mask : list (list bool)) (x : list (list A))
  (minus_one : A) : list (list A) :=
  zip_with (zip_with (fun (keep : bool) v => if keep then v else minus_one)) mask x.

(** The same for boxes, the mask repeated over the four coordinates. *)
Definition box_where (keep : bool) (b : Box) : Box :=
  mkBox (if keep then ymin b else - (1)) (if keep then xmin b else - (1))
        (if keep then ymax b else - (1)) (if keep then xmax b else - (1)).

Definition where_boxes (mask : list (list bool)) (x : list (list Box))
  : list (list Box) :=
  zip_with (zip_with box_where) mask x.

Definition mask_invalid_detections (bounding_boxes : value) : outcome dict :=
  match bounding_boxes with
  | PyDict d =>
      if negb (dict_has "labels" d) || negb (dict_has "boxes" d)
      then Raise (ValueError ExpectedBoxesAndLabels) else
      if negb (dict_has "num_detections" d)
      then Raise (ValueError ExpectedNumDetections) else
      let boxes := match dict_get "boxes" d with Some v => v | None => PyNone end in
      let labels := match dict_get "labels" d with Some v => v | None => PyNone end in
      _ <~ match boxes, labels with
           | PyList bs, PyList ls =>
               if (length bs =? length ls)%nat then Return tt
               else Raise (ValueError ListsMustHaveSameLength)
           | PyList _, _ => Raise (ValueError LabelsMustBeList)
           | _, _ => Return tt
           end ;;
      let confidence :=
        match dict_get "confidence" d with Some v => v | None => PyNone end in
      let num_detections :=
        match dict_get "num_detections" d with Some v => v | None => PyNone end in
      match boxes with
      | FloatBoxes b =>
          match num_detections with
          | IntVector n =>
              let batch := length n in
              let slots := width b in
              if negb (has_shape batch slots b) then Raise OutsideFormat else
              let mask := detection_mask slots n in
              labels <~ match labels with
                        | IntTensor l =>
                            if has_shape batch slots l
                            then Return (IntTensor (where_mask mask l (-1)%Z))
                            else Raise OutsideFormat
                        | FloatTensor l =>
                            if has_shape batch slots l
                            then Return (FloatTensor (where_mask mask l (- (1))))
                            else Raise OutsideFormat
                        | _ => Raise OutsideFormat
                        end ;;
              confidence <~ match confidence with
                            | PyNone => Return None
                            | FloatTensor c =>
                                if has_shape batch slots c
                                then Return (Some (FloatTensor
                                                     (where_mask mask c (- (1)))))
                                else Raise OutsideFormat
                            | IntTensor c =>
                                if has_shape batch slots c
                                then Return (Some (IntTensor
                                                     (where_mask mask c (-1)%Z)))
                                else Raise OutsideFormat
                            | _ => Raise OutsideFormat
                            end ;;
              let boxes := where_boxes mask b in
              let result := d in
              let result := dict_set "boxes" (FloatBoxes boxes) result in
              let result := dict_set "labels" labels result in
              let result :=
                match confidence with
                | Some c => dict_set "confidence" c result
                | None => result
                end in
              Return result
          | PyNone | PyList _ | PyDict _ => Raise AttributeError
          | _ => Raise OutsideFormat
          end
      | PyNone | PyList _ | PyDict _ => Raise AttributeError
      | _ => Raise OutsideFormat
      end
  | _ => Raise (ValueError ExpectedBoxesAndLabels)
  end.

(** ** The layer [NonMaxSuppression] *)

(** The attributes [__init__] stores. *)
Module NonMaxSuppression.
Record t : Type := make
  { bounding_box_format : String.string;
    from_logits : bool;
    iou_threshold : Q;
    confidence_threshold : threshold;
    max_detections : nat }.
End NonMaxSuppression.

(** The two functions of Keras that [call] uses and that are not part of
    this file: [keras.utils.bounding_boxes.convert_format(boxes, source,
    target, height, width)], which may raise, and [ops.sigmoid]. *)
Record keras : Type :=
  { convert_format :
      list (list Box) -> String.string -> String.string ->
      option nat -> option nat -> outcome (list (list Box));
    sigmoid : Q -> Q }.

(** [sub in s] for strings. *)
Fixpoint contains (sub s : String.string) : bool :=
  String.prefix sub s
  || match s with
     | String.EmptyString => false
     | String.String _ s' => contains sub s'
     end.

(** [ops.argmax(x, axis=-1)] on one vector: the first position of the
    maximum. *)
Fixpoint argmax_from (best : Q) (best_i i : nat) (l : list Q) : nat :=
  match l with
  | [] => best_i
  | x :: l' =>
      if Qlt_bool best x then argmax_from x i (S i) l'
      else argmax_from best best_i (S i) l'
  end.

Definition argmax (l : list Q) : nat :=
  match l with
  | [] => 0%nat
  | x :: l' => argmax_from x 0 1 l'
  end.

(** [ops.take_along_axis(x, idx, axis=1)], the index broadcast over the
    trailing axis. *)
Definition take_along_axis {A : Type} (x : list (list A)) (idx : list (list nat))
  (d : A) : list (list A) :=
  zip_with (fun row ix => map (fun i => nth i row d) ix) x idx.

(** [call].  [images] is given by its shape, the only thing the source
    reads of it; [num_boxes] is [box_prediction.shape[1]] and [num_classes]
    is [class_prediction.shape[2]]. *)
Definition call (K : keras) (fuel num_boxes num_classes : nat)
  (self : NonMaxSuppression.t)
  (box_prediction : list (list Box)) (class_prediction : list (list (list Q)))
  (images : option (list nat)) : outcome dict :=
  let format := NonMaxSuppression.bounding_box_format self in
  if contains "rel" format && match images with None => true | Some _ => false end
  then Raise (ValueError ImagesRequired) else
  target <~ (if contains "rel" format then
               match images with
               | Some [height; width; _] =>
                   Return ("rel_yxyx"%string, Some height, Some width)
               | _ => Raise (ValueError ShapeUnpack)
               end
             else Return ("yxyx"%string, None, None)) ;;
  let '(target_format, height, width) := target in
  box_prediction <~ convert_format K box_prediction format target_format
                                   height width ;;
  let class_prediction :=
    if NonMaxSuppression.from_logits self
    then map (map (map (sigmoid K))) class_prediction
    else class_prediction in
  (* ops.max(class_prediction, axis=-1) *)
  if (num_classes =? 0)%nat then Raise (LibraryError EmptyReduction) else
  let confidence_prediction := map (map qmax_list) class_prediction in
  selection <~ lift (non_max_suppression fuel num_boxes box_prediction
                       confidence_prediction
                       (NonMaxSuppression.max_detections self)
                       (NonMaxSuppression.iou_threshold self)
                       (NonMaxSuppression.confidence_threshold self) 512) ;;
  let '(idx, valid_det) := selection in
  let box_prediction := take_along_axis box_prediction idx zero_box in
  (* ops.reshape(box_prediction, (-1, max_detections, 4)) *)
  if (NonMaxSuppression.max_detections self =? 0)%nat
  then Raise (LibraryError ReshapeError) else
  let confidence_prediction := take_along_axis confidence_prediction idx 0 in
  let class_prediction := take_along_axis class_prediction idx [] in
  box_prediction <~ convert_format K box_prediction target_format format
                                   height width ;;
  let bounding_boxes :=
    [("boxes"%string, FloatBoxes box_prediction);
     ("confidence"%string, FloatTensor confidence_prediction);
     ("labels"%string,
      IntTensor (map (map (fun c => Z.of_nat (argmax c))) class_prediction));
     ("num_detections"%string, IntVector (map Z.of_nat valid_det))] in
  mask_invalid_detections (PyDict bounding_boxes).

(* ================================================================== *)
(** * Notions used in the statements and proofs *)

(** A matrix with [n] rows of [n] entries. *)
Definition square (n : nat) (M : Matrix) : Prop :=
  length M = n /\ Forall (fun r => length r = n) M.

(** The literal zero that [mask_mul false] produces. *)
Definition Qis0 (x : Q) : bool :=
  match x with
  | Qmake Z0 xH => true
  | _ => false
  end.

(** Rows that still hold an entry other than the literal zero. *)
Definition live_row (r : list Q) : bool := negb (forallb Qis0 r).

(** Number of live rows: the measure that bounds the inner loop. *)
Definition active (M : Matrix) : nat := length (filter live_row M).

(** [b] bounds the live rows of every image that is still changing. *)
Definition budget (iou_threshold : Q) (n b : nat) (iou : list Matrix) : Prop :=
  Forall (fun M => square n M
                   /\ (self_suppression_image iou_threshold M <> M ->
                       (active M <= b)%nat)) iou.

(** Row [r] of [mask_upper]. *)
Definition mask_row (iou_threshold : Q) (r : nat) (row : list Q) : list Q :=
  zip_with (fun c x => mask_mul ((r <? c)%nat && Qle_bool iou_threshold x) x)
           (seq 0 (length row)) row.

(** What [_suppression_loop_body] does to one image when the inner loop
    runs [k] steps: the slice after the cross-suppression by the tiles
    before it ([cross_image]), after the self-suppression ([body_slice]),
    and the array with that slice written back ([body_image]). *)
Definition cross_image (t : Q) (tile_size idx : nat) (b : list Box) : list Box :=
  fold_left (fun sl inner_idx => cross_suppression_image t inner_idx tile_size b sl)
            (seq 0 idx) (tile idx tile_size b).

Definition self_image (k : nat) (t : Q) (s : list Box) : list Box :=
  drop_suppressed
    (Nat.iter k (self_suppression_image t) (mask_upper t (bbox_overlap_image s s)))
    s.

Definition body_slice (k : nat) (t : Q) (tile_size idx : nat) (b : list Box)
  : list Box :=
  self_image k t (cross_image t tile_size idx b).

Definition body_image (k : nat) (t : Q) (tile_size idx : nat) (b : list Box)
  : list Box :=
  update_tile idx tile_size b (body_slice k t tile_size idx b).

(** Number of steps the inner loop takes on a batch of slices. *)
Definition inner_steps (fuel : nat) (t : Q) (slices : list (list Box)) : nat :=
  match while_loop fuel self_cond (_self_suppression t)
                   (initial_iou t slices, true,
                    map matrix_sum (initial_iou t slices)) with
  | Some (_, k) => k
  | None => O
  end.

(** [x'] is [x] or has been cleared. *)
Definition dimmed (x' x : Box) : Prop := x' = x \/ x' = zero_box.

(** [reach idx K b f]: [f] is what image [b] becomes once the tiles
    [idx .. K-1] have been processed, whatever the number of inner steps
    spent on each of them. *)
Inductive reach (t : Q) (tile_size : nat) : nat -> nat -> list Box -> list Box -> Prop :=
| reach_done (idx : nat) (b : list Box) : reach t tile_size idx idx b b
| reach_step (idx K k : nat) (b f : list Box) :
    reach t tile_size (S idx) K (body_image k t tile_size idx b) f ->
    reach t tile_size idx K b f.

(** Boxes with a positive coordinate among the first [idx] tiles: the value
    of [output_size] after [idx] steps of the outer loop. *)
Definition count_prefix (tile_size idx : nat) (b : list Box) : nat :=
  count_positive (firstn (idx * tile_size) b).

(** Positions of the boxes with a positive coordinate, counted from [s]. *)
Fixpoint kept_from (s : nat) (b : list Box) : list nat :=
  match b with
  | [] => []
  | x :: b' =>
      if box_positive x then s :: kept_from (S s) b' else kept_from (S s) b'
  end.

(** One entry of the array handed to [ops.top_k]. *)
Definition weight (x : Box) (w : nat) : nat :=
  ((if box_positive x then 1 else 0) * w)%nat.

(** [num_valid] of one image whose final array is [f], after [K] tiles. *)
Definition num_valid_image (m tile_size K : nat) (f : list Box) : nat :=
  Nat.min (count_prefix tile_size K f) m.

(** The selection of one image: the first [num_valid] kept positions, read
    through the ranking [r], then zeros. *)
Definition select (m tile_size K : nat) (f : list Box) (r : list nat) : list nat :=
  map (fun p => nth p r 0%nat) (firstn (num_valid_image m tile_size K f) (kept_from 0 f))
  ++ repeat 0%nat (m - num_valid_image m tile_size K f).

(** A well-shaped input of the documented interface: at least one image,
    [num_boxes >= 1] boxes and scores per image, [tile_size > 0],
    [iou_threshold >= 0], and enough fuel for the inner loops. *)
Record well_formed (fuel num_boxes : nat) (boxes : list (list Box))
  (scores : list (list Q)) (iou_threshold : Q) (tile_size : Z) : Prop :=
  { wf_num_boxes : (1 <= num_boxes)%nat;
    wf_batch : boxes <> [];
    wf_batch_scores : length scores = length boxes;
    wf_boxes : Forall (fun b => length b = num_boxes) boxes;
    wf_scores : Forall (fun s => length s = num_boxes) scores;
    wf_tile_size : (0 < tile_size)%Z;
    wf_iou_threshold : 0 <= iou_threshold;
    wf_fuel : (Z.to_nat tile_size <= fuel)%nat }.

(** The pre-filter, the ranking and the ranked boxes of one image. *)
Definition filter_scores_image (thr : threshold) (s : list Q) : list Q :=
  map (fun x => mask_mul (above thr x) x) s.

Definition filter_boxes_image (thr : threshold) (b : list Box) (s : list Q)
  : list Box :=
  zip_with (fun x sc => box_scale (above thr sc) x) b s.

Definition rank_image (thr : threshold) (s : list Q) : list nat :=
  rev (argsort (filter_scores_image thr s)).

Definition sorted_image (thr : threshold) (b : list Box) (s : list Q) : list Box :=
  map (fun i => nth i (filter_boxes_image thr b s) zero_box) (rank_image thr s).

Definition num_boxes_after_padding (N m : nat) (tile_size : Z) : nat :=
  (N + Z.to_nat (pad_width N m tile_size))%nat.

Definition num_iterations (N m : nat) (tile_size : Z) : nat :=
  Z.to_nat (Z.of_nat (num_boxes_after_padding N m tile_size) / tile_size).

(** The array the outer loop starts from: ranked, then padded. *)
Definition padded_image (thr : threshold) (N m : nat) (tile_size : Z)
  (b : list Box) (s : list Q) : list Box :=
  sorted_image thr b s ++ repeat zero_box (Z.to_nat (pad_width N m tile_size)).

Definition padded_boxes (thr : threshold) (N m : nat) (tile_size : Z)
  (boxes : list (list Box)) (scores : list (list Q)) : list (list Box) :=
  zip_with (padded_image thr N m tile_size) boxes scores.

(** [s > score_threshold] *)
Definition exceeds (thr : threshold) (s : Q) : Prop :=
  match thr with
  | NegInf => True
  | Finite q => q < s
  end.

(** [M[r][c]] *)
Definition entry (M : Matrix) (r c : nat) : Q := nth c (nth r M []) 0.

(** Column [r] holds no entry that reaches the threshold: box [r] is a
    confirmed suppressor. *)
Definition confirmed (t : Q) (n : nat) (M : Matrix) (r : nat) : Prop :=
  forall x, (x < n)%nat -> entry M x r < t.

(** Row [p] is untouched, or it was cleared and box [p] is covered by a
    confirmed suppressor whose row is intact. *)
Definition row_state (t : Q) (n : nat) (M0 M : Matrix) (p : nat) : Prop :=
  (forall c, (c < n)%nat -> entry M p c = entry M0 p c)
  \/ ((forall c, (c < n)%nat -> entry M p c = 0)
      /\ exists r, (r < n)%nat /\ confirmed t n M r /\ t <= entry M r p).

(** The invariant of the inner loop, relative to the matrix [M0] it starts
    from. *)
Definition sound (t : Q) (n : nat) (M0 M : Matrix) : Prop :=
  square n M /\ forall p, (p < n)%nat -> row_state t n M0 M p.

(** No two boxes with a positive coordinate among the first [c] positions
    of [f] have an IoU that reaches [t]. *)
Definition no_overlap (t : Q) (c : nat) (f : list Box) : Prop :=
  forall p q, (p < q)%nat -> (q < c)%nat ->
    box_positive (nth p f zero_box) = true ->
    box_positive (nth q f zero_box) = true ->
    iou_box (nth p f zero_box) (nth q f zero_box) < t.

(** Order of the pairs (score, original index) in the ascending stable
    sort: by score, and by index among equal scores. *)
Definition before (p q : Q * nat) : Prop :=
  fst p < fst q \/ (fst p == fst q /\ (snd p < snd q)%nat).

(** A box of height 1 over the interval [[x0, x1]]. *)
Definition strip (x0 x1 : Q) : Box := mkBox 0 x0 1 x1.

(** Five boxes, each shifted by 1 against the previous one and as wide as
    it takes for neighbours to have an IoU of exactly 1/2.  (In float32 the
    boxes of width 3 already do: 4 + 1e-8 rounds to 4.) *)
Definition tie_width : Q := 3 + EPSILON.

Definition tie_chain : list Box :=
  [strip 0 tie_width; strip 1 (1 + tie_width); strip 2 (2 + tie_width);
   strip 3 (3 + tie_width); strip 4 (4 + tie_width)].

Definition chain_scores : list Q := [5 # 10; 4 # 10; 3 # 10; 2 # 10; 1 # 10].

(** An image whose first inner step clears a row of mass above 1/2. *)
Definition busy_image : list Box :=
  [strip 0 4; strip 1 5; strip 2 6; strip 20 21; strip 30 31].

(** ** Notions for the further properties *)

(** A box whose corners are in order. *)
Definition proper (b : Box) : Prop := ymin b <= ymax b /\ xmin b <= xmax b.

(** The two boxes share a region of positive area. *)
Definition overlapping (a b : Box) : Prop :=
  Qmax (xmin a) (xmin b) < Qmin (xmax a) (xmax b)
  /\ Qmax (ymin a) (ymin b) < Qmin (ymax a) (ymax b).

(** The shapes of [boxes] and [scores] alone: at least one image,
    [num_boxes >= 1] boxes and scores per image. *)
Record well_shaped (num_boxes : nat) (boxes : list (list Box))
  (scores : list (list Q)) : Prop :=
  { ws_num_boxes : (1 <= num_boxes)%nat;
    ws_batch : boxes <> [];
    ws_batch_scores : length scores = length boxes;
    ws_boxes : Forall (fun b => length b = num_boxes) boxes;
    ws_scores : Forall (fun s => length s = num_boxes) scores }.

(** Box [k] of an image passes the pre-filter and counts as a detection. *)
Definition qualifies (thr : threshold) (b : list Box) (s : list Q) (k : nat)
  : Prop :=
  exceeds thr (nth k s 0) /\ box_positive (nth k b zero_box) = true.

(** Box [q] of [b] overlaps an earlier box of [b] by at least [t]. *)
Definition covered (t : Q) (b : list Box) (q : nat) : Prop :=
  exists p, (p < q)%nat /\ t <= iou_box (nth p b zero_box) (nth q b zero_box).


(** The box that [mask_invalid_detections] writes into an invalid slot. *)
Definition minus_one_box : Box := mkBox (- (1)) (- (1)) (- (1)) (- (1)).

(** [x'] is [x] with every slot [j >= num_detections[i]] of row [i]
    replaced by [minus_one]. *)
Definition masked {A : Type} (minus_one : A) (num_detections : list Z)
  (x x' : list (list A)) : Prop :=
  length x' = length x
  /\ forall i, (i < length x)%nat ->
       length (nth i x' []) = length (nth i x [])
       /\ forall j, (j < length (nth i x []))%nat ->
            nth j (nth i x' []) minus_one
            = if (Z.of_nat j <? nth i num_detections 0%Z)%Z
              then nth j (nth i x []) minus_one
              else minus_one.

(** A tensor of shape [batch, n]. *)
Definition shaped {A : Type} (batch n : nat) (x : list (list A)) : Prop :=
  length x = batch /\ Forall (fun row => length row = n) x.

(** What [mask_invalid_detections] writes under 'labels' or 'confidence'
    for a tensor of shape [batch, n] of one of the two kinds it finds
    there, [batch] being the length of [num_detections]. *)
Definition masked_value (n : nat) (num_detections : list Z) (v : value)
  : option value :=
  let mask := detection_mask n num_detections in
  match v with
  | IntTensor x =>
      if has_shape (length num_detections) n x
      then Some (IntTensor (where_mask mask x (-1)%Z)) else None
  | FloatTensor x =>
      if has_shape (length num_detections) n x
      then Some (FloatTensor (where_mask mask x (- (1)))) else None
  | _ => None
  end.

(** The argument is a dictionary with the three keys the function asks
    for. *)
Definition has_required_keys (v : value) : bool :=
  match v with
  | PyDict d =>
      dict_has "boxes" d && dict_has "labels" d && dict_has "num_detections" d
  | _ => false
  end.

(** The format [call] converts the boxes to, and the image size it
    passes to the conversion, when it gets that far. *)
Definition conversion_target (format : String.string)
  (images : option (list nat))
  : option (String.string * option nat * option nat) :=
  if contains "rel" format then
    match images with
    | Some [height; width; _] =>
        Some ("rel_yxyx"%string, Some height, Some width)
    | _ => None
    end
  else Some ("yxyx"%string, None, None).

(** The class scores [call] works with. *)
Definition class_scores (K : keras) (self : NonMaxSuppression.t)
  (class_prediction : list (list (list Q))) : list (list (list Q)) :=
  if NonMaxSuppression.from_logits self
  then map (map (map (sigmoid K))) class_prediction
  else class_prediction.

(** For the examples: a conversion between 'xyxy' and 'yxyx', which
    exchanges the two coordinates of each corner, and a layer that uses
    it.  [from_logits] is off in the examples, so that the function given
    for the sigmoid is not applied. *)
Definition swap_corners (b : Box) : Box :=
  mkBox (xmin b) (ymin b) (xmax b) (ymax b).

Definition xyxy_keras : keras :=
  {| convert_format := fun b _ _ _ _ => Return (map (map swap_corners) b);
     sigmoid := fun x => x |}.

Definition xyxy_layer (max_detections : nat) : NonMaxSuppression.t :=
  NonMaxSuppression.make "xyxy" false (1 # 2) (Finite (1 # 2)) max_detections.

(** An optional confidence tensor as the dictionary holds it. *)
Definition confidence_entry (c : option (list (list Q))) : option value :=
  match c with
  | Some x => Some (FloatTensor x)
  | None => None
  end.

(* ================================================================== *)
(** * Basic facts *)

Lemma Qlt_bool_iff (x y : Q) : Qlt_bool x y = true <-> x < y.
Proof.
  unfold Qlt_bool. rewrite negb_true_iff.
  split; intro H.
  - apply Qnot_le_lt. intro Hle. apply Qle_bool_iff in Hle. congruence.
  - destruct (Qle_bool y x) eqn:E; [|reflexivity].
    apply Qle_bool_iff in E. exfalso. apply (Qlt_not_le _ _ H E).
Qed.

Lemma Qlt_bool_false_iff (x y : Q) : Qlt_bool x y = false <-> y <= x.
Proof.
  unfold Qlt_bool. rewrite negb_false_iff. apply Qle_bool_iff.
Qed.

Lemma mask_mul_true (x : Q) : mask_mul true x = x.
Proof. reflexivity. Qed.

Lemma map_mask_mul_true (l : list Q) : map (mask_mul true) l = l.
Proof. induction l; simpl; congruence. Qed.

Lemma box_scale_true (b : Box) : box_scale true b = b.
Proof. destruct b; reflexivity. Qed.

Lemma box_scale_false (b : Box) : box_scale false b = zero_box.
Proof. reflexivity. Qed.

Lemma box_positive_zero : box_positive zero_box = false.
Proof. reflexivity. Qed.

Section ZipWith.
Context {A B C : Type} (f : A -> B -> C).

Lemma zip_with_nil_r (l : list A) : zip_with f l [] = [].
Proof. unfold zip_with. rewrite combine_nil. reflexivity. Qed.

Lemma zip_with_cons (a : A) (b : B) l1 l2 :
  zip_with f (a :: l1) (b :: l2) = f a b :: zip_with f l1 l2.
Proof. reflexivity. Qed.

Lemma zip_with_length l1 l2 :
  length (zip_with f l1 l2) = Nat.min (length l1) (length l2).
Proof. unfold zip_with. rewrite length_map. apply length_combine. Qed.

Lemma zip_with_length_l l1 l2 :
  length l1 = length l2 -> length (zip_with f l1 l2) = length l1.
Proof. intro H. rewrite zip_with_length. lia. Qed.

Lemma zip_with_app l1 l1' l2 l2' :
  length l1 = length l2 ->
  zip_with f (l1 ++ l1') (l2 ++ l2') = zip_with f l1 l2 ++ zip_with f l1' l2'.
Proof.
  revert l2. induction l1 as [|a l1 IH]; intros [|b l2] H; simpl in H;
    try discriminate; [reflexivity|].
  simpl. rewrite !zip_with_cons. f_equal. apply IH. lia.
Qed.

Lemma zip_with_In c l1 l2 :
  In c (zip_with f l1 l2) -> exists a b, In a l1 /\ In b l2 /\ c = f a b.
Proof.
  unfold zip_with. rewrite in_map_iff. intros [[a b] [E H]].
  exists a, b. simpl in E.
  split; [eapply in_combine_l; eauto|].
  split; [eapply in_combine_r; eauto|congruence].
Qed.

Lemma zip_with_nth (n : nat) l1 l2 (da : A) (db : B) (dc : C) :
  (n < length l1)%nat -> (n < length l2)%nat ->
  nth n (zip_with f l1 l2) dc = f (nth n l1 da) (nth n l2 db).
Proof.
  revert l1 l2. induction n; intros [|a l1] [|b l2] H1 H2; simpl in *;
    try lia; try reflexivity.
  apply IHn; lia.
Qed.
End ZipWith.

Lemma zip_with_map_same {A B C D : Type} (h : B -> C -> D) (a : A -> B)
  (b : A -> C) (l : list A) :
  zip_with h (map a l) (map b l) = map (fun x => h (a x) (b x)) l.
Proof. induction l; simpl; [reflexivity|]. rewrite zip_with_cons. congruence. Qed.

Lemma zip_with_seq_map {A B : Type} (f : nat -> A -> B) (l : list A) (s : nat) :
  Forall (fun y => exists i x, y = f i x) (zip_with f (seq s (length l)) l).
Proof.
  revert s. induction l; intro s; simpl; constructor; eauto.
Qed.

(* ================================================================== *)
(** * The self-suppression loop stops *)

Lemma Qis0_iff (x : Q) : Qis0 x = true <-> x = 0.
Proof.
  destruct x as [[|p|p] [d|d|]]; simpl; split; intro H;
    try discriminate; try reflexivity.
Qed.

Lemma live_row_cleared (r : list Q) : live_row (map (mask_mul false) r) = false.
Proof.
  unfold live_row. rewrite negb_false_iff, forallb_forall.
  intros x Hx. apply in_map_iff in Hx. destruct Hx as [y [<- _]]. reflexivity.
Qed.

Lemma cleared_dead_row (r : list Q) :
  live_row r = false -> map (mask_mul false) r = r.
Proof.
  unfold live_row. rewrite negb_false_iff, forallb_forall. intro H.
  induction r as [|x r IH]; simpl; [reflexivity|].
  rewrite IH by (intros y Hy; apply H; right; exact Hy).
  f_equal. symmetry. apply Qis0_iff, H. left. reflexivity.
Qed.

Lemma active_le_length (M : Matrix) : (active M <= length M)%nat.
Proof. apply filter_length_le. Qed.

Lemma active_app (M1 M2 : Matrix) : active (M1 ++ M2) = (active M1 + active M2)%nat.
Proof. unfold active. rewrite filter_app, length_app. reflexivity. Qed.

Lemma scale_rows_length (flags : list bool) (M : Matrix) :
  length flags = length M -> length (scale_rows flags M) = length M.
Proof. intro H. unfold scale_rows. rewrite zip_with_length. lia. Qed.

Lemma scale_rows_row_length (n : nat) (flags : list bool) (M : Matrix) :
  Forall (fun r => length r = n) M ->
  Forall (fun r => length r = n) (scale_rows flags M).
Proof.
  intro H. apply Forall_forall. intros r Hr.
  apply zip_with_In in Hr. destruct Hr as [f [row [_ [Hrow ->]]]].
  rewrite length_map. rewrite Forall_forall in H. apply H, Hrow.
Qed.

Lemma active_cons (r : list Q) (M : Matrix) :
  active (r :: M) = ((if live_row r then 1 else 0) + active M)%nat.
Proof. unfold active. simpl. destruct (live_row r); reflexivity. Qed.

Lemma scale_rows_active (flags : list bool) (M : Matrix) :
  length flags = length M ->
  (active (scale_rows flags M) <= active M)%nat
  /\ (scale_rows flags M <> M -> (active (scale_rows flags M) < active M)%nat).
Proof.
  revert flags. induction M as [|row M IH]; intros [|f flags] Hlen;
    simpl in Hlen; try discriminate.
  - split; [apply Nat.le_refl | intro H; exfalso; apply H; reflexivity].
  - injection Hlen as Hlen. destruct (IH flags Hlen) as [IHle IHlt].
    unfold scale_rows in *. rewrite zip_with_cons, !active_cons.
    destruct f.
    + rewrite map_mask_mul_true. split; [lia|].
      intro Hne.
      assert (H : zip_with (fun f row => map (mask_mul f) row) flags M <> M)
        by (intro E; apply Hne; rewrite E; reflexivity).
      specialize (IHlt H). lia.
    + rewrite live_row_cleared.
      destruct (live_row row) eqn:Hlive.
      * split; [lia|intros _; lia].
      * split; [lia|]. intro Hne. rewrite (cleared_dead_row _ Hlive) in Hne.
        assert (H : zip_with (fun f row => map (mask_mul f) row) flags M <> M)
          by (intro E; apply Hne; rewrite E; reflexivity).
        specialize (IHlt H). lia.
Qed.

Lemma ncols_square (n : nat) (M : Matrix) : square n M -> ncols M = n.
Proof.
  intros [Hlen Hrows]. destruct M as [|r M]; simpl in *; [exact Hlen|].
  inversion Hrows; assumption.
Qed.

Lemma col_max_length (M : Matrix) : length (col_max M) = ncols M.
Proof. unfold col_max. rewrite length_map, length_seq. reflexivity. Qed.

Lemma col_sum_length (M : Matrix) : length (col_sum M) = ncols M.
Proof. unfold col_sum. rewrite length_map, length_seq. reflexivity. Qed.

Lemma scale_rows_square (n : nat) (flags : list bool) (M : Matrix) :
  length flags = n -> square n M -> square n (scale_rows flags M).
Proof.
  intros Hf [Hlen Hrows]. split.
  - rewrite scale_rows_length; congruence.
  - apply scale_rows_row_length, Hrows.
Qed.

Section SelfSuppression.
Variable iou_threshold : Q.

Local Abbreviation step := (self_suppression_image iou_threshold).

Lemma self_suppression_image_flags (n : nat) (M : Matrix) :
  square n M ->
  exists keep, length keep = n /\ step M = scale_rows keep M.
Proof.
  intro Hsq. unfold self_suppression_image.
  eexists. split; [|reflexivity].
  rewrite length_map, col_max_length.
  apply ncols_square, scale_rows_square; [|exact Hsq].
  rewrite length_map, col_max_length. apply ncols_square, Hsq.
Qed.

Lemma self_suppression_image_square (n : nat) (M : Matrix) :
  square n M -> square n (step M).
Proof.
  intro Hsq. destruct (self_suppression_image_flags Hsq) as [keep [Hk ->]].
  apply scale_rows_square; assumption.
Qed.

Lemma self_suppression_image_active (n : nat) (M : Matrix) :
  square n M ->
  (active (step M) <= active M)%nat
  /\ (step M <> M -> (active (step M) < active M)%nat).
Proof.
  intro Hsq. destruct (self_suppression_image_flags Hsq) as [keep [Hk ->]].
  apply scale_rows_active. destruct Hsq. congruence.
Qed.

(** The loop condition computed by one step is true only when some image
    changed. *)
Lemma self_suppression_progress (iou : list Matrix) (c : bool) :
  0 <= iou_threshold ->
  snd (fst (_self_suppression iou_threshold (iou, c, map matrix_sum iou))) = true ->
  exists M, In M iou /\ step M <> M.
Proof.
  intros Hthr. unfold _self_suppression. simpl.
  rewrite map_map, <- (map_id iou) at 1.
  rewrite map_map, zip_with_map_same.
  rewrite existsb_exists. intros [d [Hd Hlt]].
  apply in_map_iff in Hd. destruct Hd as [M [<- HM]].
  exists M. split; [exact HM|]. intro E. rewrite E in Hlt.
  apply Qlt_bool_iff in Hlt. revert Hlt. generalize (matrix_sum M).
  intros s Hlt. lra.
Qed.

Lemma budget_step (n b : nat) (iou : list Matrix) :
  budget iou_threshold n (S b) iou -> budget iou_threshold n b (map step iou).
Proof.
  unfold budget. rewrite !Forall_forall. intros H M' HM'.
  apply in_map_iff in HM'. destruct HM' as [M [<- HM]].
  destruct (H M HM) as [Hsq Hb].
  split; [apply self_suppression_image_square, Hsq|].
  intro Hne.
  assert (Hne0 : step M <> M) by (intro E; apply Hne; congruence).
  destruct (self_suppression_image_active Hsq) as [_ Hlt].
  specialize (Hlt Hne0). specialize (Hb Hne0). lia.
Qed.

Lemma self_suppression_loop_bounded (n b : nat) :
  0 <= iou_threshold ->
  forall (fuel : nat) (iou : list Matrix),
    budget iou_threshold n b iou -> (b < fuel)%nat ->
    exists st k,
      while_loop fuel self_cond (_self_suppression iou_threshold)
                 (iou, true, map matrix_sum iou) = Some (st, k)
      /\ (k <= S b)%nat
      /\ fst (fst st) = map (Nat.iter k step) iou.
Proof.
  intro Hthr. induction b as [|b IH]; intros fuel iou Hb Hfuel;
    (destruct fuel as [|fuel]; [lia|]);
    cbn [while_loop self_cond fst snd];
    destruct (snd (fst (_self_suppression iou_threshold
                          (iou, true, map matrix_sum iou)))) eqn:Hc.
  - exfalso. destruct (self_suppression_progress _ _ Hthr Hc) as [M [HM Hne]].
    unfold budget in Hb. rewrite Forall_forall in Hb.
    destruct (Hb M HM) as [Hsq Hact].
    destruct (self_suppression_image_active Hsq) as [_ Hlt].
    specialize (Hlt Hne). specialize (Hact Hne). lia.
  - remember (_self_suppression iou_threshold (iou, true, map matrix_sum iou)) as st'.
    assert (Hst' : fst (fst st') = map step iou) by (subst st'; reflexivity).
    destruct fuel; simpl; unfold self_cond at 1; rewrite Hc;
      exists st', 1%nat; (split; [reflexivity|]); (split; [lia|]);
      exact Hst'.
  - assert (Hst' : _self_suppression iou_threshold (iou, true, map matrix_sum iou)
                   = (map step iou, true, map matrix_sum (map step iou))).
    { unfold _self_suppression in *. simpl in *. rewrite Hc. reflexivity. }
    rewrite Hst'.
    destruct (IH fuel (map step iou) (budget_step Hb) ltac:(lia))
      as [st [k [Hrun [Hk Hiter]]]].
    rewrite Hrun. exists st, (S k). split; [reflexivity|]. split; [lia|].
    rewrite Hiter, map_map. apply map_ext. intro M.
    rewrite Nat.iter_succ_r. reflexivity.
  - remember (_self_suppression iou_threshold (iou, true, map matrix_sum iou)) as st'.
    assert (Hst' : fst (fst st') = map step iou) by (subst st'; reflexivity).
    destruct fuel; simpl; unfold self_cond at 1; rewrite Hc;
      exists st', 1%nat; (split; [reflexivity|]); (split; [lia|]);
      exact Hst'.
Qed.
End SelfSuppression.

(** ** The matrix the loop starts from *)

Lemma zip_with_same {A B : Type} (f : A -> A -> B) (l : list A) :
  zip_with f l l = map (fun x => f x x) l.
Proof. induction l; simpl; [reflexivity|]. rewrite zip_with_cons. congruence. Qed.

Lemma mask_upper_rows (t : Q) (iou : Matrix) :
  mask_upper t iou = zip_with (mask_row t) (seq 0 (length iou)) iou.
Proof. reflexivity. Qed.

Lemma mask_row_length (t : Q) (r : nat) (row : list Q) :
  length (mask_row t r row) = length row.
Proof. unfold mask_row. rewrite zip_with_length, length_seq. lia. Qed.

Lemma mask_row_dead (t : Q) (r : nat) (row : list Q) :
  (length row <= S r)%nat -> live_row (mask_row t r row) = false.
Proof.
  intro Hlen. unfold live_row. rewrite negb_false_iff, forallb_forall.
  intros x Hx. apply zip_with_In in Hx. destruct Hx as [c [y [Hc [_ ->]]]].
  apply in_seq in Hc.
  replace (r <? c)%nat with false by (symmetry; apply Nat.ltb_ge; lia).
  reflexivity.
Qed.

Lemma mask_upper_square (t : Q) (n : nat) (iou : Matrix) :
  square n iou -> square n (mask_upper t iou).
Proof.
  intros [Hlen Hrows]. split.
  - unfold mask_upper. rewrite zip_with_length, length_seq. lia.
  - apply Forall_forall. intros row Hrow. rewrite mask_upper_rows in Hrow.
    apply zip_with_In in Hrow. destruct Hrow as [r [row' [_ [Hin ->]]]].
    rewrite mask_row_length. rewrite Forall_forall in Hrows. auto.
Qed.

Lemma mask_rows_active (t : Q) (iou : Matrix) (s : nat) :
  iou <> [] ->
  Forall (fun row => (length row <= s + length iou)%nat) iou ->
  (active (zip_with (mask_row t) (seq s (length iou)) iou) < length iou)%nat.
Proof.
  revert s. induction iou as [|row iou IH]; intros s Hne Hw; [congruence|].
  simpl length. simpl seq. rewrite zip_with_cons, active_cons.
  inversion Hw as [|? ? Hrow Hrest]; subst. simpl in Hrow.
  destruct iou as [|row' iou].
  - simpl in Hrow. rewrite mask_row_dead by lia. unfold active, zip_with. simpl. lia.
  - assert (H : (active (zip_with (mask_row t) (seq (S s) (length (row' :: iou)))
                                 (row' :: iou)) < length (row' :: iou))%nat).
    { apply IH; [discriminate|].
      eapply Forall_impl; [|exact Hrest]. simpl. intros; lia. }
    destruct (live_row (mask_row t s row)); simpl in *; lia.
Qed.

Lemma mask_upper_active (t : Q) (n : nat) (iou : Matrix) :
  (1 <= n)%nat -> square n iou -> (active (mask_upper t iou) <= n - 1)%nat.
Proof.
  intros Hn [Hlen Hrows]. rewrite mask_upper_rows.
  assert (H : (active (zip_with (mask_row t) (seq 0 (length iou)) iou)
               < length iou)%nat).
  { apply mask_rows_active.
    - intro E. subst iou. simpl in Hlen. lia.
    - eapply Forall_impl; [|exact Hrows]. simpl. intros; lia. }
  lia.
Qed.

Lemma bbox_overlap_image_square (n : nat) (s : list Box) :
  length s = n -> square n (bbox_overlap_image s s).
Proof.
  intro H. unfold bbox_overlap_image. split.
  - rewrite length_map. exact H.
  - apply Forall_forall. intros r Hr. apply in_map_iff in Hr.
    destruct Hr as [a [<- _]]. rewrite length_map. exact H.
Qed.

Lemma initial_iou_budget (t : Q) (n : nat) (box_slice : list (list Box)) :
  (1 <= n)%nat ->
  Forall (fun s => length s = n) box_slice ->
  budget t n (n - 1) (initial_iou t box_slice).
Proof.
  intros Hn Hs. unfold budget, initial_iou, _bbox_overlap.
  rewrite zip_with_same, map_map. apply Forall_forall. intros M HM.
  apply in_map_iff in HM. destruct HM as [s [<- Hin]].
  rewrite Forall_forall in Hs. specialize (Hs s Hin).
  split.
  - apply mask_upper_square, bbox_overlap_image_square, Hs.
  - intros _. apply mask_upper_active; [exact Hn|].
    apply bbox_overlap_image_square, Hs.
Qed.

(** C4.  For every tile (a slice of [tile_size] boxes per image) and every
    [iou_threshold >= 0], the while loop that iterates [_self_suppression]
    stops, and it runs the body at most [tile_size] times: with at least
    [tile_size] units of fuel the loop returns, and the number of body
    executions it reports is at most [tile_size]. *)
Theorem self_suppression_loop_terminates (iou_threshold : Q) (tile_size fuel : nat)
  (box_slice : list (list Box)) :
  0 <= iou_threshold ->
  (1 <= tile_size)%nat ->
  Forall (fun s => length s = tile_size) box_slice ->
  (tile_size <= fuel)%nat ->
  let iou := initial_iou iou_threshold box_slice in
  exists st k,
    while_loop fuel self_cond (_self_suppression iou_threshold)
               (iou, true, map matrix_sum iou) = Some (st, k)
    /\ (k <= tile_size)%nat.
Proof.
  intros Hthr Hn Hs Hfuel iou.
  destruct (@self_suppression_loop_bounded iou_threshold tile_size (tile_size - 1)
              Hthr fuel iou) as [st [k [Hrun [Hk _]]]].
  - apply initial_iou_budget; assumption.
  - lia.
  - exists st, k. split; [exact Hrun|lia].
Qed.

Lemma self_suppression_loop_terminates_witness :
  exists st k,
    while_loop 2 self_cond (_self_suppression (1 # 2))
       (initial_iou (1 # 2) [[mkBox 0 0 1 1; mkBox 0 0 1 1]], true,
        map matrix_sum (initial_iou (1 # 2) [[mkBox 0 0 1 1; mkBox 0 0 1 1]]))
    = Some (st, k) /\ (k <= 2)%nat.
Proof.
  apply (@self_suppression_loop_terminates (1 # 2) 2 2
           [[mkBox 0 0 1 1; mkBox 0 0 1 1]]).
  - unfold Qle; simpl; lia.
  - lia.
  - repeat constructor.
  - lia.
Defined.

(* ================================================================== *)
(** * One tile, image by image *)

Lemma zip_with_map_l {A A' B C : Type} (f : A' -> B -> C) (g : A -> A')
  (l1 : list A) (l2 : list B) :
  zip_with f (map g l1) l2 = zip_with (fun a b => f (g a) b) l1 l2.
Proof.
  revert l2. induction l1; intros [|y l2]; simpl; try reflexivity.
  rewrite !zip_with_cons. f_equal. apply IHl1.
Qed.

Lemma zip_with_map_r {A B B' C : Type} (f : A -> B' -> C) (g : B -> B')
  (l1 : list A) (l2 : list B) :
  zip_with f l1 (map g l2) = zip_with (fun a b => f a (g b)) l1 l2.
Proof.
  revert l2. induction l1; intros [|y l2]; simpl; try reflexivity.
  rewrite !zip_with_cons. f_equal. apply IHl1.
Qed.

Lemma cross_slices_map (t : Q) (tile_size : nat) (boxes : list (list Box))
  (l : list nat) (h : list Box -> list Box) :
  fold_left (fun sl inner_idx => _cross_suppression boxes sl t inner_idx tile_size)
            l (map h boxes)
  = map (fun b => fold_left (fun s inner_idx =>
                               cross_suppression_image t inner_idx tile_size b s)
                            l (h b)) boxes.
Proof.
  revert h. induction l as [|i l IH]; intro h; simpl; [reflexivity|].
  unfold _cross_suppression at 2.
  rewrite zip_with_map_r, zip_with_same.
  rewrite (IH (fun b => cross_suppression_image t i tile_size b (h b))).
  reflexivity.
Qed.

Lemma tile_length (idx tile_size : nat) (b : list Box) :
  (S idx * tile_size <= length b)%nat -> length (tile idx tile_size b) = tile_size.
Proof.
  intro H. unfold tile. rewrite length_firstn, length_skipn. lia.
Qed.

Lemma cross_suppression_image_length (t : Q) (inner tile_size : nat)
  (b sl : list Box) :
  length (cross_suppression_image t inner tile_size b sl) = length sl.
Proof.
  unfold cross_suppression_image. rewrite zip_with_length, length_seq. lia.
Qed.

Lemma cross_image_length (t : Q) (tile_size idx : nat) (b : list Box) :
  (S idx * tile_size <= length b)%nat ->
  length (cross_image t tile_size idx b) = tile_size.
Proof.
  intro H. unfold cross_image.
  rewrite <- (tile_length idx tile_size b H) at 2.
  generalize (tile idx tile_size b). generalize (seq 0 idx).
  intro l. induction l as [|i l IH]; intro sl; simpl; [reflexivity|].
  rewrite IH. apply cross_suppression_image_length.
Qed.

Lemma _suppression_loop_body_spec (fuel : nat) (t : Q) (tile_size : nat)
  (boxes : list (list Box)) (output_size : list nat) (idx : nat) :
  0 <= t -> (1 <= tile_size)%nat -> (tile_size <= fuel)%nat ->
  Forall (fun b => (S idx * tile_size <= length b)%nat) boxes ->
  let k := inner_steps fuel t (map (cross_image t tile_size idx) boxes) in
  _suppression_loop_body fuel t tile_size (boxes, output_size, idx)
  = Ok (map (body_image k t tile_size idx) boxes,
        zip_with (fun o b => (o + count_positive (body_slice k t tile_size idx b))%nat)
                 output_size boxes,
        S idx).
Proof.
  intros Ht Hts Hfuel Hlen. unfold _suppression_loop_body, inner_steps.
  rewrite cross_slices_map.
  change (map (fun b => fold_left
                 (fun s inner_idx => cross_suppression_image t inner_idx tile_size b s)
                 (seq 0 idx) (tile idx tile_size b)) boxes)
    with (map (cross_image t tile_size idx) boxes).
  set (slices := map (cross_image t tile_size idx) boxes).
  destruct (@self_suppression_loop_bounded t tile_size (tile_size - 1) Ht fuel
              (initial_iou t slices)) as [[[M c] sm] [k [Hrun [Hk HM]]]].
  - apply initial_iou_budget; [exact Hts|].
    subst slices. apply Forall_forall. intros s Hs.
    apply in_map_iff in Hs. destruct Hs as [b [<- Hb]].
    rewrite Forall_forall in Hlen. apply cross_image_length, Hlen, Hb.
  - lia.
  - rewrite Hrun. simpl in HM. subst M.
    assert (E : zip_with drop_suppressed
                  (map (Nat.iter k (self_suppression_image t)) (initial_iou t slices))
                  slices
                = map (body_slice k t tile_size idx) boxes).
    { unfold initial_iou, _bbox_overlap. rewrite zip_with_same.
      subst slices. rewrite !map_map. rewrite zip_with_map_same.
      apply map_ext. intro b. reflexivity. }
    rewrite E, !zip_with_map_r, zip_with_same. reflexivity.
Qed.

(** ** Boxes are kept or cleared, never changed *)

Lemma dimmed_refl (x : Box) : dimmed x x.
Proof. left. reflexivity. Qed.

Lemma dimmed_trans (x y z : Box) : dimmed x y -> dimmed y z -> dimmed x z.
Proof. unfold dimmed. intros [->| ->] [->| ->]; auto. Qed.

Lemma box_scale_dimmed (f : bool) (x : Box) : dimmed (box_scale f x) x.
Proof. destruct f; [left; apply box_scale_true | right; reflexivity]. Qed.

Lemma dimmed_zero (x : Box) : dimmed x zero_box -> x = zero_box.
Proof. intros [H|H]; exact H. Qed.

Lemma dimmed_positive (x' x : Box) :
  dimmed x' x -> box_positive x' = true -> x' = x.
Proof.
  intros [H|H] Hp; [exact H|]. subst x'. discriminate.
Qed.

Lemma Forall2_dimmed_refl (l : list Box) : Forall2 dimmed l l.
Proof. induction l; constructor; auto using dimmed_refl. Qed.

Lemma Forall2_dimmed_trans (l1 l2 l3 : list Box) :
  Forall2 dimmed l1 l2 -> Forall2 dimmed l2 l3 -> Forall2 dimmed l1 l3.
Proof.
  intro H. revert l3. induction H; intros l3 H3; inversion H3; subst;
    constructor; eauto using dimmed_trans.
Qed.

Lemma zip_scale_dimmed {A : Type} (g : A -> bool) (flags : list A) (s : list Box) :
  length flags = length s ->
  Forall2 dimmed (zip_with (fun f b => box_scale (g f) b) flags s) s.
Proof.
  revert flags. induction s as [|x s IH]; intros [|f flags] H; simpl in H;
    try discriminate; [constructor|].
  rewrite zip_with_cons. constructor; [apply box_scale_dimmed|].
  apply IH. lia.
Qed.

Lemma count_positive_dimmed (l' l : list Box) :
  Forall2 dimmed l' l -> (count_positive l' <= count_positive l)%nat.
Proof.
  unfold count_positive. induction 1 as [|x' x l' l Hd _ IH]; simpl; [lia|].
  destruct (box_positive x') eqn:Hp.
  - rewrite <- (dimmed_positive Hd Hp), Hp. simpl. lia.
  - destruct (box_positive x); simpl; lia.
Qed.

Lemma count_positive_app (l1 l2 : list Box) :
  count_positive (l1 ++ l2) = (count_positive l1 + count_positive l2)%nat.
Proof. unfold count_positive. rewrite filter_app, length_app. reflexivity. Qed.

Lemma count_positive_le_length (l : list Box) :
  (count_positive l <= length l)%nat.
Proof. apply filter_length_le. Qed.

Lemma count_positive_zeros (n : nat) : count_positive (repeat zero_box n) = 0%nat.
Proof. induction n; simpl; auto. Qed.

Lemma cross_suppression_image_dimmed (t : Q) (inner tile_size : nat)
  (b sl : list Box) :
  Forall2 dimmed (cross_suppression_image t inner tile_size b sl) sl.
Proof.
  unfold cross_suppression_image.
  apply (zip_scale_dimmed
           (fun c => forallb (fun x => Qlt_bool x t)
                       (column c (bbox_overlap_image (tile inner tile_size b) sl)))).
  apply length_seq.
Qed.

Lemma cross_image_dimmed (t : Q) (tile_size idx : nat) (b : list Box) :
  Forall2 dimmed (cross_image t tile_size idx b) (tile idx tile_size b).
Proof.
  unfold cross_image. generalize (seq 0 idx). intro l.
  assert (H : forall sl, Forall2 dimmed sl (tile idx tile_size b) ->
                         Forall2 dimmed
                           (fold_left (fun sl i => cross_suppression_image t i tile_size b sl)
                                      l sl)
                           (tile idx tile_size b)).
  { induction l as [|i l IH]; intros sl Hsl; simpl; [exact Hsl|].
    apply IH. eapply Forall2_dimmed_trans; [|exact Hsl].
    apply cross_suppression_image_dimmed. }
  apply H, Forall2_dimmed_refl.
Qed.

Lemma iter_step_square (t : Q) (n k : nat) (M : Matrix) :
  square n M -> square n (Nat.iter k (self_suppression_image t) M).
Proof.
  intro H. induction k; simpl; [exact H|].
  apply self_suppression_image_square, IHk.
Qed.

Lemma self_image_dimmed (k : nat) (t : Q) (s : list Box) :
  Forall2 dimmed (self_image k t s) s.
Proof.
  unfold self_image, drop_suppressed.
  apply (zip_scale_dimmed (fun x => negb (Qlt_bool 0 x))).
  rewrite col_sum_length. apply ncols_square, iter_step_square.
  apply mask_upper_square, bbox_overlap_image_square. reflexivity.
Qed.

Lemma body_slice_dimmed (k : nat) (t : Q) (tile_size idx : nat) (b : list Box) :
  Forall2 dimmed (body_slice k t tile_size idx b) (tile idx tile_size b).
Proof.
  unfold body_slice. eapply Forall2_dimmed_trans;
    [apply self_image_dimmed | apply cross_image_dimmed].
Qed.

Lemma body_slice_length (k : nat) (t : Q) (tile_size idx : nat) (b : list Box) :
  (S idx * tile_size <= length b)%nat ->
  length (body_slice k t tile_size idx b) = tile_size.
Proof.
  intro H. rewrite (Forall2_length (body_slice_dimmed k t tile_size idx b)).
  apply tile_length, H.
Qed.

(** ** Replacing a tile *)

Lemma tile_decompose (idx tile_size : nat) (b : list Box) :
  b = firstn (idx * tile_size) b ++ tile idx tile_size b
      ++ skipn (S idx * tile_size) b.
Proof.
  unfold tile. simpl. rewrite <- skipn_skipn.
  rewrite firstn_skipn, firstn_skipn. reflexivity.
Qed.

Lemma firstn_app_exact {A : Type} (l1 l2 : list A) :
  firstn (length l1) (l1 ++ l2) = l1.
Proof.
  rewrite firstn_app, Nat.sub_diag, firstn_all. simpl. apply app_nil_r.
Qed.

Lemma skipn_app_exact {A : Type} (l1 l2 : list A) :
  skipn (length l1) (l1 ++ l2) = l2.
Proof.
  rewrite skipn_app, Nat.sub_diag, skipn_all. reflexivity.
Qed.

Lemma prefix_length (idx tile_size : nat) (b : list Box) :
  (S idx * tile_size <= length b)%nat ->
  length (firstn (idx * tile_size) b) = (idx * tile_size)%nat.
Proof. intro Hb. rewrite length_firstn. simpl in Hb. lia. Qed.

Lemma update_tile_length (idx tile_size : nat) (b s : list Box) :
  (S idx * tile_size <= length b)%nat -> length s = tile_size ->
  length (update_tile idx tile_size b s) = length b.
Proof.
  intros Hb Hs. unfold update_tile.
  rewrite !length_app, prefix_length, length_skipn, Hs by exact Hb.
  simpl in *. lia.
Qed.

Lemma update_tile_prefix (idx tile_size : nat) (b s : list Box) :
  (S idx * tile_size <= length b)%nat ->
  firstn (idx * tile_size) (update_tile idx tile_size b s)
  = firstn (idx * tile_size) b.
Proof.
  intro Hb. unfold update_tile.
  rewrite <- (prefix_length idx tile_size b Hb) at 1. apply firstn_app_exact.
Qed.

Lemma update_tile_prefix_next (idx tile_size : nat) (b s : list Box) :
  (S idx * tile_size <= length b)%nat -> length s = tile_size ->
  firstn (S idx * tile_size) (update_tile idx tile_size b s)
  = firstn (idx * tile_size) b ++ s.
Proof.
  intros Hb Hs. unfold update_tile. rewrite app_assoc.
  replace (S idx * tile_size)%nat
    with (length (firstn (idx * tile_size) b ++ s))%nat
    by (rewrite length_app, prefix_length, Hs by exact Hb; simpl; lia).
  apply firstn_app_exact.
Qed.

Lemma update_tile_suffix (idx tile_size : nat) (b s : list Box) :
  (S idx * tile_size <= length b)%nat -> length s = tile_size ->
  skipn (S idx * tile_size) (update_tile idx tile_size b s)
  = skipn (S idx * tile_size) b.
Proof.
  intros Hb Hs. unfold update_tile. rewrite app_assoc.
  replace (S idx * tile_size)%nat
    with (length (firstn (idx * tile_size) b ++ s))%nat at 1
    by (rewrite length_app, prefix_length, Hs by exact Hb; simpl; lia).
  apply skipn_app_exact.
Qed.

Lemma update_tile_dimmed (idx tile_size : nat) (b s : list Box) :
  Forall2 dimmed s (tile idx tile_size b) ->
  Forall2 dimmed (update_tile idx tile_size b s) b.
Proof.
  intro H. rewrite (tile_decompose idx tile_size b) at 2.
  unfold update_tile. apply Forall2_app; [apply Forall2_dimmed_refl|].
  apply Forall2_app; [exact H|apply Forall2_dimmed_refl].
Qed.

Lemma update_tile_app (idx tile_size : nat) (b s e : list Box) :
  (S idx * tile_size <= length b)%nat ->
  update_tile idx tile_size (b ++ e) s = update_tile idx tile_size b s ++ e.
Proof.
  intro Hb. unfold update_tile. rewrite firstn_app, skipn_app.
  replace (idx * tile_size - length b)%nat with 0%nat by (simpl in Hb; lia).
  replace (S idx * tile_size - length b)%nat with 0%nat by lia.
  simpl. rewrite app_nil_r, <- !app_assoc. reflexivity.
Qed.

Lemma tile_app (idx tile_size : nat) (b e : list Box) :
  (S idx * tile_size <= length b)%nat ->
  tile idx tile_size (b ++ e) = tile idx tile_size b.
Proof.
  intro H. unfold tile. rewrite skipn_app, firstn_app.
  replace (idx * tile_size - length b)%nat with 0%nat by (simpl in H; lia).
  rewrite length_skipn.
  replace (tile_size - (length b - idx * tile_size))%nat with 0%nat
    by (simpl in H; lia).
  simpl. apply app_nil_r.
Qed.

Lemma fold_left_ext_in {A B : Type} (f g : A -> B -> A) (l : list B) (a : A) :
  (forall a x, In x l -> f a x = g a x) -> fold_left f l a = fold_left g l a.
Proof.
  revert a. induction l as [|x l IH]; intros a H; simpl; [reflexivity|].
  rewrite H by (left; reflexivity). apply IH. intros; apply H; right; assumption.
Qed.

Lemma cross_image_app (t : Q) (tile_size idx : nat) (b e : list Box) :
  (S idx * tile_size <= length b)%nat ->
  cross_image t tile_size idx (b ++ e) = cross_image t tile_size idx b.
Proof.
  intro H. unfold cross_image. rewrite tile_app by exact H.
  apply fold_left_ext_in. intros sl i Hi. apply in_seq in Hi.
  unfold cross_suppression_image. rewrite tile_app; [reflexivity|].
  simpl in *. nia.
Qed.

Lemma body_image_app (k : nat) (t : Q) (tile_size idx : nat) (b e : list Box) :
  (S idx * tile_size <= length b)%nat ->
  body_image k t tile_size idx (b ++ e) = body_image k t tile_size idx b ++ e.
Proof.
  intro H. unfold body_image, body_slice. rewrite cross_image_app by exact H.
  apply update_tile_app, H.
Qed.

Lemma body_image_length (k : nat) (t : Q) (tile_size idx : nat) (b : list Box) :
  (S idx * tile_size <= length b)%nat ->
  length (body_image k t tile_size idx b) = length b.
Proof.
  intro H. apply update_tile_length; [exact H|apply body_slice_length, H].
Qed.

(** ** Several tiles *)

Section Reach.
Variables (t : Q) (tile_size : nat).

Lemma reach_le idx K b f : reach t tile_size idx K b f -> (idx <= K)%nat.
Proof. induction 1; lia. Qed.

Lemma reach_facts idx K b f :
  reach t tile_size idx K b f ->
  (K * tile_size <= length b)%nat ->
  length f = length b
  /\ Forall2 dimmed f b
  /\ firstn (idx * tile_size) f = firstn (idx * tile_size) b
  /\ skipn (K * tile_size) f = skipn (K * tile_size) b.
Proof.
  induction 1 as [idx b|idx K k b f Hr IH]; intro Hlen.
  - repeat split; auto using Forall2_dimmed_refl.
  - pose proof (reach_le Hr) as Hle.
    assert (Hb : (S idx * tile_size <= length b)%nat) by nia.
    pose proof (body_slice_length k t tile_size idx b Hb) as Hs.
    destruct IH as [IH1 [IH2 [IH3 IH4]]].
    { rewrite body_image_length by exact Hb. exact Hlen. }
    split; [rewrite IH1; apply body_image_length, Hb|].
    split; [|split].
    + eapply Forall2_dimmed_trans; [exact IH2|].
      apply update_tile_dimmed, body_slice_dimmed.
    + assert (E : forall l : list Box,
                 firstn (idx * tile_size) l
                 = firstn (idx * tile_size) (firstn (S idx * tile_size) l)).
      { intro l. rewrite firstn_firstn, Nat.min_l by (simpl; lia). reflexivity. }
      rewrite (E f), IH3, <- E. apply update_tile_prefix, Hb.
    + rewrite IH4. unfold body_image.
      replace (K * tile_size)%nat
        with ((K * tile_size - S idx * tile_size) + S idx * tile_size)%nat by nia.
      rewrite <- !skipn_skipn. f_equal.
      apply update_tile_suffix; assumption.
Qed.

Lemma reach_app idx K b f (e : list Box) :
  reach t tile_size idx K b f ->
  (K * tile_size <= length b)%nat ->
  reach t tile_size idx K (b ++ e) (f ++ e).
Proof.
  induction 1 as [idx b|idx K k b f Hr IH]; intro Hlen.
  - constructor.
  - pose proof (reach_le Hr) as Hle.
    assert (Hb : (S idx * tile_size <= length b)%nat) by nia.
    apply reach_step with (k := k).
    rewrite body_image_app by exact Hb. apply IH.
    rewrite body_image_length by exact Hb. exact Hlen.
Qed.

Lemma reach_trans idx K K' b f f' :
  reach t tile_size idx K b f -> reach t tile_size K K' f f' ->
  reach t tile_size idx K' b f'.
Proof.
  induction 1; intro H'; [exact H'|].
  eapply reach_step. apply IHreach, H'.
Qed.

Lemma count_prefix_body_image k idx b :
  (S idx * tile_size <= length b)%nat ->
  count_prefix tile_size (S idx) (body_image k t tile_size idx b)
  = (count_prefix tile_size idx b
     + count_positive (body_slice k t tile_size idx b))%nat.
Proof.
  intro Hb. unfold count_prefix, body_image.
  rewrite update_tile_prefix_next;
    [|exact Hb|apply body_slice_length, Hb].
  apply count_positive_app.
Qed.
End Reach.

(* ================================================================== *)
(** * The outer loop *)

Lemma fold_min_spec (l : list nat) (x : nat) :
  let mn := fold_left Nat.min l x in
  (mn <= x)%nat /\ Forall (fun y => (mn <= y)%nat) l /\ (mn = x \/ In mn l).
Proof.
  revert x. induction l as [|y l IH]; intro x; simpl.
  - auto.
  - destruct (IH (Nat.min x y)) as [H1 [H2 H3]].
    split; [lia|]. split.
    + constructor; [lia|exact H2].
    + destruct H3 as [H3|H3]; [|auto].
      destruct (Nat.min_spec x y) as [[_ E]|[_ E]]; rewrite E in H3;
        [left|right; left]; congruence.
Qed.

Lemma min_list_spec (l : list nat) :
  l <> [] ->
  exists mn, min_list l = Ok mn /\ Forall (fun y => (mn <= y)%nat) l /\ In mn l.
Proof.
  destruct l as [|x l]; [congruence|]. intros _.
  destruct (fold_min_spec l x) as [H1 [H2 H3]].
  eexists. split; [reflexivity|]. split.
  - constructor; assumption.
  - destruct H3 as [H3|H3]; [left; auto|right; exact H3].
Qed.

Lemma Forall2_map_l {A B C : Type} (R : B -> C -> Prop) (g : A -> B)
  (l : list A) (l' : list C) :
  Forall2 R (map g l) l' <-> Forall2 (fun a c => R (g a) c) l l'.
Proof.
  revert l'. induction l as [|a l IH]; intros l'; simpl; split; intro H;
    inversion H; subst; constructor; auto; apply IH; assumption.
Qed.

Lemma Forall2_same {A : Type} (R : A -> A -> Prop) (l : list A) :
  Forall (fun a => R a a) l -> Forall2 R l l.
Proof. induction 1; constructor; auto. Qed.

Arguments _suppression_loop_body : simpl never.

Section OuterLoop.
Variables (fuel : nat) (t : Q) (tile_size max_output_size : nat).
Hypothesis Ht : 0 <= t.
Hypothesis Hts : (1 <= tile_size)%nat.
Hypothesis Hfuel : (tile_size <= fuel)%nat.

Local Abbreviation loop := (suppression_loop fuel t tile_size max_output_size).
Local Abbreviation counts idx B := (map (count_prefix tile_size idx) B).

Lemma body_counts (boxes : list (list Box)) (idx : nat) :
  Forall (fun b => (S idx * tile_size <= length b)%nat) boxes ->
  let k := inner_steps fuel t (map (cross_image t tile_size idx) boxes) in
  _suppression_loop_body fuel t tile_size (boxes, counts idx boxes, idx)
  = Ok (map (body_image k t tile_size idx) boxes,
        counts (S idx) (map (body_image k t tile_size idx) boxes),
        S idx).
Proof.
  intros Hlen k.
  rewrite (@_suppression_loop_body_spec fuel t tile_size boxes
             (counts idx boxes) idx Ht Hts Hfuel Hlen).
  fold k. do 3 f_equal.
  rewrite zip_with_map_l, zip_with_same, map_map.
  apply map_ext_in. intros b Hb. symmetry.
  apply count_prefix_body_image.
  rewrite Forall_forall in Hlen. auto.
Qed.

Lemma suppression_loop_spec (remaining : nat) :
  forall (boxes : list (list Box)) (idx : nat),
    boxes <> [] ->
    Forall (fun b => ((idx + remaining) * tile_size <= length b)%nat) boxes ->
    exists F K,
      loop remaining (boxes, counts idx boxes, idx) = Ok (F, counts K F, K)
      /\ (K <= idx + remaining)%nat
      /\ Forall2 (reach t tile_size idx K) boxes F
      /\ ((K < idx + remaining)%nat ->
          Forall (fun f => (max_output_size <= count_prefix tile_size K f)%nat) F).
Proof.
  induction remaining as [|r IH]; intros boxes idx Hne Hlen.
  - exists boxes, idx. simpl. unfold _loop_cond. simpl.
    destruct (@min_list_spec (counts idx boxes)) as [mn [Hmn _]].
    { destruct boxes; [congruence|discriminate]. }
    rewrite Hmn. simpl. rewrite andb_false_r.
    split; [reflexivity|]. split; [lia|]. split; [|lia].
    apply Forall2_same, Forall_forall. intros; constructor.
  - simpl. unfold _loop_cond. simpl.
    destruct (@min_list_spec (counts idx boxes)) as [mn [Hmn [Hall Hin]]].
    { destruct boxes; [congruence|discriminate]. }
    rewrite Hmn. simpl. rewrite andb_true_r.
    destruct (mn <? max_output_size)%nat eqn:Hc.
    + assert (Hb : Forall (fun b => (S idx * tile_size <= length b)%nat) boxes).
      { eapply Forall_impl; [|exact Hlen]. simpl. intros; nia. }
      rewrite (@body_counts boxes idx Hb). simpl.
      set (k := inner_steps fuel t (map (cross_image t tile_size idx) boxes)).
      destruct (IH (map (body_image k t tile_size idx) boxes) (S idx))
        as [F [K [Hrun [HK [Hreach Hexit]]]]].
      { destruct boxes; [congruence|discriminate]. }
      { apply Forall_forall. intros b' Hb'. apply in_map_iff in Hb'.
        destruct Hb' as [b [<- Hin']]. rewrite Forall_forall in Hlen, Hb.
        rewrite body_image_length by auto.
        specialize (Hlen b Hin'). nia. }
      exists F, K. split; [exact Hrun|]. split; [lia|]. split.
      * apply (proj1 (@Forall2_map_l _ _ _ (reach t tile_size (S idx) K)
                               (body_image k t tile_size idx) boxes F)) in Hreach.
        eapply Forall2_impl; [|exact Hreach].
        intros b f Hr. eapply reach_step. exact Hr.
      * intro E. apply Hexit. lia.
    + exists boxes, idx. split; [reflexivity|]. split; [lia|]. split.
      * apply Forall2_same, Forall_forall. intros; constructor.
      * intros _. apply Nat.ltb_ge in Hc.
        apply Forall_forall. intros b Hb.
        rewrite Forall_forall in Hall.
        specialize (Hall (count_prefix tile_size idx b)
                         (in_map (count_prefix tile_size idx) _ _ Hb)).
        lia.
Qed.
End OuterLoop.

(* ================================================================== *)
(** * Recovering the selected positions *)

Lemma kept_from_length (s : nat) (b : list Box) :
  length (kept_from s b) = count_positive b.
Proof.
  revert s. unfold count_positive. induction b as [|x b IH]; intro s; simpl;
    [reflexivity|].
  destruct (box_positive x); simpl; rewrite IH; reflexivity.
Qed.

Lemma kept_from_app (s : nat) (b1 b2 : list Box) :
  kept_from s (b1 ++ b2) = kept_from s b1 ++ kept_from (s + length b1) b2.
Proof.
  revert s. induction b1 as [|x b1 IH]; intro s; simpl.
  - rewrite Nat.add_0_r. reflexivity.
  - rewrite IH, Nat.add_succ_r. destruct (box_positive x); reflexivity.
Qed.

Lemma kept_from_spec (s : nat) (b : list Box) (p : nat) :
  In p (kept_from s b) <->
  (s <= p < s + length b)%nat /\ box_positive (nth (p - s) b zero_box) = true.
Proof.
  revert s. induction b as [|x b IH]; intro s; simpl.
  - split; [tauto|lia].
  - assert (Hrec : In p (kept_from (S s) b) <->
                   (S s <= p < s + S (length b))%nat
                   /\ box_positive (nth (p - s) (x :: b) zero_box) = true).
    { rewrite IH. split; intros [H1 H2]; (split; [lia|]).
      - replace (p - s)%nat with (S (p - S s)) by lia. exact H2.
      - replace (p - s)%nat with (S (p - S s)) in H2 by lia. exact H2. }
    destruct (box_positive x) eqn:Hx; simpl; rewrite Hrec.
    + split.
      * intros [<-|[H1 H2]]; [|split; [lia|exact H2]].
        split; [lia|]. rewrite Nat.sub_diag. exact Hx.
      * intros [H1 H2]. destruct (Nat.eq_dec s p) as [E|E]; [left; exact E|].
        right. split; [lia|exact H2].
    + split; [intros [H1 H2]; split; [lia|exact H2]|].
      intros [H1 H2]. destruct (Nat.eq_dec s p) as [E|E].
      * subst p. rewrite Nat.sub_diag in H2. simpl in H2. congruence.
      * split; [lia|exact H2].
Qed.

Lemma kept_from_NoDup (s : nat) (b : list Box) : NoDup (kept_from s b).
Proof.
  revert s. induction b as [|x b IH]; intro s; simpl; [constructor|].
  destruct (box_positive x); [|apply IH].
  constructor; [|apply IH]. rewrite kept_from_spec. lia.
Qed.

Lemma insert_desc_head (x : nat) (l : list nat) :
  Forall (fun y => (y <= x)%nat) l -> insert_desc x l = x :: l.
Proof.
  destruct l as [|y l]; [reflexivity|]. intro H. inversion H; subst. simpl.
  replace (y <=? x)%nat with true by (symmetry; apply Nat.leb_le; assumption).
  reflexivity.
Qed.

Lemma insert_desc_zero (K : list nat) (z : nat) :
  Forall (fun y => (0 < y)%nat) K ->
  insert_desc 0 (K ++ repeat 0%nat z) = K ++ repeat 0%nat (S z).
Proof.
  induction 1 as [|y K Hy _ IH]; simpl.
  - destruct z; reflexivity.
  - replace (y <=? 0)%nat with false by (symmetry; apply Nat.leb_gt; assumption).
    rewrite IH. reflexivity.
Qed.

Lemma sort_weights (L : nat) (b : list Box) (s : nat) :
  (s + length b <= L)%nat ->
  fold_right insert_desc []
             (zip_with weight b (map (fun p => L - p)%nat (seq s (length b))))
  = map (fun p => L - p)%nat (kept_from s b)
    ++ repeat 0%nat (length b - count_positive b).
Proof.
  revert s. induction b as [|x b IH]; intros s Hs; [reflexivity|].
  simpl length. simpl seq. simpl map. rewrite zip_with_cons.
  simpl fold_right. rewrite IH by (simpl in Hs; lia).
  pose proof (count_positive_le_length b) as Hc.
  assert (Hcons : count_positive (x :: b)
                  = ((if box_positive x then 1 else 0) + count_positive b)%nat).
  { unfold count_positive. simpl. destruct (box_positive x); reflexivity. }
  rewrite Hcons. unfold weight at 1. cbn [kept_from].
  destruct (box_positive x) eqn:Hx.
  - rewrite Nat.mul_1_l. cbn [map app].
    replace (S (length b) - (1 + count_positive b))%nat
      with (length b - count_positive b)%nat by lia.
    apply insert_desc_head.
    apply Forall_app. split.
    + apply Forall_forall. intros y Hy. apply in_map_iff in Hy.
      destruct Hy as [p [<- Hp]]. apply kept_from_spec in Hp. lia.
    + apply Forall_forall. intros y Hy. apply repeat_spec in Hy. lia.
  - rewrite Nat.mul_0_l, insert_desc_zero.
    + replace (S (length b) - (0 + count_positive b))%nat
        with (S (length b - count_positive b)) by lia.
      reflexivity.
    + apply Forall_forall. intros y Hy. apply in_map_iff in Hy.
      destruct Hy as [p [<- Hp]]. apply kept_from_spec in Hp. simpl in Hs. lia.
Qed.

Lemma rev_seq_countdown (L : nat) :
  rev (seq 1 L) = map (fun p => L - p)%nat (seq 0 L).
Proof.
  induction L as [|L IH]; [reflexivity|].
  rewrite seq_S, rev_app_distr. simpl rev. simpl app.
  change (seq 0 (S L)) with (0%nat :: seq 1 L).
  rewrite IH. simpl map. f_equal.
  rewrite <- seq_shift, map_map. apply map_ext. intro p. reflexivity.
Qed.

Lemma recover_positions_length (N L m : nat) (b : list Box) :
  length b = L -> (m <= L)%nat -> length (recover_positions N L m b) = m.
Proof.
  intros Hb Hm. unfold recover_positions, top_k.
  rewrite length_map, length_firstn, rev_seq_countdown.
  fold weight. rewrite <- Hb at 1.
  change (fun b0 w => ((if box_positive b0 then 1 else 0) * w)%nat) with weight.
  rewrite <- Hb, sort_weights by lia.
  rewrite length_app, length_map, repeat_length, kept_from_length.
  pose proof (count_positive_le_length b). lia.
Qed.

Lemma recover_positions_prefix (N L m n : nat) (b : list Box) :
  length b = L ->
  (forall p, In p (kept_from 0 b) -> (p < N)%nat) ->
  (n <= count_positive b)%nat -> (n <= m)%nat ->
  firstn n (recover_positions N L m b) = firstn n (kept_from 0 b).
Proof.
  intros Hb HN Hn Hm. unfold recover_positions, top_k.
  rewrite rev_seq_countdown.
  change (fun b0 w => ((if box_positive b0 then 1 else 0) * w)%nat) with weight.
  rewrite <- Hb, sort_weights by lia.
  rewrite <- firstn_map, firstn_firstn, Nat.min_l by exact Hm.
  rewrite map_app, firstn_app, !length_map, kept_from_length.
  replace (n - count_positive b)%nat with 0%nat by lia.
  simpl. rewrite app_nil_r, map_map. f_equal.
  rewrite <- (map_id (kept_from 0 b)) at 2.
  apply map_ext_in. intros p Hp. specialize (HN p Hp).
  apply kept_from_spec in Hp. lia.
Qed.

(** [ops.where(idx_index < num_valid, idx, 0)] on one row. *)
Lemma where_valid_from (nv : nat) (row : list nat) (s : nat) :
  zip_with (fun j x => if (j <? nv)%nat then x else 0%nat) (seq s (length row)) row
  = firstn (nv - s) row ++ repeat 0%nat (length row - (nv - s)).
Proof.
  revert s. induction row as [|x row IH]; intro s; simpl.
  - rewrite firstn_nil. reflexivity.
  - rewrite zip_with_cons, IH.
    destruct (s <? nv)%nat eqn:E.
    + apply Nat.ltb_lt in E. replace (nv - s)%nat with (S (nv - S s)) by lia.
      reflexivity.
    + apply Nat.ltb_ge in E. replace (nv - s)%nat with 0%nat by lia.
      replace (nv - S s)%nat with 0%nat by lia. simpl.
      rewrite Nat.sub_0_r. reflexivity.
Qed.

Lemma where_valid (nv m : nat) (row : list nat) :
  length row = m ->
  zip_with (fun j x => if (j <? nv)%nat then x else 0%nat) (seq 0 m) row
  = firstn nv row ++ repeat 0%nat (m - nv).
Proof.
  intro H. subst m. rewrite where_valid_from, Nat.sub_0_r. reflexivity.
Qed.

(** [take_along_axis(reshape(sorted_indices, [-1]), idx + offsets)] reads
    row [i] of [sorted_indices]. *)
Lemma nth_concat_rows {A : Type} (N : nat) (ll : list (list A)) (i p : nat) (d : A) :
  Forall (fun r => length r = N) ll -> (p < N)%nat ->
  nth (p + i * N) (concat ll) d = nth p (nth i ll []) d.
Proof.
  intros Hll Hp. revert i. induction Hll as [|r ll Hr _ IH]; intro i.
  - simpl. destruct (p + i * N)%nat; destruct i; destruct p; reflexivity.
  - destruct i as [|i]; simpl.
    + rewrite Nat.add_0_r. apply app_nth1. lia.
    + rewrite app_nth2 by lia.
      replace (p + (N + i * N) - length r)%nat with (p + i * N)%nat by lia.
      apply IH.
Qed.

(* ================================================================== *)
(** * The ranking *)

Lemma insert_by_score_perm (p : Q * nat) (l : list (Q * nat)) :
  Permutation (insert_by_score p l) (p :: l).
Proof.
  induction l as [|q l IH]; simpl; [apply Permutation_refl|].
  destruct (Qle_bool (fst p) (fst q)); [apply Permutation_refl|].
  eapply Permutation_trans; [apply perm_skip, IH|apply perm_swap].
Qed.

Lemma sort_by_score_perm (l : list (Q * nat)) :
  Permutation (fold_right insert_by_score [] l) l.
Proof.
  induction l as [|p l IH]; simpl; [constructor|].
  eapply Permutation_trans; [apply insert_by_score_perm|].
  apply perm_skip, IH.
Qed.

Lemma map_snd_combine {A B : Type} (l1 : list A) (l2 : list B) :
  length l1 = length l2 -> map snd (combine l1 l2) = l2.
Proof.
  revert l2. induction l1 as [|a l1 IH]; intros [|b l2] H; simpl in *;
    try discriminate; [reflexivity|].
  f_equal. apply IH. lia.
Qed.

Lemma argsort_perm (scores : list Q) :
  Permutation (argsort scores) (seq 0 (length scores)).
Proof.
  unfold argsort.
  rewrite <- (map_snd_combine scores (seq 0 (length scores))) at 2
    by (rewrite length_seq; reflexivity).
  apply Permutation_map, sort_by_score_perm.
Qed.

Lemma ranking_perm (scores : list Q) :
  Permutation (rev (argsort scores)) (seq 0 (length scores)).
Proof.
  eapply Permutation_trans; [apply Permutation_sym, Permutation_rev|].
  apply argsort_perm.
Qed.

Lemma ranking_length (scores : list Q) :
  length (rev (argsort scores)) = length scores.
Proof.
  rewrite (Permutation_length (ranking_perm scores)). apply length_seq.
Qed.

Lemma ranking_NoDup (scores : list Q) : NoDup (rev (argsort scores)).
Proof.
  eapply Permutation_NoDup; [apply Permutation_sym, ranking_perm|].
  apply seq_NoDup.
Qed.

Lemma ranking_range (scores : list Q) (i : nat) :
  In i (rev (argsort scores)) -> (i < length scores)%nat.
Proof.
  intro H. apply (Permutation_in _ (ranking_perm scores)) in H.
  apply in_seq in H. lia.
Qed.

(* ================================================================== *)
(** * Padding *)

Lemma ceil_div_spec (a b : Z) :
  (0 <= a)%Z -> (0 < b)%Z ->
  (0 <= ceil_div a b)%Z /\ (a <= ceil_div a b * b)%Z.
Proof.
  intros Ha Hb. unfold ceil_div.
  pose proof (Z.div_mod (- a) b ltac:(lia)) as Hdm.
  pose proof (Z.mod_pos_bound (- a) b Hb) as Hmod.
  split; nia.
Qed.

Lemma padding_spec (N m : nat) (tile_size : Z) :
  (0 < tile_size)%Z ->
  let pad := pad_width N m tile_size in
  (pad <? 0)%Z = false
  /\ exists T,
      (N + Z.to_nat pad = T * Z.to_nat tile_size)%nat
      /\ Z.to_nat (Z.of_nat (N + Z.to_nat pad) / tile_size) = T
      /\ (N <= N + Z.to_nat pad)%nat
      /\ (m <= N + Z.to_nat pad)%nat.
Proof.
  intros Hts pad.
  destruct (@ceil_div_spec (Z.max (Z.of_nat N) (Z.of_nat m)) tile_size
              ltac:(lia) Hts) as [Hq Hqm].
  set (q := ceil_div (Z.max (Z.of_nat N) (Z.of_nat m)) tile_size) in *.
  assert (Hpad : (0 <= pad)%Z) by (subst pad; unfold pad_width; lia).
  split; [apply Z.ltb_ge; exact Hpad|].
  assert (HL : Z.of_nat (N + Z.to_nat pad) = (q * tile_size)%Z).
  { rewrite Nat2Z.inj_add, Z2Nat.id by exact Hpad. subst pad.
    unfold pad_width. lia. }
  exists (Z.to_nat q). split; [|split; [|split]].
  - apply Nat2Z.inj. rewrite HL, Nat2Z.inj_mul, !Z2Nat.id by lia. reflexivity.
  - rewrite HL, Z.div_mul by lia. reflexivity.
  - lia.
  - apply Nat2Z.inj_le. rewrite HL. lia.
Qed.

(* ================================================================== *)
(** * The result of [non_max_suppression] *)

Lemma Forall2_nth {A B : Type} (R : A -> B -> Prop) (l : list A) (l' : list B)
  (i : nat) (da : A) (db : B) :
  Forall2 R l l' -> (i < length l)%nat -> R (nth i l da) (nth i l' db).
Proof.
  intro H. revert i. induction H; intros [|i] Hi; simpl in *; try lia; auto.
  apply IHForall2. lia.
Qed.

Lemma in_firstn {A : Type} (n : nat) (l : list A) (x : A) :
  In x (firstn n l) -> In x l.
Proof.
  intro H. rewrite <- (firstn_skipn n l). apply in_or_app. left. exact H.
Qed.

Lemma count_prefix_le (tile_size K : nat) (f : list Box) :
  (count_prefix tile_size K f <= count_positive f)%nat.
Proof.
  unfold count_prefix.
  rewrite <- (firstn_skipn (K * tile_size) f) at 2.
  rewrite count_positive_app. lia.
Qed.

Lemma recover_indices_spec (N L m tile_size K : nat) (F : list (list Box))
  (ranking : list (list nat)) :
  (m <= L)%nat ->
  length ranking = length F ->
  Forall (fun r => length r = N) ranking ->
  Forall (fun f => length f = L
                   /\ forall p, In p (kept_from 0 f) -> (p < N)%nat) F ->
  recover_indices N L m (length F) ranking
                  (F, map (count_prefix tile_size K) F, K)
  = Ok (zip_with (select m tile_size K) F ranking,
        map (num_valid_image m tile_size K) F).
Proof.
  intros Hm Hlen Hrk HF. unfold recover_indices.
  replace (L <? m)%nat with false by (symmetry; apply Nat.ltb_ge; exact Hm).
  rewrite map_map. fold (num_valid_image m tile_size K).
  change (map (fun x => Nat.min (count_prefix tile_size K x) m) F)
    with (map (num_valid_image m tile_size K) F).
  f_equal. f_equal.
  apply nth_ext with (d := []) (d' := []).
  - rewrite !zip_with_length, !length_map, length_seq. lia.
  - intros i Hi.
    rewrite !zip_with_length, !length_map, length_seq in Hi.
    assert (HiF : (i < length F)%nat) by lia.
    rewrite (zip_with_nth _ _ _ 0%nat [] [])
      by (rewrite ?zip_with_length, ?length_map, ?length_seq; lia).
    rewrite (zip_with_nth _ _ _ 0%nat [] [])
      by (rewrite ?length_map, ?length_seq; lia).
    rewrite (zip_with_nth _ _ _ [] [] []) by lia.
    rewrite seq_nth by lia. simpl Nat.add.
    rewrite (nth_indep _ 0%nat (num_valid_image m tile_size K []))
      by (rewrite length_map; lia).
    rewrite map_nth.
    rewrite (nth_indep _ [] (recover_positions N L m [])) by (rewrite length_map; lia).
    rewrite map_nth.
    set (f := nth i F []).
    assert (Hf : In f F) by (apply nth_In; exact HiF).
    rewrite Forall_forall in HF. destruct (HF f Hf) as [HfL HfN].
    rewrite where_valid
      by (rewrite length_map; apply recover_positions_length; assumption).
    unfold select. f_equal.
    rewrite firstn_map. rewrite recover_positions_prefix.
    + apply map_ext_in. intros p Hp.
      apply nth_concat_rows; [exact Hrk|].
      apply HfN. eapply in_firstn; exact Hp.
    + exact HfL.
    + exact HfN.
    + unfold num_valid_image. pose proof (count_prefix_le tile_size K f). lia.
    + unfold num_valid_image. lia.
Qed.

(** ** The input, the pre-filter and the ranking, image by image *)

Lemma Forall2_zip_with_l {A B : Type} (f : A -> B -> A) (l1 : list A) (l2 : list B) :
  Forall2 (fun a b => f a b = a) l1 l2 -> zip_with f l1 l2 = l1.
Proof.
  induction 1; [reflexivity|]. rewrite zip_with_cons. congruence.
Qed.

Lemma zip_with_ext {A B C : Type} (f g : A -> B -> C) (l1 : list A) (l2 : list B) :
  (forall a b, f a b = g a b) -> zip_with f l1 l2 = zip_with g l1 l2.
Proof.
  intro H. unfold zip_with. apply map_ext. intros [a b]. apply H.
Qed.

Lemma zip_with_fst {A B : Type} (f : A -> B -> A) (l1 : list A) (l2 : list B) :
  (forall a b, f a b = a) -> length l1 = length l2 -> zip_with f l1 l2 = l1.
Proof.
  intro Hf. revert l2. induction l1 as [|a l1 IH]; intros [|b l2] H;
    simpl in H; try discriminate; [reflexivity|].
  rewrite zip_with_cons, Hf, IH by lia. reflexivity.
Qed.

Lemma Forall2_of_Forall {A B : Type} (P : A -> Prop) (Q : B -> Prop)
  (l1 : list A) (l2 : list B) :
  length l1 = length l2 -> Forall P l1 -> Forall Q l2 ->
  Forall2 (fun a b => P a /\ Q b) l1 l2.
Proof.
  revert l2. induction l1 as [|a l1 IH]; intros [|b l2] Hlen H1 H2;
    simpl in Hlen; try discriminate; constructor;
    inversion H1; inversion H2; subst; auto.
Qed.

Lemma zip_with_ext_Forall2 {A B C : Type} (f g : A -> B -> C) (l1 : list A)
  (l2 : list B) :
  Forall2 (fun a b => f a b = g a b) l1 l2 -> zip_with f l1 l2 = zip_with g l1 l2.
Proof.
  induction 1; [reflexivity|]. rewrite !zip_with_cons. congruence.
Qed.

Lemma filter_scores_image_length thr s :
  length (filter_scores_image thr s) = length s.
Proof. apply length_map. Qed.

Lemma rank_image_length thr s : length (rank_image thr s) = length s.
Proof.
  unfold rank_image. rewrite ranking_length. apply filter_scores_image_length.
Qed.

Lemma sorted_image_length thr b s : length (sorted_image thr b s) = length s.
Proof. unfold sorted_image. rewrite length_map. apply rank_image_length. Qed.

Section Stages.
Variables (fuel N : nat) (boxes : list (list Box)) (scores : list (list Q))
          (t : Q) (tile_size : Z).
Hypothesis Hwf : well_formed fuel N boxes scores t tile_size.

Lemma shapes_agree :
  Forall2 (fun b s => length b = N /\ length s = N) boxes scores.
Proof.
  destruct Hwf. apply Forall2_of_Forall; auto.
Qed.

Lemma score_filter_spec (thr : threshold) :
  score_filter thr scores boxes
  = (map (filter_scores_image thr) scores,
     zip_with (filter_boxes_image thr) boxes scores).
Proof.
  destruct thr as [|q]; simpl.
  - f_equal.
    + rewrite <- (map_id scores) at 1. apply map_ext. intro s.
      unfold filter_scores_image. simpl. symmetry. apply map_id.
    + symmetry. apply Forall2_zip_with_l.
      eapply Forall2_impl; [|exact shapes_agree].
      intros b s [Hb Hs]. apply zip_with_fst; [|congruence].
      intros x sc. apply box_scale_true.
  - f_equal.
    + rewrite zip_with_map_r, zip_with_same. apply map_ext. intro s.
      rewrite zip_with_map_r, zip_with_same. reflexivity.
    + rewrite zip_with_map_r. apply zip_with_ext. intros b s.
      apply zip_with_map_r.
Qed.
End Stages.

Lemma zip_with_zip_map {A B C D E : Type} (f : C -> D -> E) (g : A -> B -> C)
  (h : B -> D) (l1 : list A) (l2 : list B) :
  zip_with f (zip_with g l1 l2) (map h l2)
  = zip_with (fun a b => f (g a b) (h b)) l1 l2.
Proof.
  revert l2. induction l1 as [|a l1 IH]; intros [|b l2]; try reflexivity.
  simpl map. rewrite !zip_with_cons. f_equal. apply IH.
Qed.

Lemma map_zip_with {A B C D : Type} (h : C -> D) (f : A -> B -> C)
  (l1 : list A) (l2 : list B) :
  map h (zip_with f l1 l2) = zip_with (fun a b => h (f a b)) l1 l2.
Proof. unfold zip_with. rewrite map_map. reflexivity. Qed.

Lemma nth_padding (s : list Box) (pad p : nat) :
  (length s <= p)%nat -> nth p (s ++ repeat zero_box pad) zero_box = zero_box.
Proof.
  intro H. rewrite app_nth2 by lia. apply nth_repeat.
Qed.

Section Result.
Variables (fuel N : nat) (boxes : list (list Box)) (scores : list (list Q))
          (m : nat) (t : Q) (thr : threshold) (tile_size : Z).
Hypothesis Hwf : well_formed fuel N boxes scores t tile_size.

Local Abbreviation ts := (Z.to_nat tile_size).
Local Abbreviation L := (num_boxes_after_padding N m tile_size).
Local Abbreviation T := (num_iterations N m tile_size).
Local Abbreviation B0 := (padded_boxes thr N m tile_size boxes scores).

Lemma non_max_suppression_unfold :
  non_max_suppression fuel N boxes scores m t thr tile_size
  = (st <- suppression_loop fuel t ts m T (B0, repeat 0%nat (length boxes), 0%nat) ;;
     recover_indices N L m (length boxes) (map (rank_image thr) scores) st).
Proof.
  unfold non_max_suppression.
  replace (N =? 0)%nat with false
    by (symmetry; apply Nat.eqb_neq; destruct Hwf; lia).
  rewrite (score_filter_spec Hwf). unfold _sort_scores_and_boxes.
  replace (tile_size =? 0)%Z with false
    by (symmetry; apply Z.eqb_neq; destruct Hwf; lia).
  destruct (@padding_spec N m tile_size (wf_tile_size Hwf)) as [Hpad _].
  rewrite Hpad.
  rewrite !map_map, zip_with_zip_map, map_zip_with.
  reflexivity.
Qed.

Lemma tiles_cover : (L = T * ts)%nat /\ (N <= L)%nat /\ (m <= L)%nat.
Proof.
  destruct (@padding_spec N m tile_size (wf_tile_size Hwf))
    as [_ [T' [H1 [H2 [H3 H4]]]]].
  unfold num_iterations, num_boxes_after_padding. rewrite H2.
  repeat split; assumption.
Qed.

Lemma padded_boxes_length : length B0 = length boxes.
Proof.
  unfold padded_boxes. rewrite zip_with_length.
  rewrite (wf_batch_scores Hwf). lia.
Qed.

Lemma padded_boxes_rows :
  Forall (fun b0 => length b0 = L
                    /\ forall p, (N <= p)%nat -> nth p b0 zero_box = zero_box) B0.
Proof.
  apply Forall_forall. intros b0 Hb0. unfold padded_boxes in Hb0.
  apply zip_with_In in Hb0. destruct Hb0 as [b [s [_ [Hs ->]]]].
  pose proof (wf_scores Hwf) as Hsc. rewrite Forall_forall in Hsc.
  specialize (Hsc s Hs). unfold padded_image. split.
  - rewrite length_app, sorted_image_length, repeat_length, Hsc. reflexivity.
  - intros p Hp. apply nth_padding. rewrite sorted_image_length. lia.
Qed.

(** The selection, in terms of the array [F] the outer loop ends with and
    the number [K] of tiles it processed. *)
Theorem non_max_suppression_spec :
  exists F K,
    suppression_loop fuel t ts m T (B0, repeat 0%nat (length boxes), 0%nat)
    = Ok (F, map (count_prefix ts K) F, K)
    /\ (K <= T)%nat
    /\ Forall2 (reach t ts 0 K) B0 F
    /\ ((K < T)%nat -> Forall (fun f => (m <= count_prefix ts K f)%nat) F)
    /\ non_max_suppression fuel N boxes scores m t thr tile_size
       = Ok (zip_with (select m ts K) F (map (rank_image thr) scores),
             map (num_valid_image m ts K) F).
Proof.
  destruct tiles_cover as [HL [HNL HmL]].
  assert (Hts : (1 <= ts)%nat) by (destruct Hwf; lia).
  assert (Hzero : repeat 0%nat (length boxes) = map (count_prefix ts 0) B0).
  { rewrite <- padded_boxes_length. generalize B0. intro l.
    induction l as [|a l IH]; simpl; [reflexivity|]. rewrite IH. reflexivity. }
  destruct (@suppression_loop_spec fuel t ts m (wf_iou_threshold Hwf) Hts
              (wf_fuel Hwf) T B0 0%nat) as [F [K [Hrun [HK [Hreach Hexit]]]]].
  { intro E. apply (wf_batch Hwf). apply length_zero_iff_nil.
    rewrite <- padded_boxes_length, E. reflexivity. }
  { eapply Forall_impl; [|exact padded_boxes_rows].
    simpl. intros b0 [Hlen _]. lia. }
  exists F, K. rewrite Hzero. split; [exact Hrun|]. split; [exact HK|].
  split; [exact Hreach|]. split; [exact Hexit|].
  rewrite non_max_suppression_unfold, Hzero, Hrun. simpl bind.
  pose proof (Forall2_length Hreach) as HlenF.
  rewrite padded_boxes_length in HlenF. rewrite HlenF.
  apply recover_indices_spec.
  - exact HmL.
  - rewrite length_map, (wf_batch_scores Hwf). exact HlenF.
  - apply Forall_forall. intros r Hr. apply in_map_iff in Hr.
    destruct Hr as [s [<- Hs]]. rewrite rank_image_length.
    pose proof (wf_scores Hwf) as Hsc. rewrite Forall_forall in Hsc. auto.
  - apply Forall_forall. intros f Hf.
    destruct (In_nth _ _ [] Hf) as [i [Hi Hnth]].
    assert (Hr : reach t ts 0 K (nth i B0 []) f).
    { rewrite <- Hnth. apply Forall2_nth; [exact Hreach|].
      rewrite padded_boxes_length. lia. }
    pose proof padded_boxes_rows as Hrows. rewrite Forall_forall in Hrows.
    destruct (Hrows (nth i B0 [])) as [Hlen0 Hzero0].
    { apply nth_In. rewrite padded_boxes_length. lia. }
    destruct (reach_facts Hr) as [Hlen [Hdim _]]; [nia|].
    split; [congruence|].
    intros p Hp. apply kept_from_spec in Hp. destruct Hp as [Hp Hpos].
    rewrite Nat.sub_0_r in Hpos.
    destruct (Nat.lt_ge_cases p N) as [Hlt|Hge]; [exact Hlt|exfalso].
    assert (Hd : dimmed (nth p f zero_box) (nth p (nth i B0 []) zero_box))
      by (apply Forall2_nth; [exact Hdim|lia]).
    rewrite (Hzero0 p Hge) in Hd. apply dimmed_zero in Hd.
    rewrite Hd in Hpos. discriminate.
Qed.
End Result.

(** The same, read image by image. *)
Theorem non_max_suppression_images (fuel N : nat) (boxes : list (list Box))
  (scores : list (list Q)) (m : nat) (t : Q) (thr : threshold) (tile_size : Z) :
  well_formed fuel N boxes scores t tile_size ->
  let ts := Z.to_nat tile_size in
  exists F K indices num_valid,
    non_max_suppression fuel N boxes scores m t thr tile_size
    = Ok (indices, num_valid)
    /\ suppression_loop fuel t ts m (num_iterations N m tile_size)
         (padded_boxes thr N m tile_size boxes scores,
          repeat 0%nat (length boxes), 0%nat)
       = Ok (F, map (count_prefix ts K) F, K)
    /\ length F = length boxes
    /\ length indices = length boxes
    /\ length num_valid = length boxes
    /\ (K <= num_iterations N m tile_size)%nat
    /\ ((K < num_iterations N m tile_size)%nat ->
        Forall (fun f => (m <= count_prefix ts K f)%nat) F)
    /\ forall i, (i < length boxes)%nat ->
         nth i indices []
         = select m ts K (nth i F []) (rank_image thr (nth i scores []))
         /\ nth i num_valid 0%nat = num_valid_image m ts K (nth i F [])
         /\ reach t ts 0 K
              (padded_image thr N m tile_size (nth i boxes []) (nth i scores []))
              (nth i F []).
Proof.
  intros Hwf ts.
  destruct (non_max_suppression_spec m thr Hwf)
    as [F [K [Hrun [HK [Hreach [Hexit Hres]]]]]].
  pose proof (Forall2_length Hreach) as HlenF.
  rewrite (padded_boxes_length _ _ Hwf) in HlenF.
  pose proof (wf_batch_scores Hwf) as Hsc.
  exists F, K. eexists. eexists. split; [exact Hres|].
  split; [exact Hrun|]. split; [congruence|].
  split; [rewrite zip_with_length, length_map; lia|].
  split; [rewrite length_map; congruence|].
  split; [exact HK|]. split; [exact Hexit|].
  intros i Hi. split; [|split].
  - rewrite (zip_with_nth _ _ _ [] [] []) by (rewrite ?length_map; lia).
    f_equal. rewrite (nth_indep _ [] (rank_image thr [])) by (rewrite length_map; lia).
    apply map_nth.
  - rewrite (nth_indep _ 0%nat (num_valid_image m ts K [])) by (rewrite length_map; lia).
    apply map_nth.
  - assert (E : nth i (padded_boxes thr N m tile_size boxes scores) []
                = padded_image thr N m tile_size (nth i boxes []) (nth i scores [])).
    { unfold padded_boxes. apply zip_with_nth; lia. }
    rewrite <- E. apply Forall2_nth; [exact Hreach|].
    rewrite (padded_boxes_length _ _ Hwf). exact Hi.
Qed.

(** What [reach] says about the final array of one image. *)
Lemma final_image (fuel N : nat) (boxes : list (list Box))
  (scores : list (list Q)) (m : nat) (t : Q) (thr : threshold) (tile_size : Z)
  (b : list Box) (s : list Q) (f : list Box) (K : nat) :
  well_formed fuel N boxes scores t tile_size ->
  length s = N ->
  (K <= num_iterations N m tile_size)%nat ->
  reach t (Z.to_nat tile_size) 0 K (padded_image thr N m tile_size b s) f ->
  length f = num_boxes_after_padding N m tile_size
  /\ Forall2 dimmed f (padded_image thr N m tile_size b s)
  /\ (forall p, In p (kept_from 0 f) ->
                (p < N)%nat /\ nth p f zero_box = nth p (sorted_image thr b s) zero_box)
  /\ (count_positive f <= N)%nat.
Proof.
  intros Hwf Hs HK Hr.
  destruct (tiles_cover m Hwf) as [HL [HNL HmL]].
  assert (Hlen0 : length (padded_image thr N m tile_size b s)
                  = num_boxes_after_padding N m tile_size).
  { unfold padded_image, num_boxes_after_padding.
    rewrite length_app, sorted_image_length, repeat_length, Hs. reflexivity. }
  destruct (reach_facts Hr) as [Hlen [Hdim _]]; [nia|].
  assert (Hkept : forall p, In p (kept_from 0 f) ->
                 (p < N)%nat
                 /\ nth p f zero_box = nth p (sorted_image thr b s) zero_box).
  { intros p Hp. apply kept_from_spec in Hp. destruct Hp as [Hp Hpos].
    rewrite Nat.sub_0_r in Hpos.
    assert (Hd : dimmed (nth p f zero_box)
                        (nth p (padded_image thr N m tile_size b s) zero_box))
      by (apply Forall2_nth; [exact Hdim|lia]).
    apply dimmed_positive in Hd; [|exact Hpos].
    destruct (Nat.lt_ge_cases p N) as [Hlt|Hge].
    - split; [exact Hlt|]. rewrite Hd. unfold padded_image.
      apply app_nth1. rewrite sorted_image_length. lia.
    - exfalso. unfold padded_image in Hd.
      rewrite nth_padding in Hd by (rewrite sorted_image_length; lia).
      rewrite Hd in Hpos. discriminate. }
  split; [congruence|]. split; [exact Hdim|]. split; [exact Hkept|].
  rewrite <- (kept_from_length 0 f).
  assert (Hincl : incl (kept_from 0 f) (seq 0 N)).
  { intros p Hp. apply in_seq. destruct (Hkept p Hp). lia. }
  pose proof (NoDup_incl_length (kept_from_NoDup 0 f) Hincl) as Hle.
  rewrite length_seq in Hle. exact Hle.
Qed.

(* ================================================================== *)
(** * Shape of the selection *)

Lemma NoDup_firstn {A : Type} (n : nat) (l : list A) : NoDup l -> NoDup (firstn n l).
Proof.
  intro H. rewrite <- (firstn_skipn n l) in H. apply NoDup_app_remove_r in H.
  exact H.
Qed.

Lemma NoDup_map_nth (r ps : list nat) :
  NoDup r -> NoDup ps -> (forall p, In p ps -> (p < length r)%nat) ->
  NoDup (map (fun p => nth p r 0%nat) ps).
Proof.
  intros Hr Hps. induction Hps as [|p ps Hp _ IH]; intro Hlt; simpl;
    constructor.
  - intro Hin. apply in_map_iff in Hin. destruct Hin as [q [E Hq]].
    rewrite (NoDup_nth r 0%nat) in Hr.
    assert (q = p); [|subst; contradiction].
    apply Hr; auto using in_eq, in_cons.
  - apply IH. intros; apply Hlt; right; assumption.
Qed.

Lemma select_facts (m tile_size K N : nat) (f : list Box) (r : list nat) :
  (forall p, In p (kept_from 0 f) -> (p < N)%nat) ->
  length r = N -> NoDup r -> (forall x, In x r -> (x < N)%nat) ->
  let nv := num_valid_image m tile_size K f in
  let row := select m tile_size K f r in
  length row = m
  /\ firstn nv row = map (fun p => nth p r 0%nat) (firstn nv (kept_from 0 f))
  /\ length (firstn nv (kept_from 0 f)) = nv
  /\ NoDup (firstn nv row)
  /\ (forall j, (j < nv)%nat -> (nth j row 0 < N)%nat)
  /\ (forall j, (nv <= j)%nat -> nth j row 0%nat = 0%nat).
Proof.
  intros Hkept Hlen Hnd Hrange nv row.
  assert (Hnv : (nv <= m)%nat) by (subst nv; unfold num_valid_image; lia).
  assert (Hnvk : length (firstn nv (kept_from 0 f)) = nv).
  { rewrite length_firstn, kept_from_length. subst nv. unfold num_valid_image.
    pose proof (count_prefix_le tile_size K f). lia. }
  assert (Hpre : firstn nv row
                 = map (fun p => nth p r 0%nat) (firstn nv (kept_from 0 f))).
  { subst row. unfold select. fold nv.
    rewrite <- Hnvk at 1. rewrite <- (length_map (fun p => nth p r 0%nat)).
    apply firstn_app_exact. }
  assert (Hin : forall p, In p (firstn nv (kept_from 0 f)) -> (p < length r)%nat).
  { intros p Hp. rewrite Hlen. apply Hkept. eapply in_firstn; exact Hp. }
  split; [|split; [exact Hpre|split; [exact Hnvk|split; [|split]]]].
  - subst row. unfold select. fold nv.
    rewrite length_app, length_map, Hnvk, repeat_length. lia.
  - rewrite Hpre. apply NoDup_map_nth; [exact Hnd| |exact Hin].
    apply NoDup_firstn, kept_from_NoDup.
  - intros j Hj.
    assert (E : nth j row 0%nat = nth j (firstn nv row) 0%nat)
      by (rewrite nth_firstn; replace (j <? nv)%nat with true
            by (symmetry; apply Nat.ltb_lt; exact Hj); reflexivity).
    rewrite E, Hpre.
    rewrite (nth_indep _ 0%nat (nth 0 r 0%nat)) by (rewrite length_map; lia).
    rewrite (map_nth (fun p => nth p r 0%nat)).
    apply Hrange, nth_In, Hin, nth_In. lia.
  - intros j Hj. subst row. unfold select. fold nv.
    rewrite app_nth2 by (rewrite length_map, Hnvk; exact Hj).
    apply nth_repeat.
Qed.

(** C3.  For a well-formed input the call returns, and for every image [i]:
    [num_valid[i] <= max_output_size], [num_valid[i] <= N], the row
    [indices[i]] has [max_output_size] entries, its first [num_valid[i]]
    entries are pairwise distinct and lie in [[0, N)], and every entry at a
    position [>= num_valid[i]] is zero. *)
Theorem selection_shape (fuel N : nat) (boxes : list (list Box))
  (scores : list (list Q)) (m : nat) (t : Q) (thr : threshold) (tile_size : Z) :
  well_formed fuel N boxes scores t tile_size ->
  exists indices num_valid,
    non_max_suppression fuel N boxes scores m t thr tile_size
    = Ok (indices, num_valid)
    /\ length indices = length boxes
    /\ length num_valid = length boxes
    /\ forall i, (i < length boxes)%nat ->
         let nv := nth i num_valid 0%nat in
         let row := nth i indices [] in
         (nv <= m)%nat /\ (nv <= N)%nat
         /\ length row = m
         /\ NoDup (firstn nv row)
         /\ (forall j, (j < nv)%nat -> (nth j row 0 < N)%nat)
         /\ (forall j, (nv <= j)%nat -> nth j row 0%nat = 0%nat).
Proof.
  intro Hwf.
  destruct (non_max_suppression_images m thr Hwf)
    as [F [K [indices [num_valid [Hres [_ [HlenF [Hli [Hln [HK [_ Himg]]]]]]]]]]].
  exists indices, num_valid. split; [exact Hres|]. split; [exact Hli|].
  split; [exact Hln|]. intros i Hi nv row.
  destruct (Himg i Hi) as [Hrow [Hnv Hreach]].
  assert (Hs : length (nth i scores []) = N).
  { pose proof (wf_scores Hwf) as Hsc. rewrite Forall_forall in Hsc.
    apply Hsc, nth_In. rewrite (wf_batch_scores Hwf). exact Hi. }
  destruct (@final_image fuel N boxes scores m t thr tile_size _ _ _ K
              Hwf Hs HK Hreach) as [_ [_ [Hkept Hcount]]].
  destruct (@select_facts m (Z.to_nat tile_size) K N (nth i F [])
              (rank_image thr (nth i scores [])))
    as [H1 [_ [_ [H4 [H5 H6]]]]].
  - intros p Hp. apply Hkept, Hp.
  - rewrite rank_image_length. exact Hs.
  - apply ranking_NoDup.
  - intros x Hx. apply ranking_range in Hx.
    rewrite filter_scores_image_length, Hs in Hx. exact Hx.
  - subst nv row. rewrite Hrow, Hnv.
    split; [unfold num_valid_image; lia|].
    split; [|auto].
    unfold num_valid_image.
    pose proof (count_prefix_le (Z.to_nat tile_size) K (nth i F [])). lia.
Qed.

Lemma selection_shape_witness :
  well_formed 2 2 [[mkBox 0 0 1 1; mkBox 0 2 1 3]] [[1 # 2; 1 # 3]] (1 # 2) 2
  /\ exists indices num_valid,
      non_max_suppression 2 2 [[mkBox 0 0 1 1; mkBox 0 2 1 3]]
                          [[1 # 2; 1 # 3]] 1 (1 # 2) (Finite 0) 2
      = Ok (indices, num_valid)
      /\ length indices = 1%nat
      /\ length num_valid = 1%nat
      /\ forall i, (i < 1)%nat ->
           let nv := nth i num_valid 0%nat in
           let row := nth i indices [] in
           (nv <= 1)%nat /\ (nv <= 2)%nat
           /\ length row = 1%nat
           /\ NoDup (firstn nv row)
           /\ (forall j, (j < nv)%nat -> (nth j row 0 < 2)%nat)
           /\ (forall j, (nv <= j)%nat -> nth j row 0%nat = 0%nat).
Proof.
  assert (Hwf : well_formed 2 2 [[mkBox 0 0 1 1; mkBox 0 2 1 3]]
                            [[1 # 2; 1 # 3]] (1 # 2) 2).
  { constructor; simpl; try lia; try discriminate; repeat constructor. }
  split; [exact Hwf|].
  exact (@selection_shape 2 2 _ _ 1 (1 # 2) (Finite 0) 2 Hwf).
Defined.

(* ================================================================== *)
(** * The score pre-filter *)

Lemma above_true_iff (thr : threshold) (s : Q) : above thr s = true <-> exceeds thr s.
Proof.
  destruct thr as [|q]; simpl; [tauto|]. apply Qlt_bool_iff.
Qed.

Lemma above_false_iff (thr : threshold) (s : Q) :
  above thr s = false <-> ~ exceeds thr s.
Proof.
  rewrite <- above_true_iff. destruct (above thr s); split; congruence.
Qed.

Lemma filter_boxes_image_length thr (b : list Box) (s : list Q) :
  length b = length s -> length (filter_boxes_image thr b s) = length b.
Proof. intro H. unfold filter_boxes_image. rewrite zip_with_length. lia. Qed.

Lemma filter_boxes_image_nth thr (b : list Box) (s : list Q) (j : nat) :
  length b = length s -> (j < length b)%nat ->
  nth j (filter_boxes_image thr b s) zero_box
  = box_scale (above thr (nth j s 0)) (nth j b zero_box).
Proof.
  intros H Hj. unfold filter_boxes_image.
  rewrite (zip_with_nth _ _ _ zero_box 0 zero_box) by lia. reflexivity.
Qed.

Lemma filter_scores_image_nth thr (s : list Q) (j : nat) :
  (j < length s)%nat ->
  nth j (filter_scores_image thr s) 0 = mask_mul (above thr (nth j s 0)) (nth j s 0).
Proof.
  intro Hj. unfold filter_scores_image.
  rewrite (nth_indep _ 0 (mask_mul (above thr 0) 0)) by (rewrite length_map; lia).
  apply (map_nth (fun x => mask_mul (above thr x) x)).
Qed.

Lemma filtered_all_zero thr (b : list Box) (s : list Q) :
  length b = length s ->
  Forall (fun x => ~ exceeds thr x) s ->
  Forall (fun x => x = zero_box) (filter_boxes_image thr b s).
Proof.
  intros Hlen Hs. apply Forall_forall. intros x Hx.
  unfold filter_boxes_image in Hx. apply zip_with_In in Hx.
  destruct Hx as [x0 [sc [_ [Hsc ->]]]].
  rewrite Forall_forall in Hs. specialize (Hs sc Hsc).
  apply above_false_iff in Hs. rewrite Hs. reflexivity.
Qed.

Lemma count_positive_all_zero (l : list Box) :
  Forall (fun x => x = zero_box) l -> count_positive l = 0%nat.
Proof.
  unfold count_positive. induction 1 as [|x l Hx _ IH]; simpl; [reflexivity|].
  subst x. simpl. exact IH.
Qed.

Lemma sorted_all_zero thr (b : list Box) (s : list Q) :
  length b = length s ->
  Forall (fun x => ~ exceeds thr x) s ->
  Forall (fun x => x = zero_box) (sorted_image thr b s).
Proof.
  intros Hlen Hs. apply Forall_forall. intros x Hx.
  unfold sorted_image in Hx. apply in_map_iff in Hx. destruct Hx as [i [<- _]].
  pose proof (filtered_all_zero thr b Hlen Hs) as Hz.
  rewrite Forall_forall in Hz.
  destruct (Nat.lt_ge_cases i (length (filter_boxes_image thr b s))) as [H|H].
  - apply Hz, nth_In, H.
  - apply nth_overflow, H.
Qed.

(** C8.  The pre-filter keeps exactly the boxes whose score is strictly
    greater than [score_threshold]: such a box keeps its coordinates and its
    score, every other box and score becomes zero, and the shape is
    unchanged.  And when no score of image [i] is above the threshold (in
    particular when the threshold exceeds all of them), the call returns
    [num_valid[i] = 0]. *)
Theorem score_prefilter_strict (fuel N : nat) (boxes : list (list Box))
  (scores : list (list Q)) (m : nat) (t : Q) (thr : threshold) (tile_size : Z) :
  well_formed fuel N boxes scores t tile_size ->
  (let scores' := fst (score_filter thr scores boxes) in
   let boxes' := snd (score_filter thr scores boxes) in
   length scores' = length scores /\ length boxes' = length boxes
   /\ forall i j, (i < length boxes)%nat -> (j < N)%nat ->
        let s := nth j (nth i scores []) 0 in
        let b := nth j (nth i boxes []) zero_box in
        length (nth i scores' []) = N /\ length (nth i boxes' []) = N
        /\ (exceeds thr s ->
            nth j (nth i scores' []) 0 = s
            /\ nth j (nth i boxes' []) zero_box = b)
        /\ (~ exceeds thr s ->
            nth j (nth i scores' []) 0 = 0
            /\ nth j (nth i boxes' []) zero_box = zero_box))
  /\ (forall i, (i < length boxes)%nat ->
        Forall (fun s => ~ exceeds thr s) (nth i scores []) ->
        exists indices num_valid,
          non_max_suppression fuel N boxes scores m t thr tile_size
          = Ok (indices, num_valid)
          /\ nth i num_valid 0%nat = 0%nat).
Proof.
  intro Hwf. pose proof (wf_batch_scores Hwf) as Hbs.
  assert (Hshape : forall i, (i < length boxes)%nat ->
                     length (nth i boxes []) = N /\ length (nth i scores []) = N).
  { intros i Hi. pose proof (wf_boxes Hwf) as Hb. pose proof (wf_scores Hwf) as Hs.
    rewrite Forall_forall in Hb, Hs. split; [apply Hb|apply Hs]; apply nth_In; lia. }
  split.
  - rewrite (score_filter_spec Hwf). cbn [fst snd].
    split; [apply length_map|]. split; [rewrite zip_with_length; lia|].
    intros i j Hi Hj. destruct (Hshape i Hi) as [Hb Hs].
    rewrite (nth_indep _ [] (filter_scores_image thr [])) by (rewrite length_map; lia).
    rewrite (map_nth (filter_scores_image thr)).
    rewrite (zip_with_nth _ _ _ [] [] []) by lia.
    rewrite filter_scores_image_length, filter_boxes_image_length by congruence.
    rewrite filter_scores_image_nth, filter_boxes_image_nth by lia.
    split; [exact Hs|]. split; [exact Hb|]. split; intro H.
    + apply above_true_iff in H. rewrite H. split; [reflexivity|apply box_scale_true].
    + apply above_false_iff in H. rewrite H. split; reflexivity.
  - intros i Hi Hlow.
    destruct (non_max_suppression_images m thr Hwf)
      as [F [K [indices [num_valid [Hres [_ [_ [_ [_ [HK [_ Himg]]]]]]]]]]].
    exists indices, num_valid. split; [exact Hres|].
    destruct (Himg i Hi) as [_ [Hnv Hreach]]. destruct (Hshape i Hi) as [Hb Hs].
    destruct (@final_image fuel N boxes scores m t thr tile_size _ _ _ K
                Hwf Hs HK Hreach) as [_ [Hdim _]].
    rewrite Hnv. unfold num_valid_image.
    pose proof (count_prefix_le (Z.to_nat tile_size) K (nth i F [])) as H1.
    pose proof (count_positive_dimmed Hdim) as H2.
    unfold padded_image in H2.
    rewrite count_positive_app, count_positive_zeros in H2.
    assert (Hbs' : length (nth i boxes []) = length (nth i scores [])) by congruence.
    rewrite (count_positive_all_zero (sorted_all_zero thr _ Hbs' Hlow)) in H2.
    lia.
Qed.

Lemma score_prefilter_strict_witness :
  well_formed 2 2 [[mkBox 0 0 1 1; mkBox 0 2 1 3]] [[1 # 2; 1 # 3]] (1 # 2) 2
  /\ exists indices num_valid,
      non_max_suppression 2 2 [[mkBox 0 0 1 1; mkBox 0 2 1 3]]
                          [[1 # 2; 1 # 3]] 1 (1 # 2) (Finite 1) 2
      = Ok (indices, num_valid)
      /\ nth 0 num_valid 0%nat = 0%nat.
Proof.
  assert (Hwf : well_formed 2 2 [[mkBox 0 0 1 1; mkBox 0 2 1 3]]
                            [[1 # 2; 1 # 3]] (1 # 2) 2).
  { constructor; simpl; try lia; try discriminate; repeat constructor. }
  split; [exact Hwf|].
  apply (proj2 (@score_prefilter_strict 2 2 _ _ 1 (1 # 2) (Finite 1) 2 Hwf) 0%nat).
  - simpl. lia.
  - simpl. repeat constructor; unfold Qlt; simpl; lia.
Defined.

(* ================================================================== *)
(** * Rejected and degenerate inputs *)

(** An [iou_threshold] outside [[0, 1]] is accepted: the call returns a
    selection. *)
Lemma iou_threshold_not_checked :
  non_max_suppression 2 2 [[mkBox 0 0 1 1; mkBox 0 0 1 1]] [[1 # 2; 1 # 3]]
                      2 2 (Finite 0) 2
  = Ok ([[0; 1]%nat], [2%nat]).
Proof. vm_compute. reflexivity. Qed.

(** A negative [tile_size] is accepted as well. *)
Lemma negative_tile_size_not_checked :
  non_max_suppression 2 2 [[mkBox 0 0 1 1; mkBox 0 0 1 1]] [[1 # 2; 1 # 3]]
                      1 (1 # 2) (Finite 0) (-1)
  = Ok ([[0%nat]], [0%nat]).
Proof. vm_compute. reflexivity. Qed.

(** C5 (amended).  With [tile_size = 0] every call fails, whatever the other
    arguments and before the suppression loop is entered (no fuel is
    needed): the padding computation divides by zero, unless the reshape of
    an input without boxes has already failed.  No result is returned. *)
Theorem zero_tile_size_rejected (fuel N : nat) (boxes : list (list Box))
  (scores : list (list Q)) (m : nat) (t : Q) (thr : threshold) :
  non_max_suppression fuel N boxes scores m t thr 0
  = Err (if (N =? 0)%nat then ReshapeError else ZeroDivisionError).
Proof.
  unfold non_max_suppression. destruct (N =? 0)%nat; [reflexivity|].
  destruct (score_filter thr scores boxes) as [sc bx].
  unfold _sort_scores_and_boxes. reflexivity.
Qed.

(** Zero boxes per image: the reshape fails, there is no result. *)
Lemma zero_boxes_rejected :
  non_max_suppression 512 0 [[]] [[]] 1 (1 # 2) (Finite 0) 512
  = Err ReshapeError.
Proof. reflexivity. Qed.

Lemma all_eq_repeat {A : Type} (a : A) (l : list A) :
  (forall x, In x l -> x = a) -> l = repeat a (length l).
Proof.
  induction l as [|x l IH]; intro H; simpl; [reflexivity|].
  rewrite <- IH by (intros; apply H; right; assumption).
  f_equal. apply H. left. reflexivity.
Qed.

Lemma score_filter_lengths (thr : threshold) (scores : list (list Q))
  (boxes : list (list Box)) :
  length scores = length boxes ->
  length (fst (score_filter thr scores boxes)) = length boxes
  /\ length (snd (score_filter thr scores boxes)) = length boxes.
Proof.
  intro H. destruct thr; simpl; [auto|].
  rewrite !zip_with_length, !length_map. lia.
Qed.

(** C6 (amended).  With at least one box per image, [max_output_size = 0] is
    not an error: the call returns [num_valid[i] = 0] for every image and an
    index array with no columns (every row is empty, so nothing in it is
    non-zero).  The outer loop does not run, so neither fuel nor a bound on
    [iou_threshold] is needed. *)
Theorem zero_output_size (fuel N : nat) (boxes : list (list Box))
  (scores : list (list Q)) (t : Q) (thr : threshold) (tile_size : Z) :
  (1 <= N)%nat -> boxes <> [] -> length scores = length boxes ->
  (0 < tile_size)%Z ->
  non_max_suppression fuel N boxes scores 0 t thr tile_size
  = Ok (repeat [] (length boxes), repeat 0%nat (length boxes)).
Proof.
  intros HN Hne Hlen Hts. unfold non_max_suppression.
  replace (N =? 0)%nat with false by (symmetry; apply Nat.eqb_neq; lia).
  destruct (score_filter_lengths thr scores boxes Hlen) as [Hsc Hbx].
  destruct (score_filter thr scores boxes) as [sc bx]. simpl in Hsc, Hbx.
  unfold _sort_scores_and_boxes.
  replace (tile_size =? 0)%Z with false by (symmetry; apply Z.eqb_neq; lia).
  destruct (@padding_spec N 0 tile_size Hts) as [Hpad _]. rewrite Hpad.
  set (B := map _ (zip_with _ bx _)).
  assert (HB : length B = length boxes).
  { subst B. rewrite length_map, zip_with_length, length_map. lia. }
  assert (Hloop : forall T, suppression_loop fuel t (Z.to_nat tile_size) 0 T
                    (B, repeat 0%nat (length boxes), 0%nat)
                  = Ok (B, repeat 0%nat (length boxes), 0%nat)).
  { destruct boxes as [|b0 boxes']; [congruence|].
    intro T. destruct T; reflexivity. }
  rewrite Hloop. simpl bind. unfold recover_indices.
  replace (map (fun o => Nat.min o 0) (repeat 0%nat (length boxes)))
    with (repeat 0%nat (length boxes))
    by (clear; induction (length boxes); simpl; congruence).
  simpl Nat.ltb. cbv iota. f_equal. f_equal.
  match goal with |- ?l = _ => assert (Hl : length l = length boxes) end.
  { rewrite !zip_with_length, !length_map, length_seq, repeat_length. lia. }
  etransitivity; [apply (@all_eq_repeat _ [])|rewrite Hl; reflexivity].
  intros row Hrow.
  apply zip_with_In in Hrow. destruct Hrow as [nv [r [_ [_ ->]]]].
  reflexivity.
Qed.

Lemma zero_output_size_witness :
  ((1 <= 2)%nat /\ [[mkBox 0 0 1 1; mkBox 0 2 1 3]] <> []
   /\ length [[1 # 2; 1 # 3]] = length [[mkBox 0 0 1 1; mkBox 0 2 1 3]]
   /\ (0 < 2)%Z)
  /\ non_max_suppression 0 2 [[mkBox 0 0 1 1; mkBox 0 2 1 3]] [[1 # 2; 1 # 3]]
                         0 (1 # 2) (Finite 0) 2
     = Ok (repeat [] 1, repeat 0%nat 1).
Proof.
  assert (H1 : (1 <= 2)%nat) by lia.
  assert (H2 : [[mkBox 0 0 1 1; mkBox 0 2 1 3]] <> []) by discriminate.
  assert (H3 : length [[1 # 2; 1 # 3]]
               = length [[mkBox 0 0 1 1; mkBox 0 2 1 3]]) by reflexivity.
  assert (H4 : (0 < 2)%Z) by reflexivity.
  split; [repeat split; assumption|].
  exact (@zero_output_size 0 2 _ _ (1 # 2) (Finite 0) 2 H1 H2 H3 H4).
Defined.

(* ================================================================== *)
(** * More padding does not change the processed tiles *)

Lemma body_slice_app (k : nat) (t : Q) (tile_size idx : nat) (b e : list Box) :
  (S idx * tile_size <= length b)%nat ->
  body_slice k t tile_size idx (b ++ e) = body_slice k t tile_size idx b.
Proof.
  intro H. unfold body_slice. rewrite cross_image_app by exact H. reflexivity.
Qed.

Lemma count_prefix_app (tile_size idx : nat) (b e : list Box) :
  (idx * tile_size <= length b)%nat ->
  count_prefix tile_size idx (b ++ e) = count_prefix tile_size idx b.
Proof.
  intro H. unfold count_prefix. rewrite firstn_app.
  replace (idx * tile_size - length b)%nat with 0%nat by lia.
  simpl. rewrite app_nil_r. reflexivity.
Qed.

Section Extend.
Variables (fuel : nat) (t : Q) (tile_size : nat) (e : list Box).
Hypothesis Ht : 0 <= t.
Hypothesis Hts : (1 <= tile_size)%nat.
Hypothesis Hfuel : (tile_size <= fuel)%nat.

Local Abbreviation grow := (map (fun b : list Box => b ++ e)).
Local Abbreviation counts idx B := (map (count_prefix tile_size idx) B).

Lemma body_counts_app (boxes : list (list Box)) (idx : nat) :
  Forall (fun b => (S idx * tile_size <= length b)%nat) boxes ->
  let k := inner_steps fuel t (map (cross_image t tile_size idx) boxes) in
  _suppression_loop_body fuel t tile_size (grow boxes, counts idx boxes, idx)
  = Ok (grow (map (body_image k t tile_size idx) boxes),
        counts (S idx) (map (body_image k t tile_size idx) boxes),
        S idx).
Proof.
  intros Hlen k.
  assert (Hlen' : Forall (fun b => (S idx * tile_size <= length b)%nat) (grow boxes)).
  { apply Forall_forall. intros b' Hb'. apply in_map_iff in Hb'.
    destruct Hb' as [b [<- Hb]]. rewrite Forall_forall in Hlen.
    specialize (Hlen b Hb). rewrite length_app. lia. }
  rewrite (@_suppression_loop_body_spec fuel t tile_size (grow boxes)
             (counts idx boxes) idx Ht Hts Hfuel Hlen').
  assert (Hk : map (cross_image t tile_size idx) (grow boxes)
               = map (cross_image t tile_size idx) boxes).
  { rewrite map_map. apply map_ext_in. intros b Hb.
    apply cross_image_app. rewrite Forall_forall in Hlen. auto. }
  rewrite Hk. fold k.
  assert (E1 : map (body_image k t tile_size idx) (grow boxes)
               = grow (map (body_image k t tile_size idx) boxes)).
  { rewrite !map_map. apply map_ext_in. intros b Hb.
    apply body_image_app. rewrite Forall_forall in Hlen. auto. }
  assert (E2 : zip_with (fun o b => (o + count_positive (body_slice k t tile_size idx b))%nat)
                        (counts idx boxes) (grow boxes)
               = counts (S idx) (map (body_image k t tile_size idx) boxes)).
  { rewrite zip_with_map_l, zip_with_map_r, zip_with_same, map_map.
    apply map_ext_in. intros b Hb. rewrite Forall_forall in Hlen.
    rewrite body_slice_app by auto. symmetry.
    apply count_prefix_body_image. auto. }
  rewrite E1, E2. reflexivity.
Qed.

Lemma suppression_loop_extend (m1 m2 : nat) :
  (m1 <= m2)%nat ->
  forall (rem1 rem2 : nat) (boxes : list (list Box)) (idx : nat)
         (F1 : list (list Box)) (o1 : list nat) (K1 : nat),
    (rem1 <= rem2)%nat ->
    boxes <> [] ->
    Forall (fun b => ((idx + rem1) * tile_size <= length b)%nat) boxes ->
    suppression_loop fuel t tile_size m1 rem1 (boxes, counts idx boxes, idx)
    = Ok (F1, o1, K1) ->
    suppression_loop fuel t tile_size m2 rem2 (grow boxes, counts idx boxes, idx)
    = suppression_loop fuel t tile_size m2 (rem2 - (K1 - idx))
                       (grow F1, o1, K1).
Proof.
  intro Hm. induction rem1 as [|r IH];
    intros rem2 boxes idx F1 o1 K1 Hrem Hne Hlen Hrun.
  - simpl in Hrun. unfold _loop_cond in Hrun. simpl in Hrun.
    destruct (@min_list_spec (counts idx boxes)) as [mn [Hmn _]].
    { destruct boxes; [congruence|discriminate]. }
    rewrite Hmn in Hrun. simpl in Hrun. rewrite andb_false_r in Hrun.
    injection Hrun as <- <- <-.
    rewrite Nat.sub_diag, Nat.sub_0_r. reflexivity.
  - simpl in Hrun. unfold _loop_cond in Hrun. simpl in Hrun.
    destruct (@min_list_spec (counts idx boxes)) as [mn [Hmn _]].
    { destruct boxes; [congruence|discriminate]. }
    rewrite Hmn in Hrun. simpl in Hrun. rewrite andb_true_r in Hrun.
    destruct (mn <? m1)%nat eqn:Hc.
    + assert (Hb : Forall (fun b => (S idx * tile_size <= length b)%nat) boxes).
      { eapply Forall_impl; [|exact Hlen]. simpl. intros; nia. }
      rewrite (@body_counts fuel t tile_size Ht Hts Hfuel boxes idx Hb) in Hrun.
      simpl in Hrun.
      set (k := inner_steps fuel t (map (cross_image t tile_size idx) boxes)) in *.
      set (boxes' := map (body_image k t tile_size idx) boxes) in *.
      assert (Hne' : boxes' <> []).
      { subst boxes'. destruct boxes; [congruence|discriminate]. }
      assert (Hlen'' : Forall (fun b => ((S idx + r) * tile_size <= length b)%nat) boxes').
      { apply Forall_forall. intros b' Hb'. subst boxes'. apply in_map_iff in Hb'.
        destruct Hb' as [b [<- Hin']]. rewrite Forall_forall in Hlen, Hb.
        rewrite body_image_length by auto.
        specialize (Hlen b Hin'). nia. }
      assert (HK1 : (S idx <= K1)%nat).
      { destruct (@suppression_loop_spec fuel t tile_size m1 Ht Hts Hfuel r boxes'
                    (S idx) Hne' Hlen'') as [F [K [Hrun' [_ [Hreach _]]]]].
        rewrite Hrun' in Hrun. injection Hrun as <- _ <-.
        destruct boxes' as [|b0 bs]; [congruence|].
        inversion Hreach; subst. eapply reach_le. eassumption. }
      destruct rem2 as [|r2]; [lia|].
      simpl. unfold _loop_cond. simpl. rewrite Hmn. simpl.
      replace (mn <? m2)%nat with true
        by (symmetry; apply Nat.ltb_lt; apply Nat.ltb_lt in Hc; lia).
      simpl. rewrite (@body_counts_app boxes idx Hb). simpl. fold k. fold boxes'.
      rewrite (IH r2 boxes' (S idx) F1 o1 K1 ltac:(lia) Hne' Hlen'' Hrun).
      replace (K1 - idx)%nat with (S (K1 - S idx)) by lia. reflexivity.
    + injection Hrun as <- <- <-.
      rewrite Nat.sub_diag, Nat.sub_0_r. reflexivity.
Qed.
End Extend.

(* ================================================================== *)
(** * Monotonicity in [max_output_size] *)

Lemma kept_prefix (c n : nat) (f : list Box) :
  (n <= count_positive (firstn c f))%nat ->
  firstn n (kept_from 0 f) = firstn n (kept_from 0 (firstn c f)).
Proof.
  intro H. rewrite <- (firstn_skipn c f) at 1.
  rewrite kept_from_app, firstn_app, kept_from_length.
  replace (n - count_positive (firstn c f))%nat with 0%nat by lia.
  simpl. apply app_nil_r.
Qed.

Lemma count_prefix_mono (tile_size K1 K2 : nat) (f : list Box) :
  (K1 <= K2)%nat ->
  (count_prefix tile_size K1 f <= count_prefix tile_size K2 f)%nat.
Proof.
  intro H. unfold count_prefix.
  rewrite <- (firstn_skipn (K1 * tile_size) (firstn (K2 * tile_size) f)).
  rewrite count_positive_app, firstn_firstn.
  replace (Nat.min (K1 * tile_size) (K2 * tile_size)) with (K1 * tile_size)%nat by nia.
  lia.
Qed.

Lemma select_monotone (m1 m2 tile_size K1 K2 N : nat) (f1 f2 : list Box)
  (r : list nat) :
  (m1 <= m2)%nat -> (K1 <= K2)%nat ->
  firstn (K1 * tile_size) f2 = firstn (K1 * tile_size) f1 ->
  (forall p, In p (kept_from 0 f1) -> (p < N)%nat) ->
  (forall p, In p (kept_from 0 f2) -> (p < N)%nat) ->
  length r = N -> NoDup r -> (forall x, In x r -> (x < N)%nat) ->
  let nv1 := num_valid_image m1 tile_size K1 f1 in
  let nv2 := num_valid_image m2 tile_size K2 f2 in
  (nv1 <= nv2)%nat
  /\ firstn nv1 (select m1 tile_size K1 f1 r)
     = firstn nv1 (select m2 tile_size K2 f2 r).
Proof.
  intros Hm HK Hpre Hk1 Hk2 Hlen Hnd Hrange nv1 nv2.
  assert (Hc : count_prefix tile_size K1 f1 = count_prefix tile_size K1 f2)
    by (unfold count_prefix; rewrite Hpre; reflexivity).
  pose proof (count_prefix_mono tile_size f2 HK) as Hmono.
  assert (Hnv : (nv1 <= nv2)%nat)
    by (subst nv1 nv2; unfold num_valid_image; lia).
  split; [exact Hnv|].
  destruct (@select_facts m1 tile_size K1 N f1 r Hk1 Hlen Hnd Hrange)
    as [_ [E1 _]].
  destruct (@select_facts m2 tile_size K2 N f2 r Hk2 Hlen Hnd Hrange)
    as [_ [E2 _]].
  fold nv1 in E1. fold nv2 in E2.
  rewrite E1.
  rewrite <- (Nat.min_l nv1 nv2 Hnv) at 2.
  rewrite <- firstn_firstn, E2, firstn_map, firstn_firstn, Nat.min_l by exact Hnv.
  f_equal.
  assert (Hle1 : (nv1 <= count_positive (firstn (K1 * tile_size) f1))%nat)
    by (subst nv1; unfold num_valid_image, count_prefix; lia).
  rewrite (kept_prefix (K1 * tile_size) f1 Hle1).
  rewrite <- Hpre in Hle1 |- *.
  symmetry. apply kept_prefix. exact Hle1.
Qed.

Lemma ceil_div_mono (a a' b : Z) :
  (0 < b)%Z -> (a <= a')%Z -> (ceil_div a b <= ceil_div a' b)%Z.
Proof.
  intros Hb Ha. unfold ceil_div.
  pose proof (Z.div_le_mono (- a') (- a) b Hb ltac:(lia)). lia.
Qed.

Lemma pad_width_mono (N m1 m2 : nat) (tile_size : Z) :
  (0 < tile_size)%Z -> (m1 <= m2)%nat ->
  (pad_width N m1 tile_size <= pad_width N m2 tile_size)%Z.
Proof.
  intros Hts Hm. unfold pad_width.
  pose proof (@ceil_div_mono (Z.max (Z.of_nat N) (Z.of_nat m1))
                (Z.max (Z.of_nat N) (Z.of_nat m2)) tile_size Hts ltac:(lia)).
  nia.
Qed.

Lemma padded_image_grow (thr : threshold) (N m1 m2 : nat) (tile_size : Z)
  (b : list Box) (s : list Q) :
  (0 < tile_size)%Z -> (m1 <= m2)%nat ->
  padded_image thr N m2 tile_size b s
  = padded_image thr N m1 tile_size b s
    ++ repeat zero_box (Z.to_nat (pad_width N m2 tile_size)
                        - Z.to_nat (pad_width N m1 tile_size)).
Proof.
  intros Hts Hm. unfold padded_image. rewrite <- app_assoc, <- repeat_app.
  pose proof (pad_width_mono N Hts Hm).
  destruct (@padding_spec N m1 tile_size Hts) as [Hp _].
  apply Z.ltb_ge in Hp.
  do 2 f_equal. lia.
Qed.

(** C9.  With everything else fixed and [m1 < m2], both calls return, and for
    every image [num_valid] does not shrink, the first [num_valid] indices
    selected with [max_output_size = m1] are the first entries selected with
    [max_output_size = m2], and hence every index selected with [m1] is
    selected with [m2]. *)
Theorem selection_monotone (fuel N : nat) (boxes : list (list Box))
  (scores : list (list Q)) (m1 m2 : nat) (t : Q) (thr : threshold)
  (tile_size : Z) :
  well_formed fuel N boxes scores t tile_size ->
  (m1 < m2)%nat ->
  exists indices1 num_valid1 indices2 num_valid2,
    non_max_suppression fuel N boxes scores m1 t thr tile_size
    = Ok (indices1, num_valid1)
    /\ non_max_suppression fuel N boxes scores m2 t thr tile_size
       = Ok (indices2, num_valid2)
    /\ forall i, (i < length boxes)%nat ->
         let nv1 := nth i num_valid1 0%nat in
         let nv2 := nth i num_valid2 0%nat in
         (nv1 <= nv2)%nat
         /\ firstn nv1 (nth i indices1 []) = firstn nv1 (nth i indices2 [])
         /\ forall x, In x (firstn nv1 (nth i indices1 [])) ->
                      In x (firstn nv2 (nth i indices2 [])).
Proof.
  intros Hwf Hm.
  pose proof (wf_tile_size Hwf) as Hts.
  assert (Hts' : (1 <= Z.to_nat tile_size)%nat) by lia.
  destruct (non_max_suppression_images m1 thr Hwf)
    as [F1 [K1 [ix1 [nv1 [Hres1 [Hloop1 [HlenF1 [_ [_ [HK1 [_ Himg1]]]]]]]]]]].
  destruct (non_max_suppression_images m2 thr Hwf)
    as [F2 [K2 [ix2 [nv2 [Hres2 [Hloop2 [HlenF2 [_ [_ [HK2 [_ Himg2]]]]]]]]]]].
  exists ix1, nv1, ix2, nv2. split; [exact Hres1|]. split; [exact Hres2|].
  destruct (tiles_cover m1 Hwf) as [HL1 [_ _]].
  destruct (tiles_cover m2 Hwf) as [HL2 [_ _]].
  set (ts := Z.to_nat tile_size) in *.
  set (T1 := num_iterations N m1 tile_size) in *.
  set (T2 := num_iterations N m2 tile_size) in *.
  set (e := repeat zero_box (Z.to_nat (pad_width N m2 tile_size)
                             - Z.to_nat (pad_width N m1 tile_size))).
  set (B1 := padded_boxes thr N m1 tile_size boxes scores) in *.
  assert (HB2 : padded_boxes thr N m2 tile_size boxes scores
                = map (fun b => b ++ e) B1).
  { subst B1. unfold padded_boxes. rewrite map_zip_with.
    apply zip_with_ext. intros b s. apply padded_image_grow; [exact Hts|lia]. }
  assert (Hpadle : (Z.to_nat (pad_width N m1 tile_size)
                    <= Z.to_nat (pad_width N m2 tile_size))%nat).
  { pose proof (@pad_width_mono N m1 m2 tile_size Hts ltac:(lia)). lia. }
  assert (HT : (T1 <= T2)%nat).
  { unfold num_boxes_after_padding in HL1, HL2. nia. }
  assert (Hrows1 : Forall (fun b => length b = (T1 * ts)%nat) B1).
  { eapply Forall_impl; [|exact (padded_boxes_rows m1 thr Hwf)].
    simpl. intros b [Hb _]. rewrite Hb. exact HL1. }
  assert (Hne1 : B1 <> []).
  { intro E. apply (wf_batch Hwf), length_zero_iff_nil.
    rewrite <- (padded_boxes_length m1 thr Hwf). fold B1. rewrite E. reflexivity. }
  assert (Hzero : repeat 0%nat (length boxes) = map (count_prefix ts 0) B1).
  { rewrite <- (padded_boxes_length m1 thr Hwf). fold B1. generalize B1. intro l.
    induction l as [|a l IH]; simpl; [reflexivity|]. rewrite IH. reflexivity. }
  rewrite Hzero in Hloop1. rewrite HB2, Hzero in Hloop2.
  assert (Hcover : Forall (fun b => ((0 + T1) * ts <= length b)%nat) B1).
  { eapply Forall_impl; [|exact Hrows1]. simpl. intros; lia. }
  assert (Hm' : (m1 <= m2)%nat) by lia.
  pose proof (@suppression_loop_extend fuel t ts e (wf_iou_threshold Hwf) Hts'
                (wf_fuel Hwf) m1 m2 Hm' T1 T2 B1 0%nat F1
                (map (count_prefix ts K1) F1) K1 HT Hne1 Hcover Hloop1) as Hext.
  rewrite Hext in Hloop2.
  rewrite Nat.sub_0_r in Hloop2.
  (* the rows of [F1] *)
  assert (HF1 : Forall (fun f => length f = (T1 * ts)%nat) F1).
  { apply Forall_forall. intros f Hf.
    destruct (In_nth _ _ [] Hf) as [i [Hi Hnth]].
    destruct (Himg1 i ltac:(lia)) as [_ [_ Hreach]]. rewrite Hnth in Hreach.
    destruct (reach_facts Hreach) as [Hlen _].
    - unfold padded_image. rewrite length_app, sorted_image_length, repeat_length.
      pose proof (wf_scores Hwf) as Hsc. rewrite Forall_forall in Hsc.
      rewrite (Hsc (nth i scores [])) by (apply nth_In; rewrite (wf_batch_scores Hwf); lia).
      unfold num_boxes_after_padding in HL1. fold T1 in HK1. nia.
    - rewrite Hlen. unfold padded_image.
      rewrite length_app, sorted_image_length, repeat_length.
      pose proof (wf_scores Hwf) as Hsc. rewrite Forall_forall in Hsc.
      rewrite (Hsc (nth i scores [])) by (apply nth_In; rewrite (wf_batch_scores Hwf); lia).
      exact HL1. }
  assert (Hcnt : map (count_prefix ts K1) F1
                 = map (count_prefix ts K1) (map (fun b => b ++ e) F1)).
  { rewrite map_map. apply map_ext_in. intros f Hf. symmetry.
    apply count_prefix_app. rewrite Forall_forall in HF1.
    rewrite (HF1 f Hf). nia. }
  rewrite Hcnt in Hloop2.
  destruct (@suppression_loop_spec fuel t ts m2 (wf_iou_threshold Hwf) Hts'
              (wf_fuel Hwf) (T2 - K1) (map (fun b => b ++ e) F1) K1)
    as [F [K [Hrun [_ [Hreach _]]]]].
  { destruct F1; [simpl in HlenF1; destruct boxes; [|discriminate];
                  exfalso; apply (wf_batch Hwf); reflexivity|discriminate]. }
  { apply Forall_forall. intros f' Hf'. apply in_map_iff in Hf'.
    destruct Hf' as [f [<- Hf]]. rewrite Forall_forall in HF1.
    rewrite length_app, (HF1 f Hf). subst e. rewrite repeat_length.
    unfold num_boxes_after_padding in HL1, HL2. nia. }
  rewrite Hrun in Hloop2. injection Hloop2 as HF HK. subst F K.
  intros i Hi nv1i nv2i.
  destruct (Himg1 i Hi) as [Hrow1 [Hnv1 Hreach1]].
  destruct (Himg2 i Hi) as [Hrow2 [Hnv2 Hreach2]].
  assert (Hs : length (nth i scores []) = N).
  { pose proof (wf_scores Hwf) as Hsc. rewrite Forall_forall in Hsc.
    apply Hsc, nth_In. rewrite (wf_batch_scores Hwf). exact Hi. }
  destruct (@final_image fuel N boxes scores m1 t thr tile_size _ _ _ K1
              Hwf Hs HK1 Hreach1) as [_ [_ [Hkept1 _]]].
  destruct (@final_image fuel N boxes scores m2 t thr tile_size _ _ _ K2
              Hwf Hs HK2 Hreach2) as [_ [_ [Hkept2 _]]].
  assert (Hri : reach t ts K1 K2 (nth i F1 [] ++ e) (nth i F2 [])).
  { pose proof (@Forall2_nth _ _ _ _ _ i [] [] Hreach) as H.
    rewrite length_map in H. specialize (H ltac:(lia)).
    rewrite (nth_indep _ [] ([] ++ e)) in H by (rewrite length_map; lia).
    rewrite (map_nth (fun b => b ++ e)) in H. exact H. }
  assert (Hlen1 : length (nth i F1 []) = (T1 * ts)%nat).
  { rewrite Forall_forall in HF1. apply HF1, nth_In. lia. }
  destruct (reach_facts Hri) as [_ [_ [Hpre _]]].
  { rewrite length_app, Hlen1. subst e. rewrite repeat_length.
    unfold num_boxes_after_padding in HL1, HL2. fold T2 in HK2. nia. }
  rewrite firstn_app in Hpre.
  replace (K1 * ts - length (nth i F1 []))%nat with 0%nat in Hpre
    by (rewrite Hlen1; fold T1 in HK1; nia).
  simpl in Hpre. rewrite app_nil_r in Hpre.
  destruct (@select_monotone m1 m2 ts K1 K2 N (nth i F1 []) (nth i F2 [])
              (rank_image thr (nth i scores [])))
    as [Hle Heq].
  - lia.
  - eapply reach_le. exact Hri.
  - exact Hpre.
  - intros p Hp. apply Hkept1, Hp.
  - intros p Hp. apply Hkept2, Hp.
  - rewrite rank_image_length. exact Hs.
  - apply ranking_NoDup.
  - intros x Hx. apply ranking_range in Hx.
    rewrite filter_scores_image_length, Hs in Hx. exact Hx.
  - subst nv1i nv2i. rewrite Hrow1, Hrow2, Hnv1, Hnv2.
    split; [exact Hle|]. split; [exact Heq|].
    intros x Hx. rewrite Heq in Hx.
    rewrite <- (Nat.min_l _ _ Hle), <- firstn_firstn in Hx.
    eapply in_firstn. exact Hx.
Qed.

Lemma selection_monotone_witness :
  (well_formed 2 2 [[mkBox 0 0 1 1; mkBox 0 2 1 3]] [[1 # 2; 1 # 3]] (1 # 2) 2
   /\ (1 < 2)%nat)
  /\ exists indices1 num_valid1 indices2 num_valid2,
      non_max_suppression 2 2 [[mkBox 0 0 1 1; mkBox 0 2 1 3]]
                          [[1 # 2; 1 # 3]] 1 (1 # 2) (Finite 0) 2
      = Ok (indices1, num_valid1)
      /\ non_max_suppression 2 2 [[mkBox 0 0 1 1; mkBox 0 2 1 3]]
                             [[1 # 2; 1 # 3]] 2 (1 # 2) (Finite 0) 2
         = Ok (indices2, num_valid2)
      /\ forall i, (i < 1)%nat ->
           let nv1 := nth i num_valid1 0%nat in
           let nv2 := nth i num_valid2 0%nat in
           (nv1 <= nv2)%nat
           /\ firstn nv1 (nth i indices1 []) = firstn nv1 (nth i indices2 [])
           /\ forall x, In x (firstn nv1 (nth i indices1 [])) ->
                        In x (firstn nv2 (nth i indices2 [])).
Proof.
  assert (Hwf : well_formed 2 2 [[mkBox 0 0 1 1; mkBox 0 2 1 3]]
                            [[1 # 2; 1 # 3]] (1 # 2) 2).
  { constructor; simpl; try lia; try discriminate; repeat constructor. }
  assert (Hlt : (1 < 2)%nat) by lia.
  split; [split; assumption|].
  exact (@selection_monotone 2 2 _ _ 1 2 (1 # 2) (Finite 0) 2 Hwf Hlt).
Defined.

(* ================================================================== *)
(** * Entries of the IoU matrix *)

Lemma column_nth (c r : nat) (M : Matrix) : nth r (column c M) 0 = entry M r c.
Proof.
  unfold column, entry.
  destruct (Nat.lt_ge_cases r (length M)) as [H|H].
  - rewrite (nth_indep _ 0 (nth c [] 0)) by (rewrite length_map; exact H).
    apply (map_nth (fun row => nth c row 0)).
  - rewrite (nth_overflow (map _ M)) by (rewrite length_map; exact H).
    rewrite (nth_overflow M) by exact H. destruct c; reflexivity.
Qed.

Lemma column_length (c : nat) (M : Matrix) : length (column c M) = length M.
Proof. apply length_map. Qed.

Lemma qmax_list_lt (l : list Q) (t : Q) :
  l <> [] -> (qmax_list l < t <-> Forall (fun x => x < t) l).
Proof.
  induction l as [|x l IH]; [congruence|]. intros _.
  destruct l as [|y l].
  - simpl. split; [intro H; constructor; [exact H|constructor]|].
    intro H. inversion H. assumption.
  - change (qmax_list (x :: y :: l)) with (Qmax x (qmax_list (y :: l))).
    rewrite Q.max_lub_lt_iff, IH by discriminate.
    split; [intros [H1 H2]; constructor; assumption|].
    intro H. inversion H. split; assumption.
Qed.

Lemma qsum_nonneg (l : list Q) : Forall (fun x => 0 <= x) l -> 0 <= qsum l.
Proof.
  induction 1 as [|x l Hx _ IH]; [apply Qle_refl|].
  change (0 <= x + qsum l). lra.
Qed.

Lemma qsum_positive (l : list Q) (x : Q) :
  Forall (fun y => 0 <= y) l -> In x l -> 0 < x -> 0 < qsum l.
Proof.
  induction 1 as [|y l Hy Hl IH]; intros Hin Hx; [destruct Hin|].
  change (0 < y + qsum l). pose proof (qsum_nonneg Hl). destruct Hin as [->|Hin].
  - lra.
  - specialize (IH Hin Hx). lra.
Qed.

Lemma col_max_nth (M : Matrix) (c : nat) :
  (c < ncols M)%nat -> nth c (col_max M) 0 = qmax_list (column c M).
Proof.
  intro H. unfold col_max.
  rewrite (nth_indep _ 0 (qmax_list (column 0 M)))
    by (rewrite length_map, length_seq; exact H).
  rewrite (map_nth (fun c => qmax_list (column c M))), seq_nth by exact H.
  reflexivity.
Qed.

Lemma col_sum_nth (M : Matrix) (c : nat) :
  (c < ncols M)%nat -> nth c (col_sum M) 0 = qsum (column c M).
Proof.
  intro H. unfold col_sum.
  rewrite (nth_indep _ 0 (qsum (column 0 M)))
    by (rewrite length_map, length_seq; exact H).
  rewrite (map_nth (fun c => qsum (column c M))), seq_nth by exact H.
  reflexivity.
Qed.

Lemma Forall_column (P : Q -> Prop) (c : nat) (M : Matrix) :
  Forall P (column c M) <-> forall r, (r < length M)%nat -> P (entry M r c).
Proof.
  rewrite Forall_forall. split.
  - intros H r Hr. apply H. rewrite <- column_nth. apply nth_In.
    rewrite column_length. exact Hr.
  - intros H x Hx. destruct (In_nth _ _ 0 Hx) as [r [Hr <-]].
    rewrite column_length in Hr. rewrite column_nth. apply H, Hr.
Qed.

Lemma entry_scale_rows (flags : list bool) (M : Matrix) (r c : nat) :
  length flags = length M -> (r < length M)%nat ->
  entry (scale_rows flags M) r c = mask_mul (nth r flags false) (entry M r c).
Proof.
  intros Hlen Hr. unfold entry, scale_rows.
  rewrite (zip_with_nth _ _ _ false [] []) by lia.
  destruct (Nat.lt_ge_cases c (length (nth r M []))) as [H|H].
  - rewrite (nth_indep _ 0 (mask_mul (nth r flags false) 0))
      by (rewrite length_map; exact H).
    apply map_nth.
  - rewrite (nth_overflow (map _ _)) by (rewrite length_map; exact H).
    rewrite (nth_overflow (nth r M [])) by exact H.
    destruct (nth r flags false); reflexivity.
Qed.

Lemma entry_mask_upper (t : Q) (n : nat) (M : Matrix) (r c : nat) :
  square n M -> (r < n)%nat -> (c < n)%nat ->
  entry (mask_upper t M) r c
  = mask_mul ((r <? c)%nat && Qle_bool t (entry M r c)) (entry M r c).
Proof.
  intros [Hlen Hrows] Hr Hc. unfold entry. rewrite mask_upper_rows.
  rewrite (zip_with_nth _ _ _ 0%nat [] []) by (rewrite ?length_seq; lia).
  rewrite seq_nth by lia. unfold mask_row.
  assert (Hrow : length (nth r M []) = n).
  { rewrite Forall_forall in Hrows. apply Hrows, nth_In. lia. }
  rewrite (zip_with_nth _ _ _ 0%nat 0 0) by (rewrite ?length_seq; lia).
  rewrite seq_nth by lia. reflexivity.
Qed.

Lemma entry_bbox_overlap (a b : list Box) (r c : nat) :
  (r < length a)%nat -> (c < length b)%nat ->
  entry (bbox_overlap_image a b) r c
  = iou_box (nth r a zero_box) (nth c b zero_box).
Proof.
  intros Hr Hc. unfold entry, bbox_overlap_image.
  rewrite (nth_indep _ [] (map (fun b0 => iou_box zero_box b0) b))
    by (rewrite length_map; exact Hr).
  rewrite (map_nth (fun a0 => map (fun b0 => iou_box a0 b0) b)).
  rewrite (nth_indep _ 0 (iou_box (nth r a zero_box) zero_box))
    by (rewrite length_map; exact Hc).
  apply (map_nth (fun b0 => iou_box (nth r a zero_box) b0)).
Qed.

(* ================================================================== *)
(** * Boxes kept by the self-suppression do not overlap *)

Lemma Qmax_cases (x y : Q) : Qmax x y = x \/ Qmax x y = y.
Proof.
  unfold Qmax, GenericMinMax.gmax. destruct (x ?= y); auto.
Qed.

Lemma qmax_list_In (l : list Q) : l <> [] -> In (qmax_list l) l.
Proof.
  induction l as [|x l IH]; [congruence|]. intros _.
  destruct l as [|y l]; [left; reflexivity|].
  change (qmax_list (x :: y :: l)) with (Qmax x (qmax_list (y :: l))).
  destruct (Qmax_cases x (qmax_list (y :: l))) as [E|E]; rewrite E.
  - left. reflexivity.
  - right. apply IH. discriminate.
Qed.

Lemma nth_flags (f : Q -> bool) (l : list Q) (r : nat) :
  (r < length l)%nat -> nth r (map f l) false = f (nth r l 0).
Proof.
  intro H. rewrite (nth_indep _ false (f 0)) by (rewrite length_map; exact H).
  apply map_nth.
Qed.

Section SelfSound.
Variables (t : Q) (n : nat) (M0 : Matrix).
Hypothesis Ht : 0 < t.
Hypothesis Hn : (1 <= n)%nat.
Hypothesis Hsq0 : square n M0.
Hypothesis Hentries0 :
  forall r c, (r < n)%nat -> (c < n)%nat -> entry M0 r c = 0 \/ t <= entry M0 r c.

Local Abbreviation step := (self_suppression_image t).

Lemma sound_initial : sound t n M0 M0.
Proof. split; [exact Hsq0|]. intros p Hp. left. auto. Qed.

Lemma sound_entries (M : Matrix) (r c : nat) :
  sound t n M0 M -> (r < n)%nat -> (c < n)%nat -> entry M r c = 0 \/ t <= entry M r c.
Proof.
  intros [_ H] Hr Hc. destruct (H r Hr) as [E|[E _]].
  - rewrite E by exact Hc. apply Hentries0; assumption.
  - left. apply E, Hc.
Qed.

Lemma can_suppress_iff (M : Matrix) (r : nat) :
  square n M -> (r < n)%nat ->
  (nth r (map (fun x => Qlt_bool x t) (col_max M)) false = true <-> confirmed t n M r).
Proof.
  intros Hsq Hr. pose proof (@ncols_square n M Hsq) as Hc. destruct Hsq as [Hlen _].
  rewrite nth_flags by (rewrite col_max_length; lia).
  rewrite col_max_nth by lia. rewrite Qlt_bool_iff.
  rewrite qmax_list_lt.
  - rewrite Forall_column, Hlen. reflexivity.
  - intro E. apply (f_equal (@length Q)) in E.
    rewrite column_length in E. simpl in E. lia.
Qed.

Lemma step_entry (M : Matrix) (r c : nat) :
  square n M -> (r < n)%nat ->
  exists keep : bool,
    entry (step M) r c = mask_mul keep (entry M r c)
    /\ (keep = true <->
        confirmed t n (scale_rows (map (fun x => Qlt_bool x t) (col_max M)) M) r).
Proof.
  intros Hsq Hr. unfold self_suppression_image.
  set (can := map (fun x => Qlt_bool x t) (col_max M)).
  assert (Hcan : length can = n)
    by (subst can; rewrite length_map, col_max_length; apply ncols_square, Hsq).
  assert (Hsq' : square n (scale_rows can M)) by (apply scale_rows_square; assumption).
  exists (nth r (map (fun x => Qlt_bool x t) (col_max (scale_rows can M))) false).
  split.
  - apply entry_scale_rows; [|destruct Hsq; lia].
    rewrite length_map, col_max_length, (@ncols_square n _ Hsq'). destruct Hsq; lia.
  - apply can_suppress_iff; assumption.
Qed.

Lemma confirmed_scaled (M : Matrix) (flags : list bool) (r : nat) :
  square n M -> length flags = n -> confirmed t n M r ->
  confirmed t n (scale_rows flags M) r.
Proof.
  intros Hsq Hf Hc x Hx.
  rewrite entry_scale_rows by (destruct Hsq; lia).
  destruct (nth x flags false); simpl; [apply Hc, Hx|exact Ht].
Qed.

Lemma confirmed_step (M : Matrix) (r : nat) :
  square n M -> (r < n)%nat -> confirmed t n M r ->
  confirmed t n (step M) r /\ forall c, entry (step M) r c = entry M r c.
Proof.
  intros Hsq Hr Hc.
  set (can := map (fun x => Qlt_bool x t) (col_max M)).
  assert (Hcan : length can = n)
    by (subst can; rewrite length_map, col_max_length; apply ncols_square, Hsq).
  split.
  - intros x Hx. destruct (@step_entry M x r Hsq Hx) as [keep [E _]].
    rewrite E. destruct keep; simpl; [apply Hc, Hx|exact Ht].
  - intro c. destruct (@step_entry M r c Hsq Hr) as [keep [E Hkeep]].
    rewrite E. replace keep with true; [reflexivity|].
    symmetry. apply Hkeep. apply confirmed_scaled; assumption.
Qed.

Lemma sound_step (M : Matrix) : sound t n M0 M -> sound t n M0 (step M).
Proof.
  intros [Hsq Hrows]. split; [apply self_suppression_image_square, Hsq|].
  intros p Hp.
  set (can := map (fun x => Qlt_bool x t) (col_max M)).
  assert (Hcan : length can = n)
    by (subst can; rewrite length_map, col_max_length; apply ncols_square, Hsq).
  assert (Hscaled : square n (scale_rows can M)) by (apply scale_rows_square; assumption).
  destruct (nth p (map (fun x => Qlt_bool x t) (col_max (scale_rows can M))) false)
    eqn:Hkeep.
  - (* row p is kept as it is *)
    assert (Hrow : forall c, entry (step M) p c = entry M p c).
    { intro c. destruct (@step_entry M p c Hsq Hp) as [keep [E Hk]].
      rewrite E. replace keep with true; [reflexivity|].
      symmetry. apply Hk.
      apply (proj1 (@can_suppress_iff (scale_rows can M) p Hscaled Hp)).
      exact Hkeep. }
    destruct (Hrows p Hp) as [E|[E [r [Hr [Hc Hge]]]]].
    + left. intros c Hc. rewrite Hrow. apply E, Hc.
    + right. split; [intros c Hc'; rewrite Hrow; apply E, Hc'|].
      exists r. destruct (@confirmed_step M r Hsq Hr Hc) as [Hc' Hsame].
      split; [exact Hr|]. split; [exact Hc'|]. rewrite Hsame. exact Hge.
  - (* row p is cleared *)
    right. split.
    + intros c Hc. destruct (@step_entry M p c Hsq Hp) as [keep [E Hk]].
      rewrite E. destruct keep; [|reflexivity].
      exfalso. pose proof (proj1 Hk eq_refl) as Hconf.
      apply (proj2 (@can_suppress_iff (scale_rows can M) p Hscaled Hp)) in Hconf.
      congruence.
    + rewrite nth_flags in Hkeep
        by (rewrite col_max_length, (@ncols_square n _ Hscaled); exact Hp).
      apply Qlt_bool_false_iff in Hkeep.
      rewrite col_max_nth in Hkeep by (rewrite (@ncols_square n _ Hscaled); exact Hp).
      assert (Hne : column p (scale_rows can M) <> []).
      { intro E. apply (f_equal (@length Q)) in E.
        rewrite column_length in E. destruct Hscaled as [Hl _]. simpl in E. lia. }
      pose proof (@qmax_list_In _ Hne) as Hin.
      destruct (In_nth _ _ 0 Hin) as [r [Hr Hnth]].
      rewrite column_length in Hr. destruct Hscaled as [Hl _]. rewrite Hl in Hr.
      rewrite column_nth in Hnth. rewrite <- Hnth in Hkeep.
      rewrite entry_scale_rows in Hkeep by (destruct Hsq; lia).
      destruct (nth r can false) eqn:Hcr; simpl in Hkeep; [|lra].
      apply can_suppress_iff in Hcr; [|assumption|assumption].
      exists r. destruct (@confirmed_step M r Hsq Hr Hcr) as [Hc' Hsame].
      split; [exact Hr|]. split; [exact Hc'|]. rewrite Hsame. exact Hkeep.
Qed.

Lemma sound_iter (k : nat) : sound t n M0 (Nat.iter k step M0).
Proof. induction k; simpl; [apply sound_initial|apply sound_step, IHk]. Qed.

(** Two boxes that both end with an empty column had no entry between
    them to begin with. *)
Lemma sound_kept_pair (M : Matrix) (p q : nat) :
  sound t n M0 M -> (p < n)%nat -> (q < n)%nat ->
  qsum (column p M) <= 0 -> qsum (column q M) <= 0 ->
  entry M0 p q = 0.
Proof.
  intros Hs Hp Hq Hsp Hsq.
  assert (Hnonneg : forall c, (c < n)%nat -> Forall (fun x => 0 <= x) (column c M)).
  { intros c Hc. apply Forall_column. intros r Hr.
    destruct Hs as [[Hl Hrows] Hst].
    destruct (@sound_entries M r c (conj (conj Hl Hrows) Hst) ltac:(lia) Hc) as [E|E];
      [rewrite E; apply Qle_refl|lra]. }
  assert (Hpos : forall r c, (r < n)%nat -> (c < n)%nat ->
                             qsum (column c M) <= 0 -> ~ t <= entry M r c).
  { intros r c Hr Hc Hsum Hge.
    assert (Hin : In (entry M r c) (column c M)).
    { rewrite <- column_nth. apply nth_In. rewrite column_length.
      destruct Hs as [[Hl _] _]. lia. }
    assert (Hlt : 0 < entry M r c) by lra.
    pose proof (@qsum_positive _ _ (Hnonneg c Hc) Hin Hlt). lra. }
  destruct Hs as [Hsq' Hrows].
  destruct (Hrows p Hp) as [E|[_ [r [Hr [_ Hge]]]]].
  - destruct (Hentries0 Hp Hq) as [H0|Hge]; [exact H0|].
    exfalso. apply (Hpos p q Hp Hq Hsq). rewrite E by exact Hq. exact Hge.
  - exfalso. apply (Hpos r p Hr Hp Hsp Hge).
Qed.
End SelfSound.

(** ** From matrices back to boxes *)

Lemma nth_tile (idx tile_size off : nat) (b : list Box) :
  (off < tile_size)%nat ->
  nth off (tile idx tile_size b) zero_box = nth (idx * tile_size + off) b zero_box.
Proof.
  intro H. unfold tile. rewrite nth_firstn, nth_skipn.
  replace (off <? tile_size)%nat with true by (symmetry; apply Nat.ltb_lt; exact H).
  reflexivity.
Qed.

Lemma nth_update_tile (idx tile_size off : nat) (b s : list Box) :
  (S idx * tile_size <= length b)%nat -> length s = tile_size ->
  (off < tile_size)%nat ->
  nth (idx * tile_size + off) (update_tile idx tile_size b s) zero_box
  = nth off s zero_box.
Proof.
  intros Hb Hs Hoff. unfold update_tile.
  rewrite app_nth2 by (rewrite prefix_length by exact Hb; lia).
  rewrite prefix_length by exact Hb.
  replace (idx * tile_size + off - idx * tile_size)%nat with off by lia.
  apply app_nth1. lia.
Qed.

Lemma nth_update_tile_before (idx tile_size p : nat) (b s : list Box) :
  (S idx * tile_size <= length b)%nat -> (p < idx * tile_size)%nat ->
  nth p (update_tile idx tile_size b s) zero_box = nth p b zero_box.
Proof.
  intros Hb Hp. unfold update_tile.
  rewrite app_nth1 by (rewrite prefix_length by exact Hb; exact Hp).
  rewrite nth_firstn.
  replace (p <? idx * tile_size)%nat with true by (symmetry; apply Nat.ltb_lt; exact Hp).
  reflexivity.
Qed.

Lemma box_scale_positive (f : bool) (x : Box) :
  box_positive (box_scale f x) = true -> f = true.
Proof. destruct f; [reflexivity|]. simpl. discriminate. Qed.

Lemma column_bbox_overlap (A B : list Box) (q : nat) :
  column q (bbox_overlap_image A B)
  = map (fun a => nth q (map (fun b => iou_box a b) B) 0) A.
Proof. unfold column, bbox_overlap_image. apply map_map. Qed.

Lemma cross_step_kept (t : Q) (inner tile_size q : nat) (b sl : list Box) :
  (q < length sl)%nat ->
  box_positive (nth q (cross_suppression_image t inner tile_size b sl) zero_box) = true ->
  nth q (cross_suppression_image t inner tile_size b sl) zero_box = nth q sl zero_box
  /\ forall a, In a (tile inner tile_size b) -> iou_box a (nth q sl zero_box) < t.
Proof.
  intros Hq Hpos. unfold cross_suppression_image in *.
  rewrite (zip_with_nth _ _ _ 0%nat zero_box zero_box) in *
    by (rewrite ?length_seq; lia).
  rewrite seq_nth in * by exact Hq. simpl Nat.add in *.
  apply box_scale_positive in Hpos. rewrite Hpos, box_scale_true.
  split; [reflexivity|].
  intros a Ha. rewrite forallb_forall in Hpos.
  apply Qlt_bool_iff, Hpos. rewrite column_bbox_overlap.
  apply in_map_iff. exists a. split; [|exact Ha].
  rewrite (nth_indep _ 0 (iou_box a zero_box)) by (rewrite length_map; exact Hq).
  apply (map_nth (fun b0 => iou_box a b0)).
Qed.

Lemma cross_fold_kept (t : Q) (tile_size q : nat) (b : list Box) (l : list nat) :
  forall sl : list Box,
    (q < length sl)%nat ->
    let R := fold_left (fun s i => cross_suppression_image t i tile_size b s) l sl in
    box_positive (nth q R zero_box) = true ->
    nth q R zero_box = nth q sl zero_box
    /\ forall i a, In i l -> In a (tile i tile_size b) ->
                   iou_box a (nth q sl zero_box) < t.
Proof.
  induction l as [|i l IH]; intros sl Hq R Hpos.
  - split; [reflexivity|]. intros i a [].
  - simpl in R.
    destruct (IH (cross_suppression_image t i tile_size b sl)) as [E Hrest].
    + rewrite cross_suppression_image_length. exact Hq.
    + exact Hpos.
    + fold R in E. rewrite E in Hpos.
      destruct (cross_step_kept t i tile_size b sl Hq Hpos) as [E' Hstep].
      split; [subst R; congruence|].
      intros j a [<-|Hj] Ha; [apply Hstep, Ha|].
      rewrite <- E'. apply (Hrest j a Hj Ha).
Qed.

Lemma cross_image_kept (t : Q) (tile_size idx q : nat) (b : list Box) :
  (1 <= tile_size)%nat ->
  (S idx * tile_size <= length b)%nat -> (q < tile_size)%nat ->
  box_positive (nth q (cross_image t tile_size idx b) zero_box) = true ->
  nth q (cross_image t tile_size idx b) zero_box
  = nth (idx * tile_size + q) b zero_box
  /\ forall p, (p < idx * tile_size)%nat ->
               iou_box (nth p b zero_box) (nth (idx * tile_size + q) b zero_box) < t.
Proof.
  intros Hts Hb Hq Hpos. unfold cross_image in *.
  destruct (@cross_fold_kept t tile_size q b (seq 0 idx) (tile idx tile_size b))
    as [E Hall].
  - rewrite tile_length by exact Hb. exact Hq.
  - exact Hpos.
  - rewrite nth_tile in E, Hall by exact Hq.
    split; [exact E|]. intros p Hp.
    assert (Hdiv : (p / tile_size < idx)%nat)
      by (apply Nat.Div0.div_lt_upper_bound; lia).
    pose proof (Nat.mod_upper_bound p tile_size ltac:(lia)) as Hmod.
    pose proof (Nat.div_mod_eq p tile_size) as Hdm.
    apply (Hall (p / tile_size)%nat).
    + apply in_seq. lia.
    + replace (nth p b zero_box)
        with (nth (p mod tile_size) (tile (p / tile_size) tile_size b) zero_box).
      * apply nth_In. rewrite tile_length; [exact Hmod|]. simpl in *. nia.
      * rewrite nth_tile by exact Hmod. f_equal. lia.
Qed.

Lemma qsum_zeros (l : list Q) : Forall (fun x => x = 0) l -> qsum l <= 0.
Proof.
  induction 1 as [|x l Hx _ IH]; [apply Qle_refl|].
  change (x + qsum l <= 0). subst x. lra.
Qed.

Section SelfImage.
Variables (k : nat) (t : Q) (s : list Box).
Hypothesis Ht : 0 < t.

Local Abbreviation n := (length s).
Local Abbreviation M0 := (mask_upper t (bbox_overlap_image s s)).
Local Abbreviation Mk := (Nat.iter k (self_suppression_image t) M0).

Lemma initial_entries (r c : nat) :
  (r < n)%nat -> (c < n)%nat -> entry M0 r c = 0 \/ t <= entry M0 r c.
Proof.
  intros Hr Hc.
  rewrite (@entry_mask_upper t n _ r c (@bbox_overlap_image_square n s eq_refl) Hr Hc).
  destruct (r <? c)%nat; simpl; [|left; reflexivity].
  destruct (Qle_bool t _) eqn:E; simpl; [|left; reflexivity].
  right. apply Qle_bool_iff, E.
Qed.

Lemma iterated_sound : (1 <= n)%nat -> sound t n M0 Mk.
Proof.
  intro Hn.
  assert (Hsq : square n M0)
    by (apply mask_upper_square, bbox_overlap_image_square; reflexivity).
  exact (@sound_iter t n M0 Ht Hn Hsq k).
Qed.

Lemma self_image_nth (q : nat) :
  (q < n)%nat ->
  nth q (self_image k t s) zero_box
  = box_scale (negb (Qlt_bool 0 (qsum (column q Mk)))) (nth q s zero_box).
Proof.
  intro Hq. unfold self_image, drop_suppressed.
  assert (Hsq : square n Mk).
  { apply iter_step_square, mask_upper_square, bbox_overlap_image_square.
    reflexivity. }
  rewrite (zip_with_nth _ _ _ 0 zero_box zero_box)
    by (rewrite ?col_sum_length, ?(@ncols_square n _ Hsq); lia).
  rewrite col_sum_nth by (rewrite (@ncols_square n _ Hsq); exact Hq).
  reflexivity.
Qed.

Lemma self_image_kept (q : nat) :
  (q < n)%nat ->
  box_positive (nth q (self_image k t s) zero_box) = true ->
  nth q (self_image k t s) zero_box = nth q s zero_box
  /\ qsum (column q Mk) <= 0.
Proof.
  intros Hq Hpos. rewrite self_image_nth in * by exact Hq.
  apply box_scale_positive in Hpos. rewrite Hpos, box_scale_true.
  split; [reflexivity|].
  apply negb_true_iff, Qlt_bool_false_iff in Hpos. exact Hpos.
Qed.

Lemma self_image_no_overlap (p q : nat) :
  (p < q)%nat -> (q < n)%nat ->
  box_positive (nth p (self_image k t s) zero_box) = true ->
  box_positive (nth q (self_image k t s) zero_box) = true ->
  iou_box (nth p s zero_box) (nth q s zero_box) < t.
Proof.
  intros Hpq Hq Hp1 Hq1.
  assert (Hp : (p < n)%nat) by lia.
  destruct (self_image_kept Hp Hp1) as [_ Hsp].
  destruct (self_image_kept Hq Hq1) as [_ Hsq].
  assert (Hn : (1 <= n)%nat) by lia.
  pose proof (@sound_kept_pair t n M0 Ht Hn initial_entries Mk p q
                (iterated_sound Hn) Hp Hq Hsp Hsq) as E.
  rewrite (@entry_mask_upper t n _ p q (@bbox_overlap_image_square n s eq_refl) Hp Hq) in E.
  rewrite entry_bbox_overlap in E by assumption.
  replace (p <? q)%nat with true in E by (symmetry; apply Nat.ltb_lt; exact Hpq).
  simpl in E.
  destruct (Qle_bool t (iou_box (nth p s zero_box) (nth q s zero_box))) eqn:Hle.
  - simpl in E. apply Qle_bool_iff in Hle. rewrite E in Hle. lra.
  - apply Qlt_bool_iff. unfold Qlt_bool. rewrite Hle. reflexivity.
Qed.

Lemma self_image_first :
  (1 <= n)%nat -> nth 0 (self_image k t s) zero_box = nth 0 s zero_box.
Proof.
  intro Hn. rewrite self_image_nth by lia.
  replace (Qlt_bool 0 (qsum (column 0 Mk))) with false; [apply box_scale_true|].
  symmetry. apply Qlt_bool_false_iff, qsum_zeros.
  apply Forall_column. intros r Hr.
  destruct (iterated_sound Hn) as [[Hl _] Hrows]. rewrite Hl in Hr.
  destruct (Hrows r Hr) as [E|[E _]]; [|apply E; lia].
  rewrite E by lia.
  rewrite (@entry_mask_upper t n _ r 0 (@bbox_overlap_image_square n s eq_refl) Hr Hn).
  reflexivity.
Qed.
End SelfImage.

(* ================================================================== *)
(** * Processed tiles hold no overlapping pair *)

Lemma body_image_no_overlap (k : nat) (t : Q) (tile_size idx : nat) (b : list Box) :
  0 < t -> (1 <= tile_size)%nat ->
  (S idx * tile_size <= length b)%nat ->
  no_overlap t (idx * tile_size) b ->
  no_overlap t (S idx * tile_size) (body_image k t tile_size idx b).
Proof.
  intros Ht Hts Hb Hprev p q Hpq Hq Hp1 Hq1.
  pose proof (cross_image_length t tile_size idx b Hb) as Hlen1.
  pose proof (body_slice_length k t tile_size idx b Hb) as Hlen2.
  unfold body_image in *.
  destruct (Nat.lt_ge_cases q (idx * tile_size)) as [Hlow|Hhigh].
  - rewrite !nth_update_tile_before in * by (assumption || lia).
    apply Hprev; assumption.
  - set (q' := (q - idx * tile_size)%nat).
    assert (Hq' : (q' < tile_size)%nat) by (subst q'; simpl in Hq; lia).
    replace q with (idx * tile_size + q')%nat in * by (subst q'; lia).
    rewrite nth_update_tile in Hq1 |- * by assumption.
    unfold body_slice in Hq1 |- *.
    assert (Hq'' : (q' < length (cross_image t tile_size idx b))%nat) by lia.
    destruct (@self_image_kept k t (cross_image t tile_size idx b) q' Hq'' Hq1)
      as [Eq _].
    rewrite Eq in Hq1 |- *.
    destruct (@cross_image_kept t tile_size idx q' b Hts Hb Hq' Hq1) as [Eq' Hcross].
    destruct (Nat.lt_ge_cases p (idx * tile_size)) as [Hplow|Hphigh].
    + rewrite nth_update_tile_before by (assumption || lia).
      rewrite Eq'. apply Hcross, Hplow.
    + set (p' := (p - idx * tile_size)%nat).
      assert (Hp' : (p' < q')%nat) by (subst p'; lia).
      replace p with (idx * tile_size + p')%nat in * by (subst p'; lia).
      rewrite nth_update_tile in Hp1 |- * by (assumption || lia).
      unfold body_slice in Hp1 |- *.
      assert (Hp'' : (p' < length (cross_image t tile_size idx b))%nat) by lia.
      destruct (@self_image_kept k t (cross_image t tile_size idx b) p' Hp'' Hp1)
        as [Ep _].
      rewrite Ep.
      apply (@self_image_no_overlap k t (cross_image t tile_size idx b) Ht p' q'
               Hp' Hq'' Hp1).
      fold (body_slice k t tile_size idx b).
      unfold body_slice. rewrite Eq. exact Hq1.
Qed.

Lemma reach_no_overlap (t : Q) (tile_size idx K : nat) (b f : list Box) :
  0 < t -> (1 <= tile_size)%nat ->
  reach t tile_size idx K b f ->
  (K * tile_size <= length b)%nat ->
  no_overlap t (idx * tile_size) b ->
  no_overlap t (K * tile_size) f.
Proof.
  intros Ht Hts Hr. induction Hr as [idx b|idx K k b f Hr IH]; intros Hlen Hprev.
  - exact Hprev.
  - pose proof (reach_le Hr) as Hle.
    assert (Hb : (S idx * tile_size <= length b)%nat) by nia.
    apply IH.
    + rewrite body_image_length by exact Hb. exact Hlen.
    + apply body_image_no_overlap; assumption.
Qed.

Lemma nth_firstn_eq {A : Type} (n p : nat) (l l' : list A) (d : A) :
  firstn n l = firstn n l' -> (p < n)%nat -> nth p l d = nth p l' d.
Proof.
  intros E Hp.
  assert (H : nth p (firstn n l) d = nth p (firstn n l') d) by (rewrite E; reflexivity).
  rewrite !nth_firstn in H.
  replace (p <? n)%nat with true in H by (symmetry; apply Nat.ltb_lt; exact Hp).
  exact H.
Qed.

(** The best-ranked box is never cleared. *)
Lemma reach_first (t : Q) (tile_size K : nat) (b f : list Box) :
  0 < t -> (1 <= tile_size)%nat ->
  reach t tile_size 0 K b f ->
  (K * tile_size <= length b)%nat ->
  nth 0 f zero_box = nth 0 b zero_box.
Proof.
  intros Ht Hts Hr Hlen. inversion Hr as [|idx K' k b' f' Hr' E1 E2 E3 E4]; subst.
  - reflexivity.
  - pose proof (reach_le Hr') as Hle.
    assert (Hb : (1 * tile_size <= length b)%nat) by nia.
    destruct (reach_facts Hr') as [_ [_ [Hpre _]]].
    { rewrite body_image_length by exact Hb. exact Hlen. }
    rewrite (@nth_firstn_eq _ (1 * tile_size) 0%nat _ _ zero_box Hpre) by lia.
    unfold body_image.
    change 0%nat with (0 * tile_size + 0)%nat at 1.
    rewrite nth_update_tile; [|exact Hb|apply body_slice_length, Hb|lia].
    unfold body_slice. rewrite self_image_first; [|exact Ht|].
    + unfold cross_image. simpl fold_left. rewrite nth_tile by lia. reflexivity.
    + rewrite cross_image_length by exact Hb. exact Hts.
Qed.

(* ================================================================== *)
(** * The tie-break of the ranking *)

Lemma before_trans (p q r : Q * nat) : before p q -> before q r -> before p r.
Proof.
  unfold before. intros [H1|[H1 H1']] [H2|[H2 H2']].
  - left. lra.
  - left. lra.
  - left. lra.
  - right. split; [lra|lia].
Qed.

Lemma insert_by_score_sorted (p : Q * nat) (l : list (Q * nat)) :
  StronglySorted before l ->
  (forall x, In x l -> (snd p < snd x)%nat) ->
  StronglySorted before (insert_by_score p l).
Proof.
  induction 1 as [|q l Hl IH Hq]; intro Hidx; simpl.
  - constructor; constructor.
  - destruct (Qle_bool (fst p) (fst q)) eqn:E.
    + apply Qle_bool_iff in E.
      assert (Hpq : before p q).
      { unfold before. specialize (Hidx q (or_introl eq_refl)).
        destruct (Qlt_le_dec (fst p) (fst q)) as [Hlt|Hge]; [left; exact Hlt|].
        right. split; [lra|exact Hidx]. }
      constructor; [constructor; assumption|].
      constructor; [exact Hpq|].
      eapply Forall_impl; [|exact Hq]. intros x Hx. eapply before_trans; eassumption.
    + constructor.
      * apply IH. intros x Hx. apply Hidx. right. exact Hx.
      * apply Forall_forall. intros x Hx.
        apply (Permutation_in _ (insert_by_score_perm p l)) in Hx.
        destruct Hx as [<-|Hx].
        -- left. apply Qlt_bool_iff. unfold Qlt_bool. rewrite E. reflexivity.
        -- rewrite Forall_forall in Hq. apply Hq, Hx.
Qed.

Lemma sort_by_score_sorted (scores : list Q) (s : nat) :
  StronglySorted before
    (fold_right insert_by_score [] (combine scores (seq s (length scores)))).
Proof.
  revert s. induction scores as [|x scores IH]; intro s; simpl; [constructor|].
  apply insert_by_score_sorted; [apply IH|].
  intros y Hy. apply (Permutation_in _ (sort_by_score_perm _)) in Hy.
  destruct y as [sc i]. apply in_combine_r in Hy. apply in_seq in Hy. simpl. lia.
Qed.

Lemma StronglySorted_nth {A : Type} (R : A -> A -> Prop) (l : list A) (d : A) :
  StronglySorted R l ->
  forall i j, (i < j)%nat -> (j < length l)%nat -> R (nth i l d) (nth j l d).
Proof.
  induction 1 as [|x l Hl IH Hx]; intros i j Hij Hj; simpl in Hj; [lia|].
  destruct j as [|j]; [lia|]. destruct i as [|i]; simpl.
  - rewrite Forall_forall in Hx. apply Hx, nth_In. lia.
  - apply IH; lia.
Qed.

(** Among equal scores the larger original index is ranked first. *)
Lemma ranking_tie_break (scores : list Q) (a b : nat) :
  (a < b)%nat -> (b < length scores)%nat ->
  nth a scores 0 == nth b scores 0 ->
  exists pa pb,
    (pb < pa)%nat /\ (pa < length scores)%nat
    /\ nth pa (rev (argsort scores)) 0%nat = a
    /\ nth pb (rev (argsort scores)) 0%nat = b.
Proof.
  intros Hab Hb Heq.
  set (n := length scores).
  set (S := fold_right insert_by_score [] (combine scores (seq 0 n))).
  assert (Hperm : Permutation S (combine scores (seq 0 n)))
    by apply sort_by_score_perm.
  assert (HlenS : length S = n).
  { rewrite (Permutation_length Hperm), length_combine, length_seq. subst n. lia. }
  assert (Hin : forall i, (i < n)%nat -> In (nth i scores 0, i) S).
  { intros i Hi. apply (Permutation_in _ (Permutation_sym Hperm)).
    replace (nth i scores 0, i) with (nth i (combine scores (seq 0 n)) (0, 0%nat)).
    - apply nth_In. rewrite length_combine, length_seq. subst n. lia.
    - rewrite combine_nth by (rewrite length_seq; reflexivity).
      rewrite seq_nth by exact Hi. reflexivity. }
  destruct (In_nth _ _ (0, 0%nat) (Hin a ltac:(subst n; lia))) as [ia [Hia Ea]].
  destruct (In_nth _ _ (0, 0%nat) (Hin b Hb)) as [ib [Hib Eb]].
  pose proof (sort_by_score_sorted scores 0) as Hsorted. fold n in Hsorted. fold S in Hsorted.
  assert (Hlt : (ia < ib)%nat).
  { destruct (Nat.lt_trichotomy ia ib) as [H|[H|H]]; [exact H| |].
    - subst ib. rewrite Ea in Eb. injection Eb as _ E. lia.
    - exfalso. pose proof (StronglySorted_nth (0, 0%nat) Hsorted H Hia) as Hbad.
      rewrite Ea, Eb in Hbad. unfold before in Hbad. simpl in Hbad.
      destruct Hbad as [Hbad|[_ Hbad]]; [lra|lia]. }
  assert (Harg : forall i, (i < n)%nat ->
                   nth (n - Datatypes.S i) (rev (argsort scores)) 0%nat
                   = snd (nth i S (0, 0%nat))).
  { intros i Hi. unfold argsort. fold n. fold S.
    rewrite rev_nth by (rewrite length_map, HlenS; lia).
    rewrite length_map, HlenS.
    replace (n - Datatypes.S (n - Datatypes.S i))%nat with i by lia.
    change 0%nat with (snd (0, 0%nat)) at 1. apply map_nth. }
  rewrite HlenS in Hia, Hib.
  exists (n - Datatypes.S ia)%nat, (n - Datatypes.S ib)%nat.
  split; [lia|]. split; [lia|].
  rewrite !Harg by assumption. rewrite Ea, Eb. split; reflexivity.
Qed.

(* ================================================================== *)
(** * Two identical boxes *)

Lemma iou_self (b : Box) :
  ymin b <= ymax b -> xmin b <= xmax b ->
  iou_box b b == box_area b / (box_area b + EPSILON).
Proof.
  intros Hy Hx. unfold iou_box, box_area.
  rewrite !Q.min_id, !Q.max_id.
  rewrite (Q.max_l (xmax b - xmin b) 0) by lra.
  rewrite (Q.max_l (ymax b - ymin b) 0) by lra.
  apply Qdiv_comp; ring.
Qed.

Lemma iou_self_half (b : Box) :
  ymin b <= ymax b -> xmin b <= xmax b -> EPSILON <= box_area b ->
  1 # 2 <= iou_box b b.
Proof.
  intros Hy Hx Ha. rewrite (iou_self b Hy Hx).
  assert (He : 0 < EPSILON) by reflexivity.
  apply Qle_shift_div_l; lra.
Qed.

Lemma singleton_of_members (l : list nat) :
  NoDup l -> (forall p, In p l <-> p = 0%nat) -> l = [0%nat].
Proof.
  intros Hnd Hmem. destruct l as [|x l].
  - exfalso. apply (proj2 (Hmem 0%nat) eq_refl).
  - assert (x = 0%nat) by (apply Hmem; left; reflexivity). subst x.
    destruct l as [|y l]; [reflexivity|]. exfalso.
    assert (y = 0%nat) by (apply Hmem; right; left; reflexivity). subst y.
    inversion Hnd as [|? ? Hnot _]. apply Hnot. left. reflexivity.
Qed.

Section TwoBoxes.
Variables (fuel : nat) (b : Box) (s : Q) (m : nat) (thr : threshold)
          (tile_size : Z).
Hypothesis Hts : (0 < tile_size)%Z.
Hypothesis Hfuel : (Z.to_nat tile_size <= fuel)%nat.
Hypothesis Hm : (1 <= m)%nat.
Hypothesis Hs : exceeds thr s.
Hypothesis Hpos : box_positive b = true.
Hypothesis Hiou : 1 # 2 <= iou_box b b.

Local Abbreviation t := (1 # 2).

Lemma two_boxes_well_formed : well_formed fuel 2 [[b; b]] [[s; s]] t tile_size.
Proof.
  constructor; simpl; try lia; try discriminate; repeat constructor;
    try assumption.
Qed.

Lemma two_boxes_rank : rank_image thr [s; s] = [1; 0]%nat.
Proof.
  unfold rank_image, filter_scores_image, argsort. simpl.
  apply above_true_iff in Hs. rewrite Hs. simpl.
  replace (Qle_bool s s) with true
    by (symmetry; apply Qle_bool_iff, Qle_refl).
  reflexivity.
Qed.

Lemma two_boxes_sorted : sorted_image thr [b; b] [s; s] = [b; b].
Proof.
  unfold sorted_image. rewrite two_boxes_rank.
  unfold filter_boxes_image, zip_with. simpl.
  apply above_true_iff in Hs. rewrite Hs, box_scale_true. reflexivity.
Qed.

Lemma two_boxes_result :
  non_max_suppression fuel 2 [[b; b]] [[s; s]] m t thr tile_size
  = Ok ([1%nat :: repeat 0%nat (m - 1)], [1%nat]).
Proof.
  pose proof two_boxes_well_formed as Hwf.
  assert (Ht : 0 < t) by reflexivity.
  assert (Hts' : (1 <= Z.to_nat tile_size)%nat) by lia.
  destruct (non_max_suppression_spec m thr Hwf)
    as [F [K [_ [HK [Hreach [Hexit Hres]]]]]].
  rewrite Hres. clear Hres.
  unfold padded_boxes in Hreach. rewrite zip_with_cons in Hreach.
  inversion Hreach as [|b0 f l1 l2 Hr Hnil]; subst. inversion Hnil; subst.
  clear Hreach Hnil. simpl map. rewrite zip_with_cons.
  change (zip_with (select m (Z.to_nat tile_size) K) [] []) with (@nil (list nat)).
  destruct (tiles_cover m Hwf) as [HL [HNL HmL]].
  set (ts := Z.to_nat tile_size) in *.
  set (T := num_iterations 2 m tile_size) in *.
  assert (HK1 : (1 <= K)%nat).
  { destruct (Nat.lt_ge_cases K T) as [Hlt|Hge].
    - specialize (Hexit Hlt). inversion Hexit as [|? ? Hc _]; subst.
      destruct K; [|lia].
      assert (E0 : count_prefix ts 0 f = 0%nat) by reflexivity. lia.
    - unfold num_boxes_after_padding in HL. nia. }
  destruct (@final_image fuel 2 [[b; b]] [[s; s]] m t thr tile_size [b; b] [s; s]
              f K Hwf eq_refl HK Hr) as [Hlen [Hdim [Hkept _]]].
  rewrite two_boxes_sorted in Hkept.
  assert (Hlen0 : length (padded_image thr 2 m tile_size [b; b] [s; s])
                  = num_boxes_after_padding 2 m tile_size).
  { rewrite <- Hlen. symmetry. apply (Forall2_length Hdim). }
  assert (Hcover : (K * ts <= length (padded_image thr 2 m tile_size [b; b] [s; s]))%nat)
    by (rewrite Hlen0; nia).
  assert (Hfirst : nth 0 f zero_box = b).
  { rewrite (reach_first Ht Hts' Hr Hcover).
    unfold padded_image. rewrite two_boxes_sorted. reflexivity. }
  assert (Hno : no_overlap t (K * ts) f).
  { apply (reach_no_overlap Ht Hts' Hr Hcover). intros p q Hpq Hq. simpl in Hq. lia. }
  assert (Hmembers : forall p, In p (kept_from 0 (firstn (K * ts) f)) <-> p = 0%nat).
  { intro p. rewrite kept_from_spec, Nat.sub_0_r, nth_firstn, length_firstn.
    split.
    - intros [Hp Hpp].
      destruct (p <? K * ts)%nat eqn:Hc; [|discriminate].
      apply Nat.ltb_lt in Hc.
      assert (Hin : In p (kept_from 0 f)).
      { apply kept_from_spec. rewrite Nat.sub_0_r. split; [lia|exact Hpp]. }
      destruct (Hkept p Hin) as [HpN Hval].
      destruct p as [|[|p]]; [reflexivity| |lia].
      exfalso. simpl in Hval.
      assert (Hbad : iou_box (nth 0 f zero_box) (nth 1 f zero_box) < t).
      { apply Hno; [lia|exact Hc| |exact Hpp]. rewrite Hfirst. exact Hpos. }
      rewrite Hfirst, Hval in Hbad. lra.
    - intros ->.
      replace (0 <? K * ts)%nat with true by (symmetry; apply Nat.ltb_lt; nia).
      rewrite Hfirst. split; [|exact Hpos].
      rewrite Hlen. unfold num_boxes_after_padding in HL. nia. }
  pose proof (singleton_of_members (kept_from_NoDup 0 _) Hmembers) as Hk.
  assert (Hcount : count_prefix ts K f = 1%nat).
  { unfold count_prefix. rewrite <- (kept_from_length 0), Hk. reflexivity. }
  assert (Hnv : num_valid_image m ts K f = 1%nat)
    by (unfold num_valid_image; rewrite Hcount; lia).
  unfold select. rewrite Hnv.
  rewrite (kept_prefix (K * ts) f) by (fold (count_prefix ts K f); lia).
  rewrite Hk, two_boxes_rank. reflexivity.
Qed.
End TwoBoxes.

(** Two identical boxes without area, equal scores, [iou_threshold = 0.5]:
    their IoU is 0, and both survive. *)
Lemma degenerate_duplicates_both_survive :
  non_max_suppression 2 2 [[mkBox 1 1 1 1; mkBox 1 1 1 1]] [[1 # 2; 1 # 2]]
                      2 (1 # 2) (Finite 0) 2
  = Ok ([[1; 0]%nat], [2%nat]).
Proof. vm_compute. reflexivity. Qed.

(** The same with a small positive area: two copies of a square of side
    1/100000 have an IoU of about 0.01. *)
Lemma tiny_duplicates_both_survive :
  non_max_suppression 2 2
    [[mkBox 0 0 (1 # 100000) (1 # 100000); mkBox 0 0 (1 # 100000) (1 # 100000)]]
    [[1 # 2; 1 # 2]] 2 (1 # 2) (Finite 0) 2
  = Ok ([[1; 0]%nat], [2%nat]).
Proof. vm_compute. reflexivity. Qed.

(** C7 (amended).  The ranking is the reverse of the ascending stable sort:
    among equal scores the larger original index is ranked first.  And for
    two boxes with identical coordinates that have an area of at least
    [EPSILON] (so that their IoU reaches 0.5) and a positive coordinate,
    with equal scores above [score_threshold], [iou_threshold = 0.5] and
    [max_output_size >= 1], exactly one box survives, whatever the tile
    size: [num_valid = 1] and the selected index is 1, the larger one. *)
Theorem tie_break_selects_larger_index :
  (forall (scores : list Q) (a b : nat),
      (a < b)%nat -> (b < length scores)%nat ->
      nth a scores 0 == nth b scores 0 ->
      exists pa pb,
        (pb < pa)%nat /\ (pa < length scores)%nat
        /\ nth pa (rev (argsort scores)) 0%nat = a
        /\ nth pb (rev (argsort scores)) 0%nat = b)
  /\ (forall (fuel : nat) (b : Box) (s : Q) (m : nat) (thr : threshold)
             (tile_size : Z),
         (0 < tile_size)%Z -> (Z.to_nat tile_size <= fuel)%nat -> (1 <= m)%nat ->
         exceeds thr s -> box_positive b = true ->
         ymin b <= ymax b -> xmin b <= xmax b -> EPSILON <= box_area b ->
         non_max_suppression fuel 2 [[b; b]] [[s; s]] m (1 # 2) thr tile_size
         = Ok ([1%nat :: repeat 0%nat (m - 1)], [1%nat])).
Proof.
  split.
  - exact ranking_tie_break.
  - intros fuel b s m thr tile_size Hts Hfuel Hm Hs Hpos Hy Hx Ha.
    apply two_boxes_result; try assumption.
    apply iou_self_half; assumption.
Qed.

Lemma tie_break_selects_larger_index_witness :
  (exists pa pb,
      (pb < pa)%nat /\ (pa < 2)%nat
      /\ nth pa (rev (argsort [1 # 2; 1 # 2])) 0%nat = 0%nat
      /\ nth pb (rev (argsort [1 # 2; 1 # 2])) 0%nat = 1%nat)
  /\ non_max_suppression 2 2 [[mkBox 0 0 1 1; mkBox 0 0 1 1]] [[1 # 2; 1 # 2]]
                         1 (1 # 2) (Finite 0) 2
     = Ok ([[1%nat]], [1%nat]).
Proof.
  split.
  - apply (proj1 tie_break_selects_larger_index [1 # 2; 1 # 2] 0%nat 1%nat).
    + lia.
    + simpl. lia.
    + reflexivity.
  - apply (proj2 tie_break_selects_larger_index 2%nat (mkBox 0 0 1 1) (1 # 2)
                 1%nat (Finite 0) 2%Z).
    + reflexivity.
    + simpl. lia.
    + lia.
    + reflexivity.
    + reflexivity.
    + simpl. unfold Qle. simpl. lia.
    + simpl. unfold Qle. simpl. lia.
    + unfold Qle. simpl. lia.
Defined.

(* ================================================================== *)
(** * Where the selection depends on the tiling and on the batch *)

Lemma tie_chain_neighbours :
  iou_box (strip 0 tie_width) (strip 1 (1 + tie_width)) == 1 # 2
  /\ iou_box (strip 0 tie_width) (strip 2 (2 + tie_width)) < 1 # 2.
Proof. split; vm_compute; reflexivity. Qed.

(** C1 at [iou_threshold = 0]: two identical boxes in one tile are both
    selected, although their IoU is not below the threshold. *)
Theorem zero_threshold_keeps_duplicates :
  non_max_suppression 2 2 [[mkBox 0 0 1 1; mkBox 0 0 1 1]] [[1 # 2; 1 # 3]]
                      2 0 (Finite 0) 2
  = Ok ([[0; 1]%nat], [2%nat])
  /\ 0 <= iou_box (mkBox 0 0 1 1) (mkBox 0 0 1 1).
Proof. split; [vm_compute; reflexivity|]. vm_compute. discriminate. Qed.

(** With two tiles the cross-suppression clears the second box. *)
Lemma zero_threshold_two_tiles :
  non_max_suppression 2 2 [[mkBox 0 0 1 1; mkBox 0 0 1 1]] [[1 # 2; 1 # 3]]
                      2 0 (Finite 0) 1
  = Ok ([[0; 0]%nat], [1%nat]).
Proof. vm_compute. reflexivity. Qed.

(** C2: the same input, one tile of five boxes against five tiles of one
    box.  Greedy suppression keeps the boxes 0, 2 and 4; with one tile the
    inner loop stops after its first step, because the IoU mass it removed
    is exactly [iou_threshold], and box 4 stays suppressed by box 3. *)
Theorem tile_size_changes_selection :
  non_max_suppression 5 5 [tie_chain] [chain_scores] 5 (1 # 2) (Finite 0) 5
  = Ok ([[0; 2; 0; 0; 0]%nat], [2%nat])
  /\ non_max_suppression 5 5 [tie_chain] [chain_scores] 5 (1 # 2) (Finite 0) 1
     = Ok ([[0; 2; 4; 0; 0]%nat], [3%nat]).
Proof. split; vm_compute; reflexivity. Qed.

(** C10: image 0 is the same in both calls; the other image decides whether
    the shared inner loop takes a second step. *)
Theorem other_image_changes_selection :
  non_max_suppression 5 5 [tie_chain; busy_image] [chain_scores; chain_scores]
                      5 (1 # 2) (Finite 0) 5
  = Ok ([[0; 2; 4; 0; 0]; [0; 2; 3; 4; 0]]%nat, [3; 4]%nat)
  /\ non_max_suppression 5 5 [tie_chain; repeat zero_box 5]
                         [chain_scores; chain_scores] 5 (1 # 2) (Finite 0) 5
     = Ok ([[0; 2; 0; 0; 0]; [0; 0; 0; 0; 0]]%nat, [2; 0]%nat).
Proof. split; vm_compute; reflexivity. Qed.

(* ================================================================== *)
(** * For a positive threshold the selected boxes do not overlap *)

Lemma iou_box_sym (a b : Box) : iou_box a b == iou_box b a.
Proof.
  unfold iou_box, box_area.
  rewrite (Q.max_comm (xmin a)), (Q.min_comm (xmax a)),
          (Q.max_comm (ymin a)), (Q.min_comm (ymax a)).
  apply Qdiv_comp; ring.
Qed.

Lemma kept_from_increasing (b : list Box) :
  forall s j1 j2, (j1 < j2)%nat -> (j2 < length (kept_from s b))%nat ->
    (nth j1 (kept_from s b) 0 < nth j2 (kept_from s b) 0)%nat.
Proof.
  induction b as [|x b IH]; intros s j1 j2 Hj Hlen; simpl in *; [lia|].
  destruct (box_positive x); [|apply IH; assumption].
  simpl in Hlen. destruct j2 as [|j2]; [lia|]. destruct j1 as [|j1]; simpl.
  - assert (Hin : In (nth j2 (kept_from (S s) b) 0%nat) (kept_from (S s) b))
      by (apply nth_In; lia).
    apply kept_from_spec in Hin. lia.
  - apply IH; lia.
Qed.

Lemma sorted_image_original (thr : threshold) (b : list Box) (s : list Q) (p : nat) :
  length b = length s -> (p < length s)%nat ->
  box_positive (nth p (sorted_image thr b s) zero_box) = true ->
  nth p (sorted_image thr b s) zero_box
  = nth (nth p (rank_image thr s) 0%nat) b zero_box.
Proof.
  intros Hlen Hp Hpos. unfold sorted_image in *.
  rewrite (nth_indep _ zero_box
             (nth 0 (filter_boxes_image thr b s) zero_box)) in *
    by (rewrite length_map, rank_image_length; exact Hp).
  rewrite (map_nth (fun i => nth i (filter_boxes_image thr b s) zero_box)) in *.
  set (q := nth p (rank_image thr s) 0%nat) in *.
  assert (Hq : (q < length b)%nat).
  { rewrite Hlen, <- (filter_scores_image_length thr s).
    apply ranking_range. apply nth_In.
    rewrite ranking_length, filter_scores_image_length. exact Hp. }
  rewrite filter_boxes_image_nth in * by assumption.
  apply box_scale_positive in Hpos. rewrite Hpos. apply box_scale_true.
Qed.

(** For [iou_threshold > 0]: any two boxes selected for the same image,
    looked up in the original [boxes], have an IoU below [iou_threshold]. *)
Theorem selected_boxes_do_not_overlap (fuel N : nat) (boxes : list (list Box))
  (scores : list (list Q)) (m : nat) (t : Q) (thr : threshold) (tile_size : Z) :
  well_formed fuel N boxes scores t tile_size ->
  0 < t ->
  exists indices num_valid,
    non_max_suppression fuel N boxes scores m t thr tile_size
    = Ok (indices, num_valid)
    /\ forall i j1 j2,
         (i < length boxes)%nat -> (j1 < nth i num_valid 0)%nat ->
         (j2 < nth i num_valid 0)%nat -> j1 <> j2 ->
         iou_box (nth (nth j1 (nth i indices []) 0%nat) (nth i boxes []) zero_box)
                 (nth (nth j2 (nth i indices []) 0%nat) (nth i boxes []) zero_box)
         < t.
Proof.
  intros Hwf Ht.
  assert (Hts : (1 <= Z.to_nat tile_size)%nat)
    by (pose proof (wf_tile_size Hwf); lia).
  destruct (non_max_suppression_images m thr Hwf)
    as [F [K [indices [num_valid [Hres [_ [HlenF [_ [_ [HK [_ Himg]]]]]]]]]]].
  exists indices, num_valid. split; [exact Hres|].
  assert (Hordered : forall i j1 j2,
             (i < length boxes)%nat -> (j1 < j2)%nat ->
             (j2 < nth i num_valid 0)%nat ->
             iou_box (nth (nth j1 (nth i indices []) 0%nat) (nth i boxes []) zero_box)
                     (nth (nth j2 (nth i indices []) 0%nat) (nth i boxes []) zero_box)
             < t).
  { intros i j1 j2 Hi Hj Hj2.
    destruct (Himg i Hi) as [Hrow [Hnv Hreach]].
    set (bx := nth i boxes []) in *. set (sc := nth i scores []) in *.
    set (f := nth i F []) in *. set (ts := Z.to_nat tile_size) in *.
    assert (Hs : length sc = N).
    { pose proof (wf_scores Hwf) as H. rewrite Forall_forall in H.
      apply H, nth_In. rewrite (wf_batch_scores Hwf). exact Hi. }
    assert (Hb : length bx = N).
    { pose proof (wf_boxes Hwf) as H. rewrite Forall_forall in H.
      apply H, nth_In. exact Hi. }
    destruct (@final_image fuel N boxes scores m t thr tile_size bx sc f K
                Hwf Hs HK Hreach) as [Hlen [Hdim [Hkept _]]].
    destruct (tiles_cover m Hwf) as [HL _].
    assert (Hcover : (K * ts <= length (padded_image thr N m tile_size bx sc))%nat).
    { rewrite <- (Forall2_length Hdim), Hlen, HL. fold ts. nia. }
    assert (Hno : no_overlap t (K * ts) f).
    { apply (reach_no_overlap Ht Hts Hreach Hcover).
      intros p q Hpq Hq. simpl in Hq. lia. }
    destruct (@select_facts m ts K N f (rank_image thr sc)) as [_ [Epre [Hnvk _]]].
    { intros p Hp. apply Hkept, Hp. }
    { rewrite rank_image_length. exact Hs. }
    { apply ranking_NoDup. }
    { intros x Hx. apply ranking_range in Hx.
      rewrite filter_scores_image_length, Hs in Hx. exact Hx. }
    rewrite Hnv in Hj2. set (nv := num_valid_image m ts K f) in *.
    rewrite Hrow.
    assert (Hentry : forall j, (j < nv)%nat ->
               nth j (select m ts K f (rank_image thr sc)) 0%nat
               = nth (nth j (kept_from 0 f) 0%nat) (rank_image thr sc) 0%nat
                 /\ In (nth j (kept_from 0 f) 0%nat) (kept_from 0 f)
                 /\ (nth j (kept_from 0 f) 0 < K * ts)%nat).
    { intros j Hjn.
      assert (Hlk : (nv <= length (kept_from 0 f))%nat)
        by (rewrite <- Hnvk, length_firstn; lia).
      assert (E1 : nth j (select m ts K f (rank_image thr sc)) 0%nat
                   = nth j (firstn nv (select m ts K f (rank_image thr sc))) 0%nat).
      { rewrite nth_firstn.
        replace (j <? nv)%nat with true by (symmetry; apply Nat.ltb_lt; exact Hjn).
        reflexivity. }
      assert (E2 : nth j (firstn nv (kept_from 0 f)) 0%nat = nth j (kept_from 0 f) 0%nat).
      { rewrite nth_firstn.
        replace (j <? nv)%nat with true by (symmetry; apply Nat.ltb_lt; exact Hjn).
        reflexivity. }
      split; [|split].
      - rewrite E1, Epre.
        rewrite (nth_indep _ 0%nat (nth 0 (rank_image thr sc) 0%nat))
          by (rewrite length_map, Hnvk; exact Hjn).
        rewrite (map_nth (fun p => nth p (rank_image thr sc) 0%nat)), E2.
        reflexivity.
      - apply nth_In. lia.
      - rewrite <- E2.
        rewrite (kept_prefix (K * ts) f)
          by (subst nv; unfold num_valid_image, count_prefix; lia).
        assert (Hin : In (nth j (firstn nv (kept_from 0 (firstn (K * ts) f))) 0%nat)
                         (kept_from 0 (firstn (K * ts) f))).
        { eapply in_firstn. apply nth_In.
          rewrite length_firstn, kept_from_length.
          subst nv. unfold num_valid_image, count_prefix in *. lia. }
        apply kept_from_spec in Hin. rewrite length_firstn in Hin. lia. }
    destruct (Hentry j1 ltac:(lia)) as [E1 [Hin1 Hb1]].
    destruct (Hentry j2 Hj2) as [E2 [Hin2 Hb2]].
    rewrite E1, E2.
    set (p1 := nth j1 (kept_from 0 f) 0%nat) in *.
    set (p2 := nth j2 (kept_from 0 f) 0%nat) in *.
    assert (Hp12 : (p1 < p2)%nat).
    { subst p1 p2. apply kept_from_increasing; [exact Hj|].
      rewrite <- Hnvk, length_firstn in Hj2. lia. }
    destruct (Hkept p1 Hin1) as [Hp1N Hv1]. destruct (Hkept p2 Hin2) as [Hp2N Hv2].
    pose proof (proj2 (proj1 (kept_from_spec 0 f p1) Hin1)) as Hpos1.
    pose proof (proj2 (proj1 (kept_from_spec 0 f p2) Hin2)) as Hpos2.
    rewrite Nat.sub_0_r in Hpos1, Hpos2.
    pose proof (Hno p1 p2 Hp12 Hb2 Hpos1 Hpos2) as Hlt.
    rewrite Hv1 in Hpos1, Hlt. rewrite Hv2 in Hpos2, Hlt.
    rewrite sorted_image_original in Hlt by (assumption || congruence || lia).
    rewrite (@sorted_image_original thr bx sc p2) in Hlt
      by (assumption || congruence || lia).
    exact Hlt. }
  intros i j1 j2 Hi Hj1 Hj2 Hne.
  destruct (Nat.lt_trichotomy j1 j2) as [H|[H|H]]; [|contradiction|].
  - apply Hordered; assumption.
  - rewrite iou_box_sym. apply Hordered; assumption.
Qed.

Lemma selected_boxes_do_not_overlap_witness :
  (well_formed 2 2 [[mkBox 0 0 1 1; mkBox 0 2 1 3]] [[1 # 2; 1 # 3]] (1 # 2) 2
   /\ 0 < 1 # 2)
  /\ exists indices num_valid,
      non_max_suppression 2 2 [[mkBox 0 0 1 1; mkBox 0 2 1 3]]
                          [[1 # 2; 1 # 3]] 2 (1 # 2) (Finite 0) 2
      = Ok (indices, num_valid)
      /\ forall i j1 j2,
           (i < 1)%nat -> (j1 < nth i num_valid 0)%nat ->
           (j2 < nth i num_valid 0)%nat -> j1 <> j2 ->
           iou_box (nth (nth j1 (nth i indices []) 0%nat)
                        (nth i [[mkBox 0 0 1 1; mkBox 0 2 1 3]] []) zero_box)
                   (nth (nth j2 (nth i indices []) 0%nat)
                        (nth i [[mkBox 0 0 1 1; mkBox 0 2 1 3]] []) zero_box)
           < 1 # 2.
Proof.
  assert (Hwf : well_formed 2 2 [[mkBox 0 0 1 1; mkBox 0 2 1 3]]
                            [[1 # 2; 1 # 3]] (1 # 2) 2).
  { constructor; simpl; try lia; try discriminate; repeat constructor. }
  assert (Ht : 0 < 1 # 2) by reflexivity.
  split; [split; assumption|].
  exact (@selected_boxes_do_not_overlap 2 2 _ _ 2 (1 # 2) (Finite 0) 2 Hwf Ht).
Defined.

(* ================================================================== *)
(** * The overlap matrix *)

Lemma bbox_overlap_nth (boxes_a boxes_b : list (list Box)) (i : nat) :
  (i < length boxes_a)%nat -> (i < length boxes_b)%nat ->
  nth i (_bbox_overlap boxes_a boxes_b) []
  = bbox_overlap_image (nth i boxes_a []) (nth i boxes_b []).
Proof.
  intros Ha Hb. unfold _bbox_overlap. apply zip_with_nth; assumption.
Qed.

Lemma clip_bounds (lo hi lo' hi' : Q) :
  lo <= hi ->
  0 <= Qmax (Qmin hi hi' - Qmax lo lo') 0
  /\ Qmax (Qmin hi hi' - Qmax lo lo') 0 <= hi - lo.
Proof.
  intro H. split; [apply Q.le_max_r|].
  apply Q.max_lub; [|lra].
  pose proof (Q.le_min_l hi hi'). pose proof (Q.le_max_l lo lo'). lra.
Qed.

Lemma clip_bounds_r (lo hi lo' hi' : Q) :
  lo' <= hi' ->
  Qmax (Qmin hi hi' - Qmax lo lo') 0 <= hi' - lo'.
Proof.
  intro H. apply Q.max_lub; [|lra].
  pose proof (Q.le_min_r hi hi'). pose proof (Q.le_max_r lo lo'). lra.
Qed.

Lemma clip_positive (lo hi lo' hi' : Q) :
  0 < Qmax (Qmin hi hi' - Qmax lo lo') 0 <-> Qmax lo lo' < Qmin hi hi'.
Proof.
  destruct (Q.max_spec (Qmin hi hi' - Qmax lo lo') 0) as [[H1 H2]|[H1 H2]];
    rewrite H2; split; intro H; lra.
Qed.

Lemma EPSILON_positive : 0 < EPSILON.
Proof. reflexivity. Qed.

(** The denominator of the IoU of two proper boxes is at least [EPSILON],
    and the intersection is at most either area. *)
Lemma iou_parts (a b : Box) :
  proper a -> proper b ->
  let i_area := Qmax (Qmin (xmax a) (xmax b) - Qmax (xmin a) (xmin b)) 0
                * Qmax (Qmin (ymax a) (ymax b) - Qmax (ymin a) (ymin b)) 0 in
  0 <= i_area /\ i_area <= box_area a /\ i_area <= box_area b.
Proof.
  intros [Hay Hax] [Hby Hbx] i_area. unfold box_area. subst i_area.
  destruct (@clip_bounds (xmin a) (xmax a) (xmin b) (xmax b) Hax) as [Hw0 Hwa].
  destruct (@clip_bounds (ymin a) (ymax a) (ymin b) (ymax b) Hay) as [Hh0 Hha].
  pose proof (@clip_bounds_r (xmin a) (xmax a) (xmin b) (xmax b) Hbx) as Hwb.
  pose proof (@clip_bounds_r (ymin a) (ymax a) (ymin b) (ymax b) Hby) as Hhb.
  set (w := Qmax (Qmin (xmax a) (xmax b) - Qmax (xmin a) (xmin b)) 0) in *.
  set (h := Qmax (Qmin (ymax a) (ymax b) - Qmax (ymin a) (ymin b)) 0) in *.
  repeat split; nra.
Qed.

Lemma iou_box_range (a b : Box) :
  proper a -> proper b -> 0 <= iou_box a b /\ iou_box a b < 1.
Proof.
  intros Ha Hb. destruct (iou_parts Ha Hb) as [H0 [H1 H2]].
  unfold iou_box. cbv zeta.
  set (i_area := Qmax (Qmin (xmax a) (xmax b) - Qmax (xmin a) (xmin b)) 0
                 * Qmax (Qmin (ymax a) (ymax b) - Qmax (ymin a) (ymin b)) 0) in *.
  pose proof EPSILON_positive as He.
  assert (Hu : 0 < box_area a + box_area b - i_area + EPSILON) by lra.
  split.
  - apply Qle_shift_div_l; [exact Hu|]. lra.
  - apply Qlt_shift_div_r; [exact Hu|]. lra.
Qed.

Lemma iou_box_positive (a b : Box) :
  proper a -> proper b -> (0 < iou_box a b <-> overlapping a b).
Proof.
  intros Ha Hb. destruct (iou_parts Ha Hb) as [H0 [H1 H2]].
  unfold iou_box, overlapping. cbv zeta.
  rewrite <- (clip_positive (xmin a) (xmax a) (xmin b) (xmax b)).
  rewrite <- (clip_positive (ymin a) (ymax a) (ymin b) (ymax b)).
  destruct (proj1 Ha, proj2 Ha) as [Hay Hax].
  destruct (@clip_bounds (xmin a) (xmax a) (xmin b) (xmax b) Hax) as [Hw0 _].
  destruct (@clip_bounds (ymin a) (ymax a) (ymin b) (ymax b) Hay) as [Hh0 _].
  set (w := Qmax (Qmin (xmax a) (xmax b) - Qmax (xmin a) (xmin b)) 0) in *.
  set (h := Qmax (Qmin (ymax a) (ymax b) - Qmax (ymin a) (ymin b)) 0) in *.
  pose proof EPSILON_positive as He.
  assert (Hu : 0 < box_area a + box_area b - w * h + EPSILON) by lra.
  split.
  - intro H.
    assert (Hwh : 0 < w * h).
    { destruct (Qlt_le_dec 0 (w * h)) as [Hlt|Hle]; [exact Hlt|exfalso].
      assert (E : w * h == 0) by lra.
      rewrite E in H. unfold Qdiv in H. rewrite Qmult_0_l in H. lra. }
    split.
    + destruct (Qlt_le_dec 0 w) as [Hlt|Hle]; [exact Hlt|exfalso]. nra.
    + destruct (Qlt_le_dec 0 h) as [Hlt|Hle]; [exact Hlt|exfalso]. nra.
  - intros [Hw Hh].
    apply Qlt_shift_div_l; [exact Hu|]. rewrite Qmult_0_l.
    apply Qmult_lt_0_compat; assumption.
Qed.

(** The all-zero box (padding, a box that failed the score filter, a box
    that was suppressed) has IoU 0 with every box. *)
Lemma iou_box_zero_l (x : Box) : iou_box zero_box x == 0.
Proof.
  unfold iou_box. cbv zeta. simpl xmin. simpl xmax. simpl ymin. simpl ymax.
  assert (E : Qmax (Qmin 0 (xmax x) - Qmax 0 (xmin x)) 0 == 0).
  { apply Q.max_r. pose proof (Q.le_min_l 0 (xmax x)).
    pose proof (Q.le_max_l 0 (xmin x)). lra. }
  rewrite E. unfold Qdiv. rewrite !Qmult_0_l. reflexivity.
Qed.

Lemma proper_nth (l : list Box) (i : nat) :
  Forall proper l -> proper (nth i l zero_box).
Proof.
  intro H. destruct (Nat.lt_ge_cases i (length l)) as [Hi|Hi].
  - rewrite Forall_forall in H. apply H, nth_In, Hi.
  - rewrite nth_overflow by exact Hi. split; apply Qle_refl.
Qed.

Lemma proper_images (boxes : list (list Box)) (i : nat) :
  Forall (Forall proper) boxes -> Forall proper (nth i boxes []).
Proof.
  intro H. destruct (Nat.lt_ge_cases i (length boxes)) as [Hi|Hi].
  - rewrite Forall_forall in H. apply H, nth_In, Hi.
  - rewrite nth_overflow by exact Hi. constructor.
Qed.



(** [_bbox_overlap], symmetry.  Exchanging the two arguments transposes the
    matrix: the entry in row [r] and column [c] of
    [_bbox_overlap(boxes_a, boxes_b)] is the entry in row [c] and column [r]
    of [_bbox_overlap(boxes_b, boxes_a)]. *)
Theorem bbox_overlap_transpose (boxes_a boxes_b : list (list Box)) (i r c : nat) :
  (i < length boxes_a)%nat -> (i < length boxes_b)%nat ->
  (r < length (nth i boxes_a []))%nat -> (c < length (nth i boxes_b []))%nat ->
  entry (nth i (_bbox_overlap boxes_a boxes_b) []) r c
  == entry (nth i (_bbox_overlap boxes_b boxes_a) []) c r.
Proof.
  intros Hia Hib Hr Hc.
  rewrite !bbox_overlap_nth by assumption.
  rewrite !entry_bbox_overlap by assumption.
  apply iou_box_sym.
Qed.

Lemma bbox_overlap_transpose_witness :
  entry (nth 0 (_bbox_overlap [[mkBox 0 0 2 2]] [[mkBox 1 1 3 3]]) []) 0 0
  == entry (nth 0 (_bbox_overlap [[mkBox 1 1 3 3]] [[mkBox 0 0 2 2]]) []) 0 0.
Proof.
  apply (@bbox_overlap_transpose [[mkBox 0 0 2 2]] [[mkBox 1 1 3 3]] 0 0 0);
    simpl; lia.
Defined.

(** [_bbox_overlap], zero entries.  For boxes whose corners are in order an
    entry is positive exactly when the two boxes share a region of positive
    area; boxes that are disjoint or only touch, and every pair with an
    all-zero box, have IoU 0. *)
Theorem bbox_overlap_positive (boxes_a boxes_b : list (list Box)) (i r c : nat) :
  Forall (Forall proper) boxes_a -> Forall (Forall proper) boxes_b ->
  (i < length boxes_a)%nat -> (i < length boxes_b)%nat ->
  (r < length (nth i boxes_a []))%nat -> (c < length (nth i boxes_b []))%nat ->
  (0 < entry (nth i (_bbox_overlap boxes_a boxes_b) []) r c
   <-> overlapping (nth r (nth i boxes_a []) zero_box)
                   (nth c (nth i boxes_b []) zero_box)).
Proof.
  intros Ha Hb Hia Hib Hr Hc.
  rewrite bbox_overlap_nth by assumption.
  rewrite entry_bbox_overlap by assumption.
  apply iou_box_positive; apply proper_nth, proper_images; assumption.
Qed.

Lemma bbox_overlap_positive_witness :
  0 < entry (nth 0 (_bbox_overlap [[mkBox 0 0 2 2]] [[mkBox 1 1 3 3]]) []) 0 0
  <-> overlapping (mkBox 0 0 2 2) (mkBox 1 1 3 3).
Proof.
  apply (@bbox_overlap_positive [[mkBox 0 0 2 2]] [[mkBox 1 1 3 3]] 0 0 0);
    try (simpl; lia);
    repeat constructor; simpl; unfold Qle; simpl; lia.
Defined.

(* ================================================================== *)
(** * The selection of one image *)

(** The facts about one image that the properties below start from: the
    array [f] the outer loop leaves, and how the selected indices are read
    off it. *)
Lemma selection_image (fuel N : nat) (boxes : list (list Box))
  (scores : list (list Q)) (m : nat) (t : Q) (thr : threshold) (tile_size : Z) :
  well_formed fuel N boxes scores t tile_size ->
  exists indices num_valid K,
    non_max_suppression fuel N boxes scores m t thr tile_size
    = Ok (indices, num_valid)
    /\ length indices = length boxes
    /\ length num_valid = length boxes
    /\ (K <= num_iterations N m tile_size)%nat
    /\ forall i, (i < length boxes)%nat ->
         exists f,
           length (nth i boxes []) = N
           /\ length (nth i scores []) = N
           /\ reach t (Z.to_nat tile_size) 0 K
                (padded_image thr N m tile_size (nth i boxes []) (nth i scores []))
                f
           /\ length f = num_boxes_after_padding N m tile_size
           /\ nth i num_valid 0%nat = num_valid_image m (Z.to_nat tile_size) K f
           /\ length (nth i indices []) = m
           /\ ((K < num_iterations N m tile_size)%nat ->
               (m <= count_prefix (Z.to_nat tile_size) K f)%nat)
           /\ (nth i num_valid 0 <= length (kept_from 0 f))%nat
           /\ (forall j, (j < nth i num_valid 0)%nat ->
                 nth j (nth i indices []) 0%nat
                 = nth (nth j (kept_from 0 f) 0%nat)
                       (rank_image thr (nth i scores [])) 0%nat
                 /\ In (nth j (kept_from 0 f) 0%nat) (kept_from 0 f)
                 /\ (nth j (kept_from 0 f) 0 < K * Z.to_nat tile_size)%nat)
           /\ (forall p, In p (kept_from 0 f) ->
                 (p < N)%nat
                 /\ nth p f zero_box
                    = nth p (sorted_image thr (nth i boxes []) (nth i scores []))
                          zero_box).
Proof.
  intro Hwf.
  destruct (non_max_suppression_images m thr Hwf)
    as [F [K [indices [num_valid [Hres [_ [HlenF [Hli [Hln [HK [Hexit Himg]]]]]]]]]]].
  exists indices, num_valid, K.
  split; [exact Hres|]. split; [exact Hli|]. split; [exact Hln|].
  split; [exact HK|].
  intros i Hi. exists (nth i F []).
  destruct (Himg i Hi) as [Hrow [Hnv Hreach]].
  set (bx := nth i boxes []) in *. set (sc := nth i scores []) in *.
  set (f := nth i F []) in *. set (ts := Z.to_nat tile_size) in *.
  assert (Hs : length sc = N).
  { pose proof (wf_scores Hwf) as H. rewrite Forall_forall in H.
    apply H, nth_In. rewrite (wf_batch_scores Hwf). exact Hi. }
  assert (Hb : length bx = N).
  { pose proof (wf_boxes Hwf) as H. rewrite Forall_forall in H.
    apply H, nth_In. exact Hi. }
  destruct (@final_image fuel N boxes scores m t thr tile_size bx sc f K
              Hwf Hs HK Hreach) as [Hlen [Hdim [Hkept _]]].
  destruct (@select_facts m ts K N f (rank_image thr sc))
    as [Hrowlen [Epre [Hnvk _]]].
  { intros p Hp. apply Hkept, Hp. }
  { rewrite rank_image_length. exact Hs. }
  { apply ranking_NoDup. }
  { intros x Hx. apply ranking_range in Hx.
    rewrite filter_scores_image_length, Hs in Hx. exact Hx. }
  set (nv := num_valid_image m ts K f) in *.
  assert (Hlk : (nv <= length (kept_from 0 f))%nat)
    by (rewrite <- Hnvk, length_firstn; lia).
  split; [exact Hb|]. split; [exact Hs|]. split; [exact Hreach|].
  split; [exact Hlen|]. split; [exact Hnv|].
  split; [rewrite Hrow; exact Hrowlen|].
  split.
  { intro HKT. specialize (Hexit HKT). rewrite Forall_forall in Hexit.
    apply Hexit. apply nth_In. lia. }
  split; [rewrite Hnv; exact Hlk|].
  split; [|exact Hkept].
  intros j Hjn. rewrite Hnv in Hjn. rewrite Hrow.
  assert (E1 : nth j (select m ts K f (rank_image thr sc)) 0%nat
               = nth j (firstn nv (select m ts K f (rank_image thr sc))) 0%nat).
  { rewrite nth_firstn.
    replace (j <? nv)%nat with true by (symmetry; apply Nat.ltb_lt; exact Hjn).
    reflexivity. }
  assert (E2 : nth j (firstn nv (kept_from 0 f)) 0%nat = nth j (kept_from 0 f) 0%nat).
  { rewrite nth_firstn.
    replace (j <? nv)%nat with true by (symmetry; apply Nat.ltb_lt; exact Hjn).
    reflexivity. }
  split; [|split].
  - rewrite E1, Epre.
    rewrite (nth_indep _ 0%nat (nth 0 (rank_image thr sc) 0%nat))
      by (rewrite length_map, Hnvk; exact Hjn).
    rewrite (map_nth (fun p => nth p (rank_image thr sc) 0%nat)), E2.
    reflexivity.
  - apply nth_In. lia.
  - rewrite <- E2.
    rewrite (kept_prefix (K * ts) f)
      by (subst nv; unfold num_valid_image, count_prefix; lia).
    assert (Hin : In (nth j (firstn nv (kept_from 0 (firstn (K * ts) f))) 0%nat)
                     (kept_from 0 (firstn (K * ts) f))).
    { eapply in_firstn. apply nth_In.
      rewrite length_firstn, kept_from_length.
      subst nv. unfold num_valid_image, count_prefix in *. lia. }
    apply kept_from_spec in Hin. rewrite length_firstn in Hin. lia.
Qed.

(** A ranked box with a positive coordinate passed the pre-filter, and it
    is the box of the input that the ranking names. *)
Lemma sorted_image_qualifies (thr : threshold) (b : list Box) (s : list Q) (p : nat) :
  length b = length s -> (p < length s)%nat ->
  box_positive (nth p (sorted_image thr b s) zero_box) = true ->
  (nth p (rank_image thr s) 0 < length s)%nat
  /\ qualifies thr b s (nth p (rank_image thr s) 0%nat)
  /\ nth p (sorted_image thr b s) zero_box
     = nth (nth p (rank_image thr s) 0%nat) b zero_box.
Proof.
  intros Hlen Hp Hpos.
  pose proof (sorted_image_original thr b s Hlen Hp Hpos) as E.
  assert (Hq : (nth p (rank_image thr s) 0 < length s)%nat).
  { rewrite <- (filter_scores_image_length thr s).
    apply ranking_range. apply nth_In.
    rewrite ranking_length, filter_scores_image_length. exact Hp. }
  split; [exact Hq|]. split; [|exact E].
  split; [|rewrite <- E; exact Hpos].
  unfold sorted_image in Hpos.
  rewrite (nth_indep _ zero_box
             (nth 0 (filter_boxes_image thr b s) zero_box)) in Hpos
    by (rewrite length_map, rank_image_length; exact Hp).
  rewrite (map_nth (fun i => nth i (filter_boxes_image thr b s) zero_box)) in Hpos.
  rewrite filter_boxes_image_nth in Hpos by (assumption || lia).
  apply box_scale_positive in Hpos. apply above_true_iff, Hpos.
Qed.

(** Every selected index names a box that passed the score pre-filter
    ([score > score_threshold]) and that has a positive coordinate: a box
    with no positive coordinate is never selected. *)
Theorem selected_boxes_qualify (fuel N : nat) (boxes : list (list Box))
  (scores : list (list Q)) (m : nat) (t : Q) (thr : threshold) (tile_size : Z) :
  well_formed fuel N boxes scores t tile_size ->
  exists indices num_valid,
    non_max_suppression fuel N boxes scores m t thr tile_size
    = Ok (indices, num_valid)
    /\ forall i j,
         (i < length boxes)%nat -> (j < nth i num_valid 0)%nat ->
         qualifies thr (nth i boxes []) (nth i scores [])
                   (nth j (nth i indices []) 0%nat).
Proof.
  intro Hwf.
  destruct (selection_image m thr Hwf)
    as [indices [num_valid [K [Hres [_ [_ [_ Himg]]]]]]].
  exists indices, num_valid. split; [exact Hres|].
  intros i j Hi Hj.
  destruct (Himg i Hi) as [f [Hb [Hs [_ [_ [_ [_ [_ [_ [Hsel Hkept]]]]]]]]]].
  destruct (Hsel j Hj) as [E [Hin _]]. rewrite E.
  destruct (Hkept _ Hin) as [HpN Hv].
  pose proof (proj2 (proj1 (kept_from_spec 0 f _) Hin)) as Hpos.
  rewrite Nat.sub_0_r, Hv in Hpos.
  apply sorted_image_qualifies; [congruence|lia|exact Hpos].
Qed.

Lemma selected_boxes_qualify_witness :
  well_formed 2 2 [[mkBox 0 0 1 1; mkBox 0 2 1 3]] [[1 # 2; 1 # 3]] (1 # 2) 2
  /\ exists indices num_valid,
      non_max_suppression 2 2 [[mkBox 0 0 1 1; mkBox 0 2 1 3]]
                          [[1 # 2; 1 # 3]] 2 (1 # 2) (Finite 0) 2
      = Ok (indices, num_valid)
      /\ forall i j,
           (i < 1)%nat -> (j < nth i num_valid 0)%nat ->
           qualifies (Finite 0) (nth i [[mkBox 0 0 1 1; mkBox 0 2 1 3]] [])
                     (nth i [[1 # 2; 1 # 3]] [])
                     (nth j (nth i indices []) 0%nat).
Proof.
  assert (Hwf : well_formed 2 2 [[mkBox 0 0 1 1; mkBox 0 2 1 3]]
                            [[1 # 2; 1 # 3]] (1 # 2) 2).
  { constructor; simpl; try lia; try discriminate; repeat constructor. }
  split; [exact Hwf|].
  exact (@selected_boxes_qualify 2 2 _ _ 2 (1 # 2) (Finite 0) 2 Hwf).
Defined.

(* ================================================================== *)
(** * The ranking is descending *)

Lemma combine_seq_In (scores : list Q) (x : Q) (i : nat) :
  In (x, i) (combine scores (seq 0 (length scores))) ->
  (i < length scores)%nat /\ x = nth i scores 0.
Proof.
  intro H. destruct (In_nth _ _ (0, 0%nat) H) as [j [Hj E]].
  rewrite length_combine, length_seq, Nat.min_id in Hj.
  rewrite combine_nth in E by (rewrite length_seq; reflexivity).
  rewrite seq_nth in E by exact Hj. simpl in E.
  injection E as E1 E2. subst i. split; [exact Hj|]. symmetry. exact E1.
Qed.

(** Position [q] of the ranking holds a pair (score, index) that comes
    before the pair at an earlier position [p] in the ascending order. *)
Lemma ranking_sorted (scores : list Q) (p q : nat) :
  (p < q)%nat -> (q < length scores)%nat ->
  before (nth (nth q (rev (argsort scores)) 0%nat) scores 0,
          nth q (rev (argsort scores)) 0%nat)
         (nth (nth p (rev (argsort scores)) 0%nat) scores 0,
          nth p (rev (argsort scores)) 0%nat).
Proof.
  intros Hpq Hq.
  set (n := length scores).
  set (S := fold_right insert_by_score [] (combine scores (seq 0 n))).
  assert (Hperm : Permutation S (combine scores (seq 0 n)))
    by apply sort_by_score_perm.
  assert (HlenS : length S = n).
  { rewrite (Permutation_length Hperm), length_combine, length_seq. subst n. lia. }
  pose proof (sort_by_score_sorted scores 0) as Hsorted.
  fold n in Hsorted. fold S in Hsorted.
  assert (Harg : forall i, (i < n)%nat ->
             (nth (nth (n - Datatypes.S i) (rev (argsort scores)) 0%nat) scores 0,
              nth (n - Datatypes.S i) (rev (argsort scores)) 0%nat)
             = nth i S (0, 0%nat)).
  { intros i Hi.
    assert (E : nth (n - Datatypes.S i) (rev (argsort scores)) 0%nat
                = snd (nth i S (0, 0%nat))).
    { unfold argsort. fold n. fold S.
      rewrite rev_nth by (rewrite length_map, HlenS; lia).
      rewrite length_map, HlenS.
      replace (n - Datatypes.S (n - Datatypes.S i))%nat with i by lia.
      change 0%nat with (snd (0, 0%nat)) at 1. apply map_nth. }
    rewrite E.
    assert (Hin : In (nth i S (0, 0%nat)) (combine scores (seq 0 n))).
    { apply (Permutation_in _ Hperm). apply nth_In. lia. }
    destruct (nth i S (0, 0%nat)) as [x k] eqn:Ex. simpl.
    apply combine_seq_In in Hin. destruct Hin as [_ ->]. reflexivity. }
  pose proof (Harg (n - Datatypes.S q)%nat ltac:(subst n; lia)) as Eq.
  pose proof (Harg (n - Datatypes.S p)%nat ltac:(subst n; lia)) as Ep.
  replace (n - Datatypes.S (n - Datatypes.S q))%nat with q in Eq by (subst n; lia).
  replace (n - Datatypes.S (n - Datatypes.S p))%nat with p in Ep by (subst n; lia).
  rewrite Eq, Ep.
  apply (@StronglySorted_nth _ before S (0, 0%nat) Hsorted);
    [|rewrite HlenS]; subst n; lia.
Qed.

Lemma ranking_descending (scores : list Q) (p q : nat) :
  (p < q)%nat -> (q < length scores)%nat ->
  nth (nth q (rev (argsort scores)) 0%nat) scores 0
  <= nth (nth p (rev (argsort scores)) 0%nat) scores 0.
Proof.
  intros Hpq Hq. destruct (ranking_sorted scores Hpq Hq) as [H|[H _]];
    simpl in H; lra.
Qed.

(** The filtered score of a box that passed the filter is its score. *)
Lemma filter_scores_image_pass (thr : threshold) (s : list Q) (k : nat) :
  (k < length s)%nat -> exceeds thr (nth k s 0) ->
  nth k (filter_scores_image thr s) 0 = nth k s 0.
Proof.
  intros Hk He. rewrite filter_scores_image_nth by exact Hk.
  apply above_true_iff in He. rewrite He. reflexivity.
Qed.

(** The selection is in score order: along the first [num_valid[i]]
    indices of an image the scores do not increase. *)
Theorem selection_in_score_order (fuel N : nat) (boxes : list (list Box))
  (scores : list (list Q)) (m : nat) (t : Q) (thr : threshold) (tile_size : Z) :
  well_formed fuel N boxes scores t tile_size ->
  exists indices num_valid,
    non_max_suppression fuel N boxes scores m t thr tile_size
    = Ok (indices, num_valid)
    /\ forall i j1 j2,
         (i < length boxes)%nat -> (j1 < j2)%nat ->
         (j2 < nth i num_valid 0)%nat ->
         nth (nth j2 (nth i indices []) 0%nat) (nth i scores []) 0
         <= nth (nth j1 (nth i indices []) 0%nat) (nth i scores []) 0.
Proof.
  intro Hwf.
  destruct (selection_image m thr Hwf)
    as [indices [num_valid [K [Hres [_ [_ [_ Himg]]]]]]].
  exists indices, num_valid. split; [exact Hres|].
  intros i j1 j2 Hi Hj Hj2.
  destruct (Himg i Hi) as [f [Hb [Hs [_ [_ [_ [_ [_ [Hlk [Hsel Hkept]]]]]]]]]].
  set (bx := nth i boxes []) in *. set (sc := nth i scores []) in *.
  destruct (Hsel j1 ltac:(lia)) as [E1 [Hin1 _]].
  destruct (Hsel j2 Hj2) as [E2 [Hin2 _]].
  set (p1 := nth j1 (kept_from 0 f) 0%nat) in *.
  set (p2 := nth j2 (kept_from 0 f) 0%nat) in *.
  assert (Hp12 : (p1 < p2)%nat).
  { subst p1 p2. apply kept_from_increasing; [exact Hj|lia]. }
  destruct (Hkept p1 Hin1) as [Hp1N Hv1]. destruct (Hkept p2 Hin2) as [Hp2N Hv2].
  pose proof (proj2 (proj1 (kept_from_spec 0 f p1) Hin1)) as Hpos1.
  pose proof (proj2 (proj1 (kept_from_spec 0 f p2) Hin2)) as Hpos2.
  rewrite Nat.sub_0_r in Hpos1, Hpos2. rewrite Hv1 in Hpos1. rewrite Hv2 in Hpos2.
  destruct (@sorted_image_qualifies thr bx sc p1) as [Hk1 [[He1 _] _]];
    [congruence|lia|exact Hpos1|].
  destruct (@sorted_image_qualifies thr bx sc p2) as [Hk2 [[He2 _] _]];
    [congruence|lia|exact Hpos2|].
  rewrite E1, E2.
  rewrite <- (filter_scores_image_pass thr sc Hk1 He1).
  rewrite <- (filter_scores_image_pass thr sc Hk2 He2).
  unfold rank_image. apply ranking_descending; [exact Hp12|].
  rewrite filter_scores_image_length. lia.
Qed.

Lemma selection_in_score_order_witness :
  well_formed 2 2 [[mkBox 0 0 1 1; mkBox 0 2 1 3]] [[1 # 3; 1 # 2]] (1 # 2) 2
  /\ exists indices num_valid,
      non_max_suppression 2 2 [[mkBox 0 0 1 1; mkBox 0 2 1 3]]
                          [[1 # 3; 1 # 2]] 2 (1 # 2) (Finite 0) 2
      = Ok (indices, num_valid)
      /\ forall i j1 j2,
           (i < 1)%nat -> (j1 < j2)%nat -> (j2 < nth i num_valid 0)%nat ->
           nth (nth j2 (nth i indices []) 0%nat) (nth i [[1 # 3; 1 # 2]] []) 0
           <= nth (nth j1 (nth i indices []) 0%nat) (nth i [[1 # 3; 1 # 2]] []) 0.
Proof.
  assert (Hwf : well_formed 2 2 [[mkBox 0 0 1 1; mkBox 0 2 1 3]]
                            [[1 # 3; 1 # 2]] (1 # 2) 2).
  { constructor; simpl; try lia; try discriminate; repeat constructor. }
  split; [exact Hwf|].
  exact (@selection_in_score_order 2 2 _ _ 2 (1 # 2) (Finite 0) 2 Hwf).
Defined.

(* ================================================================== *)
(** * The stages of [non_max_suppression], for any threshold and fuel *)

Lemma well_shaped_formed (N : nat) (boxes : list (list Box))
  (scores : list (list Q)) (tile_size : Z) :
  well_shaped N boxes scores -> (0 < tile_size)%Z ->
  well_formed (Z.to_nat tile_size) N boxes scores 0 tile_size.
Proof.
  intros [H1 H2 H3 H4 H5] Hts.
  constructor; try assumption; [apply Qle_refl|lia].
Qed.

Lemma well_formed_shaped (fuel N : nat) (boxes : list (list Box))
  (scores : list (list Q)) (t : Q) (tile_size : Z) :
  well_formed fuel N boxes scores t tile_size -> well_shaped N boxes scores.
Proof. intros [H1 H2 H3 H4 H5 _ _ _]. constructor; assumption. Qed.

(** The code up to the outer loop, under the shape assumptions alone. *)
Lemma non_max_suppression_stages (fuel N : nat) (boxes : list (list Box))
  (scores : list (list Q)) (m : nat) (t : Q) (thr : threshold) (tile_size : Z) :
  well_shaped N boxes scores -> tile_size <> 0%Z ->
  non_max_suppression fuel N boxes scores m t thr tile_size
  = if (pad_width N m tile_size <? 0)%Z then Err PadError else
      (st <- suppression_loop fuel t (Z.to_nat tile_size) m
               (num_iterations N m tile_size)
               (padded_boxes thr N m tile_size boxes scores,
                repeat 0%nat (length boxes), 0%nat) ;;
       recover_indices N (num_boxes_after_padding N m tile_size) m (length boxes)
                       (map (rank_image thr) scores) st).
Proof.
  intros Hws Hts. unfold non_max_suppression.
  replace (N =? 0)%nat with false
    by (symmetry; apply Nat.eqb_neq; destruct Hws; lia).
  rewrite (score_filter_spec (@well_shaped_formed N boxes scores 1 Hws eq_refl)).
  unfold _sort_scores_and_boxes.
  replace (tile_size =? 0)%Z with false
    by (symmetry; apply Z.eqb_neq; exact Hts).
  destruct (pad_width N m tile_size <? 0)%Z; [reflexivity|].
  rewrite !map_map, zip_with_zip_map, map_zip_with.
  reflexivity.
Qed.

Lemma padded_boxes_shape (N m : nat) (thr : threshold) (tile_size : Z)
  (boxes : list (list Box)) (scores : list (list Q)) :
  well_shaped N boxes scores ->
  length (padded_boxes thr N m tile_size boxes scores) = length boxes
  /\ Forall (fun b0 => length b0 = num_boxes_after_padding N m tile_size)
            (padded_boxes thr N m tile_size boxes scores).
Proof.
  intro Hws. split.
  - unfold padded_boxes. rewrite zip_with_length, (ws_batch_scores Hws). lia.
  - apply Forall_forall. intros b0 Hb0. unfold padded_boxes in Hb0.
    apply zip_with_In in Hb0. destruct Hb0 as [b [s [_ [Hs ->]]]].
    pose proof (ws_scores Hws) as Hsc. rewrite Forall_forall in Hsc.
    specialize (Hsc s Hs). unfold padded_image, num_boxes_after_padding.
    rewrite length_app, sorted_image_length, repeat_length, Hsc. reflexivity.
Qed.

Lemma min_list_zeros (n : nat) : (1 <= n)%nat -> min_list (repeat 0%nat n) = Ok 0%nat.
Proof.
  intro Hn. destruct (@min_list_spec (repeat 0%nat n)) as [mn [E [_ Hin]]].
  - destruct n; [lia|discriminate].
  - apply repeat_spec in Hin. subst mn. exact E.
Qed.

(* ================================================================== *)
(** * A negative [iou_threshold] *)

Lemma while_loop_stuck {S : Type} (cond : S -> bool) (body : S -> S) (s : S) :
  cond s = true -> body s = s ->
  forall fuel, while_loop fuel cond body s = None.
Proof.
  intros Hc Hb fuel. induction fuel as [|fuel IH]; simpl; rewrite Hc;
    [reflexivity|]. rewrite Hb, IH. reflexivity.
Qed.

Lemma scale_rows_false (n : nat) (M : Matrix) :
  length M = n -> scale_rows (repeat false n) M = map (map (mask_mul false)) M.
Proof.
  intro H. subst n. unfold scale_rows.
  induction M as [|row M IH]; [reflexivity|].
  simpl repeat. rewrite zip_with_cons. simpl map. f_equal. exact IH.
Qed.

Lemma map_const_seq {A : Type} (f : nat -> A) (a : A) (s n : nat) :
  (forall c, (s <= c < s + n)%nat -> f c = a) -> map f (seq s n) = repeat a n.
Proof.
  revert s. induction n as [|n IH]; intros s H; [reflexivity|].
  simpl. rewrite H by lia. f_equal. apply IH. intros c Hc. apply H. lia.
Qed.

(** No column maximum is below a threshold that some entry of the column
    reaches. *)
Lemma flags_false (t : Q) (n : nat) (M : Matrix) :
  square n M -> (1 <= n)%nat ->
  (forall c, (c < n)%nat -> exists r, (r < n)%nat /\ t <= entry M r c) ->
  map (fun x => Qlt_bool x t) (col_max M) = repeat false n.
Proof.
  intros Hsq Hn Hd. unfold col_max. rewrite (ncols_square Hsq), map_map.
  apply map_const_seq. intros c Hc.
  destruct (Qlt_bool (qmax_list (column c M)) t) eqn:E; [exfalso|reflexivity].
  apply Qlt_bool_iff in E. apply qmax_list_lt in E.
  - destruct (Hd c ltac:(lia)) as [r [Hr Hle]].
    apply Forall_column with (r := r) in E; [lra|].
    destruct Hsq as [Hl _]. lia.
  - intro E0. apply (f_equal (@length Q)) in E0.
    rewrite column_length in E0. destruct Hsq as [Hl _]. simpl in E0. lia.
Qed.

Lemma cleared_square (n : nat) (M : Matrix) :
  square n M -> square n (map (map (mask_mul false)) M).
Proof.
  intros [Hl Hr]. split; [rewrite length_map; exact Hl|].
  apply Forall_forall. intros row Hrow. apply in_map_iff in Hrow.
  destruct Hrow as [row0 [<- Hin]]. rewrite length_map.
  rewrite Forall_forall in Hr. auto.
Qed.

Lemma cleared_entry (M : Matrix) (r c : nat) :
  entry (map (map (mask_mul false)) M) r c = 0.
Proof.
  unfold entry.
  destruct (Nat.lt_ge_cases r (length M)) as [Hr|Hr].
  - rewrite (nth_indep _ [] (map (mask_mul false) []))
      by (rewrite length_map; exact Hr).
    rewrite (map_nth (map (mask_mul false))).
    destruct (Nat.lt_ge_cases c (length (nth r M []))) as [Hc|Hc].
    + rewrite (nth_indep _ 0 (mask_mul false 0)) by (rewrite length_map; exact Hc).
      rewrite (map_nth (mask_mul false)). reflexivity.
    + apply nth_overflow. rewrite length_map. exact Hc.
  - rewrite (nth_overflow (map _ M)) by (rewrite length_map; exact Hr).
    destruct c; reflexivity.
Qed.

Lemma cleared_twice (M : Matrix) :
  map (map (mask_mul false)) (map (map (mask_mul false)) M)
  = map (map (mask_mul false)) M.
Proof.
  rewrite map_map. apply map_ext. intro row. rewrite map_map. reflexivity.
Qed.

Lemma cleared_sum (M : Matrix) : matrix_sum (map (map (mask_mul false)) M) == 0.
Proof.
  unfold matrix_sum. induction M as [|row M IH]; [reflexivity|].
  simpl map. change (qsum (map (mask_mul false) row)
                     + qsum (map qsum (map (map (mask_mul false)) M)) == 0).
  rewrite IH.
  assert (E : qsum (map (mask_mul false) row) == 0).
  { induction row as [|x row IHr]; [reflexivity|].
    change (0 + qsum (map (mask_mul false) row) == 0). rewrite IHr. reflexivity. }
  rewrite E. reflexivity.
Qed.

(** With a negative threshold one step of [_self_suppression] clears every
    row of a matrix whose columns each hold an entry that is not below the
    threshold. *)
Lemma negative_step_clears (t : Q) (n : nat) (M : Matrix) :
  t < 0 -> square n M -> (1 <= n)%nat ->
  (forall c, (c < n)%nat -> exists r, (r < n)%nat /\ t <= entry M r c) ->
  self_suppression_image t M = map (map (mask_mul false)) M.
Proof.
  intros Ht Hsq Hn Hd. unfold self_suppression_image.
  rewrite (flags_false Hsq Hn Hd).
  rewrite scale_rows_false by (destruct Hsq; assumption).
  rewrite (@flags_false t n (map (map (mask_mul false)) M)).
  - apply scale_rows_false. destruct Hsq; assumption.
  - apply cleared_square, Hsq.
  - exact Hn.
  - intros c Hc. exists 0%nat. split; [lia|]. rewrite cleared_entry. lra.
Qed.

Lemma mask_mul_nonneg (b : bool) (x : Q) : 0 <= x -> 0 <= mask_mul b x.
Proof. destruct b; simpl; [auto|intros _; apply Qle_refl]. Qed.

Lemma initial_matrix_sum_nonneg (t : Q) (s : list Box) :
  Forall proper s -> 0 <= matrix_sum (mask_upper t (bbox_overlap_image s s)).
Proof.
  intro Hs. unfold matrix_sum. apply qsum_nonneg.
  apply Forall_forall. intros x Hx. apply in_map_iff in Hx.
  destruct Hx as [row [<- Hrow]]. apply qsum_nonneg.
  rewrite mask_upper_rows in Hrow. apply zip_with_In in Hrow.
  destruct Hrow as [r [row0 [_ [Hrow0 ->]]]].
  unfold mask_row. apply Forall_forall. intros y Hy.
  apply zip_with_In in Hy. destruct Hy as [c [x [_ [Hx ->]]]].
  apply mask_mul_nonneg.
  unfold bbox_overlap_image in Hrow0. apply in_map_iff in Hrow0.
  destruct Hrow0 as [a [<- Ha]]. apply in_map_iff in Hx.
  destruct Hx as [b [<- Hb]]. rewrite Forall_forall in Hs.
  apply iou_box_range; apply Hs; assumption.
Qed.

(** The inner loop on a batch of slices of proper boxes, with a negative
    threshold: after the first step every matrix is zero, the removed mass
    is not below zero and so exceeds the threshold, and from then on the
    state does not change while the loop condition stays true. *)
Lemma self_loop_diverges (t : Q) (n : nat) (slices : list (list Box)) :
  t < 0 -> (1 <= n)%nat -> slices <> [] ->
  Forall (fun s => length s = n /\ Forall proper s) slices ->
  forall fuel,
    while_loop fuel self_cond (_self_suppression t)
               (initial_iou t slices, true, map matrix_sum (initial_iou t slices))
    = None.
Proof.
  intros Ht Hn Hne Hsl fuel.
  set (iou := initial_iou t slices).
  assert (Hiou : iou = map (fun s => mask_upper t (bbox_overlap_image s s)) slices).
  { subst iou. unfold initial_iou, _bbox_overlap.
    rewrite zip_with_same, map_map. reflexivity. }
  assert (Hstep : map (self_suppression_image t) iou
                  = map (map (map (mask_mul false))) iou).
  { rewrite Hiou, !map_map. apply map_ext_in. intros s Hs.
    rewrite Forall_forall in Hsl. destruct (Hsl s Hs) as [Hlen _].
    assert (Hsq : square n (mask_upper t (bbox_overlap_image s s)))
      by (apply mask_upper_square, bbox_overlap_image_square, Hlen).
    apply (negative_step_clears Ht Hsq Hn).
    intros c Hc. exists c. split; [exact Hc|].
    rewrite (@entry_mask_upper t n _ c c (@bbox_overlap_image_square n s Hlen) Hc Hc).
    rewrite Nat.ltb_irrefl. simpl. lra. }
  set (Z := map (map (map (mask_mul false))) iou) in *.
  assert (HZ : map (self_suppression_image t) Z = Z).
  { subst Z. rewrite Hiou, !map_map. apply map_ext_in. intros s Hs.
    rewrite Forall_forall in Hsl. destruct (Hsl s Hs) as [Hlen _].
    assert (Hsq : square n (mask_upper t (bbox_overlap_image s s)))
      by (apply mask_upper_square, bbox_overlap_image_square, Hlen).
    rewrite (@negative_step_clears t n (map (map (mask_mul false)) _) Ht
               (cleared_square Hsq) Hn).
    - apply cleared_twice.
    - intros c Hc. exists 0%nat. split; [lia|]. rewrite cleared_entry. lra. }
  destruct slices as [|s0 slices]; [congruence|].
  assert (Hs0 : Forall proper s0) by (inversion Hsl; tauto).
  assert (Hbody1 : _self_suppression t (iou, true, map matrix_sum iou)
                   = (Z, true, map matrix_sum Z)).
  { unfold _self_suppression. rewrite Hstep. f_equal. f_equal.
    subst Z. rewrite Hiou. simpl map. rewrite zip_with_cons. simpl existsb.
    apply orb_true_iff. left. apply Qlt_bool_iff.
    pose proof (initial_matrix_sum_nonneg t Hs0) as H0.
    rewrite cleared_sum. lra. }
  assert (Hbody2 : _self_suppression t (Z, true, map matrix_sum Z)
                   = (Z, true, map matrix_sum Z)).
  { unfold _self_suppression. rewrite HZ. f_equal. f_equal.
    subst Z. rewrite Hiou. simpl map. rewrite zip_with_cons. simpl existsb.
    apply orb_true_iff. left. apply Qlt_bool_iff.
    rewrite cleared_sum. lra. }
  destruct fuel as [|fuel]; [reflexivity|].
  cbn [while_loop]. unfold self_cond at 1. cbn [fst snd].
  rewrite Hbody1.
  rewrite (@while_loop_stuck _ self_cond (_self_suppression t)
             (Z, true, map matrix_sum Z) eq_refl Hbody2).
  reflexivity.
Qed.

Lemma box_scale_proper (f : bool) (x : Box) : proper x -> proper (box_scale f x).
Proof.
  intro H. destruct f; [rewrite box_scale_true; exact H|].
  split; apply Qle_refl.
Qed.

Lemma zero_box_proper : proper zero_box.
Proof. split; apply Qle_refl. Qed.

Lemma padded_image_proper (thr : threshold) (N m : nat) (tile_size : Z)
  (b : list Box) (s : list Q) :
  Forall proper b -> Forall proper (padded_image thr N m tile_size b s).
Proof.
  intro Hb. unfold padded_image. apply Forall_app. split.
  - unfold sorted_image. apply Forall_forall. intros x Hx.
    apply in_map_iff in Hx. destruct Hx as [i [<- _]].
    apply proper_nth. unfold filter_boxes_image.
    apply Forall_forall. intros y Hy. apply zip_with_In in Hy.
    destruct Hy as [x0 [sc [Hx0 [_ ->]]]]. apply box_scale_proper.
    rewrite Forall_forall in Hb. auto.
  - apply Forall_forall. intros x Hx. apply repeat_spec in Hx. subst x.
    apply zero_box_proper.
Qed.

Lemma tile_proper (idx tile_size : nat) (b : list Box) :
  Forall proper b -> Forall proper (tile idx tile_size b).
Proof.
  intro H. unfold tile. apply Forall_forall. intros x Hx.
  apply in_firstn in Hx. rewrite <- (firstn_skipn (idx * tile_size) b) in H.
  apply Forall_app in H. destruct H as [_ H]. rewrite Forall_forall in H. auto.
Qed.

(** A negative [iou_threshold].  For boxes whose corners are in order, at
    least one image, [tile_size > 0] and [max_output_size >= 1] the call
    does not return: the loop over [_self_suppression] in the first tile
    never stops, whatever the amount of fuel given to it. *)
Theorem negative_iou_threshold_never_returns (fuel N : nat)
  (boxes : list (list Box)) (scores : list (list Q)) (m : nat) (t : Q)
  (thr : threshold) (tile_size : Z) :
  well_shaped N boxes scores -> (0 < tile_size)%Z -> (1 <= m)%nat ->
  Forall (Forall proper) boxes ->
  t < 0 ->
  non_max_suppression fuel N boxes scores m t thr tile_size = Err OutOfFuel.
Proof.
  intros Hws Hts Hm Hproper Ht.
  rewrite (non_max_suppression_stages fuel m t thr Hws) by lia.
  pose proof (well_shaped_formed Hws Hts) as Hwf.
  destruct (@padding_spec N m tile_size Hts) as [Hpad _]. rewrite Hpad.
  destruct (tiles_cover m Hwf) as [HL [HNL _]].
  destruct (padded_boxes_shape m thr tile_size Hws) as [HlenB HrowsB].
  set (B0 := padded_boxes thr N m tile_size boxes scores) in *.
  set (ts := Z.to_nat tile_size) in *.
  assert (Hts1 : (1 <= ts)%nat) by (subst ts; lia).
  assert (HT : (1 <= num_iterations N m tile_size)%nat).
  { pose proof (ws_num_boxes Hws).
    destruct (num_iterations N m tile_size); [simpl in HL; lia|lia]. }
  destruct (num_iterations N m tile_size) as [|T'] eqn:ET; [lia|].
  assert (Hbatch : (1 <= length boxes)%nat).
  { pose proof (ws_batch Hws). destruct boxes; [congruence|simpl; lia]. }
  cbn [suppression_loop]. unfold _loop_cond. cbn [fst snd].
  rewrite (min_list_zeros Hbatch). cbn [bind].
  replace (0 <? m)%nat with true by (symmetry; apply Nat.ltb_lt; lia).
  cbn [andb Nat.ltb Nat.leb].
  unfold _suppression_loop_body. cbn [seq fold_left].
  rewrite (@self_loop_diverges t ts (map (tile 0 ts) B0) Ht Hts1).
  - reflexivity.
  - intro E. apply (f_equal (@length (list Box))) in E.
    rewrite length_map, HlenB in E. simpl in E. lia.
  - apply Forall_forall. intros s Hs. apply in_map_iff in Hs.
    destruct Hs as [b0 [<- Hb0]]. split.
    + apply tile_length. rewrite Forall_forall in HrowsB.
      rewrite (HrowsB b0 Hb0), HL. simpl. nia.
    + apply tile_proper. unfold B0, padded_boxes in Hb0.
      apply zip_with_In in Hb0. destruct Hb0 as [b [s [Hb [_ ->]]]].
      apply padded_image_proper. rewrite Forall_forall in Hproper. auto.
Qed.

Lemma negative_iou_threshold_never_returns_witness :
  non_max_suppression 1000 2 [[mkBox 0 0 1 1; mkBox 0 2 1 3]] [[1 # 2; 1 # 3]]
                      1 (- (1 # 2)) (Finite 0) 2
  = Err OutOfFuel.
Proof.
  apply (@negative_iou_threshold_never_returns 1000 2
           [[mkBox 0 0 1 1; mkBox 0 2 1 3]] [[1 # 2; 1 # 3]] 1 (- (1 # 2))
           (Finite 0) 2).
  - constructor; simpl; try lia; try discriminate; repeat constructor.
  - lia.
  - lia.
  - repeat constructor; simpl; unfold Qle; simpl; lia.
  - reflexivity.
Defined.

(* ================================================================== *)
(** * A negative [tile_size] *)

Lemma mask_all_rows (m : nat) (rows : list (list nat)) :
  Forall (fun r => length r = m) rows ->
  zip_with (fun nv row =>
              zip_with (fun j x => if (j <? nv)%nat then x else 0%nat)
                       (seq 0 m) row)
           (repeat 0%nat (length rows)) rows
  = repeat (repeat 0%nat m) (length rows).
Proof.
  induction 1 as [|row rows Hrow _ IH]; [reflexivity|].
  simpl length. simpl repeat. rewrite zip_with_cons. f_equal; [|exact IH].
  rewrite where_valid by exact Hrow. simpl. rewrite Nat.sub_0_r. reflexivity.
Qed.

Lemma pad_width_negative (N m : nat) (tile_size : Z) :
  (tile_size < 0)%Z ->
  pad_width N m tile_size
  = (Z.max (Z.of_nat N) (Z.of_nat m) / (- tile_size) * (- tile_size)
     - Z.of_nat N)%Z.
Proof.
  intro Hts. unfold pad_width, ceil_div.
  replace (- Z.max (Z.of_nat N) (Z.of_nat m) / tile_size)%Z
    with (Z.max (Z.of_nat N) (Z.of_nat m) / (- tile_size))%Z.
  - ring.
  - rewrite <- (Z.opp_involutive tile_size) at 2.
    rewrite Z.div_opp_opp by lia. reflexivity.
Qed.

(** A negative [tile_size] is not rejected as such.  The padded length is
    then the largest multiple of [|tile_size|] that is at most
    [max(num_boxes, max_output_size)]: if it is below [num_boxes] the
    padding fails, if it is below [max_output_size] the [top_k] fails, and
    otherwise the outer loop runs no iteration and the call returns an
    empty selection for every image ([num_valid = 0], all indices 0). *)
Theorem negative_tile_size_selects_nothing (fuel N : nat)
  (boxes : list (list Box)) (scores : list (list Q)) (m : nat) (t : Q)
  (thr : threshold) (tile_size : Z) :
  well_shaped N boxes scores -> (tile_size < 0)%Z ->
  let span := (Z.max (Z.of_nat N) (Z.of_nat m) / (- tile_size)
               * (- tile_size))%Z in
  non_max_suppression fuel N boxes scores m t thr tile_size
  = if (span <? Z.of_nat N)%Z then Err PadError
    else if (span <? Z.of_nat m)%Z then Err TopKError
    else Ok (repeat (repeat 0%nat m) (length boxes),
             repeat 0%nat (length boxes)).
Proof.
  intros Hws Hts span.
  rewrite (non_max_suppression_stages fuel m t thr Hws) by lia.
  pose proof (pad_width_negative N m Hts) as Hpad. fold span in Hpad.
  assert (Hspan : (0 <= span)%Z).
  { subst span. apply Z.mul_nonneg_nonneg; [|lia].
    apply Z.div_pos; lia. }
  replace (pad_width N m tile_size <? 0)%Z with (span <? Z.of_nat N)%Z
    by (rewrite Hpad; destruct (span <? Z.of_nat N)%Z eqn:E;
        symmetry; [apply Z.ltb_lt; apply Z.ltb_lt in E
                  |apply Z.ltb_ge; apply Z.ltb_ge in E]; lia).
  destruct (span <? Z.of_nat N)%Z eqn:EN; [reflexivity|].
  apply Z.ltb_ge in EN.
  assert (HL : num_boxes_after_padding N m tile_size = Z.to_nat span).
  { unfold num_boxes_after_padding. rewrite Hpad. lia. }
  assert (HT : num_iterations N m tile_size = 0%nat).
  { unfold num_iterations. rewrite HL.
    pose proof (Z.div_mod (Z.of_nat (Z.to_nat span)) tile_size ltac:(lia)) as Hdm.
    pose proof (Z.mod_neg_bound (Z.of_nat (Z.to_nat span)) tile_size Hts) as Hmod.
    assert (H : (Z.of_nat (Z.to_nat span) / tile_size <= 0)%Z) by nia.
    lia. }
  destruct (padded_boxes_shape m thr tile_size Hws) as [HlenB HrowsB].
  assert (Hbatch : (1 <= length boxes)%nat).
  { pose proof (ws_batch Hws). destruct boxes; [congruence|simpl; lia]. }
  rewrite HT. cbn [suppression_loop]. unfold _loop_cond. cbn [fst snd].
  rewrite (min_list_zeros Hbatch). cbn [bind].
  rewrite andb_false_r. cbn [bind].
  unfold recover_indices. rewrite HL.
  replace (Z.to_nat span <? m)%nat with (span <? Z.of_nat m)%Z
    by (destruct (span <? Z.of_nat m)%Z eqn:E; symmetry;
        [apply Nat.ltb_lt; apply Z.ltb_lt in E
        |apply Nat.ltb_ge; apply Z.ltb_ge in E]; lia).
  destruct (span <? Z.of_nat m)%Z eqn:Em; [reflexivity|].
  apply Z.ltb_ge in Em.
  assert (Hmin : map (fun o => Nat.min o m) (repeat 0%nat (length boxes))
                 = repeat 0%nat (length boxes))
    by (rewrite map_repeat; reflexivity).
  rewrite Hmin. f_equal. f_equal.
  set (rows := zip_with _ (seq 0 (length boxes)) _).
  assert (Hrows : length rows = length boxes
                  /\ Forall (fun r => length r = m) rows).
  { subst rows. split.
    - rewrite zip_with_length, length_seq, length_map, HlenB. lia.
    - apply Forall_forall. intros r Hr. apply zip_with_In in Hr.
      destruct Hr as [i [row [_ [Hrow ->]]]]. rewrite length_map.
      apply in_map_iff in Hrow. destruct Hrow as [b0 [<- Hb0]].
      apply recover_positions_length; [|lia].
      rewrite Forall_forall in HrowsB. rewrite (HrowsB b0 Hb0). exact HL. }
  destruct Hrows as [Hlen Hall]. rewrite <- Hlen. apply mask_all_rows, Hall.
Qed.

Lemma negative_tile_size_selects_nothing_witness :
  non_max_suppression 0 2 [[mkBox 0 0 1 1; mkBox 0 2 1 3]] [[1 # 2; 1 # 3]]
                      2 (1 # 2) (Finite 0) (-1)
  = Ok ([[0; 0]%nat], [0%nat]).
Proof.
  apply (@negative_tile_size_selects_nothing 0 2
           [[mkBox 0 0 1 1; mkBox 0 2 1 3]] [[1 # 2; 1 # 3]] 2 (1 # 2)
           (Finite 0) (-1)).
  - constructor; simpl; try lia; try discriminate; repeat constructor.
  - lia.
Defined.

(* ================================================================== *)
(** * One step of the outer loop *)

Lemma tile_update_tile (idx tile_size : nat) (b s : list Box) :
  (S idx * tile_size <= length b)%nat -> length s = tile_size ->
  tile idx tile_size (update_tile idx tile_size b s) = s.
Proof.
  intros Hb Hs. unfold tile, update_tile.
  rewrite <- (@prefix_length idx tile_size b Hb) at 1.
  rewrite skipn_app_exact. rewrite <- Hs. apply firstn_app_exact.
Qed.

Lemma nth_update_tile_after (idx tile_size p : nat) (b s : list Box) :
  (S idx * tile_size <= length b)%nat -> length s = tile_size ->
  (S idx * tile_size <= p)%nat ->
  nth p (update_tile idx tile_size b s) zero_box = nth p b zero_box.
Proof.
  intros Hb Hs Hp.
  pose proof (@update_tile_suffix idx tile_size b s Hb Hs) as E.
  replace p with (S idx * tile_size + (p - S idx * tile_size))%nat by lia.
  rewrite <- !nth_skipn. rewrite E. reflexivity.
Qed.

Lemma nth_map_default {A B : Type} (f : A -> B) (l : list A) (i : nat)
  (da : A) (db : B) :
  (i < length l)%nat -> nth i (map f l) db = f (nth i l da).
Proof.
  intro H. rewrite (nth_indep _ db (f da)) by (rewrite length_map; exact H).
  apply map_nth.
Qed.

(** [_suppression_loop_body], frame.  For [iou_threshold >= 0] one call
    returns; it advances [idx] by one, leaves every box outside tile [idx]
    as it was, leaves every box of tile [idx] as it was or sets it to the
    all-zero box, and adds to [output_size[i]] the number of boxes of the
    tile that still have a positive coordinate. *)
Theorem suppression_loop_body_frame (fuel : nat) (t : Q) (tile_size : nat)
  (boxes : list (list Box)) (output_size : list nat) (idx : nat) :
  0 <= t -> (1 <= tile_size)%nat -> (tile_size <= fuel)%nat ->
  Forall (fun b => (S idx * tile_size <= length b)%nat) boxes ->
  length output_size = length boxes ->
  exists boxes' output_size',
    _suppression_loop_body fuel t tile_size (boxes, output_size, idx)
    = Ok (boxes', output_size', S idx)
    /\ length boxes' = length boxes
    /\ length output_size' = length boxes
    /\ forall i, (i < length boxes)%nat ->
         length (nth i boxes' []) = length (nth i boxes [])
         /\ Forall2 dimmed (nth i boxes' []) (nth i boxes [])
         /\ (forall p, (p < idx * tile_size)%nat \/ (S idx * tile_size <= p)%nat ->
               nth p (nth i boxes' []) zero_box = nth p (nth i boxes []) zero_box)
         /\ nth i output_size' 0%nat
            = (nth i output_size 0
               + count_positive (tile idx tile_size (nth i boxes' [])))%nat.
Proof.
  intros Ht Hts Hfuel Hlen Hout.
  rewrite (@_suppression_loop_body_spec fuel t tile_size boxes output_size idx
             Ht Hts Hfuel Hlen).
  set (k := inner_steps fuel t (map (cross_image t tile_size idx) boxes)).
  eexists. eexists. split; [reflexivity|].
  split; [apply length_map|].
  split; [rewrite zip_with_length; lia|].
  intros i Hi.
  assert (Hb : (S idx * tile_size <= length (nth i boxes []))%nat).
  { rewrite Forall_forall in Hlen. apply Hlen, nth_In, Hi. }
  rewrite (@nth_map_default _ _ (body_image k t tile_size idx) boxes i [] [] Hi).
  pose proof (@body_slice_length k t tile_size idx (nth i boxes []) Hb) as Hs.
  split; [apply body_image_length, Hb|].
  split; [apply update_tile_dimmed, body_slice_dimmed|].
  split.
  - intros p [Hp|Hp]; unfold body_image.
    + apply nth_update_tile_before; assumption.
    + apply nth_update_tile_after; assumption.
  - rewrite (zip_with_nth _ _ _ 0%nat [] 0%nat) by lia.
    unfold body_image. rewrite tile_update_tile by assumption. reflexivity.
Qed.

Lemma suppression_loop_body_frame_witness :
  exists boxes' output_size',
    _suppression_loop_body 2 (1 # 2) 2
      ([[mkBox 0 0 1 1; mkBox 0 0 1 1]], [0%nat], 0%nat)
    = Ok (boxes', output_size', 1%nat)
    /\ length boxes' = 1%nat
    /\ length output_size' = 1%nat
    /\ forall i, (i < 1)%nat ->
         length (nth i boxes' []) = length (nth i [[mkBox 0 0 1 1; mkBox 0 0 1 1]] [])
         /\ Forall2 dimmed (nth i boxes' []) (nth i [[mkBox 0 0 1 1; mkBox 0 0 1 1]] [])
         /\ (forall p, (p < 0 * 2)%nat \/ (1 * 2 <= p)%nat ->
               nth p (nth i boxes' []) zero_box
               = nth p (nth i [[mkBox 0 0 1 1; mkBox 0 0 1 1]] []) zero_box)
         /\ nth i output_size' 0%nat
            = (nth i [0%nat] 0 + count_positive (tile 0 2 (nth i boxes' [])))%nat.
Proof.
  apply (@suppression_loop_body_frame 2 (1 # 2) 2
           [[mkBox 0 0 1 1; mkBox 0 0 1 1]] [0%nat] 0).
  - unfold Qle; simpl; lia.
  - lia.
  - lia.
  - repeat constructor.
  - reflexivity.
Defined.

(* ================================================================== *)
(** * The outer loop stops when every image is full, and not before *)

Lemma Forall2_In_l {A B : Type} (R : A -> B -> Prop) (l : list A) (l' : list B)
  (a : A) :
  Forall2 R l l' -> In a l -> exists b, In b l' /\ R a b.
Proof.
  induction 1 as [|x y l l' Hxy _ IH]; intros Hin; [destruct Hin|].
  destruct Hin as [<-|Hin].
  - exists y. split; [left; reflexivity|exact Hxy].
  - destruct (IH Hin) as [b [Hb HR]]. exists b. split; [right; exact Hb|exact HR].
Qed.

Section OuterLoopExit.
Variables (fuel : nat) (t : Q) (tile_size max_output_size : nat).
Hypothesis Ht : 0 <= t.
Hypothesis Hts : (1 <= tile_size)%nat.
Hypothesis Hfuel : (tile_size <= fuel)%nat.

Local Abbreviation loop := (suppression_loop fuel t tile_size max_output_size).
Local Abbreviation counts idx B := (map (count_prefix tile_size idx) B).

Lemma suppression_loop_exit (remaining : nat) :
  forall (boxes : list (list Box)) (idx : nat),
    boxes <> [] ->
    Forall (fun b => ((idx + remaining) * tile_size <= length b)%nat) boxes ->
    exists F K,
      loop remaining (boxes, counts idx boxes, idx) = Ok (F, counts K F, K)
      /\ (idx <= K <= idx + remaining)%nat
      /\ Forall2 (reach t tile_size idx K) boxes F
      /\ ((K < idx + remaining)%nat ->
          Forall (fun f => (max_output_size <= count_prefix tile_size K f)%nat) F)
      /\ ((idx < K)%nat ->
          exists f, In f F
                    /\ (count_prefix tile_size (K - 1) f < max_output_size)%nat).
Proof.
  induction remaining as [|r IH]; intros boxes idx Hne Hlen.
  - exists boxes, idx. simpl. unfold _loop_cond. simpl.
    destruct (@min_list_spec (counts idx boxes)) as [mn [Hmn _]].
    { destruct boxes; [congruence|discriminate]. }
    rewrite Hmn. simpl. rewrite andb_false_r.
    split; [reflexivity|]. split; [lia|]. split; [|split; lia].
    apply Forall2_same, Forall_forall. intros; constructor.
  - simpl. unfold _loop_cond. simpl.
    destruct (@min_list_spec (counts idx boxes)) as [mn [Hmn [Hall Hin]]].
    { destruct boxes; [congruence|discriminate]. }
    rewrite Hmn. simpl. rewrite andb_true_r.
    destruct (mn <? max_output_size)%nat eqn:Hc.
    + assert (Hb : Forall (fun b => (S idx * tile_size <= length b)%nat) boxes).
      { eapply Forall_impl; [|exact Hlen]. simpl. intros; nia. }
      rewrite (@body_counts fuel t tile_size Ht Hts Hfuel boxes idx Hb). simpl.
      set (k := inner_steps fuel t (map (cross_image t tile_size idx) boxes)).
      destruct (IH (map (body_image k t tile_size idx) boxes) (S idx))
        as [F [K [Hrun [HK [Hreach [Hexit Hlast]]]]]].
      { destruct boxes; [congruence|discriminate]. }
      { apply Forall_forall. intros b' Hb'. apply in_map_iff in Hb'.
        destruct Hb' as [b [<- Hin']]. rewrite Forall_forall in Hlen, Hb.
        rewrite body_image_length by auto.
        specialize (Hlen b Hin'). nia. }
      assert (Hreach' : Forall2 (reach t tile_size idx K) boxes F).
      { apply (proj1 (@Forall2_map_l _ _ _ (reach t tile_size (S idx) K)
                               (body_image k t tile_size idx) boxes F)) in Hreach.
        eapply Forall2_impl; [|exact Hreach].
        intros b f Hr. eapply reach_step. exact Hr. }
      exists F, K. split; [exact Hrun|]. split; [lia|].
      split; [exact Hreach'|]. split; [intro E; apply Hexit; lia|].
      intros _. destruct (Nat.eq_dec K (S idx)) as [E|E]; [|apply Hlast; lia].
      subst K. apply Nat.ltb_lt in Hc.
      apply in_map_iff in Hin. destruct Hin as [b [Eb Hinb]].
      destruct (@Forall2_In_l _ _ _ boxes F b Hreach' Hinb) as [f [Hf Hr]].
      exists f. split; [exact Hf|].
      rewrite Forall_forall in Hlen.
      destruct (reach_facts Hr) as [_ [_ [Hpre _]]].
      { specialize (Hlen b Hinb). nia. }
      replace (S idx - 1)%nat with idx by lia.
      unfold count_prefix in *. rewrite Hpre. lia.
    + exists boxes, idx. split; [reflexivity|]. split; [lia|]. split; [|split].
      * apply Forall2_same, Forall_forall. intros; constructor.
      * intros _. apply Nat.ltb_ge in Hc.
        apply Forall_forall. intros b Hb.
        rewrite Forall_forall in Hall.
        specialize (Hall (count_prefix tile_size idx b)
                         (in_map (count_prefix tile_size idx) _ _ Hb)).
        lia.
      * lia.
Qed.
End OuterLoopExit.

(** The outer loop.  Started on arrays of [num_iterations * tile_size]
    boxes it returns after [K <= num_iterations] steps.  It stops before
    the last tile only when every image holds at least [max_output_size]
    detections, and it has not stopped earlier: before its last step some
    image held fewer.  Every box is as it was or all-zero, the boxes from
    tile [K] on are untouched, and [output_size[i]] is the number of boxes
    with a positive coordinate among the first [K] tiles of image [i]. *)
Theorem suppression_loop_stops_when_full (fuel : nat) (t : Q)
  (tile_size m T : nat) (boxes : list (list Box)) :
  0 <= t -> (1 <= tile_size)%nat -> (tile_size <= fuel)%nat ->
  boxes <> [] ->
  Forall (fun b => length b = (T * tile_size)%nat) boxes ->
  exists boxes' output_size K,
    suppression_loop fuel t tile_size m T
                     (boxes, repeat 0%nat (length boxes), 0%nat)
    = Ok (boxes', output_size, K)
    /\ (K <= T)%nat
    /\ ((K < T)%nat -> Forall (fun o => (m <= o)%nat) output_size)
    /\ ((0 < K)%nat ->
        exists i, (i < length boxes)%nat
                  /\ (count_positive
                        (firstn ((K - 1) * tile_size) (nth i boxes' [])) < m)%nat)
    /\ length boxes' = length boxes
    /\ length output_size = length boxes
    /\ forall i, (i < length boxes)%nat ->
         Forall2 dimmed (nth i boxes' []) (nth i boxes [])
         /\ (forall p, (K * tile_size <= p)%nat ->
               nth p (nth i boxes' []) zero_box = nth p (nth i boxes []) zero_box)
         /\ nth i output_size 0%nat
            = count_positive (firstn (K * tile_size) (nth i boxes' [])).
Proof.
  intros Ht Hts Hfuel Hne Hlen.
  assert (Hzero : repeat 0%nat (length boxes) = map (count_prefix tile_size 0) boxes).
  { clear. induction boxes as [|a l IH]; simpl; [reflexivity|].
    rewrite IH. reflexivity. }
  destruct (@suppression_loop_exit fuel t tile_size m Ht Hts Hfuel T boxes 0%nat Hne)
    as [F [K [Hrun [HK [Hreach [Hexit Hlast]]]]]].
  { eapply Forall_impl; [|exact Hlen]. simpl. intros b Hb. lia. }
  pose proof (Forall2_length Hreach) as HlenF.
  exists F, (map (count_prefix tile_size K) F), K.
  rewrite Hzero. split; [exact Hrun|]. split; [lia|].
  split.
  { intro HKT. specialize (Hexit ltac:(lia)).
    apply Forall_forall. intros o Ho. apply in_map_iff in Ho.
    destruct Ho as [f [<- Hf]]. rewrite Forall_forall in Hexit. auto. }
  split.
  { intro HK0. destruct (Hlast HK0) as [f [Hf Hc]].
    destruct (In_nth _ _ [] Hf) as [i [Hi Ei]].
    exists i. split; [lia|]. rewrite Ei. exact Hc. }
  split; [lia|]. split; [rewrite length_map; lia|].
  intros i Hi.
  assert (Hr : reach t tile_size 0 K (nth i boxes []) (nth i F []))
    by (apply Forall2_nth; [exact Hreach|exact Hi]).
  assert (Hb : length (nth i boxes []) = (T * tile_size)%nat).
  { rewrite Forall_forall in Hlen. apply Hlen, nth_In, Hi. }
  destruct (reach_facts Hr) as [_ [Hdim [_ Hsuf]]]; [rewrite Hb; nia|].
  split; [exact Hdim|]. split.
  - intros p Hp.
    replace p with (K * tile_size + (p - K * tile_size))%nat by lia.
    rewrite <- !nth_skipn. rewrite Hsuf. reflexivity.
  - rewrite (@nth_map_default _ _ (count_prefix tile_size K) F i [] 0%nat) by lia.
    reflexivity.
Qed.

Lemma suppression_loop_stops_when_full_witness :
  exists boxes' output_size K,
    suppression_loop 1 (1 # 2) 1 1 2
      ([[mkBox 0 0 1 1; mkBox 0 2 1 3]], repeat 0%nat 1, 0%nat)
    = Ok (boxes', output_size, K)
    /\ (K <= 2)%nat
    /\ ((K < 2)%nat -> Forall (fun o => (1 <= o)%nat) output_size)
    /\ ((0 < K)%nat ->
        exists i, (i < 1)%nat
                  /\ (count_positive
                        (firstn ((K - 1) * 1) (nth i boxes' [])) < 1)%nat)
    /\ length boxes' = 1%nat
    /\ length output_size = 1%nat
    /\ forall i, (i < 1)%nat ->
         Forall2 dimmed (nth i boxes' []) (nth i [[mkBox 0 0 1 1; mkBox 0 2 1 3]] [])
         /\ (forall p, (K * 1 <= p)%nat ->
               nth p (nth i boxes' []) zero_box
               = nth p (nth i [[mkBox 0 0 1 1; mkBox 0 2 1 3]] []) zero_box)
         /\ nth i output_size 0%nat
            = count_positive (firstn (K * 1) (nth i boxes' [])).
Proof.
  apply (@suppression_loop_stops_when_full 1 (1 # 2) 1 1 2
           [[mkBox 0 0 1 1; mkBox 0 2 1 3]]).
  - unfold Qle; simpl; lia.
  - lia.
  - lia.
  - discriminate.
  - repeat constructor.
Defined.

(* ================================================================== *)
(** * A box is only cleared for a reason *)

Lemma qsum_positive_entry (l : list Q) : 0 < qsum l -> exists x, In x l /\ 0 < x.
Proof.
  induction l as [|x l IH]; intro H.
  - simpl in H. lra.
  - change (0 < x + qsum l) in H.
    destruct (Qlt_le_dec 0 x) as [Hx|Hx].
    + exists x. split; [left; reflexivity|exact Hx].
    + destruct IH as [y [Hy Hpos]]; [lra|].
      exists y. split; [right; exact Hy|exact Hpos].
Qed.

Lemma forallb_false_In {A : Type} (f : A -> bool) (l : list A) :
  forallb f l = false -> exists x, In x l /\ f x = false.
Proof.
  induction l as [|a l IH]; simpl; [discriminate|].
  destruct (f a) eqn:E; simpl.
  - intro H. destruct (IH H) as [x [Hx Hf]]. exists x. auto.
  - intros _. exists a. auto.
Qed.

(** The steps of the inner loop only clear entries. *)
Lemma iter_entry (t : Q) (n k : nat) (M0 : Matrix) (r c : nat) :
  square n M0 -> (r < n)%nat ->
  entry (Nat.iter k (self_suppression_image t) M0) r c = entry M0 r c
  \/ entry (Nat.iter k (self_suppression_image t) M0) r c = 0.
Proof.
  intros Hsq Hr. induction k as [|k IH]; [left; reflexivity|].
  simpl Nat.iter.
  pose proof (@iter_step_square t n k M0 Hsq) as Hk.
  destruct (@self_suppression_image_flags t n _ Hk) as [keep [Hlen E]].
  rewrite E.
  rewrite entry_scale_rows by (destruct Hk as [Hl _]; lia).
  destruct (nth r keep false); simpl; [exact IH|right; reflexivity].
Qed.

(** A box that the self-suppression clears overlaps an earlier box of the
    slice by at least the threshold. *)
Lemma self_image_cleared (k : nat) (t : Q) (s : list Box) (q : nat) :
  (q < length s)%nat ->
  nth q (self_image k t s) zero_box = nth q s zero_box \/ covered t s q.
Proof.
  intro Hq. rewrite self_image_nth by exact Hq.
  set (n := length s) in *.
  set (M0 := mask_upper t (bbox_overlap_image s s)).
  destruct (Qlt_bool 0 (qsum (column q (Nat.iter k (self_suppression_image t) M0))))
    eqn:E; [|left; apply box_scale_true].
  right. apply Qlt_bool_iff in E.
  destruct (@qsum_positive_entry _ E) as [x [Hx Hpos]].
  assert (Hsq0 : square n M0)
    by (apply mask_upper_square, bbox_overlap_image_square; reflexivity).
  pose proof (@iter_step_square t n k M0 Hsq0) as Hsqk.
  destruct (In_nth _ _ 0 Hx) as [r [Hr Er]].
  rewrite column_length in Hr. destruct Hsqk as [Hlk _]. rewrite Hlk in Hr.
  rewrite column_nth in Er.
  destruct (@iter_entry t n k M0 r q Hsq0 Hr) as [E0|E0];
    [|rewrite E0 in Er; subst x; lra].
  rewrite E0 in Er.
  unfold M0 in Er.
  rewrite (@entry_mask_upper t n _ r q (@bbox_overlap_image_square n s eq_refl) Hr Hq)
    in Er.
  rewrite entry_bbox_overlap in Er by assumption.
  destruct (r <? q)%nat eqn:Hrq; [|simpl in Er; subst x; lra].
  destruct (Qle_bool t (iou_box (nth r s zero_box) (nth q s zero_box))) eqn:Hle;
    [|simpl in Er; subst x; lra].
  exists r. split; [apply Nat.ltb_lt, Hrq|apply Qle_bool_iff, Hle].
Qed.

(** A box that one cross-suppression step clears overlaps a box of the
    tile it is compared with. *)
Lemma cross_step_cleared (t : Q) (inner tile_size q : nat) (b sl : list Box) :
  (q < length sl)%nat ->
  nth q (cross_suppression_image t inner tile_size b sl) zero_box = nth q sl zero_box
  \/ exists a, In a (tile inner tile_size b) /\ t <= iou_box a (nth q sl zero_box).
Proof.
  intro Hq. unfold cross_suppression_image.
  rewrite (zip_with_nth _ _ _ 0%nat zero_box zero_box)
    by (rewrite ?length_seq; lia).
  rewrite seq_nth by exact Hq. simpl Nat.add.
  destruct (forallb _ _) eqn:E; [left; apply box_scale_true|right].
  apply forallb_false_In in E. destruct E as [x [Hx Hf]].
  rewrite column_bbox_overlap in Hx. apply in_map_iff in Hx.
  destruct Hx as [a [Ea Ha]]. exists a. split; [exact Ha|].
  rewrite (nth_indep _ 0 (iou_box a zero_box)) in Ea by (rewrite length_map; exact Hq).
  rewrite (map_nth (fun b0 => iou_box a b0)) in Ea. subst x.
  apply Qlt_bool_false_iff, Hf.
Qed.

Lemma cross_fold_cleared (t : Q) (tile_size q : nat) (b : list Box) (l : list nat) :
  forall sl : list Box,
    (q < length sl)%nat ->
    nth q (fold_left (fun s i => cross_suppression_image t i tile_size b s) l sl)
        zero_box
    = nth q sl zero_box
    \/ exists i a, In i l /\ In a (tile i tile_size b)
                   /\ t <= iou_box a (nth q sl zero_box).
Proof.
  induction l as [|i l IH]; intros sl Hq; [left; reflexivity|].
  simpl fold_left.
  destruct (@cross_step_cleared t i tile_size q b sl Hq) as [E|[a [Ha Hle]]].
  - destruct (IH (cross_suppression_image t i tile_size b sl)) as [E'|[j [a [Hj [Ha Hle]]]]].
    + rewrite cross_suppression_image_length. exact Hq.
    + left. congruence.
    + right. exists j, a. split; [right; exact Hj|]. split; [exact Ha|].
      rewrite <- E. exact Hle.
  - right. exists i, a. split; [left; reflexivity|]. split; assumption.
Qed.

Lemma cross_image_cleared (t : Q) (tile_size idx q : nat) (b : list Box) :
  (1 <= tile_size)%nat ->
  (S idx * tile_size <= length b)%nat -> (q < tile_size)%nat ->
  nth q (cross_image t tile_size idx b) zero_box
  = nth (idx * tile_size + q) b zero_box
  \/ covered t b (idx * tile_size + q).
Proof.
  intros Hts Hb Hq. unfold cross_image.
  destruct (@cross_fold_cleared t tile_size q b (seq 0 idx) (tile idx tile_size b))
    as [E|[i [a [Hi [Ha Hle]]]]].
  - rewrite tile_length by exact Hb. exact Hq.
  - left. rewrite E. apply nth_tile, Hq.
  - right. rewrite nth_tile in Hle by exact Hq.
    apply in_seq in Hi.
    destruct (In_nth _ _ zero_box Ha) as [off [Hoff Eoff]].
    assert (Hbi : (S i * tile_size <= length b)%nat) by (simpl in *; nia).
    rewrite tile_length in Hoff by exact Hbi.
    rewrite nth_tile in Eoff by exact Hoff.
    exists (i * tile_size + off)%nat. split; [nia|].
    rewrite Eoff. exact Hle.
Qed.

Lemma not_covered_by_zero (t : Q) (x : Box) : 0 < t -> ~ t <= iou_box zero_box x.
Proof. intros Ht H. pose proof (iou_box_zero_l x) as E. lra. Qed.

(** One step of the outer loop: a box it changes overlaps an earlier box
    of the array by at least the threshold. *)
Lemma body_image_cleared (k : nat) (t : Q) (tile_size idx : nat) (b : list Box)
  (q : nat) :
  0 < t -> (1 <= tile_size)%nat -> (S idx * tile_size <= length b)%nat ->
  nth q (body_image k t tile_size idx b) zero_box = nth q b zero_box
  \/ covered t b q.
Proof.
  intros Ht Hts Hb.
  pose proof (@body_slice_length k t tile_size idx b Hb) as Hs.
  pose proof (@cross_image_length t tile_size idx b Hb) as Hc.
  unfold body_image.
  destruct (Nat.lt_ge_cases q (idx * tile_size)) as [Hlow|Hge];
    [left; apply nth_update_tile_before; assumption|].
  destruct (Nat.le_gt_cases (S idx * tile_size) q) as [Hhigh|Hin];
    [left; apply nth_update_tile_after; assumption|].
  set (q' := (q - idx * tile_size)%nat).
  assert (Hq' : (q' < tile_size)%nat) by (subst q'; simpl in Hin; lia).
  replace q with (idx * tile_size + q')%nat by (subst q'; lia).
  rewrite nth_update_tile by assumption.
  unfold body_slice.
  destruct (@cross_image_cleared t tile_size idx q' b Hts Hb Hq') as [Eq|Hcov];
    [|right; exact Hcov].
  destruct (@self_image_cleared k t (cross_image t tile_size idx b) q')
    as [E|[p [Hp Hle]]]; [lia|left; congruence|].
  right. rewrite Eq in Hle.
  assert (Hd : dimmed (nth p (cross_image t tile_size idx b) zero_box)
                      (nth p (tile idx tile_size b) zero_box)).
  { apply Forall2_nth; [apply cross_image_dimmed|lia]. }
  destruct Hd as [Hd|Hd].
  - rewrite Hd, nth_tile in Hle by lia.
    exists (idx * tile_size + p)%nat. split; [lia|exact Hle].
  - rewrite Hd in Hle. exfalso. exact (@not_covered_by_zero t _ Ht Hle).
Qed.

(** Several steps: a box that differs from the one the loop started with
    overlaps an earlier box of the starting array by at least the
    threshold. *)
Lemma reach_cleared_from (t : Q) (tile_size : nat) (b0 : list Box) :
  0 < t -> (1 <= tile_size)%nat ->
  forall idx K c f,
    reach t tile_size idx K c f ->
    (K * tile_size <= length c)%nat ->
    Forall2 dimmed c b0 ->
    (forall q, (idx * tile_size <= q)%nat -> nth q c zero_box = nth q b0 zero_box) ->
    (forall q, nth q c zero_box = nth q b0 zero_box \/ covered t b0 q) ->
    forall q, nth q f zero_box = nth q b0 zero_box \/ covered t b0 q.
Proof.
  intros Ht Hts idx K c f Hr.
  induction Hr as [idx c|idx K k c f Hr IH]; intros Hlen Hdim Hrest Hinv q;
    [apply Hinv|].
  pose proof (reach_le Hr) as Hle.
  assert (Hc : (S idx * tile_size <= length c)%nat) by nia.
  pose proof (@body_slice_length k t tile_size idx c Hc) as Hs.
  apply IH.
  - rewrite body_image_length by exact Hc. exact Hlen.
  - eapply Forall2_dimmed_trans; [|exact Hdim].
    apply update_tile_dimmed, body_slice_dimmed.
  - intros q0 Hq0. unfold body_image.
    rewrite nth_update_tile_after by assumption. apply Hrest. simpl in Hq0. lia.
  - intro q0.
    destruct (Nat.lt_ge_cases q0 (idx * tile_size)) as [Hlow|Hge].
    + unfold body_image. rewrite nth_update_tile_before by assumption. apply Hinv.
    + destruct (@body_image_cleared k t tile_size idx c q0 Ht Hts Hc)
        as [E|[p [Hp Hcov]]].
      * left. rewrite E. apply Hrest, Hge.
      * right. rewrite (Hrest q0 Hge) in Hcov.
        destruct (Nat.lt_ge_cases p (length c)) as [Hpl|Hpl].
        -- assert (Hd : dimmed (nth p c zero_box) (nth p b0 zero_box))
             by (apply Forall2_nth; [exact Hdim|exact Hpl]).
           destruct Hd as [Hd|Hd].
           ++ exists p. split; [exact Hp|]. rewrite <- Hd. exact Hcov.
           ++ rewrite Hd in Hcov. exfalso. exact (@not_covered_by_zero t _ Ht Hcov).
        -- rewrite nth_overflow in Hcov by exact Hpl.
           exfalso. exact (@not_covered_by_zero t _ Ht Hcov).
Qed.

Lemma reach_cleared (t : Q) (tile_size K : nat) (b f : list Box) (q : nat) :
  0 < t -> (1 <= tile_size)%nat ->
  reach t tile_size 0 K b f -> (K * tile_size <= length b)%nat ->
  nth q f zero_box = nth q b zero_box \/ covered t b q.
Proof.
  intros Ht Hts Hr Hlen.
  apply (@reach_cleared_from t tile_size b Ht Hts 0%nat K b f Hr Hlen).
  - apply Forall2_dimmed_refl.
  - reflexivity.
  - intro q0. left. reflexivity.
Qed.

(** ** From the ranked array back to the input *)

Lemma sorted_image_nth (thr : threshold) (b : list Box) (s : list Q) (p : nat) :
  length b = length s -> (p < length s)%nat ->
  (nth p (rank_image thr s) 0 < length s)%nat
  /\ nth p (sorted_image thr b s) zero_box
     = box_scale (above thr (nth (nth p (rank_image thr s) 0%nat) s 0))
                 (nth (nth p (rank_image thr s) 0%nat) b zero_box).
Proof.
  intros Hlen Hp.
  assert (Hq : (nth p (rank_image thr s) 0 < length s)%nat).
  { rewrite <- (filter_scores_image_length thr s).
    apply ranking_range. apply nth_In.
    rewrite ranking_length, filter_scores_image_length. exact Hp. }
  split; [exact Hq|]. unfold sorted_image.
  rewrite (nth_indep _ zero_box
             (nth 0 (filter_boxes_image thr b s) zero_box))
    by (rewrite length_map, rank_image_length; exact Hp).
  rewrite (map_nth (fun i => nth i (filter_boxes_image thr b s) zero_box)).
  apply filter_boxes_image_nth; [exact Hlen|lia].
Qed.

Lemma rank_position (thr : threshold) (s : list Q) (k : nat) :
  (k < length s)%nat ->
  exists q, (q < length s)%nat /\ nth q (rank_image thr s) 0%nat = k.
Proof.
  intro Hk.
  assert (Hin : In k (rank_image thr s)).
  { unfold rank_image.
    apply (Permutation_in _ (Permutation_sym (ranking_perm _))).
    apply in_seq. rewrite filter_scores_image_length. lia. }
  destruct (In_nth _ _ 0%nat Hin) as [q [Hq E]].
  rewrite rank_image_length in Hq. exists q. split; assumption.
Qed.

Lemma rank_injective (thr : threshold) (s : list Q) (p q : nat) :
  (p < length s)%nat -> (q < length s)%nat ->
  nth p (rank_image thr s) 0%nat = nth q (rank_image thr s) 0%nat -> p = q.
Proof.
  intros Hp Hq E.
  pose proof (ranking_NoDup (filter_scores_image thr s)) as Hnd.
  fold (rank_image thr s) in Hnd.
  rewrite (NoDup_nth _ 0%nat) in Hnd.
  apply Hnd; [rewrite rank_image_length; exact Hp
             |rewrite rank_image_length; exact Hq|exact E].
Qed.

Lemma padded_image_nth (thr : threshold) (N m : nat) (tile_size : Z)
  (b : list Box) (s : list Q) (p : nat) :
  length s = N -> (p < N)%nat ->
  nth p (padded_image thr N m tile_size b s) zero_box
  = nth p (sorted_image thr b s) zero_box.
Proof.
  intros Hs Hp. unfold padded_image. apply app_nth1.
  rewrite sorted_image_length. lia.
Qed.

(** The filtered scores of the ranking do not increase, read on boxes that
    pass the filter. *)
Lemma rank_scores_descend (thr : threshold) (s : list Q) (p q : nat) :
  (p < q)%nat -> (q < length s)%nat ->
  exceeds thr (nth (nth p (rank_image thr s) 0%nat) s 0) ->
  exceeds thr (nth (nth q (rank_image thr s) 0%nat) s 0) ->
  nth (nth q (rank_image thr s) 0%nat) s 0
  <= nth (nth p (rank_image thr s) 0%nat) s 0.
Proof.
  intros Hpq Hq Hep Heq.
  assert (Hkp : (nth p (rank_image thr s) 0 < length s)%nat).
  { rewrite <- (filter_scores_image_length thr s).
    apply ranking_range, nth_In.
    rewrite ranking_length, filter_scores_image_length. lia. }
  assert (Hkq : (nth q (rank_image thr s) 0 < length s)%nat).
  { rewrite <- (filter_scores_image_length thr s).
    apply ranking_range, nth_In.
    rewrite ranking_length, filter_scores_image_length. lia. }
  rewrite <- (@filter_scores_image_pass thr s _ Hkp Hep).
  rewrite <- (@filter_scores_image_pass thr s _ Hkq Heq).
  unfold rank_image. apply ranking_descending; [exact Hpq|].
  rewrite filter_scores_image_length. exact Hq.
Qed.

Lemma kept_index (f : list Box) (q : nat) :
  (q < length f)%nat -> box_positive (nth q f zero_box) = true ->
  exists j, (j < length (kept_from 0 f))%nat /\ nth j (kept_from 0 f) 0%nat = q.
Proof.
  intros Hq Hpos.
  assert (Hin : In q (kept_from 0 f)).
  { apply kept_from_spec. split; [lia|]. rewrite Nat.sub_0_r. exact Hpos. }
  destruct (In_nth _ _ 0%nat Hin) as [j [Hj E]]. exists j. split; assumption.
Qed.

Lemma kept_index_before (f : list Box) (j j0 : nat) :
  (j < length (kept_from 0 f))%nat -> (j0 < length (kept_from 0 f))%nat ->
  (nth j0 (kept_from 0 f) 0 < nth j (kept_from 0 f) 0)%nat -> (j0 < j)%nat.
Proof.
  intros Hj Hj0 Hlt.
  destruct (Nat.lt_trichotomy j0 j) as [H|[H|H]]; [exact H| |].
  - subst j0. lia.
  - pose proof (@kept_from_increasing f 0 j j0 H Hj0). lia.
Qed.

Lemma count_prefix_full (tile_size K : nat) (f : list Box) :
  (length f <= K * tile_size)%nat ->
  count_prefix tile_size K f = length (kept_from 0 f).
Proof.
  intro H. unfold count_prefix. rewrite firstn_all2 by exact H.
  symmetry. apply kept_from_length.
Qed.

(** A box that passes the filter and is left out although the output is
    not full, or although a box with a strictly lower score was selected,
    overlaps another box of the input by at least [iou_threshold]; that box
    passes the score filter and its score is not lower. *)
Theorem unselected_box_is_covered (fuel N : nat) (boxes : list (list Box))
  (scores : list (list Q)) (m : nat) (t : Q) (thr : threshold) (tile_size : Z) :
  well_formed fuel N boxes scores t tile_size ->
  0 < t ->
  exists indices num_valid,
    non_max_suppression fuel N boxes scores m t thr tile_size
    = Ok (indices, num_valid)
    /\ forall i k,
         (i < length boxes)%nat -> (k < N)%nat ->
         qualifies thr (nth i boxes []) (nth i scores []) k ->
         ~ In k (firstn (nth i num_valid 0%nat) (nth i indices [])) ->
         ((nth i num_valid 0 < m)%nat
          \/ exists j, (j < nth i num_valid 0)%nat
                       /\ nth (nth j (nth i indices []) 0%nat) (nth i scores []) 0
                          < nth k (nth i scores []) 0) ->
         exists k', (k' < N)%nat /\ k' <> k
                    /\ exceeds thr (nth k' (nth i scores []) 0)
                    /\ nth k (nth i scores []) 0 <= nth k' (nth i scores []) 0
                    /\ t <= iou_box (nth k' (nth i boxes []) zero_box)
                                    (nth k (nth i boxes []) zero_box).
Proof.
  intros Hwf Ht.
  assert (Hts : (1 <= Z.to_nat tile_size)%nat)
    by (pose proof (wf_tile_size Hwf); lia).
  destruct (tiles_cover m Hwf) as [HL [HNL HmL]].
  destruct (selection_image m thr Hwf)
    as [indices [num_valid [K [Hres [_ [_ [HK Himg]]]]]]].
  exists indices, num_valid. split; [exact Hres|].
  intros i k Hi Hk [Hexc Hpos] Hnot Hroom.
  destruct (Himg i Hi)
    as [f [Hb [Hs [Hreach [Hlen [Hnv [Hrow [Hexit [Hlk [Hsel Hkept]]]]]]]]]].
  set (bx := nth i boxes []) in *. set (sc := nth i scores []) in *.
  set (ts := Z.to_nat tile_size) in *. set (nv := nth i num_valid 0%nat) in *.
  set (r := rank_image thr sc) in *.
  destruct (@rank_position thr sc k ltac:(lia)) as [q [Hq Eq]]. fold r in Eq.
  assert (Hsq : nth q (sorted_image thr bx sc) zero_box = nth k bx zero_box).
  { destruct (@sorted_image_nth thr bx sc q ltac:(lia) Hq) as [_ E].
    fold r in E. rewrite E, Eq.
    apply above_true_iff in Hexc. rewrite Hexc. apply box_scale_true. }
  (* position [q] is among the processed tiles *)
  assert (Hfull : (nv < m)%nat -> length f = (K * ts)%nat).
  { intro Hlt.
    destruct (Nat.eq_dec K (num_iterations N m tile_size)) as [E|E];
      [rewrite Hlen, HL, E; reflexivity|exfalso].
    specialize (Hexit ltac:(lia)).
    subst nv. rewrite Hnv in Hlt. unfold num_valid_image in Hlt. lia. }
  (* if the box were still there it would have been selected *)
  assert (Hgone : nth q f zero_box <> nth q (sorted_image thr bx sc) zero_box).
  { intro E. apply Hnot.
    assert (Hqf : (q < length f)%nat) by lia.
    assert (Hposf : box_positive (nth q f zero_box) = true)
      by (rewrite E, Hsq; exact Hpos).
    destruct (@kept_index f q Hqf Hposf) as [j0 [Hj0 Ej0]].
    assert (Hj0nv : (j0 < nv)%nat).
    { destruct Hroom as [Hlt|[j [Hj Hscore]]].
      - specialize (Hfull Hlt).
        subst nv. rewrite Hnv in *. unfold num_valid_image in *.
        rewrite count_prefix_full in * by lia. lia.
      - destruct (Hsel j Hj) as [Ej [Hinj _]].
        apply Nat.lt_trans with j; [|exact Hj].
        apply (@kept_index_before f j j0); [lia|exact Hj0|].
        rewrite Ej0.
        set (p := nth j (kept_from 0 f) 0%nat) in *.
        destruct (Hkept p Hinj) as [HpN Hvp].
        pose proof (proj2 (proj1 (kept_from_spec 0 f p) Hinj)) as Hposp.
        rewrite Nat.sub_0_r, Hvp in Hposp.
        destruct (@sorted_image_qualifies thr bx sc p ltac:(congruence)
                    ltac:(lia) Hposp) as [_ [[Hep _] _]].
        fold r in Hep. rewrite Ej in Hscore.
        destruct (Nat.lt_trichotomy q p) as [H|[H|H]]; [exact H| |].
        + exfalso. subst p. rewrite <- H, Eq in Hscore. lra.
        + exfalso.
          pose proof (@rank_scores_descend thr sc p q H Hq Hep) as Hd.
          fold r in Hd. rewrite Eq in Hd. specialize (Hd Hexc). lra. }
    destruct (Hsel j0 Hj0nv) as [Ej _]. rewrite Ej0, Eq in Ej.
    rewrite <- Ej.
    assert (Efirst : nth j0 (firstn nv (nth i indices [])) 0%nat
                     = nth j0 (nth i indices []) 0%nat).
    { rewrite nth_firstn.
      replace (j0 <? nv)%nat with true by (symmetry; apply Nat.ltb_lt; exact Hj0nv).
      reflexivity. }
    rewrite <- Efirst. apply nth_In. rewrite length_firstn, Hrow.
    rewrite Hnv in *. unfold num_valid_image in *. lia. }
  assert (Hcover : (K * ts <= length (padded_image thr N m tile_size bx sc))%nat).
  { unfold padded_image.
    rewrite length_app, sorted_image_length, repeat_length, Hs.
    fold (num_boxes_after_padding N m tile_size). rewrite HL. fold ts. nia. }
  destruct (@reach_cleared t ts K _ f q Ht Hts Hreach Hcover) as [E|[p [Hp Hcov]]].
  { exfalso. apply Hgone. rewrite E. apply padded_image_nth; [exact Hs|lia]. }
  rewrite !padded_image_nth in Hcov by (assumption || lia).
  rewrite Hsq in Hcov.
  destruct (@sorted_image_nth thr bx sc p ltac:(lia) ltac:(lia)) as [Hk' E'].
  fold r in Hk', E'. rewrite E' in Hcov.
  destruct (above thr (nth (nth p r 0%nat) sc 0)) eqn:Hab.
  - rewrite box_scale_true in Hcov. apply above_true_iff in Hab.
    exists (nth p r 0%nat). split; [lia|]. split.
    + intro E. rewrite <- Eq in E. unfold r in E.
      apply rank_injective in E; lia.
    + split; [exact Hab|]. split; [|exact Hcov].
      pose proof (@rank_scores_descend thr sc p q Hp Hq) as Hd.
      fold r in Hd. rewrite Eq in Hd. apply Hd; assumption.
  - rewrite box_scale_false in Hcov. exfalso.
    exact (@not_covered_by_zero t _ Ht Hcov).
Qed.

Lemma unselected_box_is_covered_witness :
  (well_formed 2 2 [[mkBox 0 0 1 1; mkBox 0 0 1 1]] [[1 # 2; 1 # 3]] (1 # 2) 2
   /\ 0 < 1 # 2)
  /\ exists indices num_valid,
      non_max_suppression 2 2 [[mkBox 0 0 1 1; mkBox 0 0 1 1]]
                          [[1 # 2; 1 # 3]] 2 (1 # 2) (Finite 0) 2
      = Ok (indices, num_valid)
      /\ forall i k,
           (i < 1)%nat -> (k < 2)%nat ->
           qualifies (Finite 0) (nth i [[mkBox 0 0 1 1; mkBox 0 0 1 1]] [])
                     (nth i [[1 # 2; 1 # 3]] []) k ->
           ~ In k (firstn (nth i num_valid 0%nat) (nth i indices [])) ->
           ((nth i num_valid 0 < 2)%nat
            \/ exists j, (j < nth i num_valid 0)%nat
                         /\ nth (nth j (nth i indices []) 0%nat)
                                (nth i [[1 # 2; 1 # 3]] []) 0
                            < nth k (nth i [[1 # 2; 1 # 3]] []) 0) ->
           exists k', (k' < 2)%nat /\ k' <> k
                      /\ exceeds (Finite 0) (nth k' (nth i [[1 # 2; 1 # 3]] []) 0)
                      /\ nth k (nth i [[1 # 2; 1 # 3]] []) 0
                         <= nth k' (nth i [[1 # 2; 1 # 3]] []) 0
                      /\ 1 # 2 <= iou_box
                                    (nth k' (nth i [[mkBox 0 0 1 1; mkBox 0 0 1 1]] [])
                                         zero_box)
                                    (nth k (nth i [[mkBox 0 0 1 1; mkBox 0 0 1 1]] [])
                                         zero_box).
Proof.
  assert (Hwf : well_formed 2 2 [[mkBox 0 0 1 1; mkBox 0 0 1 1]]
                            [[1 # 2; 1 # 3]] (1 # 2) 2).
  { constructor; simpl; try lia; try discriminate; repeat constructor. }
  assert (Ht : 0 < 1 # 2) by reflexivity.
  split; [split; assumption|].
  exact (@unselected_box_is_covered 2 2 _ _ 2 (1 # 2) (Finite 0) 2 Hwf Ht).
Defined.

(* ================================================================== *)
(** * The best box is selected first *)

Lemma kept_first (f : list Box) (q : nat) :
  (q < length f)%nat -> box_positive (nth q f zero_box) = true ->
  (forall p, (p < q)%nat -> box_positive (nth p f zero_box) = false) ->
  (0 < length (kept_from 0 f))%nat /\ nth 0 (kept_from 0 f) 0%nat = q.
Proof.
  intros Hq Hpos Hbefore.
  destruct (@kept_index f q Hq Hpos) as [j [Hj Ej]].
  split; [lia|].
  destruct j as [|j]; [exact Ej|exfalso].
  pose proof (@kept_from_increasing f 0 0 (S j) ltac:(lia) Hj) as Hlt.
  rewrite Ej in Hlt.
  assert (Hin : In (nth 0 (kept_from 0 f) 0%nat) (kept_from 0 f))
    by (apply nth_In; lia).
  apply kept_from_spec in Hin. destruct Hin as [_ Hp].
  rewrite Nat.sub_0_r in Hp. rewrite (Hbefore _ Hlt) in Hp. discriminate.
Qed.

(** For [iou_threshold > 0] and [max_output_size >= 1]: a box that passes
    the filter, has a positive coordinate and is ranked before every other
    box that passes the score filter (a higher score, or the same score
    and a larger index) is selected, and it is the first index returned
    for its image. *)
Theorem best_box_is_selected_first (fuel N : nat) (boxes : list (list Box))
  (scores : list (list Q)) (m : nat) (t : Q) (thr : threshold) (tile_size : Z)
  (i k : nat) :
  well_formed fuel N boxes scores t tile_size ->
  0 < t -> (1 <= m)%nat ->
  (i < length boxes)%nat -> (k < N)%nat ->
  qualifies thr (nth i boxes []) (nth i scores []) k ->
  (forall j, (j < N)%nat -> j <> k ->
     exceeds thr (nth j (nth i scores []) 0) ->
     nth j (nth i scores []) 0 < nth k (nth i scores []) 0
     \/ (nth j (nth i scores []) 0 == nth k (nth i scores []) 0 /\ (j < k)%nat)) ->
  exists indices num_valid,
    non_max_suppression fuel N boxes scores m t thr tile_size
    = Ok (indices, num_valid)
    /\ (1 <= nth i num_valid 0)%nat
    /\ nth 0 (nth i indices []) 0%nat = k.
Proof.
  intros Hwf Ht Hm Hi Hk [Hexc Hpos] Hbest.
  assert (Hts : (1 <= Z.to_nat tile_size)%nat)
    by (pose proof (wf_tile_size Hwf); lia).
  destruct (tiles_cover m Hwf) as [HL [HNL HmL]].
  destruct (selection_image m thr Hwf)
    as [indices [num_valid [K [Hres [_ [_ [HK Himg]]]]]]].
  exists indices, num_valid. split; [exact Hres|].
  destruct (Himg i Hi)
    as [f [Hb [Hs [Hreach [Hlen [Hnv [Hrow [Hexit [Hlk [Hsel Hkept]]]]]]]]]].
  set (bx := nth i boxes []) in *. set (sc := nth i scores []) in *.
  set (ts := Z.to_nat tile_size) in *. set (nv := nth i num_valid 0%nat) in *.
  set (r := rank_image thr sc) in *.
  destruct (@rank_position thr sc k ltac:(lia)) as [q [Hq Eq]]. fold r in Eq.
  assert (Hsq : nth q (sorted_image thr bx sc) zero_box = nth k bx zero_box).
  { destruct (@sorted_image_nth thr bx sc q ltac:(lia) Hq) as [_ E].
    fold r in E. rewrite E, Eq.
    apply above_true_iff in Hexc. rewrite Hexc. apply box_scale_true. }
  (* every better-ranked position holds a box that failed the filter *)
  assert (Hzero : forall p, (p < q)%nat ->
                    nth p (sorted_image thr bx sc) zero_box = zero_box).
  { intros p Hp.
    destruct (@sorted_image_nth thr bx sc p ltac:(lia) ltac:(lia)) as [Hk' E'].
    fold r in Hk', E'. rewrite E'.
    destruct (above thr (nth (nth p r 0%nat) sc 0)) eqn:Hab;
      [exfalso|apply box_scale_false].
    apply above_true_iff in Hab.
    assert (Hne : nth p r 0%nat <> k).
    { intro E. rewrite <- Eq in E. unfold r in E.
      apply rank_injective in E; lia. }
    pose proof (@ranking_sorted (filter_scores_image thr sc) p q Hp
                  ltac:(rewrite filter_scores_image_length; exact Hq)) as Hord.
    fold (rank_image thr sc) in Hord. fold r in Hord. rewrite Eq in Hord.
    rewrite (@filter_scores_image_pass thr sc k ltac:(lia) Hexc) in Hord.
    rewrite (@filter_scores_image_pass thr sc _ Hk' Hab) in Hord.
    destruct (Hbest (nth p r 0%nat) ltac:(lia) Hne Hab) as [H1|[H1 H2]];
      destruct Hord as [H3|[H3 H4]]; simpl in *; try lra; lia. }
  assert (Hcover : (K * ts <= length (padded_image thr N m tile_size bx sc))%nat).
  { unfold padded_image.
    rewrite length_app, sorted_image_length, repeat_length, Hs.
    fold (num_boxes_after_padding N m tile_size). rewrite HL. fold ts. nia. }
  assert (Hfq : nth q f zero_box = nth k bx zero_box).
  { destruct (@reach_cleared t ts K _ f q Ht Hts Hreach Hcover) as [E|[p [Hp Hcov]]].
    - rewrite E, padded_image_nth by (assumption || lia). exact Hsq.
    - exfalso. rewrite (@padded_image_nth thr N m tile_size bx sc p) in Hcov
        by (assumption || lia).
      rewrite (Hzero p Hp) in Hcov. exact (@not_covered_by_zero t _ Ht Hcov). }
  assert (Hfp : forall p, (p < q)%nat -> box_positive (nth p f zero_box) = false).
  { intros p Hp.
    destruct (reach_facts Hreach Hcover) as [Hlf [Hdim _]].
    assert (Hd : dimmed (nth p f zero_box)
                        (nth p (padded_image thr N m tile_size bx sc) zero_box))
      by (apply Forall2_nth; [exact Hdim|lia]).
    rewrite padded_image_nth, (Hzero p Hp) in Hd by (assumption || lia).
    apply dimmed_zero in Hd. rewrite Hd. reflexivity. }
  destruct (@kept_first f q ltac:(lia) ltac:(rewrite Hfq; exact Hpos) Hfp)
    as [Hk0 Ek0].
  assert (Hnv1 : (1 <= nv)%nat).
  { rewrite Hnv. unfold num_valid_image.
    destruct (Nat.eq_dec K (num_iterations N m tile_size)) as [E|E].
    - rewrite count_prefix_full by (rewrite Hlen, HL, E; fold ts; lia). lia.
    - specialize (Hexit ltac:(lia)). lia. }
  split; [exact Hnv1|].
  destruct (Hsel 0%nat ltac:(lia)) as [E0 _]. rewrite E0, Ek0. exact Eq.
Qed.

Lemma best_box_is_selected_first_witness :
  exists indices num_valid,
    non_max_suppression 2 2 [[mkBox 0 0 1 1; mkBox 0 2 1 3]] [[1 # 3; 1 # 2]]
                        1 (1 # 2) (Finite 0) 2
    = Ok (indices, num_valid)
    /\ (1 <= nth 0 num_valid 0)%nat
    /\ nth 0 (nth 0 indices []) 0%nat = 1%nat.
Proof.
  apply (@best_box_is_selected_first 2 2 [[mkBox 0 0 1 1; mkBox 0 2 1 3]]
           [[1 # 3; 1 # 2]] 1 (1 # 2) (Finite 0) 2 0 1).
  - constructor; simpl; try lia; try discriminate; repeat constructor.
  - reflexivity.
  - lia.
  - simpl; lia.
  - lia.
  - split; reflexivity.
  - intros j Hj Hne _. left. destruct j as [|[|j]]; [reflexivity|lia|lia].
Defined.

(* ================================================================== *)
(** * A threshold of one or more: nothing is suppressed *)







(* ================================================================== *)
(** * The padded length *)

(** For [tile_size > 0] the pad width is not negative, and the padded
    length is the least multiple of [tile_size] that is at least
    [max(num_boxes, max_output_size)]: it is [num_iterations * tile_size],
    it is not below that maximum, and it exceeds it by less than
    [tile_size]. *)
Theorem padding_is_least_multiple (N m : nat) (tile_size : Z) :
  (0 < tile_size)%Z ->
  (0 <= pad_width N m tile_size)%Z
  /\ num_boxes_after_padding N m tile_size
     = (num_iterations N m tile_size * Z.to_nat tile_size)%nat
  /\ (Nat.max N m <= num_boxes_after_padding N m tile_size)%nat
  /\ (num_boxes_after_padding N m tile_size < Nat.max N m + Z.to_nat tile_size)%nat.
Proof.
  intro Hts.
  destruct (@padding_spec N m tile_size Hts) as [Hpad [T [H1 [H2 [H3 H4]]]]].
  apply Z.ltb_ge in Hpad.
  split; [exact Hpad|].
  split; [unfold num_iterations, num_boxes_after_padding; rewrite H2; exact H1|].
  split; [unfold num_boxes_after_padding; lia|].
  unfold num_boxes_after_padding, pad_width, ceil_div in *.
  set (a := Z.max (Z.of_nat N) (Z.of_nat m)) in *.
  pose proof (Z.div_mod (- a) tile_size ltac:(lia)) as Hdm.
  pose proof (Z.mod_pos_bound (- a) tile_size Hts) as Hmod.
  assert (Ha : a = Z.of_nat (Nat.max N m)) by (subst a; lia).
  nia.
Qed.

Lemma padding_is_least_multiple_witness :
  (0 <= pad_width 5 3 2)%Z
  /\ num_boxes_after_padding 5 3 2 = (num_iterations 5 3 2 * Z.to_nat 2)%nat
  /\ (Nat.max 5 3 <= num_boxes_after_padding 5 3 2)%nat
  /\ (num_boxes_after_padding 5 3 2 < Nat.max 5 3 + Z.to_nat 2)%nat.
Proof.
  apply (@padding_is_least_multiple 5 3 2). lia.
Defined.

(* ================================================================== *)
(** * [_sort_scores_and_boxes] *)

(** [_sort_scores_and_boxes] returns, for every image, a permutation of
    the box positions [0 .. N-1]; the sorted scores and the sorted boxes
    are the scores and boxes read through that permutation, and the sorted
    scores do not increase. *)
Theorem sort_scores_and_boxes_descending (N : nat) (scores : list (list Q))
  (boxes : list (list Box)) :
  length scores = length boxes ->
  Forall (fun s => length s = N) scores ->
  Forall (fun b => length b = N) boxes ->
  let '(sorted_scores, sorted_boxes, sorted_scores_indices) :=
    _sort_scores_and_boxes scores boxes in
  length sorted_scores = length boxes
  /\ length sorted_boxes = length boxes
  /\ length sorted_scores_indices = length boxes
  /\ forall i, (i < length boxes)%nat ->
       Permutation (nth i sorted_scores_indices []) (seq 0 N)
       /\ (forall p, (p < N)%nat ->
             nth p (nth i sorted_scores []) 0
             = nth (nth p (nth i sorted_scores_indices []) 0%nat)
                   (nth i scores []) 0
             /\ nth p (nth i sorted_boxes []) zero_box
                = nth (nth p (nth i sorted_scores_indices []) 0%nat)
                      (nth i boxes []) zero_box)
       /\ (forall p q, (p < q)%nat -> (q < N)%nat ->
             nth q (nth i sorted_scores []) 0 <= nth p (nth i sorted_scores []) 0).
Proof.
  intros Hlen Hs Hb. unfold _sort_scores_and_boxes.
  split; [rewrite zip_with_length, length_map; lia|].
  split; [rewrite zip_with_length, length_map; lia|].
  split; [rewrite length_map; lia|].
  intros i Hi.
  assert (Hsi : length (nth i scores []) = N).
  { rewrite Forall_forall in Hs. apply Hs, nth_In. lia. }
  rewrite (@nth_map_default _ _ (fun s => rev (argsort s)) scores i [] [])
    by lia.
  rewrite (zip_with_nth _ _ _ [] [] []) by (rewrite ?length_map; lia).
  rewrite (zip_with_nth _ _ _ [] [] []) by (rewrite ?length_map; lia).
  rewrite (@nth_map_default _ _ (fun s => rev (argsort s)) scores i [] [])
    by lia.
  set (s := nth i scores []) in *. set (b := nth i boxes []).
  set (r := rev (argsort s)).
  assert (Hr : length r = N) by (subst r; rewrite ranking_length; exact Hsi).
  assert (Hnth : forall p, (p < N)%nat ->
             nth p (map (fun k => nth k s 0) r) 0 = nth (nth p r 0%nat) s 0).
  { intros p Hp.
    apply (@nth_map_default _ _ (fun k => nth k s 0) r p 0%nat 0). lia. }
  split; [rewrite <- Hsi; apply ranking_perm|]. split.
  - intros p Hp. split; [apply Hnth, Hp|].
    apply (@nth_map_default _ _ (fun k => nth k b zero_box) r p 0%nat zero_box).
    lia.
  - intros p q Hpq Hq. rewrite !Hnth by lia.
    apply ranking_descending; [exact Hpq|lia].
Qed.

Lemma sort_scores_and_boxes_descending_witness :
  let '(sorted_scores, sorted_boxes, sorted_scores_indices) :=
    _sort_scores_and_boxes [[1 # 3; 1 # 2]] [[mkBox 0 0 1 1; mkBox 0 2 1 3]] in
  length sorted_scores = 1%nat
  /\ length sorted_boxes = 1%nat
  /\ length sorted_scores_indices = 1%nat
  /\ forall i, (i < 1)%nat ->
       Permutation (nth i sorted_scores_indices []) (seq 0 2)
       /\ (forall p, (p < 2)%nat ->
             nth p (nth i sorted_scores []) 0
             = nth (nth p (nth i sorted_scores_indices []) 0%nat)
                   (nth i [[1 # 3; 1 # 2]] []) 0
             /\ nth p (nth i sorted_boxes []) zero_box
                = nth (nth p (nth i sorted_scores_indices []) 0%nat)
                      (nth i [[mkBox 0 0 1 1; mkBox 0 2 1 3]] []) zero_box)
       /\ (forall p q, (p < q)%nat -> (q < 2)%nat ->
             nth q (nth i sorted_scores []) 0 <= nth p (nth i sorted_scores []) 0).
Proof.
  apply (@sort_scores_and_boxes_descending 2 [[1 # 3; 1 # 2]]
           [[mkBox 0 0 1 1; mkBox 0 2 1 3]]).
  - reflexivity.
  - repeat constructor.
  - repeat constructor.
Defined.

(* ================================================================== *)
(** * Dictionaries *)

Lemma dict_get_set_same (k : String.string) (v : value) (d : dict) :
  dict_get k (dict_set k v d) = Some v.
Proof.
  induction d as [|[k' v'] d IH]; simpl.
  - rewrite String.eqb_refl. reflexivity.
  - destruct (String.eqb k k') eqn:E; simpl.
    + rewrite String.eqb_refl. reflexivity.
    + rewrite E. exact IH.
Qed.

Lemma dict_get_set_other (k k' : String.string) (v : value) (d : dict) :
  k <> k' -> dict_get k (dict_set k' v d) = dict_get k d.
Proof.
  intro Hne. induction d as [|[k0 v0] d IH]; simpl.
  - replace (String.eqb k k') with false
      by (symmetry; apply String.eqb_neq; exact Hne).
    reflexivity.
  - destruct (String.eqb k' k0) eqn:E; simpl.
    + apply String.eqb_eq in E. subst k0.
      replace (String.eqb k k') with false
        by (symmetry; apply String.eqb_neq; exact Hne).
      reflexivity.
    + destruct (String.eqb k k0); [reflexivity|exact IH].
Qed.

(** Assigning to a key that is present keeps the keys and their order. *)
Lemma dict_set_keys (k : String.string) (v : value) (d : dict) :
  dict_has k d = true -> map fst (dict_set k v d) = map fst d.
Proof.
  unfold dict_has. induction d as [|[k' v'] d IH]; simpl; [discriminate|].
  destruct (String.eqb k k') eqn:E; simpl.
  - intros _. apply String.eqb_eq in E. subst k'. reflexivity.
  - intro H. f_equal. apply IH, H.
Qed.

(** Assigning the value a key already has changes nothing. *)
Lemma dict_set_same (k : String.string) (v : value) (d : dict) :
  dict_get k d = Some v -> dict_set k v d = d.
Proof.
  induction d as [|[k' v'] d IH]; simpl; [discriminate|].
  destruct (String.eqb k k') eqn:E.
  - intro H. injection H as ->. apply String.eqb_eq in E. subst k'. reflexivity.
  - intro H. f_equal. apply IH, H.
Qed.

Lemma dict_has_get (k : String.string) (d : dict) :
  dict_has k d = true <-> exists v, dict_get k d = Some v.
Proof.
  unfold dict_has. destruct (dict_get k d) as [v|].
  - split; [intros _; exists v; reflexivity|reflexivity].
  - split; [discriminate|intros [v H]; discriminate].
Qed.

Lemma dict_has_set (k k' : String.string) (v : value) (d : dict) :
  dict_has k d = true -> dict_has k (dict_set k' v d) = true.
Proof.
  intro H. unfold dict_has.
  destruct (String.eqb_spec k k') as [->|Hne].
  - rewrite dict_get_set_same. reflexivity.
  - rewrite dict_get_set_other by exact Hne. exact H.
Qed.

(* ================================================================== *)
(** * The mask of [mask_invalid_detections] *)

Lemma zip_with_idem {A B : Type} (g : A -> B -> B) (l1 : list A) (l2 : list B) :
  (forall a b, g a (g a b) = g a b) ->
  zip_with g l1 (zip_with g l1 l2) = zip_with g l1 l2.
Proof.
  intro Hg. revert l2. induction l1 as [|a l1 IH]; intros [|b l2];
    try reflexivity.
  rewrite !zip_with_cons. rewrite Hg, IH. reflexivity.
Qed.

Lemma where_mask_idem {A : Type} (mask : list (list bool)) (x : list (list A))
  (minus_one : A) :
  where_mask mask (where_mask mask x minus_one) minus_one
  = where_mask mask x minus_one.
Proof.
  unfold where_mask. apply zip_with_idem. intros m row.
  apply zip_with_idem. intros [|] v; reflexivity.
Qed.

Lemma where_boxes_idem (mask : list (list bool)) (x : list (list Box)) :
  where_boxes mask (where_boxes mask x) = where_boxes mask x.
Proof.
  unfold where_boxes. apply zip_with_idem. intros m row.
  apply zip_with_idem. intros [|] [y0 x0 y1 x1]; reflexivity.
Qed.

Lemma box_where_spec (keep : bool) (b : Box) :
  box_where keep b = if keep then b else minus_one_box.
Proof. destruct keep; destruct b; reflexivity. Qed.

Lemma detection_mask_length (n : nat) (num_detections : list Z) :
  length (detection_mask n num_detections) = length num_detections.
Proof. apply length_map. Qed.

Lemma detection_mask_nth (n : nat) (num_detections : list Z) (i : nat) :
  (i < length num_detections)%nat ->
  nth i (detection_mask n num_detections) []
  = map (fun j => (Z.of_nat j <? nth i num_detections 0%Z)%Z) (seq 0 n).
Proof.
  intro Hi. unfold detection_mask.
  apply (@nth_map_default _ _
           (fun count => map (fun j => (Z.of_nat j <? count)%Z) (seq 0 n))
           num_detections i 0%Z []).
  exact Hi.
Qed.

(** The masked tensor, slot by slot. *)
Lemma zip_mask_masked {A : Type} (f : bool -> A -> A) (minus_one : A)
  (batch n : nat) (num_detections : list Z) (x : list (list A)) :
  (forall v, f true v = v) -> (forall v, f false v = minus_one) ->
  length num_detections = batch -> shaped batch n x ->
  masked minus_one num_detections x
         (zip_with (zip_with f) (detection_mask n num_detections) x).
Proof.
  intros Ht Hf Hn [Hx Hrows]. split.
  - rewrite zip_with_length, detection_mask_length. lia.
  - intros i Hi.
    assert (Hrow : length (nth i x []) = n).
    { rewrite Forall_forall in Hrows. apply Hrows, nth_In, Hi. }
    rewrite (zip_with_nth _ _ _ [] [] [])
      by (rewrite ?detection_mask_length; lia).
    rewrite detection_mask_nth by lia.
    split; [rewrite zip_with_length, length_map, length_seq; lia|].
    intros j Hj.
    rewrite (zip_with_nth _ _ _ false minus_one minus_one)
      by (rewrite ?length_map, ?length_seq; lia).
    rewrite (@nth_map_default _ _
               (fun j0 => (Z.of_nat j0 <? nth i num_detections 0%Z)%Z)
               (seq 0 n) j 0%nat false)
      by (rewrite length_seq; lia).
    rewrite seq_nth by lia. simpl Nat.add.
    destruct (Z.of_nat j <? nth i num_detections 0%Z)%Z; [apply Ht|apply Hf].
Qed.

Lemma where_mask_masked {A : Type} (minus_one : A) (batch n : nat)
  (num_detections : list Z) (x : list (list A)) :
  length num_detections = batch -> shaped batch n x ->
  masked minus_one num_detections x
         (where_mask (detection_mask n num_detections) x minus_one).
Proof.
  intros Hn Hx. unfold where_mask.
  apply (@zip_mask_masked A (fun (keep : bool) v => if keep then v else minus_one)
           minus_one batch n num_detections x); auto.
Qed.

Lemma where_boxes_masked (batch n : nat) (num_detections : list Z)
  (x : list (list Box)) :
  length num_detections = batch -> shaped batch n x ->
  masked minus_one_box num_detections x
         (where_boxes (detection_mask n num_detections) x).
Proof.
  intros Hn Hx. unfold where_boxes.
  apply (@zip_mask_masked Box box_where minus_one_box batch n num_detections x);
    auto; intro v; rewrite box_where_spec; reflexivity.
Qed.

Lemma width_shaped {A : Type} (batch n : nat) (x : list (list A)) :
  shaped batch n x -> (1 <= batch)%nat -> width x = n.
Proof.
  intros [Hl Hr] Hb. destruct x as [|row x]; [simpl in Hl; lia|].
  simpl. inversion Hr; assumption.
Qed.

(* ================================================================== *)
(** * [mask_invalid_detections], step by step *)

Lemma has_shape_shaped {A : Type} (batch n : nat) (x : list (list A)) :
  has_shape batch n x = true <-> shaped batch n x.
Proof.
  unfold has_shape, shaped.
  rewrite Bool.andb_true_iff, Nat.eqb_eq, forallb_forall, Forall_forall.
  split; intros [H1 H2]; (split; [exact H1|]); intros row Hrow;
    apply Nat.eqb_eq, H2, Hrow.
Qed.

Lemma zip_mask_shaped {A : Type} (f : bool -> A -> A) (n : nat)
  (num_detections : list Z) (x : list (list A)) :
  shaped (length num_detections) n x ->
  shaped (length num_detections) n
         (zip_with (zip_with f) (detection_mask n num_detections) x).
Proof.
  intros [Hl Hr]. unfold detection_mask. split.
  - rewrite zip_with_length, length_map. lia.
  - clear Hl. revert x Hr.
    induction num_detections as [|c cs IH]; intros x Hr; [constructor|].
    destruct x as [|row x]; [constructor|].
    simpl map. rewrite zip_with_cons. inversion Hr; subst. constructor.
    + rewrite zip_with_length, length_map, length_seq. lia.
    + apply IH. assumption.
Qed.

Lemma where_mask_has_shape {A : Type} (n : nat) (num_detections : list Z)
  (x : list (list A)) (minus_one : A) :
  has_shape (length num_detections) n x = true ->
  has_shape (length num_detections) n
            (where_mask (detection_mask n num_detections) x minus_one) = true.
Proof.
  rewrite !has_shape_shaped. apply zip_mask_shaped.
Qed.

Lemma where_boxes_has_shape (n : nat) (num_detections : list Z)
  (x : list (list Box)) :
  has_shape (length num_detections) n x = true ->
  has_shape (length num_detections) n
            (where_boxes (detection_mask n num_detections) x) = true.
Proof.
  rewrite !has_shape_shaped. apply zip_mask_shaped.
Qed.

(** The function on a dictionary that holds a box tensor, a count vector
    and labels of one of the two tensor kinds, of matching shapes. *)
Lemma mask_invalid_detections_run (d : dict) (b : list (list Box)) (n : list Z)
  (lv l' : value) :
  dict_get "boxes" d = Some (FloatBoxes b) ->
  dict_get "num_detections" d = Some (IntVector n) ->
  dict_get "labels" d = Some lv ->
  has_shape (length n) (width b) b = true ->
  masked_value (width b) n lv = Some l' ->
  let mask := detection_mask (width b) n in
  let d2 := dict_set "labels" l'
              (dict_set "boxes" (FloatBoxes (where_boxes mask b)) d) in
  mask_invalid_detections (PyDict d)
  = match dict_get "confidence" d with
    | None | Some PyNone => Return d2
    | Some cv =>
        match masked_value (width b) n cv with
        | Some c' => Return (dict_set "confidence" c' d2)
        | None => Raise OutsideFormat
        end
    end.
Proof.
  intros Hb Hn Hl Hs Hm mask d2. unfold mask_invalid_detections, dict_has.
  rewrite Hb, Hn, Hl. cbn [negb orb and_then]. cbv zeta. rewrite Hs.
  cbn [negb]. unfold masked_value in *. cbv zeta in Hm. fold mask. fold mask in Hm.
  destruct lv as [| | | | x | x |]; try discriminate Hm;
    destruct (has_shape (length n) (width b) x); try discriminate Hm;
    injection Hm as <-; cbn [and_then];
    destruct (dict_get "confidence" d) as [[| | | | c | c |]|];
    try reflexivity;
    destruct (has_shape (length n) (width b) c); reflexivity.
Qed.

(** Conversely, a call that returns was of that form. *)
Lemma mask_invalid_detections_inv (v : value) (d' : dict) :
  mask_invalid_detections v = Return d' ->
  exists d b n lv l',
    v = PyDict d
    /\ dict_get "boxes" d = Some (FloatBoxes b)
    /\ dict_get "num_detections" d = Some (IntVector n)
    /\ dict_get "labels" d = Some lv
    /\ has_shape (length n) (width b) b = true
    /\ masked_value (width b) n lv = Some l'
    /\ let mask := detection_mask (width b) n in
       let d2 := dict_set "labels" l'
                   (dict_set "boxes" (FloatBoxes (where_boxes mask b)) d) in
       ((dict_get "confidence" d = None \/ dict_get "confidence" d = Some PyNone)
        /\ d' = d2)
       \/ exists cv c', dict_get "confidence" d = Some cv
                        /\ masked_value (width b) n cv = Some c'
                        /\ d' = dict_set "confidence" c' d2.
Proof.
  intro H. destruct v as [| |d| | | |]; try discriminate H.
  unfold mask_invalid_detections, dict_has in H.
  destruct (dict_get "labels" d) as [lv|] eqn:Hl; [|discriminate H].
  destruct (dict_get "boxes" d) as [bv|] eqn:Hb; [|discriminate H].
  destruct (dict_get "num_detections" d) as [nv|] eqn:Hn; [|discriminate H].
  cbn [negb orb] in H.
  destruct bv as [|bs|bd|b|bx|bx|bx];
    try (destruct lv as [|ls| | | | |]; try discriminate H;
         destruct (length bs =? length ls)%nat; discriminate H);
    try discriminate H.
  cbn [and_then] in H.
  destruct nv as [| | | | | |n]; try discriminate H.
  cbv zeta in H.
  destruct (has_shape (length n) (width b) b) eqn:Hs; [|discriminate H].
  cbn [negb] in H.
  assert (Hrun : forall l', masked_value (width b) n lv = Some l' ->
                 mask_invalid_detections (PyDict d) = _)
    by (intros l' Hm;
        exact (@mask_invalid_detections_run d b n lv l' Hb Hn Hl Hs Hm)).
  destruct (masked_value (width b) n lv) as [l'|] eqn:Hm.
  - specialize (Hrun l' eq_refl). cbv zeta in Hrun.
    assert (H' : mask_invalid_detections (PyDict d) = Return d').
    { unfold mask_invalid_detections, dict_has.
      rewrite Hl, Hb, Hn. cbn [negb orb and_then]. cbv zeta. rewrite Hs.
      exact H. }
    rewrite Hrun in H'. clear Hrun H.
    exists d, b, n, lv, l'.
    split; [reflexivity|].
    split; [exact Hb|]. split; [exact Hn|]. split; [exact Hl|].
    split; [exact Hs|]. split; [exact Hm|]. cbv zeta.
    destruct (dict_get "confidence" d) as [cv|] eqn:Hc.
    + destruct (masked_value (width b) n cv) as [c'|] eqn:Hmc.
      * destruct cv; try discriminate Hmc;
          (right; eexists; exists c'; split; [reflexivity|];
           split; [exact Hmc|]; injection H' as <-; reflexivity).
      * destruct cv; try discriminate H'.
        left. split; [right; reflexivity|]. injection H' as <-. reflexivity.
    + left. split; [left; reflexivity|]. injection H' as <-. reflexivity.
  - exfalso. clear Hrun. unfold masked_value in Hm. cbv zeta in Hm.
    destruct lv as [| | | | l | l |]; try discriminate H;
      destruct (has_shape (length n) (width b) l); discriminate.
Qed.

(* ================================================================== *)
(** * Properties of [mask_invalid_detections] *)

(** [mask_invalid_detections], missing keys.  An argument that is not a
    dictionary, or a dictionary without 'boxes' or without 'labels', raises
    the first [ValueError]; a dictionary with both but without
    'num_detections' raises the second one.  Nothing else is looked at
    before. *)
Theorem mask_invalid_detections_missing_keys (v : value) :
  has_required_keys v = false ->
  mask_invalid_detections v
  = Raise (ValueError
             match v with
             | PyDict d =>
                 if dict_has "boxes" d && dict_has "labels" d
                 then ExpectedNumDetections
                 else ExpectedBoxesAndLabels
             | _ => ExpectedBoxesAndLabels
             end).
Proof.
  intro H. destruct v as [| |d| | | |]; try reflexivity.
  unfold has_required_keys in H. unfold mask_invalid_detections.
  destruct (dict_has "boxes" d), (dict_has "labels" d); try reflexivity.
  simpl in H. rewrite H. reflexivity.
Qed.

Lemma mask_invalid_detections_missing_keys_witness :
  mask_invalid_detections
    (PyDict [("boxes"%string, FloatBoxes [[mkBox 0 0 1 1]]);
             ("labels"%string, IntTensor [[0%Z]])])
  = Raise (ValueError ExpectedNumDetections).
Proof.
  apply (@mask_invalid_detections_missing_keys
           (PyDict [("boxes"%string, FloatBoxes [[mkBox 0 0 1 1]]);
                    ("labels"%string, IntTensor [[0%Z]])])).
  reflexivity.
Defined.

(** [mask_invalid_detections], lists.  When 'boxes' is a Python list no
    result is returned: the call raises [ValueError] if 'labels' is not a
    list or has another length, and otherwise fails on [boxes.shape]. *)
Theorem mask_invalid_detections_rejects_lists (d : dict) (bs : list value) :
  dict_get "boxes" d = Some (PyList bs) ->
  dict_has "labels" d = true ->
  dict_has "num_detections" d = true ->
  mask_invalid_detections (PyDict d)
  = match dict_get "labels" d with
    | Some (PyList ls) =>
        if (length bs =? length ls)%nat then Raise AttributeError
        else Raise (ValueError ListsMustHaveSameLength)
    | _ => Raise (ValueError LabelsMustBeList)
    end.
Proof.
  intros Hb Hl Hn. unfold mask_invalid_detections.
  assert (Hb' : dict_has "boxes" d = true) by (unfold dict_has; rewrite Hb; reflexivity).
  rewrite Hb', Hl, Hn, Hb. cbn [negb orb].
  unfold dict_has in Hl.
  destruct (dict_get "labels" d) as [[|ls| | | | |]|]; try discriminate Hl;
    try reflexivity.
  destruct (length bs =? length ls)%nat; reflexivity.
Qed.

Lemma mask_invalid_detections_rejects_lists_witness :
  mask_invalid_detections
    (PyDict [("boxes"%string, PyList [PyNone]);
             ("labels"%string, PyList [PyNone]);
             ("num_detections"%string, IntVector [1%Z])])
  = Raise AttributeError.
Proof.
  apply (@mask_invalid_detections_rejects_lists
           [("boxes"%string, PyList [PyNone]);
            ("labels"%string, PyList [PyNone]);
            ("num_detections"%string, IntVector [1%Z])] [PyNone]);
    reflexivity.
Defined.

Lemma shaped_width {A B : Type} (batch n : nat) (b : list (list B))
  (x : list (list A)) :
  shaped batch n b -> shaped batch n x -> shaped batch (width b) x.
Proof.
  intros Hb [Hl Hr]. split; [exact Hl|].
  destruct x as [|row x]; [constructor|].
  rewrite (@width_shaped B batch n b Hb) by (simpl in Hl; lia). exact Hr.
Qed.

(** [mask_invalid_detections], the result.  On a dictionary in the
    bounding-box format (boxes of shape [batch, n, 4], integer labels of
    shape [batch, n], [num_detections] of shape [batch], and optionally a
    confidence tensor of shape [batch, n]) the call returns a dictionary
    with the same tensors, except that in every image [i] each slot
    [j >= num_detections[i]] holds -1: in all four coordinates of the box,
    in the label, and in the confidence.  Slots [j < num_detections[i]]
    and [num_detections] itself are unchanged, and no 'confidence' entry
    appears when there was none. *)
Theorem mask_invalid_detections_masks_slots (d : dict) (batch n : nat)
  (b : list (list Box)) (l : list (list Z)) (c : option (list (list Q)))
  (counts : list Z) :
  dict_get "boxes" d = Some (FloatBoxes b) ->
  dict_get "labels" d = Some (IntTensor l) ->
  dict_get "confidence" d = confidence_entry c ->
  dict_get "num_detections" d = Some (IntVector counts) ->
  length counts = batch ->
  shaped batch n b -> shaped batch n l ->
  (forall x, c = Some x -> shaped batch n x) ->
  exists d' b' l' c',
    mask_invalid_detections (PyDict d) = Return d'
    /\ dict_get "boxes" d' = Some (FloatBoxes b')
    /\ masked minus_one_box counts b b'
    /\ dict_get "labels" d' = Some (IntTensor l')
    /\ masked (-1)%Z counts l l'
    /\ dict_get "confidence" d' = confidence_entry c'
    /\ match c, c' with
       | Some x, Some x' => masked (- (1)) counts x x'
       | None, None => True
       | _, _ => False
       end
    /\ dict_get "num_detections" d' = Some (IntVector counts).
Proof.
  intros Hb Hl Hc Hn Hcounts Hsb Hsl Hsc.
  set (mask := detection_mask (width b) counts).
  assert (Hwb : has_shape (length counts) (width b) b = true).
  { apply has_shape_shaped. rewrite Hcounts.
    apply (@shaped_width Box Box batch n b b Hsb Hsb). }
  assert (Hwl : has_shape (length counts) (width b) l = true).
  { apply has_shape_shaped. rewrite Hcounts.
    apply (@shaped_width Z Box batch n b l Hsb Hsl). }
  assert (Hml' : masked_value (width b) counts (IntTensor l)
                 = Some (IntTensor (where_mask mask l (-1)%Z))).
  { unfold masked_value. cbv zeta. rewrite Hwl. reflexivity. }
  pose proof (@mask_invalid_detections_run d b counts (IntTensor l)
                (IntTensor (where_mask mask l (-1)%Z)) Hb Hn Hl Hwb Hml')
    as Hrun.
  cbv zeta in Hrun. fold mask in Hrun.
  assert (Hmb : masked minus_one_box counts b (where_boxes mask b)).
  { apply (@where_boxes_masked batch (width b) counts b Hcounts).
    apply (@shaped_width Box Box batch n b b Hsb Hsb). }
  assert (Hml : masked (-1)%Z counts l (where_mask mask l (-1)%Z)).
  { apply (@where_mask_masked Z (-1)%Z batch (width b) counts l Hcounts).
    apply (@shaped_width Z Box batch n b l Hsb Hsl). }
  destruct c as [x|]; simpl in Hc; rewrite Hc in Hrun.
  - assert (Hwx : has_shape (length counts) (width b) x = true).
    { apply has_shape_shaped. rewrite Hcounts.
      apply (@shaped_width Q Box batch n b x Hsb). apply Hsc. reflexivity. }
    unfold masked_value in Hrun. cbv zeta in Hrun. rewrite Hwx in Hrun.
    fold mask in Hrun.
    eexists. exists (where_boxes mask b), (where_mask mask l (-1)%Z),
      (Some (where_mask mask x (- (1)))).
    split; [exact Hrun|].
    split; [rewrite !dict_get_set_other by discriminate;
            apply dict_get_set_same|].
    split; [exact Hmb|].
    split; [rewrite dict_get_set_other by discriminate; apply dict_get_set_same|].
    split; [exact Hml|].
    split; [apply dict_get_set_same|].
    split.
    + apply (@where_mask_masked Q (- (1)) batch (width b) counts x Hcounts).
      apply (@shaped_width Q Box batch n b x Hsb). apply Hsc. reflexivity.
    + rewrite !dict_get_set_other by discriminate. exact Hn.
  - eexists. exists (where_boxes mask b), (where_mask mask l (-1)%Z), None.
    split; [exact Hrun|].
    split; [rewrite !dict_get_set_other by discriminate;
            apply dict_get_set_same|].
    split; [exact Hmb|].
    split; [apply dict_get_set_same|].
    split; [exact Hml|].
    split; [rewrite !dict_get_set_other by discriminate; exact Hc|].
    split; [exact I|].
    rewrite !dict_get_set_other by discriminate. exact Hn.
Qed.

Lemma mask_invalid_detections_masks_slots_witness :
  exists d' b' l' c',
    mask_invalid_detections
      (PyDict [("boxes"%string, FloatBoxes [[mkBox 0 0 1 1; mkBox 0 2 1 3]]);
               ("confidence"%string, FloatTensor [[1 # 2; 1 # 3]]);
               ("labels"%string, IntTensor [[0; 1]%Z]);
               ("num_detections"%string, IntVector [1%Z])])
    = Return d'
    /\ dict_get "boxes" d' = Some (FloatBoxes b')
    /\ masked minus_one_box [1%Z] [[mkBox 0 0 1 1; mkBox 0 2 1 3]] b'
    /\ dict_get "labels" d' = Some (IntTensor l')
    /\ masked (-1)%Z [1%Z] [[0; 1]%Z] l'
    /\ dict_get "confidence" d' = confidence_entry c'
    /\ match Some [[1 # 2; 1 # 3]], c' with
       | Some x, Some x' => masked (- (1)) [1%Z] x x'
       | None, None => True
       | _, _ => False
       end
    /\ dict_get "num_detections" d' = Some (IntVector [1%Z]).
Proof.
  apply (@mask_invalid_detections_masks_slots
           [("boxes"%string, FloatBoxes [[mkBox 0 0 1 1; mkBox 0 2 1 3]]);
            ("confidence"%string, FloatTensor [[1 # 2; 1 # 3]]);
            ("labels"%string, IntTensor [[0; 1]%Z]);
            ("num_detections"%string, IntVector [1%Z])]
           1 2 [[mkBox 0 0 1 1; mkBox 0 2 1 3]] [[0; 1]%Z]
           (Some [[1 # 2; 1 # 3]]) [1%Z]);
    try reflexivity.
  - split; [reflexivity|repeat constructor].
  - split; [reflexivity|repeat constructor].
  - intros x Hx. injection Hx as <-. split; [reflexivity|repeat constructor].
Defined.

(* ================================================================== *)
(** * Masking twice, and what the masking leaves alone *)

Lemma masked_value_idem (n : nat) (counts : list Z) (v v' : value) :
  masked_value n counts v = Some v' -> masked_value n counts v' = Some v'.
Proof.
  unfold masked_value. cbv zeta.
  destruct v as [| | | | x | x |]; try discriminate;
    destruct (has_shape (length counts) n x) eqn:Hs; try discriminate;
    intro H; injection H as <-;
    rewrite (@where_mask_has_shape _ n counts x _ Hs), where_mask_idem;
    reflexivity.
Qed.

(** The mask is computed from the width of the boxes, which the masking
    does not change. *)
Lemma detection_mask_stable (b : list (list Box)) (n : list Z) :
  detection_mask (width (where_boxes (detection_mask (width b) n) b)) n
  = detection_mask (width b) n.
Proof.
  destruct n as [|c n]; [reflexivity|].
  destruct b as [|row b]; [reflexivity|].
  unfold where_boxes. simpl detection_mask at 2. rewrite zip_with_cons.
  simpl width. rewrite zip_with_length, length_map, length_seq, Nat.min_id.
  reflexivity.
Qed.

(** [mask_invalid_detections], idempotence.  A result of the function is
    returned unchanged when the function is applied to it again. *)
Theorem mask_invalid_detections_idempotent (v : value) (d' : dict) :
  mask_invalid_detections v = Return d' ->
  mask_invalid_detections (PyDict d') = Return d'.
Proof.
  intro H.
  destruct (mask_invalid_detections_inv _ H)
    as [d [b [n [lv [l' [_ [Hb [Hn [Hl [Hs [Hm Hd']]]]]]]]]]].
  cbv zeta in Hd'.
  pose proof (detection_mask_stable b n) as Hmask.
  assert (Hw : width (where_boxes (detection_mask (width b) n) b) = width b).
  { destruct n as [|c n]; destruct b as [|row b]; try reflexivity.
    - discriminate Hs.
    - unfold where_boxes. simpl detection_mask. rewrite zip_with_cons.
      simpl width. rewrite zip_with_length, length_map, length_seq.
      apply Nat.min_id. }
  pose proof (@where_boxes_has_shape (width b) n b Hs) as Hs'.
  set (mask := detection_mask (width b) n) in *.
  set (b' := where_boxes mask b) in *.
  set (d2 := dict_set "labels" l' (dict_set "boxes" (FloatBoxes b') d)) in *.
  assert (Hb2 : dict_get "boxes" d2 = Some (FloatBoxes b')).
  { unfold d2. rewrite dict_get_set_other by discriminate.
    apply dict_get_set_same. }
  assert (Hl2 : dict_get "labels" d2 = Some l')
    by (unfold d2; apply dict_get_set_same).
  assert (Hn2 : dict_get "num_detections" d2 = Some (IntVector n)).
  { unfold d2. rewrite !dict_get_set_other by discriminate. exact Hn. }
  assert (Hc2 : dict_get "confidence" d2 = dict_get "confidence" d).
  { unfold d2. rewrite !dict_get_set_other by discriminate. reflexivity. }
  assert (Hbb : where_boxes mask b' = b') by apply where_boxes_idem.
  pose proof (masked_value_idem _ _ _ Hm) as Hm'.
  rewrite <- Hw in Hs', Hm'.
  destruct Hd' as [[Hnone ->]|[cv [c' [Hc [Hmc ->]]]]].
  - rewrite (@mask_invalid_detections_run d2 b' n l' l' Hb2 Hn2 Hl2 Hs' Hm').
    cbv zeta. rewrite Hmask, Hbb, Hc2.
    rewrite (dict_set_same _ _ Hb2), (dict_set_same _ _ Hl2).
    destruct Hnone as [-> | ->]; reflexivity.
  - set (d3 := dict_set "confidence" c' d2).
    assert (Hb3 : dict_get "boxes" d3 = Some (FloatBoxes b')).
    { unfold d3. rewrite dict_get_set_other by discriminate. exact Hb2. }
    assert (Hl3 : dict_get "labels" d3 = Some l').
    { unfold d3. rewrite dict_get_set_other by discriminate. exact Hl2. }
    assert (Hn3 : dict_get "num_detections" d3 = Some (IntVector n)).
    { unfold d3. rewrite dict_get_set_other by discriminate. exact Hn2. }
    assert (Hc3 : dict_get "confidence" d3 = Some c')
      by (unfold d3; apply dict_get_set_same).
    rewrite (@mask_invalid_detections_run d3 b' n l' l' Hb3 Hn3 Hl3 Hs' Hm').
    cbv zeta. rewrite Hmask, Hbb, Hc3.
    rewrite (dict_set_same _ _ Hb3), (dict_set_same _ _ Hl3).
    rewrite Hw, (masked_value_idem _ _ _ Hmc).
    rewrite (dict_set_same _ _ Hc3).
    destruct c'; reflexivity.
Qed.

Lemma mask_invalid_detections_idempotent_witness :
  mask_invalid_detections
    (PyDict [("boxes"%string, FloatBoxes [[minus_one_box]]);
             ("labels"%string, IntTensor [[(-1)%Z]]);
             ("num_detections"%string, IntVector [0%Z])])
  = Return [("boxes"%string, FloatBoxes [[minus_one_box]]);
            ("labels"%string, IntTensor [[(-1)%Z]]);
            ("num_detections"%string, IntVector [0%Z])].
Proof.
  apply (@mask_invalid_detections_idempotent
           (PyDict [("boxes"%string, FloatBoxes [[mkBox 0 0 1 1]]);
                    ("labels"%string, IntTensor [[3%Z]]);
                    ("num_detections"%string, IntVector [0%Z])])).
  reflexivity.
Defined.

(** [mask_invalid_detections], what is left alone.  A call that returns
    was given a dictionary; the result has the same keys in the same
    order, and under every key other than 'boxes', 'labels' and
    'confidence' the same value: in particular [num_detections] is passed
    on as it is, and no key is added. *)
Theorem mask_invalid_detections_keeps_other_entries (v : value) (d' : dict) :
  mask_invalid_detections v = Return d' ->
  exists d,
    v = PyDict d
    /\ map fst d' = map fst d
    /\ forall k : String.string,
         k <> "boxes"%string -> k <> "labels"%string ->
         k <> "confidence"%string ->
         dict_get k d' = dict_get k d.
Proof.
  intro H.
  destruct (mask_invalid_detections_inv _ H)
    as [d [b [n [lv [l' [-> [Hb [Hn [Hl [_ [Hm Hd']]]]]]]]]]].
  cbv zeta in Hd'. exists d. split; [reflexivity|].
  set (mask := detection_mask (width b) n) in *.
  set (d1 := dict_set "boxes" (FloatBoxes (where_boxes mask b)) d) in *.
  set (d2 := dict_set "labels" l' d1) in *.
  assert (Hhb : dict_has "boxes" d = true)
    by (apply dict_has_get; eexists; exact Hb).
  assert (Hhl : dict_has "labels" d = true)
    by (apply dict_has_get; eexists; exact Hl).
  assert (Hk2 : map fst d2 = map fst d).
  { unfold d2. rewrite dict_set_keys.
    - unfold d1. apply dict_set_keys, Hhb.
    - unfold d1. apply dict_has_set, Hhl. }
  assert (Hg2 : forall k : String.string,
             k <> "boxes"%string -> k <> "labels"%string ->
             dict_get k d2 = dict_get k d).
  { intros k H1 H2. unfold d2, d1.
    rewrite !dict_get_set_other by assumption. reflexivity. }
  destruct Hd' as [[_ ->]|[cv [c' [Hc [_ ->]]]]].
  - split; [exact Hk2|]. intros k H1 H2 _. apply Hg2; assumption.
  - split.
    + rewrite dict_set_keys; [exact Hk2|].
      apply dict_has_get. exists cv. rewrite Hg2 by discriminate. exact Hc.
    + intros k H1 H2 H3. rewrite dict_get_set_other by exact H3.
      apply Hg2; assumption.
Qed.

Lemma mask_invalid_detections_keeps_other_entries_witness :
  exists d,
    PyDict [("boxes"%string, FloatBoxes [[mkBox 0 0 1 1]]);
            ("labels"%string, IntTensor [[3%Z]]);
            ("num_detections"%string, IntVector [0%Z])]
    = PyDict d
    /\ map fst [("boxes"%string, FloatBoxes [[minus_one_box]]);
                ("labels"%string, IntTensor [[(-1)%Z]]);
                ("num_detections"%string, IntVector [0%Z])]
       = map fst d
    /\ forall k : String.string,
         k <> "boxes"%string -> k <> "labels"%string ->
         k <> "confidence"%string ->
         dict_get k [("boxes"%string, FloatBoxes [[minus_one_box]]);
                     ("labels"%string, IntTensor [[(-1)%Z]]);
                     ("num_detections"%string, IntVector [0%Z])]
         = dict_get k d.
Proof.
  apply (@mask_invalid_detections_keeps_other_entries
           (PyDict [("boxes"%string, FloatBoxes [[mkBox 0 0 1 1]]);
                    ("labels"%string, IntTensor [[3%Z]]);
                    ("num_detections"%string, IntVector [0%Z])])).
  reflexivity.
Defined.

(* ================================================================== *)
(** * When every slot is valid *)

Lemma zip_row_full {A : Type} (f : bool -> A -> A) (count : Z) (row : list A)
  (start : nat) :
  (forall v, f true v = v) ->
  (Z.of_nat (start + length row) <= count)%Z ->
  zip_with f (map (fun j => (Z.of_nat j <? count)%Z) (seq start (length row))) row
  = row.
Proof.
  intros Hf. revert start. induction row as [|v row IH]; intros start Hc;
    [reflexivity|].
  simpl length in *. simpl seq. simpl map. rewrite zip_with_cons.
  assert (E : (Z.of_nat start <? count)%Z = true) by (apply Z.ltb_lt; lia).
  rewrite E, Hf. f_equal. apply IH. lia.
Qed.

Lemma zip_mask_full {A : Type} (f : bool -> A -> A) (n : nat)
  (num_detections : list Z) (x : list (list A)) :
  (forall v, f true v = v) ->
  shaped (length num_detections) n x ->
  Forall (fun count => (Z.of_nat n <= count)%Z) num_detections ->
  zip_with (zip_with f) (detection_mask n num_detections) x = x.
Proof.
  intros Hf [Hl Hr] Hfull. unfold detection_mask. revert x Hl Hr.
  induction Hfull as [|c cs Hc Hcs IH]; intros [|row x] Hl Hr;
    try reflexivity; try discriminate Hl.
  simpl map. rewrite zip_with_cons. inversion Hr; subst. f_equal.
  - apply (@zip_row_full A f c row 0 Hf). simpl. exact Hc.
  - apply IH; [simpl in Hl; lia|assumption].
Qed.

Lemma masked_value_full (n : nat) (num_detections : list Z) (v v' : value) :
  Forall (fun count => (Z.of_nat n <= count)%Z) num_detections ->
  masked_value n num_detections v = Some v' -> v' = v.
Proof.
  intros Hfull. unfold masked_value. cbv zeta.
  destruct v as [| | | | x | x |]; try discriminate;
    destruct (has_shape (length num_detections) n x) eqn:Hs; try discriminate;
    intro H; injection H as <-; f_equal; unfold where_mask;
    apply zip_mask_full; auto; apply has_shape_shaped; exact Hs.
Qed.

(** [mask_invalid_detections], nothing to mask.  When every entry of
    [num_detections] is at least the number of slots, [boxes.shape[1]], a
    call that returns gives back a dictionary equal to its argument. *)
Theorem mask_invalid_detections_full_counts (d d' : dict)
  (b : list (list Box)) (counts : list Z) :
  dict_get "boxes" d = Some (FloatBoxes b) ->
  dict_get "num_detections" d = Some (IntVector counts) ->
  Forall (fun count => (Z.of_nat (width b) <= count)%Z) counts ->
  mask_invalid_detections (PyDict d) = Return d' ->
  d' = d.
Proof.
  intros Hb Hn Hfull H.
  destruct (mask_invalid_detections_inv _ H)
    as [d0 [b0 [n0 [lv [l' [E [Hb0 [Hn0 [Hl [Hs [Hm Hd']]]]]]]]]]].
  injection E as <-. rewrite Hb in Hb0. injection Hb0 as <-.
  rewrite Hn in Hn0. injection Hn0 as <-.
  cbv zeta in Hd'.
  assert (El : l' = lv) by exact (@masked_value_full _ _ _ _ Hfull Hm).
  subst l'.
  assert (Eb : where_boxes (detection_mask (width b) counts) b = b).
  { unfold where_boxes. apply zip_mask_full; auto.
    - intro v. rewrite box_where_spec. reflexivity.
    - apply has_shape_shaped. exact Hs. }
  rewrite Eb in Hd'.
  rewrite (dict_set_same _ _ Hb), (dict_set_same _ _ Hl) in Hd'.
  destruct Hd' as [[_ ->]|[cv [c' [Hc [Hmc ->]]]]]; [reflexivity|].
  rewrite (@masked_value_full _ _ _ _ Hfull Hmc).
  apply dict_set_same. exact Hc.
Qed.

Lemma mask_invalid_detections_full_counts_witness :
  [("boxes"%string, FloatBoxes [[mkBox 0 0 1 1; mkBox 0 2 1 3]]);
   ("labels"%string, IntTensor [[4; 7]%Z]);
   ("num_detections"%string, IntVector [2%Z]);
   ("image_id"%string, IntVector [12%Z])]
  = [("boxes"%string, FloatBoxes [[mkBox 0 0 1 1; mkBox 0 2 1 3]]);
     ("labels"%string, IntTensor [[4; 7]%Z]);
     ("num_detections"%string, IntVector [2%Z]);
     ("image_id"%string, IntVector [12%Z])].
Proof.
  apply (@mask_invalid_detections_full_counts
           [("boxes"%string, FloatBoxes [[mkBox 0 0 1 1; mkBox 0 2 1 3]]);
            ("labels"%string, IntTensor [[4; 7]%Z]);
            ("num_detections"%string, IntVector [2%Z]);
            ("image_id"%string, IntVector [12%Z])]
           _ [[mkBox 0 0 1 1; mkBox 0 2 1 3]] [2%Z]).
  - reflexivity.
  - reflexivity.
  - repeat constructor. simpl. lia.
  - reflexivity.
Defined.

(* ================================================================== *)
(** * The layer: what [call] gets from [non_max_suppression] *)

(** The selection as [call] uses it: shapes, and what each selected index
    names. *)
Lemma selection_summary (fuel N : nat) (boxes : list (list Box))
  (scores : list (list Q)) (m : nat) (t : Q) (thr : threshold) (tile_size : Z) :
  well_formed fuel N boxes scores t tile_size ->
  exists indices num_valid,
    non_max_suppression fuel N boxes scores m t thr tile_size
    = Ok (indices, num_valid)
    /\ length num_valid = length boxes
    /\ shaped (length boxes) m indices
    /\ forall i, (i < length boxes)%nat ->
         (nth i num_valid 0 <= m)%nat
         /\ forall j, (j < nth i num_valid 0)%nat ->
              (nth j (nth i indices []) 0 < N)%nat
              /\ qualifies thr (nth i boxes []) (nth i scores [])
                           (nth j (nth i indices []) 0%nat).
Proof.
  intro Hwf.
  destruct (selection_image m thr Hwf)
    as [indices [num_valid [K [Hres [Hli [Hln [_ Himg]]]]]]].
  exists indices, num_valid. split; [exact Hres|]. split; [exact Hln|].
  split.
  - split; [exact Hli|]. apply Forall_forall. intros row Hrow.
    destruct (In_nth _ _ [] Hrow) as [i [Hi <-]]. rewrite Hli in Hi.
    destruct (Himg i Hi) as [f [_ [_ [_ [_ [_ [Hrowlen _]]]]]]]. exact Hrowlen.
  - intros i Hi.
    destruct (Himg i Hi) as [f [Hb [Hs [_ [_ [Hnv [_ [_ [_ [Hsel Hkept]]]]]]]]]].
    split; [rewrite Hnv; unfold num_valid_image; lia|].
    intros j Hj.
    destruct (Hsel j Hj) as [E [Hin _]]. rewrite E.
    destruct (Hkept _ Hin) as [HpN Hv].
    pose proof (proj2 (proj1 (kept_from_spec 0 f _) Hin)) as Hpos.
    rewrite Nat.sub_0_r, Hv in Hpos.
    destruct (@sorted_image_qualifies thr (nth i boxes []) (nth i scores [])
                (nth j (kept_from 0 f) 0%nat)) as [Hlt [Hq _]];
      [congruence|lia|exact Hpos|].
    split; [rewrite <- Hs; exact Hlt|exact Hq].
Qed.

(** ** Gathering along the box axis *)

Lemma take_along_axis_shaped {A : Type} (x : list (list A))
  (idx : list (list nat)) (d : A) (batch m : nat) :
  length x = batch -> shaped batch m idx ->
  shaped batch m (take_along_axis x idx d).
Proof.
  intros Hx [Hl Hr]. unfold take_along_axis. split.
  - rewrite zip_with_length. lia.
  - apply Forall_forall. intros row Hrow.
    apply zip_with_In in Hrow. destruct Hrow as [r [ix [_ [Hix ->]]]].
    rewrite length_map. rewrite Forall_forall in Hr. apply Hr, Hix.
Qed.

Lemma take_along_axis_nth {A : Type} (x : list (list A))
  (idx : list (list nat)) (d : A) (i j : nat) :
  (i < length x)%nat -> (i < length idx)%nat ->
  (j < length (nth i idx []))%nat ->
  nth j (nth i (take_along_axis x idx d) []) d
  = nth (nth j (nth i idx []) 0%nat) (nth i x []) d.
Proof.
  intros Hx Hidx Hj. unfold take_along_axis.
  rewrite (@zip_with_nth _ _ _ (fun row ix => map (fun k => nth k row d) ix)
             i x idx [] [] []) by assumption.
  apply (@nth_map_default _ _ (fun k => nth k (nth i x []) d)
           (nth i idx []) j 0%nat d Hj).
Qed.

Lemma map_map_shaped {A B : Type} (f : A -> B) (x : list (list A))
  (batch m : nat) :
  shaped batch m x -> shaped batch m (map (map f) x).
Proof.
  intros [Hl Hr]. split; [rewrite length_map; exact Hl|].
  apply Forall_forall. intros row Hrow. apply in_map_iff in Hrow.
  destruct Hrow as [r [<- Hr']]. rewrite length_map.
  rewrite Forall_forall in Hr. apply Hr, Hr'.
Qed.

Lemma map_map_nth {A B : Type} (f : A -> B) (x : list (list A)) (i j : nat)
  (da : A) (db : B) :
  (i < length x)%nat -> (j < length (nth i x []))%nat ->
  nth j (nth i (map (map f) x) []) db = f (nth j (nth i x []) da).
Proof.
  intros Hi Hj.
  rewrite (@nth_map_default _ _ (map f) x i [] [] Hi).
  apply (@nth_map_default _ _ f (nth i x []) j da db Hj).
Qed.

Lemma shaped_nth {A : Type} (batch m : nat) (x : list (list A)) (i : nat) :
  shaped batch m x -> (i < batch)%nat -> length (nth i x []) = m.
Proof.
  intros [Hl Hr] Hi. rewrite Forall_forall in Hr. apply Hr, nth_In. lia.
Qed.

(** ** [argmax] *)

Lemma qmax_list_ge (l : list Q) (x : Q) : In x l -> x <= qmax_list l.
Proof.
  induction l as [|y l IH]; [intros []|].
  intro Hin. destruct l as [|z l].
  - destruct Hin as [<-|[]]. simpl. apply Qle_refl.
  - change (qmax_list (y :: z :: l)) with (Qmax y (qmax_list (z :: l))).
    destruct Hin as [<-|Hin].
    + apply Q.le_max_l.
    + apply Qle_trans with (qmax_list (z :: l)); [apply IH, Hin|].
      apply Q.le_max_r.
Qed.

Lemma argmax_from_spec (l pre : list Q) (best : Q) (best_i : nat) :
  (best_i < length pre)%nat -> nth best_i pre 0 = best ->
  (forall x, In x pre -> x <= best) ->
  (forall p, (p < best_i)%nat -> nth p pre 0 < best) ->
  let r := argmax_from best best_i (length pre) l in
  (r < length (pre ++ l))%nat
  /\ (forall x, In x (pre ++ l) -> x <= nth r (pre ++ l) 0)
  /\ (forall p, (p < r)%nat -> nth p (pre ++ l) 0 < nth r (pre ++ l) 0).
Proof.
  revert pre best best_i.
  induction l as [|x l IH]; intros pre best best_i Hi Hbest Hle Hlt; simpl.
  - rewrite app_nil_r. rewrite Hbest. auto.
  - replace (pre ++ x :: l) with ((pre ++ [x]) ++ l)
      by (rewrite <- app_assoc; reflexivity).
    replace (S (length pre)) with (length (pre ++ [x]))
      by (rewrite length_app; simpl; lia).
    destruct (Qlt_bool best x) eqn:E.
    + apply Qlt_bool_iff in E. apply IH.
      * rewrite length_app. simpl. lia.
      * rewrite app_nth2 by lia. rewrite Nat.sub_diag. reflexivity.
      * intros y Hy. apply in_app_iff in Hy. destruct Hy as [Hy|[<-|[]]].
        -- apply Qlt_le_weak. apply Qle_lt_trans with best; [apply Hle, Hy|exact E].
        -- apply Qle_refl.
      * intros p Hp. rewrite app_nth1 by exact Hp.
        apply Qle_lt_trans with best; [|exact E].
        apply Hle, nth_In, Hp.
    + apply Qlt_bool_false_iff in E. apply IH.
      * rewrite length_app. simpl. lia.
      * rewrite app_nth1 by exact Hi. exact Hbest.
      * intros y Hy. apply in_app_iff in Hy. destruct Hy as [Hy|[<-|[]]].
        -- apply Hle, Hy.
        -- exact E.
      * intros p Hp. rewrite app_nth1 by lia. apply Hlt, Hp.
Qed.

(** [argmax] gives the first position that holds the maximum. *)
Lemma argmax_spec (l : list Q) :
  l <> [] ->
  (argmax l < length l)%nat
  /\ nth (argmax l) l 0 == qmax_list l
  /\ forall p, (p < argmax l)%nat -> nth p l 0 < qmax_list l.
Proof.
  intro Hne. destruct l as [|x l]; [congruence|].
  destruct (@argmax_from_spec l [x] x 0%nat) as [H1 [H2 H3]].
  - simpl. lia.
  - reflexivity.
  - intros y [<-|[]]. apply Qle_refl.
  - intros p Hp. lia.
  - simpl length in *. change ([x] ++ l) with (x :: l) in *.
    change (argmax_from x 0 1 l) with (argmax (x :: l)) in *.
    assert (E : nth (argmax (x :: l)) (x :: l) 0 == qmax_list (x :: l)).
    { apply Qle_antisym.
      - apply qmax_list_ge, nth_In, H1.
      - apply H2, qmax_list_In. discriminate. }
    split; [exact H1|]. split; [exact E|].
    intros p Hp. rewrite <- E. apply H3, Hp.
Qed.

(** ** The dictionary [call] builds *)

(** [mask_invalid_detections] on the dictionary of the layer. *)
Lemma mask_invalid_detections_layer (b : list (list Box)) (c : list (list Q))
  (l : list (list Z)) (counts : list Z) (m : nat) :
  (1 <= length counts)%nat ->
  shaped (length counts) m b -> shaped (length counts) m c ->
  shaped (length counts) m l ->
  mask_invalid_detections
    (PyDict [("boxes"%string, FloatBoxes b);
             ("confidence"%string, FloatTensor c);
             ("labels"%string, IntTensor l);
             ("num_detections"%string, IntVector counts)])
  = Return [("boxes"%string,
             FloatBoxes (where_boxes (detection_mask m counts) b));
            ("confidence"%string,
             FloatTensor (where_mask (detection_mask m counts) c (- (1))));
            ("labels"%string,
             IntTensor (where_mask (detection_mask m counts) l (-1)%Z));
            ("num_detections"%string, IntVector counts)].
Proof.
  intros Hbatch Hb Hc Hl.
  assert (Hw : width b = m) by exact (@width_shaped _ _ _ b Hb Hbatch).
  apply has_shape_shaped in Hb, Hc, Hl.
  unfold mask_invalid_detections, dict_has. simpl dict_get.
  cbn [negb orb and_then]. cbv zeta. rewrite Hw, Hb, Hl, Hc.
  reflexivity.
Qed.

Lemma class_scores_shaped (K : keras) (self : NonMaxSuppression.t)
  (class_prediction : list (list (list Q))) (batch N C : nat) :
  shaped batch N class_prediction ->
  Forall (Forall (fun c => length c = C)) class_prediction ->
  shaped batch N (class_scores K self class_prediction)
  /\ Forall (Forall (fun c => length c = C))
            (class_scores K self class_prediction).
Proof.
  intros Hs Hc. unfold class_scores.
  destruct (NonMaxSuppression.from_logits self); [|split; assumption].
  split; [apply map_map_shaped, Hs|].
  apply Forall_forall. intros img Himg. apply in_map_iff in Himg.
  destruct Himg as [img0 [<- Himg0]].
  rewrite Forall_forall in Hc. specialize (Hc _ Himg0).
  apply Forall_forall. intros c Hcin. apply in_map_iff in Hcin.
  destruct Hcin as [c0 [<- Hc0]]. rewrite length_map.
  rewrite Forall_forall in Hc. apply Hc, Hc0.
Qed.

(** The first lines of [call], when they find a target format. *)
Lemma call_prelude (format : String.string) (images : option (list nat))
  (target : String.string) (height width : option nat)
  (k : String.string * option nat * option nat -> outcome dict) :
  conversion_target format images = Some (target, height, width) ->
  (if contains "rel" format
      && match images with None => true | Some _ => false end
   then Raise (ValueError ImagesRequired)
   else
     t <~ (if contains "rel" format then
             match images with
             | Some [h; w; _] => Return ("rel_yxyx"%string, Some h, Some w)
             | _ => Raise (ValueError ShapeUnpack)
             end
           else Return ("yxyx"%string, None, None)) ;;
     k t)
  = k (target, height, width).
Proof.
  unfold conversion_target. intro H.
  destruct (contains "rel" format).
  - destruct images as [[|h [|w [|c [|x rest]]]]|]; try discriminate H.
    injection H as <- <- <-. reflexivity.
  - injection H as <- <- <-. reflexivity.
Qed.

Lemma masked_slot {A : Type} (minus_one d : A) (counts : list Z)
  (x x' : list (list A)) (i j : nat) :
  masked minus_one counts x x' ->
  (i < length x)%nat -> (j < length (nth i x []))%nat ->
  nth j (nth i x' []) d
  = if (Z.of_nat j <? nth i counts 0%Z)%Z then nth j (nth i x []) d
    else minus_one.
Proof.
  intros [_ H] Hi Hj. destruct (H i Hi) as [Hrow Hslots].
  rewrite (nth_indep _ d minus_one) by (rewrite Hrow; exact Hj).
  rewrite (Hslots j Hj).
  destruct (Z.of_nat j <? nth i counts 0%Z)%Z; [|reflexivity].
  apply nth_indep, Hj.
Qed.

(* ================================================================== *)
(** * Properties of the layer *)

(** [NonMaxSuppression.call], the result.  For a batch of at least one
    image with [N >= 1] boxes and [C >= 1] classes, [max_detections >= 1],
    [iou_threshold >= 0], and a format whose conversion to and from the
    target format works box by box, the call returns a dictionary with
    exactly the keys 'boxes', 'confidence', 'labels' and 'num_detections',
    the first three of shape [batch, max_detections].  In image [i] the
    first [num_detections[i]] slots each hold an input box [k] of that
    image (converted to the target format and back), its largest class
    score, which exceeds [confidence_threshold], and the first class that
    reaches that score; the box has a positive coordinate in the target
    format.  Every later slot holds -1 in the box, the confidence and the
    label. *)
Theorem call_returns_detections (K : keras) (fuel N C : nat)
  (self : NonMaxSuppression.t) (box_prediction : list (list Box))
  (class_prediction : list (list (list Q))) (images : option (list nat))
  (target : String.string) (height width : option nat)
  (to_yxyx from_yxyx : Box -> Box) :
  conversion_target (NonMaxSuppression.bounding_box_format self) images
  = Some (target, height, width) ->
  (forall b, convert_format K b (NonMaxSuppression.bounding_box_format self)
                            target height width
             = Return (map (map to_yxyx) b)) ->
  (forall b, convert_format K b target
                            (NonMaxSuppression.bounding_box_format self)
                            height width
             = Return (map (map from_yxyx) b)) ->
  (1 <= length box_prediction)%nat -> (1 <= N)%nat -> (1 <= C)%nat ->
  (1 <= NonMaxSuppression.max_detections self)%nat ->
  shaped (length box_prediction) N box_prediction ->
  shaped (length box_prediction) N class_prediction ->
  Forall (Forall (fun c => length c = C)) class_prediction ->
  0 <= NonMaxSuppression.iou_threshold self ->
  (512 <= fuel)%nat ->
  exists boxes confidence labels counts,
    call K fuel N C self box_prediction class_prediction images
    = Return [("boxes"%string, FloatBoxes boxes);
              ("confidence"%string, FloatTensor confidence);
              ("labels"%string, IntTensor labels);
              ("num_detections"%string, IntVector counts)]
    /\ length counts = length box_prediction
    /\ shaped (length box_prediction) (NonMaxSuppression.max_detections self)
              boxes
    /\ shaped (length box_prediction) (NonMaxSuppression.max_detections self)
              confidence
    /\ shaped (length box_prediction) (NonMaxSuppression.max_detections self)
              labels
    /\ forall i, (i < length box_prediction)%nat ->
         exists count,
           nth i counts 0%Z = Z.of_nat count
           /\ (count <= NonMaxSuppression.max_detections self)%nat
           /\ (forall j, (j < count)%nat ->
                 exists k label,
                   let box := to_yxyx (nth k (nth i box_prediction []) zero_box) in
                   let classes :=
                     nth k (nth i (class_scores K self class_prediction) []) [] in
                   (k < N)%nat
                   /\ box_positive box = true
                   /\ exceeds (NonMaxSuppression.confidence_threshold self)
                              (qmax_list classes)
                   /\ nth j (nth i boxes []) zero_box = from_yxyx box
                   /\ nth j (nth i confidence []) 0 = qmax_list classes
                   /\ nth j (nth i labels []) 0%Z = Z.of_nat label
                   /\ (label < C)%nat
                   /\ nth label classes 0 == qmax_list classes
                   /\ forall p, (p < label)%nat ->
                        nth p classes 0 < qmax_list classes)
           /\ (forall j,
                 (count <= j < NonMaxSuppression.max_detections self)%nat ->
                 nth j (nth i boxes []) zero_box = minus_one_box
                 /\ nth j (nth i confidence []) 0 = - (1)
                 /\ nth j (nth i labels []) 0%Z = (-1)%Z).
Proof.
  intros Htarget Hto Hback Hbatch HN HC Hm Hsb Hsc Hcl Ht Hfuel.
  destruct (@class_scores_shaped K self class_prediction _ N C Hsc Hcl)
    as [Hss Hsl].
  unfold call.
  rewrite (@call_prelude _ images target height width _ Htarget).
  cbv beta iota. rewrite Hto. cbn [and_then].
  destruct (Nat.eqb_spec C 0) as [E|_]; [lia|].
  fold (class_scores K self class_prediction).
  set (scores := class_scores K self class_prediction) in *.
  set (m := NonMaxSuppression.max_detections self) in *.
  set (thr := NonMaxSuppression.confidence_threshold self) in *.
  set (bx := map (map to_yxyx) box_prediction).
  set (conf := map (map qmax_list) scores).
  assert (Hbx : shaped (length box_prediction) N bx)
    by (apply map_map_shaped, Hsb).
  assert (Hconf : shaped (length box_prediction) N conf)
    by (apply map_map_shaped, Hss).
  assert (Hlbx : length bx = length box_prediction) by apply Hbx.
  assert (Hwf : well_formed fuel N bx conf
                  (NonMaxSuppression.iou_threshold self) 512).
  { constructor.
    - exact HN.
    - intro E. rewrite E in Hlbx. simpl in Hlbx. lia.
    - rewrite Hlbx. apply Hconf.
    - apply Hbx.
    - apply Hconf.
    - lia.
    - exact Ht.
    - change (Z.to_nat 512) with 512%nat. exact Hfuel. }
  destruct (@selection_summary fuel N bx conf m
              (NonMaxSuppression.iou_threshold self) thr 512 Hwf)
    as [idx [valid_det [Hres [Hlv [Hidx Hsel]]]]].
  rewrite Hres. cbn [lift and_then]. cbv beta iota.
  destruct (Nat.eqb_spec m 0) as [E|_]; [lia|].
  rewrite Hback. cbn [and_then].
  rewrite Hlbx in Hlv, Hidx, Hsel.
  set (counts := map Z.of_nat valid_det).
  assert (Hlc : length counts = length box_prediction)
    by (unfold counts; rewrite length_map; exact Hlv).
  set (b0 := map (map from_yxyx) (take_along_axis bx idx zero_box)).
  set (c0 := take_along_axis conf idx 0).
  set (cls := take_along_axis scores idx []).
  set (l0 := map (map (fun c => Z.of_nat (argmax c))) cls).
  assert (Hb0 : shaped (length box_prediction) m b0).
  { apply map_map_shaped.
    apply (@take_along_axis_shaped _ bx idx zero_box _ m Hlbx Hidx). }
  assert (Hc0 : shaped (length box_prediction) m c0).
  { apply (@take_along_axis_shaped _ conf idx 0 _ m); [apply Hconf|exact Hidx]. }
  assert (Hcls : shaped (length box_prediction) m cls).
  { apply (@take_along_axis_shaped _ scores idx [] _ m); [apply Hss|exact Hidx]. }
  assert (Hl0 : shaped (length box_prediction) m l0)
    by (apply map_map_shaped, Hcls).
  rewrite <- Hlc in Hb0, Hc0, Hl0.
  rewrite (@mask_invalid_detections_layer b0 c0 l0 counts m)
    by (try assumption; lia).
  set (mask := detection_mask m counts).
  exists (where_boxes mask b0), (where_mask mask c0 (- (1))),
    (where_mask mask l0 (-1)%Z), counts.
  split; [reflexivity|]. split; [exact Hlc|].
  pose proof (@where_boxes_masked _ m counts b0 eq_refl Hb0) as Mb.
  pose proof (@where_mask_masked Q (- (1)) _ m counts c0 eq_refl Hc0) as Mc.
  pose proof (@where_mask_masked Z (-1)%Z _ m counts l0 eq_refl Hl0) as Ml.
  fold mask in Mb, Mc, Ml.
  split; [rewrite <- Hlc; apply zip_mask_shaped, Hb0|].
  split; [rewrite <- Hlc; apply zip_mask_shaped, Hc0|].
  split; [rewrite <- Hlc; apply zip_mask_shaped, Hl0|].
  rewrite Hlc in Hb0, Hc0, Hl0.
  intros i Hi. exists (nth i valid_det 0%nat).
  destruct (Hsel i Hi) as [Hcount Hslots].
  assert (Ecount : nth i counts 0%Z = Z.of_nat (nth i valid_det 0%nat)).
  { unfold counts.
    apply (@nth_map_default _ _ Z.of_nat valid_det i 0%nat 0%Z). lia. }
  split; [exact Ecount|]. split; [exact Hcount|].
  assert (Hib0 : (i < length b0)%nat) by (rewrite (proj1 Hb0); exact Hi).
  assert (Hic0 : (i < length c0)%nat) by (rewrite (proj1 Hc0); exact Hi).
  assert (Hil0 : (i < length l0)%nat) by (rewrite (proj1 Hl0); exact Hi).
  assert (Hrb0 : length (nth i b0 []) = m) by exact (shaped_nth Hb0 Hi).
  assert (Hrc0 : length (nth i c0 []) = m) by exact (shaped_nth Hc0 Hi).
  assert (Hrl0 : length (nth i l0 []) = m) by exact (shaped_nth Hl0 Hi).
  assert (Slot :
            forall j, (j < m)%nat ->
              nth j (nth i (where_boxes mask b0) []) zero_box
              = (if (j <? nth i valid_det 0)%nat
                 then nth j (nth i b0 []) zero_box else minus_one_box)
              /\ nth j (nth i (where_mask mask c0 (- (1))) []) 0
                 = (if (j <? nth i valid_det 0)%nat
                    then nth j (nth i c0 []) 0 else - (1))
              /\ nth j (nth i (where_mask mask l0 (-1)%Z) []) 0%Z
                 = (if (j <? nth i valid_det 0)%nat
                    then nth j (nth i l0 []) 0%Z else (-1)%Z)).
  { intros j Hj.
    assert (Eb : (Z.of_nat j <? nth i counts 0%Z)%Z
                 = (j <? nth i valid_det 0)%nat).
    { rewrite Ecount.
      destruct (Nat.ltb_spec j (nth i valid_det 0%nat));
        [apply Z.ltb_lt|apply Z.ltb_ge]; lia. }
    rewrite <- Eb.
    split; [|split]; apply masked_slot; try assumption; lia. }
  split.
  - intros j Hj.
    destruct (Hslots j Hj) as [Hk [Hex Hpos]].
    set (k := nth j (nth i idx []) 0%nat) in *.
    assert (Hjm : (j < m)%nat) by lia.
    assert (Hjidx : (j < length (nth i idx []))%nat)
      by (rewrite (shaped_nth Hidx Hi); exact Hjm).
    assert (Hiidx : (i < length idx)%nat) by (rewrite (proj1 Hidx); exact Hi).
    assert (Hisc : (i < length scores)%nat) by (rewrite (proj1 Hss); exact Hi).
    assert (Hksc : (k < length (nth i scores []))%nat)
      by (rewrite (shaped_nth Hss Hi); exact Hk).
    assert (Hkbp : (k < length (nth i box_prediction []))%nat)
      by (rewrite (shaped_nth Hsb Hi); exact Hk).
    assert (Ebx : nth k (nth i bx []) zero_box
                  = to_yxyx (nth k (nth i box_prediction []) zero_box))
      by (apply map_map_nth; assumption).
    assert (Econf : nth k (nth i conf []) 0
                    = qmax_list (nth k (nth i scores []) []))
      by (apply map_map_nth; assumption).
    set (classes := nth k (nth i scores []) []) in *.
    assert (Hclasses : length classes = C).
    { rewrite Forall_forall in Hsl.
      specialize (Hsl (nth i scores []) (nth_In _ _ Hisc)).
      rewrite Forall_forall in Hsl. apply Hsl, nth_In, Hksc. }
    destruct (@argmax_spec classes) as [A1 [A2 A3]];
      [intro E; rewrite E in Hclasses; simpl in Hclasses; lia|].
    exists k, (argmax classes). cbv zeta. fold classes.
    destruct (Slot j Hjm) as [Sb [Sc Sl]].
    replace (j <? nth i valid_det 0)%nat with true in Sb, Sc, Sl
      by (symmetry; apply Nat.ltb_lt; exact Hj).
    split; [exact Hk|].
    split; [rewrite <- Ebx; exact Hpos|].
    split; [rewrite <- Econf; exact Hex|].
    split.
    { rewrite Sb. unfold b0.
      rewrite (@map_map_nth _ _ from_yxyx (take_along_axis bx idx zero_box)
                 i j zero_box zero_box).
      - rewrite take_along_axis_nth by (try assumption; lia).
        fold k. rewrite Ebx. reflexivity.
      - rewrite (proj1 (@take_along_axis_shaped _ bx idx zero_box _ m
                                                Hlbx Hidx)).
        exact Hi.
      - rewrite (shaped_nth (@take_along_axis_shaped _ bx idx zero_box _ m
                                                     Hlbx Hidx) Hi).
        exact Hjm. }
    split.
    { rewrite Sc. unfold c0.
      rewrite take_along_axis_nth
        by (try assumption; rewrite (proj1 Hconf); exact Hi).
      fold k. exact Econf. }
    assert (Ecls : nth j (nth i cls []) [] = classes).
    { unfold cls. rewrite take_along_axis_nth by assumption. reflexivity. }
    split.
    { rewrite Sl. unfold l0.
      rewrite (@map_map_nth _ _ (fun c => Z.of_nat (argmax c)) cls i j [] 0%Z).
      - rewrite Ecls. reflexivity.
      - rewrite (proj1 Hcls). exact Hi.
      - rewrite (shaped_nth Hcls Hi). exact Hjm. }
    split; [rewrite <- Hclasses; exact A1|].
    split; [exact A2|exact A3].
  - intros j [Hj Hjm].
    destruct (Slot j Hjm) as [Sb [Sc Sl]].
    replace (j <? nth i valid_det 0)%nat with false in Sb, Sc, Sl
      by (symmetry; apply Nat.ltb_ge; exact Hj).
    auto.
Qed.

Lemma call_returns_detections_witness :
  exists boxes confidence labels counts,
    call xyxy_keras 512 2 2 (xyxy_layer 2)
         [[mkBox 0 0 1 1; mkBox 2 0 3 1]]
         [[[1 # 10; 9 # 10]; [3 # 10; 2 # 10]]] None
    = Return [("boxes"%string, FloatBoxes boxes);
              ("confidence"%string, FloatTensor confidence);
              ("labels"%string, IntTensor labels);
              ("num_detections"%string, IntVector counts)]
    /\ length counts = 1%nat
    /\ shaped 1 2 boxes /\ shaped 1 2 confidence /\ shaped 1 2 labels
    /\ forall i, (i < 1)%nat ->
         exists count,
           nth i counts 0%Z = Z.of_nat count
           /\ (count <= 2)%nat
           /\ (forall j, (j < count)%nat ->
                 exists k label,
                   let box :=
                     swap_corners
                       (nth k (nth i [[mkBox 0 0 1 1; mkBox 2 0 3 1]] [])
                            zero_box) in
                   let classes :=
                     nth k (nth i [[[1 # 10; 9 # 10]; [3 # 10; 2 # 10]]] []) [] in
                   (k < 2)%nat
                   /\ box_positive box = true
                   /\ exceeds (Finite (1 # 2)) (qmax_list classes)
                   /\ nth j (nth i boxes []) zero_box = swap_corners box
                   /\ nth j (nth i confidence []) 0 = qmax_list classes
                   /\ nth j (nth i labels []) 0%Z = Z.of_nat label
                   /\ (label < 2)%nat
                   /\ nth label classes 0 == qmax_list classes
                   /\ forall p, (p < label)%nat ->
                        nth p classes 0 < qmax_list classes)
           /\ (forall j, (count <= j < 2)%nat ->
                 nth j (nth i boxes []) zero_box = minus_one_box
                 /\ nth j (nth i confidence []) 0 = - (1)
                 /\ nth j (nth i labels []) 0%Z = (-1)%Z).
Proof.
  apply (@call_returns_detections xyxy_keras 512 2 2 (xyxy_layer 2)
           [[mkBox 0 0 1 1; mkBox 2 0 3 1]]
           [[[1 # 10; 9 # 10]; [3 # 10; 2 # 10]]] None
           "yxyx" None None swap_corners swap_corners).
  - reflexivity.
  - intro b. reflexivity.
  - intro b. reflexivity.
  - apply le_n.
  - simpl. lia.
  - simpl. lia.
  - simpl. lia.
  - split; [reflexivity|repeat constructor].
  - split; [reflexivity|repeat constructor].
  - repeat constructor.
  - discriminate.
  - apply le_n.
Defined.

(** [NonMaxSuppression.call], relative formats.  With a bounding-box
    format whose name contains 'rel' the call raises [ValueError] unless
    [images] is given and [ops.shape(images)] has exactly three entries:
    without images by the check of the source, and with images of any
    other rank, a batch [batch, height, width, channels] among them, when
    the shape is unpacked into [height, width, _].  Nothing else is
    evaluated before. *)
Theorem call_relative_format_needs_image_shape (K : keras)
  (fuel N C : nat) (self : NonMaxSuppression.t)
  (box_prediction : list (list Box))
  (class_prediction : list (list (list Q))) (images : option (list nat)) :
  contains "rel" (NonMaxSuppression.bounding_box_format self) = true ->
  (forall shape, images = Some shape -> length shape <> 3%nat) ->
  call K fuel N C self box_prediction class_prediction images
  = Raise (ValueError match images with
                      | None => ImagesRequired
                      | Some _ => ShapeUnpack
                      end).
Proof.
  intros Hrel Hshape. unfold call. rewrite Hrel.
  destruct images as [shape|]; [|reflexivity].
  specialize (Hshape shape eq_refl).
  destruct shape as [|h [|w [|c [|x rest]]]]; try reflexivity.
  exfalso. apply Hshape. reflexivity.
Qed.

Lemma call_relative_format_needs_image_shape_witness :
  call xyxy_keras 512 1 1
       (NonMaxSuppression.make "rel_xyxy" false (1 # 2) (Finite (1 # 2)) 1)
       [[mkBox 0 0 1 1]] [[[9 # 10]]] (Some [8; 224; 224; 3]%nat)
  = Raise (ValueError ShapeUnpack).
Proof.
  apply (@call_relative_format_needs_image_shape xyxy_keras 512 1 1
           (NonMaxSuppression.make "rel_xyxy" false (1 # 2) (Finite (1 # 2)) 1)
           [[mkBox 0 0 1 1]] [[[9 # 10]]] (Some [8; 224; 224; 3]%nat)).
  - reflexivity.
  - intros shape H. injection H as <-. discriminate.
Defined.

(** [NonMaxSuppression.call], [max_detections = 0].  A layer built with
    [max_detections = 0] never returns a result, whatever the inputs: if
    nothing fails before and [non_max_suppression] returns, the reshape of
    the gathered boxes, of which there are none, to [(-1, 0, 4)] fails. *)
Theorem call_zero_max_detections (K : keras) (fuel N C : nat)
  (self : NonMaxSuppression.t) (box_prediction : list (list Box))
  (class_prediction : list (list (list Q))) (images : option (list nat)) :
  NonMaxSuppression.max_detections self = 0%nat ->
  exists e,
    call K fuel N C self box_prediction class_prediction images = Raise e.
Proof.
  intro Hm. unfold call. rewrite Hm.
  destruct (contains "rel" (NonMaxSuppression.bounding_box_format self)
            && match images with None => true | Some _ => false end);
    [eexists; reflexivity|].
  match goal with
  | |- exists e, and_then ?c _ = _ => destruct c as [[[tf h] w]|e]
  end; [|eexists; reflexivity].
  cbn [and_then]. cbv beta iota.
  match goal with
  | |- exists e, and_then ?c _ = _ => destruct c as [bx|e]
  end; [|eexists; reflexivity].
  cbn [and_then].
  destruct (C =? 0)%nat; [eexists; reflexivity|].
  match goal with
  | |- exists e, and_then (lift ?c) _ = _ => destruct c as [[idx valid]|e]
  end; [|eexists; reflexivity].
  cbn [lift and_then]. cbv beta iota. cbn [Nat.eqb]. eexists. reflexivity.
Qed.

Lemma call_zero_max_detections_witness :
  exists e,
    call xyxy_keras 512 1 1 (xyxy_layer 0) [[mkBox 0 0 1 1]] [[[9 # 10]]] None
    = Raise e.
Proof.
  apply (@call_zero_max_detections xyxy_keras 512 1 1 (xyxy_layer 0)
           [[mkBox 0 0 1 1]] [[[9 # 10]]] None).
  reflexivity.
Defined.
